(** * eep-emu: decoder of EEPROM-emulation logs in NEC dataflash dumps

    A shallow embedding of the decoding engine of the [eep-emu] package
    (files [global.ts], [nec_emulator.ts], [v850e2.ts] and [rh850.ts]) and the
    properties of its specification that were checked against it.

    JavaScript numbers are integers here ([Z]) except the [length] field of a
    record entry, which the RH850 decoder sets to a quarter of an integer and
    which is therefore a rational ([Q]).  A Node [Buffer] is a list of bytes. *)

From Stdlib Require Import ZArith List Lia Bool QArith Qround Lqa.
From Stdlib Require Import Strings.Byte Strings.Ascii Strings.String.
From stdpp Require Import base option list gmap sorting.

Close Scope Q_scope.
Local Open Scope Z_scope.

(** ** Exceptions and the error monad *)

(** The exceptions the decoder throws, one constructor per [throw] site, plus
    the ones raised by the runtime ([Buffer.alloc], [Buffer.copy], a property
    access on [undefined]). *)
Inductive Exception : Type :=
| RangeError_geometry (blockSize len : Z)
| RangeError_read (addr len : Z)
| RangeError_not_int32 (num : Z)
| RangeError_missing_next (id : Z)
| RangeError_table_header (addr len : Z)
| RangeError_buffer
| Error_checksum (id addr : Z)
| Error_table (id len : Z)
| TypeError_undefined.

Inductive result (A : Type) : Type :=
| Ok (a : A)
| Err (e : Exception).
Arguments Ok {A} a.
Arguments Err {A} e.

#[global] Instance result_ret : MRet result := fun A a => Ok a.

#[global] Instance result_bind : MBind result := fun A B k r =>
  match r with
  | Ok a => k a
  | Err e => Err e
  end.

(** [try { ... } catch (e) { console.error(e) }] around a computation whose
    variable keeps its initial value when the body throws. *)
Definition try_or {A : Type} (r : result A) (dflt : A) : A :=
  match r with
  | Ok a => a
  | Err _ => dflt
  end.

(** A [for] loop whose counter takes the values of [l] in turn, threading the
    state [s] and stopping at the first exception. *)
Fixpoint for_each {I S : Type} (body : I -> S -> result S) (l : list I) (s : S)
  : result S :=
  match l with
  | [] => Ok s
  | i :: l' => s' ← body i s; for_each body l' s'
  end.

(** ** JavaScript 32-bit operators *)

Definition toInt32 (z : Z) : Z := (z + 2 ^ 31) mod 2 ^ 32 - 2 ^ 31.
Definition toUint32 (z : Z) : Z := z mod 2 ^ 32.

(** [a & b], [a << k], [a >> k] and [a >>> k]. *)
Definition js_and (a b : Z) : Z := Z.land (toInt32 a) (toInt32 b).
Definition js_shl (a k : Z) : Z := toInt32 (Z.shiftl (toInt32 a) k).
Definition js_sar (a k : Z) : Z := Z.shiftr (toInt32 a) k.
Definition js_shr (a k : Z) : Z := Z.shiftr (toUint32 a) k.

(** [Math.ceil (a / b)] and [Math.floor (a / b)] for a positive [b]. *)
Definition ceil_div (a b : Z) : Z := - ((- a) / b).
Definition floor_div (a b : Z) : Z := a / b.

(** ** Buffers *)

Abbreviation Buffer := (list byte).

Definition byte_val (b : byte) : Z := Z.of_N (Byte.to_N b).

(** Storing a number into a [Uint8Array] cell keeps it modulo 256. *)
Definition to_uint8 (z : Z) : byte :=
  match Byte.of_N (Z.to_N (z mod 256)) with
  | Some b => b
  | None => x00
  end.

Definition buf_length (b : Buffer) : Z := Z.of_nat (length b).

(** [buf[i]]: [None] stands for [undefined]. *)
Definition buf_get (b : Buffer) (i : Z) : option Z :=
  if i <? 0 then None else byte_val <$> b !! Z.to_nat i.

(** [buf[i]] inside [<<] or as an element of a [Uint32Array]: [undefined]
    becomes 0 in both places. *)
Definition buf_num (b : Buffer) (i : Z) : Z := default 0 (buf_get b i).

(** [Buffer.alloc (size)]: zero-filled, a negative size is refused. *)
Definition Buffer_alloc (size : Z) : result Buffer :=
  if size <? 0 then Err RangeError_buffer
  else Ok (repeat x00 (Z.to_nat size)).

(** [buf.subarray (start, end)]: negative indices count from the end and both
    are clamped to the buffer. *)
Definition clamp_index (len i : Z) : Z :=
  if i <? 0 then Z.max (len + i) 0 else Z.min i len.

Definition subarray (b : Buffer) (start end_ : Z) : Buffer :=
  let s := clamp_index (buf_length b) start in
  let e := clamp_index (buf_length b) end_ in
  take (Z.to_nat (e - s)) (drop (Z.to_nat s) b).

(** [target] with the bytes [src] written from position [pos] on. *)
Definition overwrite (target : Buffer) (pos : nat) (src : Buffer) : Buffer :=
  take pos target ++ src ++ drop (pos + length src) target.

(** [source.copy (target, targetStart, sourceStart, sourceEnd)]; the result
    is the target after the copy. *)
Definition Buffer_copy (source target : Buffer) (targetStart sourceStart sourceEnd : Z)
  : result Buffer :=
  if (targetStart <? 0) || (sourceStart <? 0) || (buf_length source <? sourceStart)
     || (sourceEnd <? 0)
  then Err RangeError_buffer
  else if (buf_length target <=? targetStart) || (sourceEnd <=? sourceStart)
  then Ok target
  else
    let nb := Z.min (Z.min (sourceEnd - sourceStart) (buf_length target - targetStart))
                    (buf_length source - sourceStart) in
    Ok (overwrite target (Z.to_nat targetStart)
          (take (Z.to_nat nb) (drop (Z.to_nat sourceStart) source))).

(** ** The primitive codec ([global.ts], repeated in [nec_emulator.ts]) *)

Definition int32ToWord (num : Z) (lEndian : bool) : result Buffer :=
  if (num <? -2147483648) || (0xffffffff <? num) then Err (RangeError_not_int32 num)
  else
    let b0 := to_uint8 (js_and num 0xff) in
    let b1 := to_uint8 (js_shr (js_and num 0xffff) 8) in
    let b2 := to_uint8 (js_shr (js_and num 0xffffff) 16) in
    let b3 := to_uint8 (js_shr num 24) in
    Ok (if lEndian then [b0; b1; b2; b3] else [b3; b2; b1; b0]).

Definition readUint32 (buf : Buffer) (addr : Z) (lEndian : bool) : result Z :=
  buf ← (if buf_length buf <? 4
         then Buffer_copy buf [x00; x00; x00; x00]
                (if lEndian then 0 else 4 - buf_length buf) 0 (buf_length buf)
         else Ok buf);
  if buf_length buf <? addr + 4 then Err (RangeError_read addr (buf_length buf))
  else
    let word := subarray buf addr (addr + 4) in
    let arr :=
      if lEndian
      then [js_shl (buf_num word 3) 24; js_shl (buf_num word 2) 16;
            js_shl (buf_num word 1) 8; buf_num word 0]
      else [js_shl (buf_num word 0) 24; js_shl (buf_num word 1) 16;
            js_shl (buf_num word 2) 8; buf_num word 3] in
    Ok (fold_left Z.add (map toUint32 arr) 0).

(** [res += buf[i]] turns [res] into [NaN] as soon as one [buf[i]] is
    [undefined]; [NaN & 0xff] is 0. *)
Definition checkSum8bit (buf : Buffer) (start end_ : Z) : Z :=
  let idx := map (fun k => start + Z.of_nat k) (seq 0 (Z.to_nat (end_ - start + 1))) in
  match mapM (buf_get buf) idx with
  | Some vals => js_and (fold_left Z.add vals 0) 0xff
  | None => 0
  end.

(** The little-endian value of four bytes, and of the four bytes of a buffer
    at an offset: what a 32-bit word of the image means. *)
Definition le_word (b0 b1 b2 b3 : Z) : Z :=
  b0 + 2 ^ 8 * b1 + 2 ^ 16 * b2 + 2 ^ 24 * b3.

Definition word_at (buf : Buffer) (addr : nat) : Z :=
  le_word (buf_num buf (Z.of_nat addr)) (buf_num buf (Z.of_nat addr + 1))
          (buf_num buf (Z.of_nat addr + 2)) (buf_num buf (Z.of_nat addr + 3)).

(** The four bytes of a 32-bit word, least significant first. *)
Definition le_bytes (w : Z) : Buffer :=
  [to_uint8 w; to_uint8 (w / 2 ^ 8); to_uint8 (w / 2 ^ 16); to_uint8 (w / 2 ^ 24)].

(** ** Data model ([nec_emulator.ts]) *)

Module EepData.
Record t : Type := mk {
  id : Z;
  widx : Z;
  widx_abs : Z;
  length : Q;
  data : list Z;
  dataBuf : Buffer;
  addr : Z;
}.
End EepData.

Module DataFlashBlock.
Record t : Type := mk {
  id : Z;
  isValid : bool;
  eraseCount : Z;
  rwp : Z;
  buf : Buffer;
}.

Definition set_rwp (b : t) (r : Z) : t :=
  mk (id b) (isValid b) (eraseCount b) r (buf b).
End DataFlashBlock.

(** The fields of a [NecEmulator] object.  [List<T>], an object with numeric
    keys, is a finite map. *)
Record NecEmulator : Type := mkNecEmulator {
  dfBuffer : Buffer;
  eepData : gmap Z EepData.t;
  blockData : gmap Z DataFlashBlock.t;
  nBlocks : Z;
  blockSize : Z;
  activeBlocks : list Z;
}.

Definition set_eepData (this : NecEmulator) (d : gmap Z EepData.t) : NecEmulator :=
  mkNecEmulator (dfBuffer this) d (blockData this) (nBlocks this) (blockSize this)
    (activeBlocks this).

Definition set_blockData (this : NecEmulator) (d : gmap Z DataFlashBlock.t) : NecEmulator :=
  mkNecEmulator (dfBuffer this) (eepData this) d (nBlocks this) (blockSize this)
    (activeBlocks this).

Definition set_activeBlocks (this : NecEmulator) (l : list Z) : NecEmulator :=
  mkNecEmulator (dfBuffer this) (eepData this) (blockData this) (nBlocks this)
    (blockSize this) l.

(** [obj[key]] followed by a property access: a [TypeError] when the key is
    absent. *)
Definition get_defined {A : Type} (o : option A) : result A :=
  match o with
  | Some a => Ok a
  | None => Err TypeError_undefined
  end.

(** The values [a, a+1, ..., b-1] of the counter of
    [for (let i = a; i < b; i++)]. *)
Definition range (a b : Z) : list Z :=
  map (fun k => a + Z.of_nat k) (seq 0 (Z.to_nat (b - a))).

(** The values of the counter of [for (let i = a; i < b; i += step)]. *)
Definition range_step (a b step : Z) : list Z :=
  map (fun k => a + step * Z.of_nat k) (seq 0 (Z.to_nat (ceil_div (b - a) step))).

(** The values of the counter of [for (let i = a; i > b; i -= step)]. *)
Definition range_down (a b step : Z) : list Z :=
  map (fun k => a - step * Z.of_nat k) (seq 0 (Z.to_nat (ceil_div (a - b) step))).

(** [x % y !== 0], where [x % 0] is [NaN]. *)
Definition js_rem_nonzero (x y : Z) : bool :=
  if y =? 0 then true else negb (Z.rem x y =? 0).

(** The constructor of [NecEmulator]. *)
Definition NecEmulator_new (dfBuf : Buffer) (blockSize : Z) : result NecEmulator :=
  if (buf_length dfBuf =? 0) || js_rem_nonzero (buf_length dfBuf) blockSize
  then Err (RangeError_geometry blockSize (buf_length dfBuf))
  else Ok (mkNecEmulator dfBuf ∅ ∅ (buf_length dfBuf / blockSize) blockSize []).

(** [Array.prototype.sort ((a, b) => a - b)]: the ascending arrangement of the
    numbers, which does not depend on the sorting algorithm of the engine. *)
Definition sort_numbers (l : list Z) : list Z := merge_sort Z.le l.

(** One round of the first loop of [getActiveBlocksOrderedList]; the state is
    the pair of [blocks] and [eraseCounts]. *)
Definition collect_block (this : NecEmulator) (i : Z)
    (st : gmap Z (list Z) * list Z) : result (gmap Z (list Z) * list Z) :=
  let '(blocks, eraseCounts) := st in
  b ← get_defined (blockData this !! i);
  if negb (DataFlashBlock.isValid b) then Ok (blocks, eraseCounts)
  else
    let ec := DataFlashBlock.eraseCount b in
    let '(blocks, eraseCounts) :=
      match blocks !! ec with
      | None => (<[ec := []]> blocks, eraseCounts ++ [ec])
      | Some _ => (blocks, eraseCounts)
      end in
    l ← get_defined (blocks !! ec);
    Ok (<[ec := l ++ [i]]> blocks, eraseCounts).

Definition getActiveBlocksOrderedList (this : NecEmulator) : result (list Z) :=
  '(blocks, eraseCounts) ← for_each (collect_block this) (range 0 (nBlocks this)) (∅, []);
  for_each (fun eraseNum finalBlockOrder =>
              l ← get_defined (blocks !! eraseNum);
              Ok (finalBlockOrder ++ sort_numbers l))
           (sort_numbers eraseCounts) [].

(** The second loop of [getBlocksData], the same in both families: each
    write pointer goes to the block it points into. *)
Definition assign_rwps (blockSize : Z) (rwps : list Z)
    (blocks : gmap Z DataFlashBlock.t) : result (gmap Z DataFlashBlock.t) :=
  for_each (fun rwpAddr blocks =>
              let rwpBlock := floor_div rwpAddr blockSize in
              b ← get_defined (blocks !! rwpBlock);
              Ok (<[rwpBlock := DataFlashBlock.set_rwp b rwpAddr]> blocks))
           rwps blocks.

(** The copy of block [i] of the image made by [getBlocksData]. *)
Definition block_window (this : NecEmulator) (i : Z) : result Buffer :=
  blockBuffer ← Buffer_alloc (blockSize this);
  Buffer_copy (dfBuffer this) blockBuffer 0 (i * blockSize this) (buf_length (dfBuffer this)).

(** ** Family A: NEC V850E2 ([v850e2.ts]) *)

Module V850e2.

Definition BLOCK_SIZE : Z := 0x1000.
Definition ACTIVE_FLAG : Z := 0x55555555.
Definition REF_END_FLAG : Z := 0xffffffff.

Definition isValidBlock (this : NecEmulator) (blockBuffer : Buffer) : result bool :=
  if negb (buf_length blockBuffer =? blockSize this) then Ok false
  else
    w ← readUint32 blockBuffer 0x10 true;
    if negb (ACTIVE_FLAG =? w) then Ok false
    else
      w ← readUint32 blockBuffer 0x18 true;
      if negb (ACTIVE_FLAG =? w) then Ok false
      else
        w ← readUint32 blockBuffer 0x20 true;
        Ok (ACTIVE_FLAG =? w).

(** One round of the first loop of [getBlocksData]; the state is the pair
    of [blocks] and [rwps]. *)
Definition scan_block (this : NecEmulator) (i : Z)
    (st : gmap Z DataFlashBlock.t * list Z) : result (gmap Z DataFlashBlock.t * list Z) :=
  let '(blocks, rwps) := st in
  blockBuffer ← block_window this i;
  valid ← isValidBlock this blockBuffer;
  ec ← readUint32 (subarray blockBuffer 0x28 0x2b) 0 true;
  let blocks := <[i := DataFlashBlock.mk i valid ec 0 blockBuffer]> blocks in
  if negb valid then Ok (blocks, rwps)
  else
    r ← readUint32 (subarray blockBuffer 0x30 0x33) 0 true;
    Ok (blocks, rwps ++ [r * 2]).

Definition getBlocksData (this : NecEmulator) : result (gmap Z DataFlashBlock.t) :=
  '(blocks, rwps) ← for_each (scan_block this) (range 0 (nBlocks this)) (∅, []);
  assign_rwps (blockSize this) rwps blocks.

(** The [do ... while (endData.length + startL < fixL)] loop of
    [getOverlapData].  [endData.length] equals [ofs] all along, so the loop
    makes [max 1 (fixL - startL)] rounds; [n] counts the rounds left after
    the current one. *)
Fixpoint overlap_loop (blockBuf : Buffer) (n : nat) (ofs : Z) (endData : list Z)
  : result (list Z) :=
  let addr := buf_length blockBuf - 8 - ofs * 8 in
  word ← readUint32 blockBuf addr true;
  let endData := endData ++ [word] in
  match n with
  | O => Ok endData
  | S n' => overlap_loop blockBuf n' (ofs + 1) endData
  end.

Definition getOverlapData (blockBuf : Buffer) (fixL startL : Z) : result (list Z) :=
  overlap_loop blockBuf (Z.to_nat (fixL - startL) - 1) 0 [].

(** The [do ... while (data.length < fixL)] loop of [readDataEntry].
    [data.length] equals [ofs] all along, so the loop makes [max 1 fixL]
    rounds unless it leaves by [break] or by an exception; [n] counts the
    rounds left after the current one. *)
Fixpoint entry_loop (this : NecEmulator) (widx id rwp : Z) (nextBlock : option Z)
    (fixL : Z) (n : nat) (ofs : Z) (data : list Z) : result (list Z) :=
  let addr := (widx - ofs) * 8 in
  if addr =? rwp then
    match nextBlock with
    | Some nb =>
        b ← get_defined (blockData this !! nb);
        finishingData ← getOverlapData (DataFlashBlock.buf b) fixL
                          (Z.of_nat (length data));
        Ok (data ++ finishingData)
    | None => Err (RangeError_missing_next id)
    end
  else
    word ← readUint32 (dfBuffer this) addr true;
    let data := data ++ [word] in
    match n with
    | O => Ok data
    | S n' => entry_loop this widx id rwp nextBlock fixL n' (ofs + 1) data
    end.

(** [data.forEach (word => { cks -= word; cks = cks >>> 0 })]. *)
Definition rolling_checksum (id : Z) (data : list Z) : Z :=
  fold_left (fun cks word => js_shr (cks - word) 0) data (0xffffffff - id).

Definition readDataEntry (this : NecEmulator) (widx id cksRef rwp : Z)
    (nextBlock : option Z) : result (list Z) :=
  let addr := widx * 8 in
  word ← readUint32 (dfBuffer this) addr true;
  let fixL := ceil_div (js_and word 0xffff) 4 in
  data ← entry_loop this widx id rwp nextBlock fixL (Z.to_nat fixL - 1) 0 [];
  if negb (rolling_checksum id data =? cksRef) then Err (Error_checksum id (widx * 8))
  else Ok data.

(** [dataBuf] as filled by the loop over [dataEntry] in [populateBlockData]. *)
Definition words_to_buffer (dataEntry : list Z) : result Buffer :=
  dataBuf ← Buffer_alloc (Z.of_nat (length dataEntry) * 4);
  for_each (fun j dataBuf =>
              w ← get_defined (dataEntry !! Z.to_nat j);
              word ← int32ToWord w true;
              Buffer_copy word dataBuf (j * 4) 0 (buf_length word))
           (range 0 (Z.of_nat (length dataEntry))) dataBuf.

(** What [populateBlockData] does with the reference slot [i] whose first
    word is [word]: the body of its [while] loop up to the assignment to
    [eepData]. *)
Definition process_slot (this : NecEmulator) (blockId block : Z) (nextBlock : option Z)
    (i word : Z) : result NecEmulator :=
  let refAddr := i * 0x10 + blockSize this * block in
  let widx := js_sar word 16 in
  let id := js_and word 0xffff in
  b ← get_defined (blockData this !! block);
  cksRef ← readUint32 (DataFlashBlock.buf b) (i * 0x10 + 0x08) true;
  let dataEntry :=
    try_or (readDataEntry this widx id cksRef (DataFlashBlock.rwp b) nextBlock) [] in
  if negb (length dataEntry =? 0)%nat then
    dataBuf ← words_to_buffer dataEntry;
    Ok (set_eepData this
          (<[id := EepData.mk id widx (widx + blockSize this * blockId)
                     (inject_Z (Z.of_nat (length dataEntry))) dataEntry dataBuf refAddr]>
             (eepData this)))
  else Ok this.

(** The end of a round of the [while] loop of [populateBlockData]: the next
    reference is read, the walk stops if its address has reached the write
    pointer of the block and goes on with [continue] otherwise. *)
Definition next_slot {R : Type} (this : NecEmulator) (block i : Z)
    (stop : R) (raise : Exception -> R) (continue : Z -> Z -> R) : R :=
  let i := i + 1 in
  match get_defined (blockData this !! block) with
  | Err e => raise e
  | Ok b =>
      match readUint32 (DataFlashBlock.buf b) (i * 0x10) true with
      | Err e => raise e
      | Ok word =>
          let addr := i * 0x10 + block * blockSize this in
          if negb (DataFlashBlock.rwp b =? 0) && (DataFlashBlock.rwp b <=? addr)
          then stop
          else continue i word
      end
  end.

(** The [while (word !== REF_END_FLAG)] loop of [populateBlockData].  Each
    round reads the next slot, 16 bytes further, and that read throws past
    the end of the block: [fuel] bounds the number of rounds, and [None] is
    the answer of a walk that was given too little of it. *)
Fixpoint slot_loop (fuel : nat) (this : NecEmulator) (blockId block : Z)
    (nextBlock : option Z) (i word : Z) : option (result NecEmulator) :=
  if word =? REF_END_FLAG then Some (Ok this)
  else
    match process_slot this blockId block nextBlock i word with
    | Err e => Some (Err e)
    | Ok this =>
        next_slot this block i (Some (Ok this)) (fun e => Some (Err e))
          (fun i word =>
             match fuel with
             | O => None
             | S fuel' => slot_loop fuel' this blockId block nextBlock i word
             end)
    end.

Definition populateBlockData (fuel : nat) (this : NecEmulator) (blockId : Z)
  : option (result NecEmulator) :=
  match
    (block ← get_defined (activeBlocks this !! Z.to_nat blockId);
     let isLastBlock :=
       bool_decide (Some block = last (activeBlocks this)) in
     let nextBlock :=
       if isLastBlock then None else activeBlocks this !! Z.to_nat (blockId + 1) in
     b ← get_defined (blockData this !! block);
     word ← readUint32 (DataFlashBlock.buf b) 0x40 true;
     Ok (block, nextBlock, word))
  with
  | Err e => Some (Err e)
  | Ok (block, nextBlock, word) => slot_loop fuel this blockId block nextBlock 4 word
  end.

(** The loop of the constructor over the active blocks. *)
Fixpoint populate_all (fuel : nat) (this : NecEmulator) (ids : list Z)
  : option (result NecEmulator) :=
  match ids with
  | [] => Some (Ok this)
  | i :: ids' =>
      match populateBlockData fuel this i with
      | Some (Ok this) => populate_all fuel this ids'
      | r => r
      end
  end.

(** The first statements of the constructor of [Emu_V850e2], up to the
    ordered list of active blocks. *)
Definition build_catalogue (dfBuf : Buffer) : result NecEmulator :=
  this ← NecEmulator_new dfBuf BLOCK_SIZE;
  blocks ← getBlocksData this;
  let this := set_blockData this blocks in
  active ← getActiveBlocksOrderedList this;
  Ok (set_activeBlocks this active).

(** The constructor of [Emu_V850e2]; [fuel] bounds the rounds of each
    reference walk. *)
Definition Emu_V850e2_new (fuel : nat) (dfBuf : Buffer) : option (result NecEmulator) :=
  match build_catalogue dfBuf with
  | Err e => Some (Err e)
  | Ok this =>
      populate_all fuel this (range 0 (Z.of_nat (length (activeBlocks this))))
  end.

End V850e2.

(** ** Family B: Renesas RH850 ([rh850.ts]) *)

Module RhTable.
Record t : Type := mk {
  blockSize : Z;
  prepBlocks_min : Z;
  pointer_rom : Z;
  pointer_ram : Z;
  entries : Z;
  eraseSuspend : Z;
}.
End RhTable.

Module RH850.

Definition BLOCK_SIZE : Z := 0x800.
Definition ACTIVE_FLAG : Z := 0x55555555.

Definition isValidBlock (buf : Buffer) : result bool :=
  w ← readUint32 buf 0x4 true;
  if negb (ACTIVE_FLAG =? w) then Ok false
  else
    w ← readUint32 buf 0x8 true;
    if negb (ACTIVE_FLAG =? w) then Ok false
    else
      w ← readUint32 buf 0xc true;
      if negb (ACTIVE_FLAG =? w) then Ok false
      else if negb (0xff =? checkSum8bit buf 0x10 0x13) then Ok false
      else Ok (0xff =? checkSum8bit buf 0x14 0x17).

Definition scan_block (this : NecEmulator) (i : Z)
    (st : gmap Z DataFlashBlock.t * list Z) : result (gmap Z DataFlashBlock.t * list Z) :=
  let '(blocks, rwps) := st in
  blockBuffer ← block_window this i;
  valid ← isValidBlock blockBuffer;
  ec ← readUint32 (subarray blockBuffer 0x10 0x13) 0 true;
  let blocks := <[i := DataFlashBlock.mk i valid ec 0 blockBuffer]> blocks in
  if negb valid then Ok (blocks, rwps)
  else
    r ← readUint32 (subarray blockBuffer 0x14 0x17) 0 true;
    Ok (blocks, rwps ++ [r]).

Definition getBlocksData (this : NecEmulator) : result (gmap Z DataFlashBlock.t) :=
  '(blocks, rwps) ← for_each (scan_block this) (range 0 (nBlocks this)) (∅, []);
  assign_rwps (blockSize this) rwps blocks.

Definition getDataTable (cfBuf : Buffer) (tableHeaderAddr : Z) : result RhTable.t :=
  if buf_length cfBuf <? tableHeaderAddr + 0x10
  then Err (RangeError_table_header tableHeaderAddr (buf_length cfBuf))
  else
    w0 ← readUint32 cfBuf tableHeaderAddr true;
    w0' ← readUint32 cfBuf tableHeaderAddr true;
    w1 ← readUint32 cfBuf (tableHeaderAddr + 0x04) true;
    w2 ← readUint32 cfBuf (tableHeaderAddr + 0x08) true;
    w3 ← readUint32 cfBuf (tableHeaderAddr + 0x0c) true;
    w3' ← readUint32 cfBuf (tableHeaderAddr + 0x0c) true;
    Ok (RhTable.mk (js_and w0 0xffff) (js_sar w0' 0x10) w1 w2
                   (js_and w3 0xffff) (js_sar w3' 0x10)).

(** One round of the loop of [populateDataInfoWTable] over the table. *)
Definition add_stub (table : Buffer) (i : Z) (eepData : gmap Z EepData.t)
  : result (gmap Z EepData.t) :=
  word ← readUint32 table i true;
  let length := js_sar word 16 in
  let id := js_and word 0xffff in
  dataBuf ← Buffer_alloc (length * 4);
  let eepData :=
    <[id := EepData.mk id 0 0 (inject_Z length / 4)%Q [] dataBuf 0]> eepData in
  if BLOCK_SIZE <? length then Err (Error_table id length)
  else Ok eepData.

(** The [table] buffer of [populateDataInfoWTable]. *)
Definition load_table (cfBuf : Buffer) (dataTable : RhTable.t) : result Buffer :=
  table ← Buffer_alloc (RhTable.entries dataTable * 4);
  Buffer_copy cfBuf table 0 (RhTable.pointer_rom dataTable)
    (RhTable.pointer_rom dataTable + RhTable.entries dataTable * 4).

Definition populateDataInfoWTable (cfBuf : Buffer) (dataTable : RhTable.t)
    (this : NecEmulator) : result NecEmulator :=
  table ← load_table cfBuf dataTable;
  eepData ← for_each (add_stub table) (range_step 0 (buf_length table) 4) (eepData this);
  Ok (set_eepData this eepData).

(** [word.copy (entry.dataBuf, j * 4)] for every word of [entry.data]. *)
Definition serialize_into (data : list Z) (dataBuf : Buffer) : result Buffer :=
  for_each (fun j dataBuf =>
              w ← get_defined (data !! Z.to_nat j);
              word ← int32ToWord w true;
              Buffer_copy word dataBuf (j * 4) 0 (buf_length word))
           (range 0 (Z.of_nat (length data))) dataBuf.

(** [readDataEntry] works on the object stored in [eepData] under the id
    it decodes and returns that same object: the result is the store after
    the call together with the key of the returned entry, [None] for
    [undefined]. *)
Definition readDataEntry (eepData : gmap Z EepData.t) (block : DataFlashBlock.t)
    (refAddr : Z) : result (gmap Z EepData.t * option Z) :=
  let refAbsAddr := refAddr + BLOCK_SIZE * DataFlashBlock.id block in
  checkW1 ← readUint32 (DataFlashBlock.buf block) (refAddr - 0x4) true;
  checkW2 ← readUint32 (DataFlashBlock.buf block) (refAddr - 0x8) true;
  checkW3 ← readUint32 (DataFlashBlock.buf block) (refAddr - 0xc) true;
  word ← readUint32 (DataFlashBlock.buf block) refAddr true;
  let widx := js_sar word 0x10 in
  let id := js_and word 0xffff in
  if negb (checkW1 =? ACTIVE_FLAG) || negb (checkW2 =? ACTIVE_FLAG)
     || negb (checkW3 =? ACTIVE_FLAG) || (BLOCK_SIZE <=? widx)
  then Ok (eepData, None)
  else
    match eepData !! id with
    | None => Ok (eepData, None)
    | Some entry =>
        if negb (Qle_bool (EepData.length entry) (inject_Z BLOCK_SIZE))
        then Ok (eepData, None)
        else
          let nWord := Qceiling (EepData.length entry) in
          data ← for_each (fun j data =>
                             w ← readUint32 (DataFlashBlock.buf block) (widx - j * 4) true;
                             Ok (data ++ [w]))
                          (range 0 nWord) (EepData.data entry);
          dataBuf ← serialize_into data (EepData.dataBuf entry);
          let entry :=
            EepData.mk (EepData.id entry) widx (widx + BLOCK_SIZE * DataFlashBlock.id block)
                       (EepData.length entry) data dataBuf refAbsAddr in
          Ok (<[id := entry]> eepData, Some id)
    end.

(** The [while (rwp < dwp)] loop of [findActiveRwp]; [rwp] grows by 16 each
    round and [dwp] never grows, [fuel] bounds the number of rounds and
    [None] is the answer when it was too small. *)
Fixpoint rwp_loop (fuel : nat) (eepData : gmap Z EepData.t) (page : DataFlashBlock.t)
    (rwp rwp_hypo : Z) (dwp : Q) : option (result (gmap Z EepData.t * Z)) :=
  if negb (Qle_bool dwp (inject_Z rwp)) then
    match readDataEntry eepData page (rwp - 4) with
    | Err e => Some (Err e)
    | Ok (eepData, dataEntry) =>
        let '(rwp_hypo, dwp) :=
          match dataEntry ≫= (fun k => eepData !! k) with
          | Some entry =>
              if Qeq_bool (inject_Z (EepData.widx entry)) dwp
              then (rwp, (dwp - EepData.length entry * 4)%Q)
              else (rwp_hypo, dwp)
          | None => (rwp_hypo, dwp)
          end in
        match fuel with
        | O => None
        | S fuel' => rwp_loop fuel' eepData page (rwp + 0x10) rwp_hypo dwp
        end
    end
  else Some (Ok (eepData, rwp_hypo)).

Definition findActiveRwp (fuel : nat) (eepData : gmap Z EepData.t)
    (page : DataFlashBlock.t) : option (result (gmap Z EepData.t * Z)) :=
  rwp_loop fuel eepData page 0x28 0x28 (inject_Z 0x7f8).

(** One round of the [for] loop of [populateBlockData]. *)
Definition visit_slot (block : DataFlashBlock.t) (i : Z) (eepData : gmap Z EepData.t)
  : result (gmap Z EepData.t) :=
  '(eepData, dataEntry) ← readDataEntry eepData block i;
  match dataEntry ≫= (fun k => eepData !! k) with
  | None => Ok eepData
  | Some entry =>
      current ← get_defined (eepData !! EepData.id entry);
      if negb (length (EepData.data current) =? 0)%nat then Ok eepData
      else Ok (<[EepData.id entry := entry]> eepData)
  end.

Definition populateBlockData (fuel : nat) (this : NecEmulator) (blockId : Z)
  : option (result NecEmulator) :=
  match
    (blockNum ← get_defined (activeBlocks this !! Z.to_nat blockId);
     block ← get_defined (blockData this !! blockNum);
     Ok (blockNum, block))
  with
  | Err e => Some (Err e)
  | Ok (blockNum, block) =>
      let recovered :=
        if DataFlashBlock.rwp block =? 0 then
          match findActiveRwp fuel (eepData this) block with
          | Some (Ok (eepData, rwp)) =>
              Some (Ok (eepData, DataFlashBlock.set_rwp block rwp))
          | Some (Err e) => Some (Err e)
          | None => None
          end
        else Some (Ok (eepData this, block)) in
      match recovered with
      | Some (Ok (eepData, block)) =>
          Some (eepData ← for_each (visit_slot block)
                            (range_down (DataFlashBlock.rwp block - 4) 0x20 0x10) eepData;
                Ok (set_eepData
                      (set_blockData this (<[blockNum := block]> (blockData this)))
                      eepData))
      | Some (Err e) => Some (Err e)
      | None => None
      end
  end.

Fixpoint populate_all (fuel : nat) (this : NecEmulator) (ids : list Z)
  : option (result NecEmulator) :=
  match ids with
  | [] => Some (Ok this)
  | i :: ids' =>
      match populateBlockData fuel this i with
      | Some (Ok this) => populate_all fuel this ids'
      | r => r
      end
  end.

(** What the constructor of [Emu_RH850] does before it looks at any block
    of the dataflash: the base constructor, the table header, the stubs. *)
Definition load_tables (dfBuf cfBuffer : Buffer) (tableHeaderAddr : Z)
  : result NecEmulator :=
  this ← NecEmulator_new dfBuf BLOCK_SIZE;
  dataTable ← getDataTable cfBuffer tableHeaderAddr;
  populateDataInfoWTable cfBuffer dataTable this.

(** The statements of the constructor of [Emu_RH850] up to the ordered list
    of active blocks. *)
Definition build_catalogue (dfBuf cfBuffer : Buffer) (tableHeaderAddr : Z)
  : result NecEmulator :=
  this ← load_tables dfBuf cfBuffer tableHeaderAddr;
  blocks ← getBlocksData this;
  let this := set_blockData this blocks in
  active ← getActiveBlocksOrderedList this;
  Ok (set_activeBlocks this active).

(** The constructor of [Emu_RH850]; [fuel] bounds the rounds of the search
    for the write pointer of a block. *)
Definition Emu_RH850_new (fuel : nat) (dfBuf cfBuffer : Buffer) (tableHeaderAddr : Z)
  : option (result NecEmulator) :=
  match build_catalogue dfBuf cfBuffer tableHeaderAddr with
  | Err e => Some (Err e)
  | Ok this =>
      populate_all fuel this (range 0 (Z.of_nat (length (activeBlocks this))))
  end.

End RH850.

(** ** Reference notions used by the properties *)

(** The 8-bit additive checksum of the four bytes of a buffer from [start]. *)
Definition byte_sum4 (buf : Buffer) (start : Z) : Z :=
  (buf_num buf start + buf_num buf (start + 1) + buf_num buf (start + 2)
   + buf_num buf (start + 3)) mod 256.

(** A block of [size] bytes whose bytes are all zero except for the given
    words, written little-endian at the given offsets. *)
Definition put_word (off : Z) (w : Z) (b : Buffer) : Buffer :=
  overwrite b (Z.to_nat off) (le_bytes w).

Definition make_buffer (size : Z) (words : list (Z * Z)) : Buffer :=
  foldr (fun '(off, w) b => put_word off w b) (repeat x00 (Z.to_nat size)) words.

(** The checksum of a record of family A: 0xFFFFFFFF minus the id minus
    every word, modulo 2^32. *)
Definition sum_words (data : list Z) : Z := foldr Z.add 0 data.

Definition record_checksum (id : Z) (data : list Z) : Z :=
  (0xffffffff - id - sum_words data) mod 2 ^ 32.

(** The words of a record of family A found in the image: [k] words, the
    one of rank [j] at byte address [(widx - j) * 8], from rank [ofs] on. *)
Definition in_block_words (df : Buffer) (widx ofs k : Z) : list Z :=
  map (fun j => word_at df (Z.to_nat ((widx - j) * 8))) (range ofs (ofs + k)).

(** The words of a record of family A found at the end of the successor
    block: [m] words, the one of rank [j] at [8 + 8 * j] bytes from the end. *)
Definition successor_words (blockBuf : Buffer) (ofs m : Z) : list Z :=
  map (fun j => word_at blockBuf (Z.to_nat (buf_length blockBuf - 8 - j * 8)))
      (range ofs (ofs + m)).

(** The length that entry [i] of the id/length table encodes: the high 16
    bits of the word of the code image at four times [i] bytes from the ROM
    pointer of the table header. *)
Definition encoded_length (cfBuf : Buffer) (dataTable : RhTable.t) (i : Z) : Z :=
  word_at cfBuf (Z.to_nat (RhTable.pointer_rom dataTable + 4 * i)) / 2 ^ 16.

(** The bytes of an entry are exactly its words, serialized. *)
Definition exact_bytes (e : EepData.t) : Prop :=
  (inject_Z (buf_length (EepData.dataBuf e)) == EepData.length e * 4)%Q /\
  EepData.dataBuf e = concat (map le_bytes (EepData.data e)).

(** Every word of an entry that fits in its bytes buffer is serialized
    there, at four times its index. *)
Definition holds_words (e : EepData.t) : Prop :=
  forall (j : nat) (w : Z),
    EepData.data e !! j = Some w ->
    (4 * j + 4 <= length (EepData.dataBuf e))%nat ->
    take 4 (drop (4 * j) (EepData.dataBuf e)) = le_bytes w.

(** The entries of a decoder all have exactly the bytes of their words. *)
Definition all_exact (this : NecEmulator) : Prop :=
  forall id e, eepData this !! id = Some e -> exact_bytes e.

(** The entries of a map all hold their words in their bytes, have a length
    that is not negative and are stored under their own id. *)
Definition all_hold (eepData : gmap Z EepData.t) : Prop :=
  forall id e,
    eepData !! id = Some e ->
    holds_words e /\ (0 <= EepData.length e)%Q /\ EepData.id e = id.

(** The buffers of the blocks of a catalogue all have the size of a block. *)
Definition block_sized (bs : Z) (blocks : gmap Z DataFlashBlock.t) : Prop :=
  forall j t, blocks !! j = Some t -> buf_length (DataFlashBlock.buf t) = bs.

(** The little-endian value of the three bytes of a buffer at an offset. *)
Definition word24_at (buf : Buffer) (addr : nat) : Z :=
  le_word (buf_num buf (Z.of_nat addr)) (buf_num buf (Z.of_nat addr + 1))
          (buf_num buf (Z.of_nat addr + 2)) 0.

(** The bytes of block [i] of an image cut into blocks of [bs] bytes. *)
Definition block_bytes (df : Buffer) (bs i : Z) : Buffer :=
  take (Z.to_nat bs) (drop (Z.to_nat (i * bs)) df).

(** What a catalogue tells about the header of its valid blocks.  The write
    pointer a valid block stores is [mul] times the three-byte value at
    [rwp_off]; it is registered against the block it points into, where the
    pointer stored by a later valid block replaces it. *)
Definition catalog_headers (df : Buffer) (bs : Z) (ec_off rwp_off : nat) (mul : Z)
    (blocks : gmap Z DataFlashBlock.t) : Prop :=
  let ptr b := mul * word24_at (DataFlashBlock.buf b) rwp_off in
  forall i b,
    blocks !! i = Some b -> DataFlashBlock.isValid b = true ->
    DataFlashBlock.buf b = block_bytes df bs i /\
    DataFlashBlock.eraseCount b = word24_at (DataFlashBlock.buf b) ec_off /\
    exists t k bk,
      blocks !! (ptr b / bs) = Some t /\
      i <= k /\ blocks !! k = Some bk /\ DataFlashBlock.isValid bk = true /\
      ptr bk / bs = ptr b / bs /\
      DataFlashBlock.rwp t = ptr bk /\
      forall k' bk',
        k < k' -> blocks !! k' = Some bk' -> DataFlashBlock.isValid bk' = true ->
        ptr bk' / bs <> ptr b / bs.

(** The write pointer that ends up registered against block [j] when the
    pointers [p k], for [k] in [L], are handed out in turn. *)
Definition registered (bs : Z) (p : Z -> Z) (L : list Z) (j : Z) (t : DataFlashBlock.t)
  : DataFlashBlock.t :=
  DataFlashBlock.set_rwp t
    (match last (filter (fun k => p k / bs = j) L) with
     | Some k => p k
     | None => DataFlashBlock.rwp t
     end).

(** Validity and erase counter of the block of index [i] of the catalogue. *)
Definition valid_at (this : NecEmulator) (i : Z) : bool :=
  default false (DataFlashBlock.isValid <$> blockData this !! i).

Definition eraseCount_at (this : NecEmulator) (i : Z) : Z :=
  default 0 (DataFlashBlock.eraseCount <$> blockData this !! i).

(** Block [i] comes before block [j] in erase order: a lower erase counter,
    or the same erase counter and a lower index. *)
Definition erase_order (this : NecEmulator) (i j : Z) : Prop :=
  eraseCount_at this i < eraseCount_at this j \/
  (eraseCount_at this i = eraseCount_at this j /\ i < j).

(** ** Sample images *)

Module Samples.

(** The header of a valid family A block at offset [base] of the image,
    with the given words at 0x28 (erase counter) and 0x30 (write pointer). *)
Definition headerA (base ec rwp : Z) : list (Z * Z) :=
  [(base + 0x10, 0x55555555); (base + 0x18, 0x55555555); (base + 0x20, 0x55555555);
   (base + 0x28, ec); (base + 0x30, rwp)].

(** One family A block.  Its own header registers the write pointer 0x800
    against it.  Three reference slots: id 5 with a right checksum, id 5
    again with a wrong one, id 6 with a right one. *)
Definition imageA_checksum : Buffer :=
  make_buffer 0x1000
    (headerA 0 0x01000003 0x01000400 ++
     [(0x40, 0x01ff0005); (0x48, 0xfffffff6); (0xff8, 0x00000004);
      (0x50, 0x01fe0005); (0x58, 0x00000000); (0xff0, 0x00000004);
      (0x60, 0x01fd0006); (0x68, 0xeeddccad); (0xfe8, 0x00000008); (0xfe0, 0x11223344);
      (0x70, 0xffffffff)]).

(** One family A block with write pointer 0x800.  Two reference slots for
    id 5: the first resolves, the second points at the write pointer itself,
    so that its record would continue in a successor block. *)
Definition imageA_gap : Buffer :=
  make_buffer 0x1000
    (headerA 0 0x00000003 0x00000400 ++
     [(0x40, 0x01ff0005); (0x48, 0xfffffff6); (0xff8, 0x00000004);
      (0x50, 0x01000005); (0x58, 0x00000000);
      (0x60, 0x01fd0006); (0x68, 0xeeddccad); (0xfe8, 0x00000008); (0xfe0, 0x11223344);
      (0x70, 0xffffffff)]).

(** Two family A blocks, erase counters 1 and 2.  The header of block 1
    registers the write pointer 0x800 against block 0.  The record of id 7,
    three words long, has one word at 0x808 in block 0 and goes on at the
    end of block 1. *)
Definition imageA_overlap : Buffer :=
  make_buffer 0x2000
    (headerA 0 0x00000001 0x00000000 ++
     [(0x40, 0x01010007); (0x48, 0x999affe9); (0x808, 0x0000000c); (0x50, 0xffffffff)] ++
     headerA 0x1000 0x00000002 0x00000400 ++
     [(0x1040, 0xffffffff); (0x1ff8, 0xaaaa0001); (0x1ff0, 0xbbbb0002)]).

(** The header of a valid family B block: the two counters carry their
    checksum in their fourth byte. *)
Definition headerB (ec rwp : Z) : list (Z * Z) :=
  [(0x04, 0x55555555); (0x08, 0x55555555); (0x0c, 0x55555555);
   (0x10, ec); (0x14, rwp)].

(** A descriptor slot of family B whose reference word is at [ref]. *)
Definition slotB (ref word : Z) : list (Z * Z) :=
  [(ref - 0xc, 0x55555555); (ref - 0x8, 0x55555555); (ref - 0x4, 0x55555555);
   (ref, word)].

(** Eight data words [tag + 1 .. tag + 8] of family B, the first at [widx]
    and the following ones below it. *)
Definition wordsB (widx tag : Z) : list (Z * Z) :=
  map (fun j => (widx - 4 * j, tag + j + 1)) (range 0 8).

(** One family B block, write pointer 0x38, with two descriptor slots for
    id 0x10: the newer one, at 0x34, refers to the words 0x0B000001.., the
    older one, at 0x24, to the words 0x0A000001... *)
Definition imageB_duplicate : Buffer :=
  make_buffer 0x800
    (headerB 0xfe000001 0xc7000038 ++
     slotB 0x24 0x07f80010 ++ wordsB 0x7f8 0x0a000000 ++
     slotB 0x34 0x07d80010 ++ wordsB 0x7d8 0x0b000000).

(** One family B block, write pointer 0x38, with one descriptor slot, for
    id 0x10, at 0x34. *)
Definition imageB_single : Buffer :=
  make_buffer 0x800
    (headerB 0xfe000001 0xc7000038 ++
     slotB 0x34 0x07d80010 ++ wordsB 0x7d8 0x0b000000).

(** One family B block, write pointer 0x28, without any descriptor slot. *)
Definition imageB_empty : Buffer :=
  make_buffer 0x800 (headerB 0xfe000001 0xd7000028).

(** A code image: the table header at address 0, and at 0x10 a table of one
    entry, id 0x10 with the given byte length. *)
Definition codeflash (len : Z) : Buffer :=
  make_buffer 0x14
    [(0x00, 0x00020800); (0x04, 0x00000010); (0x08, 0x00000000); (0x0c, 0x00000001);
     (0x10, len * 0x10000 + 0x10)].

(** A catalogue of four blocks: block 1 is not valid, blocks 0 and 3 have
    erase counter 7 and block 2 has erase counter 3. *)
Definition catalogue4 : NecEmulator :=
  mkNecEmulator [] ∅
    (<[0 := DataFlashBlock.mk 0 true 7 0 []]>
       (<[1 := DataFlashBlock.mk 1 false 1 0 []]>
          (<[2 := DataFlashBlock.mk 2 true 3 0 []]>
             (<[3 := DataFlashBlock.mk 3 true 7 0 []]> ∅))))
    4 0x1000 [].

(** The object that the constructor of [NecEmulator] leaves for an image
    of the right geometry. *)
Definition emulator (dfBuf : Buffer) (blockSize : Z) : NecEmulator :=
  mkNecEmulator dfBuf ∅ ∅ (buf_length dfBuf / blockSize) blockSize [].

(** Whether a construction succeeded and its result map has an entry for
    [id]. *)
Definition decodes (r : option (result NecEmulator)) (id : Z) : bool :=
  match r with
  | Some (Ok this) => bool_decide (is_Some (eepData this !! id))
  | _ => false
  end.

(** The family A decoder for an image, just before it walks the blocks. *)
Definition scannedA (dfBuf : Buffer) : NecEmulator :=
  try_or (V850e2.build_catalogue dfBuf) (emulator dfBuf 0x1000).

(** Block [i] of the catalogue of a decoder. *)
Definition block_of (this : NecEmulator) (i : Z) : DataFlashBlock.t :=
  default (DataFlashBlock.mk 0 false 0 0 []) (blockData this !! i).

End Samples.

(** ** Notions used to state further properties *)

(** The number that a buffer spells in little-endian and in big-endian
    order, and the sum of its bytes. *)
Definition le_value (bs : Buffer) : Z := foldr (fun b acc => byte_val b + 256 * acc) 0 bs.
Definition be_value (bs : Buffer) : Z := fold_left (fun acc b => 256 * acc + byte_val b) bs 0.
Definition byte_sum (bs : Buffer) : Z := foldr (fun b acc => byte_val b + acc) 0 bs.

(** The indices of the valid blocks of an image of [n] blocks of [bs] bytes,
    in ascending order, for a validity test on block windows. *)
Definition valid_blocks (valid : Buffer -> bool) (df : Buffer) (bs n : Z) : list Z :=
  filter (fun i => valid (block_bytes df bs i) = true) (range 0 n).

(** The write pointer that block [j] ends up with when the blocks of [L]
    hand out their pointers [ptr k] in turn: the last one that falls into
    block [j], 0 when none does. *)
Definition registered_rwp (ptr : Z -> Z) (bs : Z) (L : list Z) (j : Z) : Z :=
  match last (filter (fun k => ptr k / bs = j) L) with
  | Some k => ptr k
  | None => 0
  end.

(** The write pointer that block [i] of an image stores in its header:
    [mul] times the three-byte value at [rwp_off]. *)
Definition stored_rwp (df : Buffer) (bs : Z) (rwp_off : nat) (mul : Z) (i : Z) : Z :=
  mul * word24_at (block_bytes df bs i) rwp_off.

(** A catalogue describes an image completely: one entry per block and no
    other, each with the index of the block, the verdict of the validity
    test, the three-byte counter at [ec_off], the bytes of the block, and the
    write pointer registered against the block. *)
Definition catalogue_of (df : Buffer) (bs n : Z) (valid : Buffer -> bool)
    (ec_off rwp_off : nat) (mul : Z) (blocks : gmap Z DataFlashBlock.t) : Prop :=
  let ptr := stored_rwp df bs rwp_off mul in
  forall j,
    blocks !! j =
      if bool_decide (0 <= j < n) then
        Some (DataFlashBlock.mk j (valid (block_bytes df bs j))
                (word24_at (block_bytes df bs j) ec_off)
                (registered_rwp ptr bs (valid_blocks valid df bs n) j)
                (block_bytes df bs j))
      else None.

(** Every write pointer of a catalogue is 0 or lies in the block it is
    registered against. *)
Definition rwp_in_own_block (bs : Z) (blocks : gmap Z DataFlashBlock.t) : Prop :=
  forall j t,
    blocks !! j = Some t -> DataFlashBlock.rwp t = 0 \/ DataFlashBlock.rwp t / bs = j.

(** The validity test of each family as a function of the block window;
    [isValidBlock] does not throw on a window of the size of a block. *)
Definition validA (this : NecEmulator) (w : Buffer) : bool :=
  try_or (V850e2.isValidBlock this w) false.

Definition validB (w : Buffer) : bool := try_or (RH850.isValidBlock w) false.

(** A word of 32 bits. *)
Definition uint32 (w : Z) : Prop := 0 <= w <= 0xffffffff.

(** An entry of family A is backed by a reference slot of the image: its
    address is that of a slot of the reference area of a block, the slot
    holds the id and the index of the entry and is not the end marker, and
    the checksum word of the slot is the checksum of the words of the
    entry. *)
Definition slot_backed (df : Buffer) (id : Z) (e : EepData.t) : Prop :=
  let word := word_at df (Z.to_nat (EepData.addr e)) in
  EepData.id e = id /\ 0 <= id <= 0xffff /\
  EepData.data e <> [] /\ Forall uint32 (EepData.data e) /\
  EepData.length e = inject_Z (Z.of_nat (length (EepData.data e))) /\
  0 <= EepData.addr e /\ EepData.addr e + 12 <= buf_length df /\
  EepData.addr e mod 0x10 = 0 /\ 0x40 <= EepData.addr e mod 0x1000 /\
  word <> V850e2.REF_END_FLAG /\
  js_and word 0xffff = id /\ js_sar word 16 = EepData.widx e /\
  record_checksum id (EepData.data e) = word_at df (Z.to_nat (EepData.addr e + 8)).

(** A decoder whose catalogue describes its image: blocks of [bs] bytes
    that cover the image, each entry of the catalogue holding the bytes of
    its block, and every active block in the catalogue. *)
Definition catalogued (bs : Z) (this : NecEmulator) : Prop :=
  blockSize this = bs /\
  buf_length (dfBuffer this) = nBlocks this * bs /\
  (forall j t, blockData this !! j = Some t ->
     0 <= j < nBlocks this /\
     DataFlashBlock.buf t = block_bytes (dfBuffer this) bs j) /\
  (forall block, block ∈ activeBlocks this -> is_Some (blockData this !! block)).

(** Two decoders that differ by their entries only. *)
Definition same_catalogue (this this' : NecEmulator) : Prop :=
  dfBuffer this' = dfBuffer this /\ blockData this' = blockData this /\
  nBlocks this' = nBlocks this /\ blockSize this' = blockSize this /\
  activeBlocks this' = activeBlocks this.

(** The words that a descriptor of family B refers to: [n] words of the
    block, the first at [widx] and each following one four bytes lower. *)
Definition descriptor_words (buf : Buffer) (widx n : Z) : list Z :=
  map (fun j => word_at buf (Z.to_nat (widx - j * 4))) (range 0 n).

(** The entry prepared for a row of the id/length table. *)
Definition stub (id len : Z) : EepData.t :=
  EepData.mk id 0 0 (inject_Z len / 4)%Q [] (repeat x00 (Z.to_nat (len * 4))) 0.

(** What the scan of the blocks may do to an entry of family B: it keeps
    the id, the length and the size of the bytes buffer, and it appends
    words, as many as the entry is long each time a descriptor is read. *)
Definition entry_grown (e0 e : EepData.t) : Prop :=
  EepData.id e = EepData.id e0 /\ EepData.length e = EepData.length e0 /\
  length (EepData.dataBuf e) = length (EepData.dataBuf e0) /\
  exists (more : list Z) (k : nat),
    EepData.data e = EepData.data e0 ++ more /\ Forall uint32 more /\
    length more = (k * Z.to_nat (Qceiling (EepData.length e0)))%nat.

Definition map_grown (m0 m : gmap Z EepData.t) : Prop :=
  forall id,
    match m0 !! id, m !! id with
    | Some e0, Some e => entry_grown e0 e
    | None, None => True
    | _, _ => False
    end.

(** The rows of an id/length table: the id in the low half of each word,
    the length, a signed number, in the high half. *)
Definition table_rows (table : Buffer) : list (Z * Z) :=
  map (fun r => let w := word_at table (Z.to_nat (4 * r)) in (js_and w 0xffff, js_sar w 16))
      (range 0 (buf_length table / 4)).

(** The entries after the stubs of the given rows were stored in turn:
    for each id the stub of its last row. *)
Definition with_stubs (rows : list (Z * Z)) (m : gmap Z EepData.t) (id : Z)
  : option EepData.t :=
  match last (filter (fun row => row.1 = id) rows) with
  | Some row => Some (stub id row.2)
  | None => m !! id
  end.

(** The id/length table that a table header points at in a code image: the
    bytes of the image from the ROM pointer on, four for each entry, the
    bytes after the end of the image being zero. *)
Definition rom_table (cfBuf : Buffer) (t : RhTable.t) : Buffer :=
  let n := Z.to_nat (RhTable.entries t * 4) in
  take n (drop (Z.to_nat (RhTable.pointer_rom t)) cfBuf ++ repeat x00 n).

(** The entries of a map that have no word have a bytes buffer of zeros. *)
Definition blank_if_empty (eepData : gmap Z EepData.t) : Prop :=
  forall id e,
    eepData !! id = Some e -> EepData.data e = [] -> Forall (eq x00) (EepData.dataBuf e).

(** More sample images. *)
Module Images.

(** One valid family A block whose header stores the write pointer 0x1000,
    the first address after the image. *)
Definition imageA_outside : Buffer :=
  make_buffer 0x1000 (Samples.headerA 0 0x00000001 0x00000800).

(** One valid family B block whose header stores the write pointer 0x800,
    the first address after the image. *)
Definition imageB_outside : Buffer :=
  make_buffer 0x800 (Samples.headerB 0xfe000001 0xf7000800).

(** One valid family A block that registers no write pointer against
    itself and whose reference area holds no end marker: every word from
    0x40 on is zero. *)
Definition imageA_unterminated : Buffer :=
  make_buffer 0x1000 (Samples.headerA 0 0x00000001 0x00000000).

(** Images of one block without any byte set: no block of them is valid. *)
Definition imageA_blank : Buffer := make_buffer 0x1000 [].
Definition imageB_blank : Buffer := make_buffer 0x800 [].

(** The family B decoder for an image and a code image, once the table of
    the code image is loaded. *)
Definition loadedB (dfBuf cfBuffer : Buffer) : NecEmulator :=
  try_or (RH850.load_tables dfBuf cfBuffer 0) (Samples.emulator dfBuf 0x800).

(** What [findActiveRwp] leaves of a map of entries, and the address it
    returns, 0 when it throws. *)
Definition scanned_rwp (m : gmap Z EepData.t) (page : DataFlashBlock.t)
  : gmap Z EepData.t * Z :=
  match RH850.findActiveRwp 256 m page with
  | Some (Ok r) => r
  | _ => (m, 0)
  end.

End Images.

(** ** Logging ([nec_emulator.ts], [global.ts]) *)

(** A JavaScript string, as the list of its characters; the strings of the
    logging methods hold characters below 128 only. *)
Abbreviation JsString := (list ascii).

Definition str (s : String.string) : JsString := list_ascii_of_string s.

Definition newline : ascii := ascii_of_nat 10.

(** [s.padStart (n, c)] and [s.padEnd (n, c)]. *)
Definition padStart (s : JsString) (n : Z) (c : ascii) : JsString :=
  repeat c (Z.to_nat (n - Z.of_nat (length s))) ++ s.

Definition padEnd (s : JsString) (n : Z) (c : ascii) : JsString :=
  s ++ repeat c (Z.to_nat (n - Z.of_nat (length s))).

(** [s.toUpperCase ()]: among the characters below 128 only the letters
    [a] to [z] change. *)
Definition upper_char (c : ascii) : ascii :=
  let n := nat_of_ascii c in
  if (97 <=? n)%nat && (n <=? 122)%nat then ascii_of_nat (n - 32) else c.

Definition toUpperCase (s : JsString) : JsString := map upper_char s.

(** [String.fromCharCode (n)] for a code below 128. *)
Definition String_fromCharCode (n : Z) : ascii := ascii_of_nat (Z.to_nat n).

(** [n.toString (16)] for an integer [n]: the digits of its absolute value,
    most significant first, after a minus sign if it is negative.  [fuel]
    bounds the number of digits after the first. *)
Definition digit16 (d : Z) : ascii := nth (Z.to_nat d) (str "0123456789abcdef") "0"%char.

Fixpoint digits16 (fuel : nat) (n : Z) (acc : JsString) : JsString :=
  let acc := digit16 (n mod 16) :: acc in
  match fuel with
  | O => acc
  | S fuel' => if n / 16 =? 0 then acc else digits16 fuel' (n / 16) acc
  end.

Definition Number_toString16 (n : Z) : JsString :=
  if n <? 0 then "-"%char :: digits16 (Z.to_nat (Z.log2 (- n))) (- n) []
  else digits16 (Z.to_nat (Z.log2 n)) n [].

Definition toHexString (num pad : Z) (w0x : bool) : JsString :=
  (if w0x then str "0x" else []) ++ toUpperCase (padStart (Number_toString16 num) pad "0"%char).

(** What the logging methods throw: their own [RangeError], an exception
    of the runtime, or what [fs.writeFileSync] throws for a file it cannot
    write. *)
Inductive Thrown : Type :=
| RangeError_row
| Runtime (e : Exception)
| Error_writeFile (fileName : JsString).

Inductive completion (A : Type) : Type :=
| Returns (a : A)
| Throws (t : Thrown).
Arguments Returns {A} a.
Arguments Throws {A} t.

(** The world the logging methods act on: the lines written to the console
    and the files written, oldest first, and the file names that the file
    system lets [fs.writeFileSync] write; for any other name (a missing
    directory, a path without write permission, a name with a NUL
    character) [fs.writeFileSync] throws. *)
Record World : Type := mkWorld {
  console : list JsString;
  files : list (JsString * JsString);
  writable : JsString -> bool;
}.

(** A computation that may write to the console or to a file and may
    throw; what it wrote before it threw stays written. *)
Definition Log (A : Type) : Type := World -> World * completion A.

#[global] Instance Log_ret : MRet Log := fun A a w => (w, Returns a).

#[global] Instance Log_bind : MBind Log := fun A B k m w =>
  match m w with
  | (w', Returns a) => k a w'
  | (w', Throws t) => (w', Throws t)
  end.

Definition throw {A : Type} (t : Thrown) : Log A := fun w => (w, Throws t).

Definition run {A : Type} (r : result A) : Log A := fun w =>
  (w, match r with Ok a => Returns a | Err e => Throws (Runtime e) end).

Definition console_log (line : JsString) : Log unit := fun w =>
  (mkWorld (console w ++ [line]) (files w) (writable w), Returns tt).

(** [fs.writeFileSync (fileName, data)]: the file is written, or the call
    throws and writes nothing. *)
Definition writeFileSync (fileName data : JsString) : Log unit := fun w =>
  if writable w fileName
  then (mkWorld (console w) (files w ++ [(fileName, data)]) (writable w), Returns tt)
  else (w, Throws (Error_writeFile fileName)).

Fixpoint for_each_log {I S : Type} (body : I -> S -> Log S) (l : list I) (s : S) : Log S :=
  match l with
  | [] => mret s
  | i :: l' => s' ← body i s; for_each_log body l' s'
  end.

(** [bytePart] of [rowStr] and [logByteRow]: sixteen cells of three
    characters, two hexadecimal digits or two spaces, then a space. *)
Definition byte_cells (buf : Buffer) : JsString :=
  fold_left (fun bytePart i =>
               (bytePart ++ match buf_get buf i with
                            | None => str "  "
                            | Some b => toHexString b 2 false
                            end) ++ str " ")
            (range 0 0x10) [].

(** [asciiPart] before it is padded: one character per byte. *)
Definition ascii_cells (buf : Buffer) : JsString :=
  fold_left (fun asciiPart byte =>
               asciiPart ++ (if (byte <? 32) || (127 <? byte) then str "."
                             else [String_fromCharCode byte]))
            (map byte_val buf) [].

Definition rowStr (buf : Buffer) (decrBuf : option Buffer) : Log JsString :=
  if 0x10 <? buf_length buf then throw RangeError_row
  else
    let bytePart := byte_cells buf in
    let asciiPart := padEnd (ascii_cells buf) 16 " "%char in
    match decrBuf with
    | None => mret (bytePart ++ str "       " ++ asciiPart ++ [newline])
    | Some decrBuf =>
        let decrBytePart := byte_cells decrBuf in
        let decrAsciiPart := padEnd (ascii_cells decrBuf) 16 " "%char in
        mret (bytePart ++ str "       " ++ asciiPart ++ str "        " ++
              decrBytePart ++ str "       " ++ decrAsciiPart ++ [newline])
    end.

Definition logByteRow (buf : Buffer) : Log unit :=
  if 0x10 <? buf_length buf then throw RangeError_row
  else console_log (byte_cells buf ++ str "       " ++ ascii_cells buf).

(** [buf.fill (0)]. *)
Definition fill0 (buf : Buffer) : Buffer := repeat x00 (length buf).

(** The start of a round of the loops of [eepIdToStr] and [logEepId]:
    [tmpBuf] is cleared, replaced by a shorter buffer for a last row that is
    not full, and receives the bytes of the row. *)
Definition next_row (dataBuf : Buffer) (times i : Z) (tmpBuf : Buffer) : Log Buffer :=
  let tmpBuf := fill0 tmpBuf in
  tmpBuf ← (if negb (Z.rem (buf_length dataBuf) 0x10 =? 0) && (i =? times - 1)
            then run (Buffer_alloc (Z.rem (buf_length dataBuf) 0x10))
            else mret tmpBuf);
  run (Buffer_copy dataBuf tmpBuf 0 (i * 0x10) (buf_length dataBuf)).

Definition eepIdToStr (eepId : EepData.t) : Log JsString :=
  let s := str "################## ID " ++ toHexString (EepData.id eepId) 3 true ++
           str " ###################" ++ [newline] in
  let times := ceil_div (buf_length (EepData.dataBuf eepId)) 16 in
  tmpBuf ← run (Buffer_alloc 0x10);
  tmpDecrBuf ← run (Buffer_alloc 0x10);
  '(_, s) ← for_each_log (fun i '(tmpBuf, s) =>
                            tmpBuf ← next_row (EepData.dataBuf eepId) times i tmpBuf;
                            row ← rowStr tmpBuf None;
                            mret (tmpBuf, s ++ row))
                         (range 0 times) (tmpBuf, s);
  mret (s ++ str "###############################################" ++ [newline; newline]).

Definition logEepId (eepId : EepData.t) : Log unit :=
  _ ← console_log (str "################## ID " ++ toHexString (EepData.id eepId) 2 true ++
                   str " ####################");
  let times := ceil_div (buf_length (EepData.dataBuf eepId)) 16 in
  tmpBuf ← run (Buffer_alloc 0x10);
  _ ← for_each_log (fun i tmpBuf =>
                      tmpBuf ← next_row (EepData.dataBuf eepId) times i tmpBuf;
                      _ ← logByteRow tmpBuf;
                      mret tmpBuf)
                   (range 0 times) tmpBuf;
  _ ← console_log (str "###############################################");
  console_log [].

(** The keys of the entries in the order of [for (let key in ...)]: the
    ids are integers from 0 to 0xffff, which the loop visits in ascending
    order. *)
Definition keys_in_order (m : gmap Z EepData.t) : list Z :=
  merge_sort Z.le (map fst (map_to_list m)).

(** A file name that is neither [undefined] nor the empty string. *)
Definition truthy (fileName : option JsString) : bool :=
  match fileName with
  | Some (_ :: _) => true
  | _ => false
  end.

Definition logEeprom (this : NecEmulator) (fileName : option JsString) : Log unit :=
  finalStr ← for_each_log (fun key finalStr =>
                             eepId ← run (get_defined (eepData this !! key));
                             if truthy fileName then
                               s ← eepIdToStr eepId; mret (finalStr ++ s)
                             else
                               _ ← logEepId eepId; mret finalStr)
                          (keys_in_order (eepData this)) [];
  if truthy fileName then writeFileSync (default [] fileName) finalStr else mret tt.

(** The value of a hexadecimal digit, [0] to [9] or [A] to [F], and of a
    string of such digits. *)
Definition hex_digit_value (c : ascii) : option Z :=
  let n := Z.of_nat (nat_of_ascii c) in
  if (48 <=? n) && (n <=? 57) then Some (n - 48)
  else if (65 <=? n) && (n <=? 70) then Some (n - 55)
  else None.

Definition hex_value (s : JsString) : option Z :=
  fold_left (fun acc c => a ← acc; d ← hex_digit_value c; Some (16 * a + d)) s (Some 0).

(** A cell of [bytePart]. *)
Definition cell (buf : Buffer) (i : Z) : JsString :=
  match buf_get buf i with
  | None => str "  "
  | Some b => toHexString b 2 false
  end ++ str " ".

(** The text of a row of the file log for the bytes of the row, and the
    line of the console log. *)
Definition row_text (chunk : Buffer) : JsString :=
  byte_cells chunk ++ str "       " ++ padEnd (ascii_cells chunk) 16 " "%char ++ [newline].

Definition row_line (chunk : Buffer) : JsString :=
  byte_cells chunk ++ str "       " ++ ascii_cells chunk.

(** The rows of a bytes buffer: sixteen bytes each, the last one what is
    left. *)
Definition rows_of (dataBuf : Buffer) : list Buffer :=
  map (fun i => take 16 (drop (Z.to_nat (i * 0x10)) dataBuf))
      (range 0 (ceil_div (buf_length dataBuf) 16)).

(** What [eepIdToStr] returns for an entry, and the lines [logEepId] writes
    for it, in terms of the rows of its bytes. *)
Definition entry_text (e : EepData.t) : JsString :=
  (str "################## ID " ++ toHexString (EepData.id e) 3 true ++
   str " ###################" ++ [newline]) ++
  concat (map row_text (rows_of (EepData.dataBuf e))) ++
  str "###############################################" ++ [newline; newline].

Definition entry_lines (e : EepData.t) : list JsString :=
  [str "################## ID " ++ toHexString (EepData.id e) 2 true ++
   str " ####################"] ++
  map row_line (rows_of (EepData.dataBuf e)) ++
  [str "###############################################"; []].

(** The entries in the order in which [logEeprom] visits them. *)
Definition entries_in_order (m : gmap Z EepData.t) : list EepData.t :=
  omap (fun key => m !! key) (keys_in_order m).

(** * Verified properties *)

(** ** Facts about bytes and the 32-bit operators *)

(** Boolean comparisons of integers brought to [Prop], for [lia]. *)
Ltac zbool :=
  repeat match goal with
    | H : (_ <? _) = true |- _ => apply Z.ltb_lt in H
    | H : (_ <? _) = false |- _ => apply Z.ltb_ge in H
    | H : (_ <=? _) = true |- _ => apply Z.leb_le in H
    | H : (_ <=? _) = false |- _ => apply Z.leb_gt in H
    | H : (_ =? _) = true |- _ => apply Z.eqb_eq in H
    | H : (_ =? _) = false |- _ => apply Z.eqb_neq in H
    | |- (_ <? _) = true => apply Z.ltb_lt
    | |- (_ <? _) = false => apply Z.ltb_ge
    | |- (_ <=? _) = true => apply Z.leb_le
    | |- (_ <=? _) = false => apply Z.leb_gt
    | |- (_ =? _) = true => apply Z.eqb_eq
    | |- (_ =? _) = false => apply Z.eqb_neq
    end.

Lemma bind_Ok {A B : Type} (a : A) (k : A -> result B) : (Ok a ≫= k) = k a.
Proof. reflexivity. Qed.

Lemma bind_Err {A B : Type} (e : Exception) (k : A -> result B) : (Err e ≫= k) = Err e.
Proof. reflexivity. Qed.

Lemma bind_Ok_inv {A B : Type} (r : result A) (k : A -> result B) (b : B) :
  (r ≫= k) = Ok b -> exists a, r = Ok a /\ k a = Ok b.
Proof. destruct r as [a|e]; [eauto | discriminate]. Qed.

(** Running a computation whose first steps are known. *)
Ltac bind_step := repeat (rewrite ?bind_Ok, ?bind_Err; cbv beta).

Lemma byte_val_range (b : byte) : 0 <= byte_val b < 256.
Proof.
  unfold byte_val. pose proof (Byte.to_N_bounded b). lia.
Qed.

Lemma byte_val_to_uint8 (z : Z) : byte_val (to_uint8 z) = z mod 256.
Proof.
  unfold byte_val, to_uint8.
  pose proof (Z.mod_pos_bound z 256 eq_refl) as Hr.
  destruct (Byte.of_N (Z.to_N (z mod 256))) as [b|] eqn:E.
  - apply Byte.to_of_N in E. rewrite E. lia.
  - apply Byte.of_N_None_iff in E. lia.
Qed.

Lemma toInt32_small (z : Z) : - 2 ^ 31 <= z < 2 ^ 31 -> toInt32 z = z.
Proof. intros H. unfold toInt32. rewrite Z.mod_small; lia. Qed.

Lemma toUint32_small (z : Z) : 0 <= z < 2 ^ 32 -> toUint32 z = z.
Proof. intros H. unfold toUint32. now rewrite Z.mod_small. Qed.

Lemma toUint32_toInt32 (z : Z) : toUint32 (toInt32 z) = toUint32 z.
Proof.
  unfold toUint32, toInt32.
  rewrite Zminus_mod, Zmod_mod, <- Zminus_mod.
  replace (z + 2 ^ 31 - 2 ^ 31) with z by lia. reflexivity.
Qed.

Lemma toUint32_js_shl_byte (b k : Z) :
  0 <= b < 256 -> 0 <= k <= 24 -> toUint32 (js_shl b k) = b * 2 ^ k.
Proof.
  intros Hb Hk. unfold js_shl. rewrite toUint32_toInt32.
  rewrite (toInt32_small b) by lia.
  rewrite Z.shiftl_mul_pow2 by lia.
  apply toUint32_small.
  assert (0 < 2 ^ k) by (apply Z.pow_pos_nonneg; lia).
  assert (2 ^ k <= 2 ^ 24) by (apply Z.pow_le_mono_r; lia).
  nia.
Qed.

Lemma buf_get_range (b : Buffer) (i v : Z) : buf_get b i = Some v -> 0 <= v < 256.
Proof.
  unfold buf_get. destruct (i <? 0); [discriminate|].
  destruct (b !! Z.to_nat i) as [x|]; simpl; [|discriminate].
  intros [= <-]. apply byte_val_range.
Qed.

Lemma buf_num_range (b : Buffer) (i : Z) : 0 <= buf_num b i < 256.
Proof.
  unfold buf_num. destruct (buf_get b i) as [v|] eqn:E; simpl; [|lia].
  eapply buf_get_range; eauto.
Qed.

(** Reading inside a window taken out of a buffer is reading the buffer. *)
Lemma buf_num_take_drop (b : Buffer) (a n : nat) (i : Z) :
  0 <= i < Z.of_nat n ->
  buf_num (take n (drop a b)) i = buf_num b (Z.of_nat a + i).
Proof.
  intros Hi. unfold buf_num, buf_get.
  destruct (i <? 0) eqn:E1; [zbool; lia|].
  destruct (Z.of_nat a + i <? 0) eqn:E2; [zbool; lia|].
  rewrite lookup_take_lt by lia. rewrite lookup_drop.
  replace (Z.to_nat (Z.of_nat a + i)) with (a + Z.to_nat i)%nat by lia.
  reflexivity.
Qed.

Lemma subarray_in_range (b : Buffer) (a n : nat) :
  (a + n <= length b)%nat ->
  subarray b (Z.of_nat a) (Z.of_nat a + Z.of_nat n) = take n (drop a b).
Proof.
  intros H. unfold subarray, clamp_index, buf_length.
  destruct (Z.of_nat a <? 0) eqn:E1; [zbool; lia|].
  destruct (Z.of_nat a + Z.of_nat n <? 0) eqn:E2; [zbool; lia|].
  rewrite !Z.min_l by lia.
  replace (Z.to_nat (Z.of_nat a + Z.of_nat n - Z.of_nat a)) with n by lia.
  now rewrite Nat2Z.id.
Qed.

(** A little-endian read inside a buffer of at least four bytes returns the
    little-endian value of the four bytes at the address. *)
Lemma readUint32_in_range (b : Buffer) (a : nat) :
  (a + 4 <= length b)%nat ->
  readUint32 b (Z.of_nat a) true = Ok (word_at b a).
Proof.
  intros H. unfold readUint32.
  assert (Hl : (buf_length b <? 4) = false) by (unfold buf_length; zbool; lia).
  rewrite Hl. simpl.
  assert (Hl2 : (buf_length b <? Z.of_nat a + 4) = false)
    by (unfold buf_length; zbool; lia).
  rewrite Hl2.
  change 4 with (Z.of_nat 4). rewrite subarray_in_range by lia.
  f_equal. unfold map, fold_left.
  rewrite !buf_num_take_drop by lia.
  rewrite !toUint32_js_shl_byte by (auto using buf_num_range || lia).
  rewrite toUint32_small by (pose proof (buf_num_range b (Z.of_nat a + 0)); lia).
  unfold word_at, le_word. rewrite Z.add_0_r. simpl Z.of_nat. lia.
Qed.

(** ** The primitive codec *)

Lemma toInt32_congruent (n : Z) : exists c, toInt32 n = n + c * 2 ^ 32.
Proof.
  exists (- ((n + 2 ^ 31) / 2 ^ 32)). unfold toInt32.
  pose proof (Z.div_mod (n + 2 ^ 31) (2 ^ 32) ltac:(lia)). lia.
Qed.

Lemma js_and_low_bits (n k : Z) :
  0 <= k <= 24 -> js_and n (2 ^ k - 1) = n mod 2 ^ k.
Proof.
  intros Hk. unfold js_and.
  assert (0 < 2 ^ k) by (apply Z.pow_pos_nonneg; lia).
  assert (2 ^ k <= 2 ^ 24) by (apply Z.pow_le_mono_r; lia).
  rewrite (toInt32_small (2 ^ k - 1)) by lia.
  replace (2 ^ k - 1) with (Z.ones k) by (rewrite Z.ones_equiv; lia).
  rewrite Z.land_ones by lia.
  destruct (toInt32_congruent n) as [c ->].
  replace (c * 2 ^ 32) with (c * 2 ^ (32 - k) * 2 ^ k).
  - apply Z_mod_plus_full.
  - rewrite <- Z.mul_assoc, <- Z.pow_add_r by lia. do 2 f_equal. lia.
Qed.

Lemma mod_mul_mod (n a b : Z) : 0 < a -> 0 < b -> (n mod (a * b)) mod a = n mod a.
Proof.
  intros Ha Hb.
  pose proof (Z.div_mod n (a * b) ltac:(lia)) as D.
  replace (n mod (a * b)) with (n + - (b * (n / (a * b))) * a) by lia.
  apply Z_mod_plus_full.
Qed.

(** The bytes that [int32ToWord] writes for an unsigned 32-bit number. *)
Lemma int32ToWord_bytes (n : Z) (e : bool) :
  0 <= n <= 0xffffffff ->
  int32ToWord n e =
    Ok (let b0 := to_uint8 (n mod 2 ^ 8) in
        let b1 := to_uint8 (n mod 2 ^ 16 / 2 ^ 8) in
        let b2 := to_uint8 (n mod 2 ^ 24 / 2 ^ 16) in
        let b3 := to_uint8 (n / 2 ^ 24) in
        if e then [b0; b1; b2; b3] else [b3; b2; b1; b0]).
Proof.
  intros Hn. unfold int32ToWord.
  destruct (n <? -2147483648) eqn:E1; [zbool; lia|].
  destruct (0xffffffff <? n) eqn:E2; [zbool; lia|]. simpl orb. cbv iota.
  change 0xff with (2 ^ 8 - 1). change 0xffff with (2 ^ 16 - 1).
  change 0xffffff with (2 ^ 24 - 1).
  rewrite !js_and_low_bits by lia.
  unfold js_shr.
  rewrite !toUint32_small
    by (try lia;
        match goal with
        | |- 0 <= n mod ?m < _ => pose proof (Z.mod_pos_bound n m eq_refl); lia
        end).
  rewrite !Z.shiftr_div_pow2 by lia. reflexivity.
Qed.

(** The value read back from four given bytes, in either byte order. *)
Lemma readUint32_four_bytes (b0 b1 b2 b3 : byte) (e : bool) :
  readUint32 (if e then [b0; b1; b2; b3] else [b3; b2; b1; b0]) 0 e
  = Ok (le_word (byte_val b0) (byte_val b1) (byte_val b2) (byte_val b3)).
Proof.
  destruct e.
  - change 0 with (Z.of_nat 0). rewrite readUint32_in_range by (simpl; lia).
    reflexivity.
  - unfold readUint32. change (buf_length [b3; b2; b1; b0] <? 4) with false.
    simpl mbind. unfold result_bind.
    change (buf_length [b3; b2; b1; b0] <? 0 + 4) with false. cbv iota.
    change (subarray [b3; b2; b1; b0] 0 (0 + 4)) with [b3; b2; b1; b0].
    change (buf_num [b3; b2; b1; b0] 0) with (byte_val b3).
    change (buf_num [b3; b2; b1; b0] 1) with (byte_val b2).
    change (buf_num [b3; b2; b1; b0] 2) with (byte_val b1).
    change (buf_num [b3; b2; b1; b0] 3) with (byte_val b0).
    f_equal. unfold map, fold_left.
    rewrite !toUint32_js_shl_byte by (auto using byte_val_range || lia).
    rewrite toUint32_small by (pose proof (byte_val_range b0); lia).
    unfold le_word. lia.
Qed.

(** C10.  Round trip of the primitive codec: for every integer [n] with
    [0 <= n <= 0xFFFFFFFF] and either endianness flag [e], encoding [n] with
    [int32ToWord] and reading the four bytes back with [readUint32] at address
    0 under the same flag gives [n]. *)
Theorem int32ToWord_readUint32_roundtrip (n : Z) (e : bool) :
  0 <= n <= 0xffffffff ->
  (word ← int32ToWord n e; readUint32 word 0 e) = Ok n.
Proof.
  intros Hn. rewrite int32ToWord_bytes by assumption.
  cbv zeta. simpl mbind. unfold result_bind.
  rewrite readUint32_four_bytes. f_equal.
  rewrite !byte_val_to_uint8. unfold le_word.
  change 256 with (2 ^ 8).
  assert (H8 : 0 <= n mod 2 ^ 8 < 2 ^ 8) by (apply Z.mod_pos_bound; lia).
  assert (H16 : 0 <= n mod 2 ^ 16 < 2 ^ 16) by (apply Z.mod_pos_bound; lia).
  assert (H24 : 0 <= n mod 2 ^ 24 < 2 ^ 24) by (apply Z.mod_pos_bound; lia).
  rewrite (Z.mod_small (n mod 2 ^ 8)) by lia.
  rewrite (Z.mod_small (n mod 2 ^ 16 / 2 ^ 8))
    by (split; [apply Z.div_pos; lia | apply Z.div_lt_upper_bound; lia]).
  rewrite (Z.mod_small (n mod 2 ^ 24 / 2 ^ 16))
    by (split; [apply Z.div_pos; lia | apply Z.div_lt_upper_bound; lia]).
  rewrite (Z.mod_small (n / 2 ^ 24))
    by (split; [apply Z.div_pos; lia | apply Z.div_lt_upper_bound; lia]).
  pose proof (Z.div_mod n (2 ^ 24) ltac:(lia)) as D24.
  pose proof (Z.div_mod (n mod 2 ^ 24) (2 ^ 16) ltac:(lia)) as D16.
  pose proof (Z.div_mod (n mod 2 ^ 16) (2 ^ 8) ltac:(lia)) as D8.
  replace ((n mod 2 ^ 24) mod 2 ^ 16) with (n mod 2 ^ 16) in D16
    by (change (2 ^ 24) with (2 ^ 16 * 2 ^ 8); now rewrite mod_mul_mod by lia).
  replace ((n mod 2 ^ 16) mod 2 ^ 8) with (n mod 2 ^ 8) in D8
    by (change (2 ^ 16) with (2 ^ 8 * 2 ^ 8); now rewrite mod_mul_mod by lia).
  lia.
Qed.

Lemma int32ToWord_readUint32_roundtrip_witness :
  (word ← int32ToWord 0x89abcdef false; readUint32 word 0 false) = Ok 0x89abcdef.
Proof.
  apply (int32ToWord_readUint32_roundtrip 0x89abcdef false). lia.
Defined.

(** ** The geometry check of the constructor *)

Lemma js_rem_nonzero_spec (x y : Z) :
  0 <= x -> 0 < y -> js_rem_nonzero x y = true <-> ~ (y | x).
Proof.
  intros Hx Hy. unfold js_rem_nonzero.
  destruct (y =? 0) eqn:E0; [zbool; lia|].
  rewrite Z.rem_mod_nonneg by lia.
  rewrite negb_true_iff, Z.eqb_neq.
  now rewrite <- Z.mod_divide by lia.
Qed.

(** C5.  For an image buffer and a positive block size (0x1000 for family A,
    0x800 for family B), the constructor fails, with the geometry
    [RangeError], exactly when the length of the buffer is zero or is not a
    multiple of the block size, and the constructor of either family then
    fails with that error; otherwise it succeeds and divides the image into
    [length / blockSize] blocks that cover it. *)
Theorem NecEmulator_new_geometry (dfBuf : Buffer) (bs : Z) :
  0 < bs ->
  let len := buf_length dfBuf in
  ((exists e, NecEmulator_new dfBuf bs = Err e) <-> len = 0 \/ ~ (bs | len)) /\
  (len = 0 \/ ~ (bs | len) ->
   NecEmulator_new dfBuf bs = Err (RangeError_geometry bs len) /\
   (bs = V850e2.BLOCK_SIZE ->
    forall fuel,
      V850e2.Emu_V850e2_new fuel dfBuf = Some (Err (RangeError_geometry bs len))) /\
   (bs = RH850.BLOCK_SIZE ->
    forall fuel cfBuffer tableHeaderAddr,
      RH850.Emu_RH850_new fuel dfBuf cfBuffer tableHeaderAddr
      = Some (Err (RangeError_geometry bs len)))) /\
  (~ (len = 0 \/ ~ (bs | len)) ->
   exists this, NecEmulator_new dfBuf bs = Ok this /\
                dfBuffer this = dfBuf /\ blockSize this = bs /\
                nBlocks this = len / bs /\ nBlocks this * bs = len).
Proof.
  intros Hbs len.
  assert (Hlen : 0 <= len) by (unfold len, buf_length; lia).
  pose proof (js_rem_nonzero_spec len bs Hlen Hbs) as Hrem.
  assert (Hfam : NecEmulator_new dfBuf bs = Err (RangeError_geometry bs len) ->
            NecEmulator_new dfBuf bs = Err (RangeError_geometry bs len) /\
            (bs = V850e2.BLOCK_SIZE ->
             forall fuel,
               V850e2.Emu_V850e2_new fuel dfBuf = Some (Err (RangeError_geometry bs len))) /\
            (bs = RH850.BLOCK_SIZE ->
             forall fuel cfBuffer tableHeaderAddr,
               RH850.Emu_RH850_new fuel dfBuf cfBuffer tableHeaderAddr
               = Some (Err (RangeError_geometry bs len)))).
  { intros Herr. split; [exact Herr|]. split.
    - intros Heq fuel. unfold V850e2.Emu_V850e2_new, V850e2.build_catalogue.
      now rewrite <- Heq, Herr.
    - intros Heq fuel cfBuffer tableHeaderAddr.
      unfold RH850.Emu_RH850_new, RH850.build_catalogue, RH850.load_tables.
      now rewrite <- Heq, Herr. }
  unfold NecEmulator_new in *. fold len in Hfam |- *.
  destruct (len =? 0) eqn:E0; cbn [orb] in *.
  - zbool. split; [|split].
    + split; [intros _; auto | intros _; eauto].
    + intros _. now apply Hfam.
    + intros H. exfalso. apply H. auto.
  - destruct (js_rem_nonzero len bs) eqn:Er.
    + assert (~ (bs | len)) by now apply Hrem.
      split; [|split].
      * split; [intros _; auto | intros _; eauto].
      * intros _. now apply Hfam.
      * intros H'. exfalso. apply H'. auto.
    + assert (Hd : (bs | len)).
      { destruct (Z.eq_dec (len mod bs) 0) as [Hd|Hd].
        - apply Z.mod_divide; [lia | assumption].
        - assert (Hn : ~ (bs | len)) by (rewrite <- Z.mod_divide by lia; assumption).
          apply Hrem in Hn. congruence. }
      zbool. split; [|split].
      * split; [intros [e [=]] | intros [?|?]; tauto].
      * intros [?|?]; tauto.
      * intros _. eexists. split; [reflexivity|]. simpl.
        destruct Hd as [k Hk]. rewrite Hk, Z.div_mul by lia. tauto.
Qed.

Lemma NecEmulator_new_geometry_witness :
  exists this, NecEmulator_new (repeat x00 0x1000) 0x800 = Ok this /\ nBlocks this = 2.
Proof.
  destruct (NecEmulator_new_geometry (repeat x00 0x1000) 0x800 ltac:(lia))
    as (_ & _ & H).
  destruct H as (this & H1 & _ & _ & H2 & _).
  - intros [H|H]; [vm_compute in H; discriminate|].
    apply H. exists 2. vm_compute. reflexivity.
  - exists this. split; [assumption|]. rewrite H2. vm_compute. reflexivity.
Defined.

(** ** Block validity *)

Lemma buf_get_in_range (b : Buffer) (i : Z) :
  0 <= i < buf_length b -> buf_get b i = Some (buf_num b i).
Proof.
  intros Hi. unfold buf_num, buf_get, buf_length in *.
  destruct (i <? 0) eqn:E; [zbool; lia|].
  destruct (lookup_lt_is_Some_2 b (Z.to_nat i) ltac:(lia)) as [x Hx].
  now rewrite Hx.
Qed.

Lemma js_and_0xff (n : Z) : js_and n 0xff = n mod 256.
Proof. apply (js_and_low_bits n 8); lia. Qed.

Lemma checkSum8bit_four (b : Buffer) (start : Z) :
  0 <= start -> start + 3 < buf_length b ->
  checkSum8bit b start (start + 3) = byte_sum4 b start.
Proof.
  intros H0 H3. unfold checkSum8bit.
  replace (start + 3 - start + 1) with 4 by lia.
  change (seq 0 (Z.to_nat 4)) with [0; 1; 2; 3]%nat. cbn [map Z.of_nat].
  rewrite Z.add_0_r. cbn [mapM].
  rewrite !buf_get_in_range by lia. cbn.
  unfold byte_sum4. apply js_and_0xff.
Qed.

Lemma isValidBlockA_spec (this : NecEmulator) (bufA : Buffer) :
  blockSize this = 0x1000 ->
  buf_length bufA = 0x1000 ->
  exists v, V850e2.isValidBlock this bufA = Ok v /\
    (v = true <->
     word_at bufA 0x10 = 0x55555555 /\ word_at bufA 0x18 = 0x55555555 /\
     word_at bufA 0x20 = 0x55555555).
Proof.
  intros Hbs HA.
  unfold V850e2.isValidBlock. rewrite HA, Hbs. change (negb (0x1000 =? 0x1000)) with false.
  cbv iota. unfold buf_length in HA.
  change 0x10 with (Z.of_nat 0x10). change 0x18 with (Z.of_nat 0x18).
  change 0x20 with (Z.of_nat 0x20).
  rewrite !readUint32_in_range by lia. bind_step.
  unfold V850e2.ACTIVE_FLAG.
  destruct (0x55555555 =? word_at bufA 0x10%nat) eqn:E1; cbn [negb]; cbv iota;
    [|eexists; split; [reflexivity|]; zbool; split; [discriminate | intros (?&?&?); congruence]].
  destruct (0x55555555 =? word_at bufA 0x18%nat) eqn:E2; cbn [negb]; cbv iota;
    [|eexists; split; [reflexivity|]; zbool; split; [discriminate | intros (?&?&?); congruence]].
  eexists; split; [reflexivity|]. zbool. rewrite Z.eqb_eq. intuition congruence.
Qed.

Lemma isValidBlockB_spec (bufB : Buffer) :
  buf_length bufB = 0x800 ->
  exists v, RH850.isValidBlock bufB = Ok v /\
    (v = true <->
     word_at bufB 0x04 = 0x55555555 /\ word_at bufB 0x08 = 0x55555555 /\
     word_at bufB 0x0c = 0x55555555 /\
     byte_sum4 bufB 0x10 = 0xff /\ byte_sum4 bufB 0x14 = 0xff).
Proof.
  intros HB.
  unfold RH850.isValidBlock. unfold buf_length in HB.
  change 0x4 with (Z.of_nat 0x4). change 0x8 with (Z.of_nat 0x8).
  change 0xc with (Z.of_nat 0xc).
  rewrite !readUint32_in_range by lia. bind_step.
  change 0x13 with (0x10 + 3). change 0x17 with (0x14 + 3).
  rewrite !checkSum8bit_four by (unfold buf_length; lia).
  unfold RH850.ACTIVE_FLAG.
  destruct (0x55555555 =? word_at bufB 0x4%nat) eqn:E1; cbn [negb]; cbv iota;
    [|eexists; split; [reflexivity|]; zbool; split;
      [discriminate | intros (?&?&?&?&?); congruence]].
  destruct (0x55555555 =? word_at bufB 0x8%nat) eqn:E2; cbn [negb]; cbv iota;
    [|eexists; split; [reflexivity|]; zbool; split;
      [discriminate | intros (?&?&?&?&?); congruence]].
  destruct (0x55555555 =? word_at bufB 0xc%nat) eqn:E3; cbn [negb]; cbv iota;
    [|eexists; split; [reflexivity|]; zbool; split;
      [discriminate | intros (?&?&?&?&?); congruence]].
  destruct (0xff =? byte_sum4 bufB 0x10) eqn:E4; cbn [negb]; cbv iota;
    [|eexists; split; [reflexivity|]; zbool; split;
      [discriminate | intros (?&?&?&?&?); congruence]].
  eexists; split; [reflexivity|]. zbool. rewrite Z.eqb_eq. intuition congruence.
Qed.

(** C6.  A block window (a buffer of the size of a block) is classified valid
    exactly when its guard words equal 0x55555555: the words at offsets 0x10,
    0x18 and 0x20 for family A; the words at offsets 0x04, 0x08 and 0x0C for
    family B, which also wants the 8-bit additive checksum of bytes
    0x10-0x13 and that of bytes 0x14-0x17 to be 0xFF. *)
Theorem isValidBlock_guards (this : NecEmulator) (bufA bufB : Buffer) :
  blockSize this = V850e2.BLOCK_SIZE ->
  buf_length bufA = V850e2.BLOCK_SIZE ->
  buf_length bufB = RH850.BLOCK_SIZE ->
  (exists v, V850e2.isValidBlock this bufA = Ok v /\
     (v = true <->
      word_at bufA 0x10 = 0x55555555 /\ word_at bufA 0x18 = 0x55555555 /\
      word_at bufA 0x20 = 0x55555555)) /\
  (exists v, RH850.isValidBlock bufB = Ok v /\
     (v = true <->
      word_at bufB 0x04 = 0x55555555 /\ word_at bufB 0x08 = 0x55555555 /\
      word_at bufB 0x0c = 0x55555555 /\
      byte_sum4 bufB 0x10 = 0xff /\ byte_sum4 bufB 0x14 = 0xff)).
Proof.
  intros Hbs HA HB. split.
  - now apply isValidBlockA_spec.
  - now apply isValidBlockB_spec.
Qed.

Lemma isValidBlock_guards_witness :
  V850e2.isValidBlock (mkNecEmulator [] ∅ ∅ 1 0x1000 []) Samples.imageA_gap = Ok true /\
  RH850.isValidBlock Samples.imageB_single = Ok true.
Proof.
  destruct (isValidBlock_guards (mkNecEmulator [] ∅ ∅ 1 0x1000 [])
              Samples.imageA_gap Samples.imageB_single)
    as [(va & Ha & Hva) (vb & Hb & Hvb)]; try (vm_compute; reflexivity).
  rewrite Ha, Hb. split; f_equal.
  - apply Hva. vm_compute. auto.
  - apply Hvb. vm_compute. auto.
Defined.

(** ** Loops *)

Lemma for_each_app {I S : Type} (body : I -> S -> result S) (l1 l2 : list I) (s : S) :
  for_each body (l1 ++ l2) s = (s' ← for_each body l1 s; for_each body l2 s').
Proof.
  revert s. induction l1 as [|i l1 IH]; intros s; simpl; [reflexivity|].
  destruct (body i s) as [s'|e]; simpl; [apply IH | reflexivity].
Qed.

(** A property kept by every round holds after the loop, if it returns. *)
Lemma for_each_preserves {I S : Type} (P : S -> Prop) (body : I -> S -> result S)
    (l : list I) (s s' : S) :
  (forall i s s', i ∈ l -> P s -> body i s = Ok s' -> P s') ->
  P s -> for_each body l s = Ok s' -> P s'.
Proof.
  revert s. induction l as [|i l IH]; intros s Hstep Hs Hrun; simpl in Hrun.
  - now inversion Hrun; subst.
  - apply bind_Ok_inv in Hrun as (s1 & H1 & H2).
    eapply IH; [| |exact H2].
    + intros. eapply Hstep; eauto. now constructor.
    + eapply Hstep; eauto. constructor.
Qed.

Lemma range_nil (a b : Z) : b <= a -> range a b = [].
Proof. intros H. unfold range. now replace (Z.to_nat (b - a)) with 0%nat by lia. Qed.

Lemma range_snoc (a b : Z) : a <= b -> range a (b + 1) = range a b ++ [b].
Proof.
  intros H. unfold range.
  replace (Z.to_nat (b + 1 - a)) with (S (Z.to_nat (b - a))) by lia.
  rewrite seq_S, map_app. simpl. do 2 f_equal. lia.
Qed.

Lemma elem_of_range (a b i : Z) : i ∈ range a b <-> a <= i < b.
Proof.
  unfold range. rewrite list_elem_of_fmap. split.
  - intros (k & -> & Hk). apply elem_of_seq in Hk. lia.
  - intros H. exists (Z.to_nat (i - a)). split; [lia|]. apply elem_of_seq. lia.
Qed.

Lemma range_sorted (a b : Z) : StronglySorted Z.lt (range a b).
Proof.
  destruct (Z_le_gt_dec b a) as [H|H]; [rewrite range_nil by lia; constructor|].
  replace b with (a + Z.of_nat (Z.to_nat (b - a))) by lia.
  induction (Z.to_nat (b - a)) as [|n IH]; [rewrite range_nil by lia; constructor|].
  replace (a + Z.of_nat (S n)) with (a + Z.of_nat n + 1) by lia.
  rewrite range_snoc by lia. apply StronglySorted_app_2; [|assumption|repeat constructor].
  intros x y Hx Hy. apply elem_of_range in Hx. apply list_elem_of_singleton in Hy. lia.
Qed.

Lemma StronglySorted_filter {A : Type} (R : relation A) (P : A -> Prop)
    `{forall x, Decision (P x)} (l : list A) :
  StronglySorted R l -> StronglySorted R (filter P l).
Proof.
  induction 1 as [|x l Hl IH Hx]; [constructor|].
  rewrite filter_cons. destruct (decide (P x)); [|assumption].
  constructor; [assumption|].
  rewrite Forall_forall in *. intros y Hy. apply Hx.
  apply list_elem_of_filter in Hy. tauto.
Qed.

Lemma filter_none {A : Type} (P : A -> Prop) `{forall x, Decision (P x)} (l : list A) :
  Forall (fun x => ~ P x) l -> filter P l = [].
Proof.
  induction 1 as [|x l Hx Hl IH]; [reflexivity|].
  now rewrite filter_cons_False.
Qed.

(** ** The block catalogue *)

Lemma set_rwp_set_rwp (b : DataFlashBlock.t) (r r' : Z) :
  DataFlashBlock.set_rwp (DataFlashBlock.set_rwp b r) r' = DataFlashBlock.set_rwp b r'.
Proof. reflexivity. Qed.

Lemma set_rwp_same (b : DataFlashBlock.t) :
  DataFlashBlock.set_rwp b (DataFlashBlock.rwp b) = b.
Proof. now destruct b. Qed.

Lemma assign_rwps_spec (bs : Z) (p : Z -> Z) (L : list Z)
    (blocks blocks' : gmap Z DataFlashBlock.t) :
  assign_rwps bs (map p L) blocks = Ok blocks' ->
  forall j, blocks' !! j = registered bs p L j <$> blocks !! j.
Proof.
  revert blocks. induction L as [|k0 L IH]; intros blocks Hrun j.
  - simpl in Hrun. inversion Hrun; subst. unfold registered. simpl.
    destruct (blocks' !! j) as [t|]; simpl; [|reflexivity].
    now rewrite set_rwp_same.
  - unfold assign_rwps in Hrun. simpl in Hrun.
    apply bind_Ok_inv in Hrun as (blocks1 & H1 & H2).
    apply bind_Ok_inv in H1 as (b & Hb & H1). inversion H1; subst blocks1; clear H1.
    unfold floor_div in *.
    destruct (blocks !! (p k0 / bs)) as [b0|] eqn:Eb; [|discriminate].
    inversion Hb; subst b0; clear Hb.
    rewrite (IH _ H2 j). unfold registered.
    destruct (Z.eq_dec (p k0 / bs) j) as [Heq|Hne]; [subst j|].
    + rewrite lookup_insert_eq, Eb. simpl. rewrite set_rwp_set_rwp.
      rewrite filter_cons_True by reflexivity.
      f_equal. f_equal. simpl.
      destruct (filter (fun k => p k / bs = p k0 / bs) L) as [|x l] eqn:Ef; simpl;
        [reflexivity|].
      change (last (k0 :: x :: l)) with (last (x :: l)).
      destruct (last (x :: l)) eqn:El; [reflexivity|].
      apply last_None in El. discriminate.
    + rewrite lookup_insert_ne by assumption.
      now rewrite filter_cons_False by assumption.
Qed.

Lemma assign_rwps_targets (bs : Z) (rwps : list Z) (blocks blocks' : gmap Z DataFlashBlock.t) :
  assign_rwps bs rwps blocks = Ok blocks' ->
  (forall j, is_Some (blocks' !! j) <-> is_Some (blocks !! j)) /\
  forall r, r ∈ rwps -> is_Some (blocks !! (r / bs)).
Proof.
  revert blocks. induction rwps as [|r0 rwps IH]; intros blocks Hrun.
  - simpl in Hrun. inversion Hrun; subst. split; [tauto|]. intros r Hr. inversion Hr.
  - unfold assign_rwps in Hrun. simpl in Hrun.
    apply bind_Ok_inv in Hrun as (blocks1 & H1 & H2).
    apply bind_Ok_inv in H1 as (b & Hb & H1). inversion H1; subst blocks1; clear H1.
    unfold floor_div in *.
    destruct (blocks !! (r0 / bs)) as [b0|] eqn:Eb; [|discriminate].
    destruct (IH _ H2) as [Hdom Htgt].
    assert (Hins : forall j, is_Some (<[r0 / bs := DataFlashBlock.set_rwp b r0]> blocks !! j)
                             <-> is_Some (blocks !! j)).
    { intros j. destruct (Z.eq_dec (r0 / bs) j) as [Heq|Hne]; [subst j|].
      - rewrite lookup_insert_eq, Eb. split; eauto.
      - now rewrite lookup_insert_ne. }
    split.
    + intros j. rewrite Hdom. apply Hins.
    + intros r Hr. apply elem_of_cons in Hr as [->|Hr]; [rewrite Eb; eauto|].
      apply Hins. now apply Htgt.
Qed.

Section Catalogue.

Variables (n bs : Z) (df : Buffer).
Variable scan : Z -> gmap Z DataFlashBlock.t * list Z
                -> result (gmap Z DataFlashBlock.t * list Z).
Variable valid : Buffer -> bool.
Variables ec ptr : Buffer -> Z.

Let win_entry (i : Z) : DataFlashBlock.t :=
  DataFlashBlock.mk i (valid (block_bytes df bs i)) (ec (block_bytes df bs i)) 0
    (block_bytes df bs i).
Let win_valid (i : Z) : Prop := valid (block_bytes df bs i) = true.
Let win_ptr (i : Z) : Z := ptr (block_bytes df bs i).

Hypothesis scan_spec : forall i blocks rwps,
  0 <= i < n ->
  scan i (blocks, rwps) =
    Ok (<[i := win_entry i]> blocks,
        if valid (block_bytes df bs i) then rwps ++ [win_ptr i] else rwps).

Lemma scan_all (k : nat) :
  Z.of_nat k <= n ->
  exists blocks,
    for_each scan (range 0 (Z.of_nat k)) (∅, [])
      = Ok (blocks, map win_ptr (filter win_valid (range 0 (Z.of_nat k)))) /\
    forall i, blocks !! i = if bool_decide (0 <= i < Z.of_nat k) then Some (win_entry i) else None.
Proof.
  induction k as [|k IH]; intros Hk.
  - exists ∅. split; [reflexivity|]. intros i. rewrite lookup_empty.
    rewrite bool_decide_eq_false_2 by lia. reflexivity.
  - destruct IH as (blocks & Hrun & Hlook); [lia|].
    replace (Z.of_nat (S k)) with (Z.of_nat k + 1) by lia.
    rewrite range_snoc by lia.
    exists (<[Z.of_nat k := win_entry (Z.of_nat k)]> blocks). split.
    + rewrite for_each_app, Hrun. bind_step. simpl for_each.
      rewrite scan_spec by lia. bind_step.
      rewrite filter_app, map_app. do 2 f_equal.
      unfold win_valid at 3.
      destruct (valid (block_bytes df bs (Z.of_nat k))) eqn:Ev.
      * rewrite filter_cons_True by assumption. simpl. reflexivity.
      * rewrite filter_cons_False by (unfold win_valid; congruence).
        simpl. now rewrite app_nil_r.
    + intros i. destruct (Z.eq_dec (Z.of_nat k) i) as [Heq|Hne]; [subst i|].
      * rewrite lookup_insert_eq, bool_decide_eq_true_2 by lia. reflexivity.
      * rewrite lookup_insert_ne, Hlook by assumption.
        destruct (bool_decide (0 <= i < Z.of_nat k)) eqn:E1.
        -- apply bool_decide_eq_true in E1. now rewrite bool_decide_eq_true_2 by lia.
        -- apply bool_decide_eq_false in E1. now rewrite bool_decide_eq_false_2 by lia.
Qed.

(** The catalogue that the two loops of [getBlocksData] build. *)
Lemma catalogue_spec (blocks : gmap Z DataFlashBlock.t) :
  0 <= n ->
  ('(blocks, rwps) ← for_each scan (range 0 n) (∅, []); assign_rwps bs rwps blocks)
    = Ok blocks ->
  forall i b,
    blocks !! i = Some b -> DataFlashBlock.isValid b = true ->
    0 <= i < n /\ win_valid i /\
    DataFlashBlock.buf b = block_bytes df bs i /\
    DataFlashBlock.eraseCount b = ec (block_bytes df bs i) /\
    exists t k,
      blocks !! (win_ptr i / bs) = Some t /\
      i <= k < n /\ win_valid k /\ win_ptr k / bs = win_ptr i / bs /\
      DataFlashBlock.rwp t = win_ptr k /\
      forall k', k < k' < n -> win_valid k' -> win_ptr k' / bs <> win_ptr i / bs.
Proof.
  intros Hn Hrun i b Hb Hv.
  destruct (scan_all (Z.to_nat n)) as (blocks0 & Hscan & Hlook); [lia|].
  rewrite Z2Nat.id in Hscan, Hlook by lia.
  rewrite Hscan in Hrun. bind_step. simpl in Hrun.
  set (L := filter win_valid (range 0 n)) in *.
  pose proof (assign_rwps_spec _ _ _ _ _ Hrun) as Hreg.
  pose proof (assign_rwps_targets _ _ _ _ Hrun) as [Hdom Htgt].
  assert (Hfield : forall j t, blocks !! j = Some t ->
            0 <= j < n /\ t = registered bs win_ptr L j (win_entry j)).
  { intros j t Ht. rewrite Hreg, Hlook in Ht.
    destruct (bool_decide (0 <= j < n)) eqn:E; [|discriminate].
    apply bool_decide_eq_true in E. simpl in Ht. inversion Ht. auto. }
  destruct (Hfield _ _ Hb) as [Hi ->]. simpl in Hv.
  assert (HiL : i ∈ L) by (apply list_elem_of_filter; split;
                           [exact Hv | apply elem_of_range; lia]).
  repeat split; try lia; try exact Hv.
  set (j := win_ptr i / bs).
  assert (Hj : is_Some (blocks !! j)).
  { apply Hdom, Htgt. apply list_elem_of_fmap. eauto. }
  destruct Hj as [t Ht]. destruct (Hfield _ _ Ht) as [Hjn ->].
  set (F := filter (fun k => win_ptr k / bs = j) L) in *.
  assert (HiF : i ∈ F) by (apply list_elem_of_filter; split; [reflexivity | exact HiL]).
  destruct (last F) as [k|] eqn:El;
    [|apply last_None in El; rewrite El in HiF; inversion HiF].
  pose proof (last_Some_elem_of _ _ El) as HkF.
  apply list_elem_of_filter in HkF as [Hkj HkL].
  apply list_elem_of_filter in HkL as [Hkv Hkr]. apply elem_of_range in Hkr.
  apply last_filter_Some in El as (l1 & l2 & HL & Hl2).
  assert (Hsorted : StronglySorted Z.lt (l1 ++ k :: l2)).
  { rewrite <- HL. unfold L. apply StronglySorted_filter, range_sorted. }
  assert (Hafter : forall x, x ∈ L -> k < x -> x ∈ l2).
  { intros x Hx Hlt. rewrite HL in Hx. apply elem_of_app in Hx as [Hx|Hx].
    - pose proof (StronglySorted_app_1_elem_of _ _ _ x k Hsorted Hx ltac:(left)). lia.
    - apply elem_of_cons in Hx as [->|Hx]; [lia | assumption]. }
  exists (registered bs win_ptr L j (win_entry j)), k.
  split; [exact Ht|]. split.
  { split; [|lia]. destruct (Z_le_gt_dec i k) as [?|Hgt]; [assumption|].
    pose proof (Hafter i HiL ltac:(lia)) as Hin.
    rewrite Forall_forall in Hl2. exfalso. eapply Hl2; [exact Hin | reflexivity]. }
  split; [exact Hkv|]. split; [exact Hkj|]. split.
  { unfold registered. simpl. fold F.
    destruct (last_Some F k) as [_ Hl].
    assert (HF : last F = Some k).
    { unfold F. rewrite HL, filter_app, filter_cons_True by exact Hkj.
      replace (filter (fun k0 => win_ptr k0 / bs = j) l2) with (@nil Z).
      - now rewrite last_snoc.
      - symmetry. apply filter_none. exact Hl2. }
    now rewrite HF. }
  intros k' Hk' Hv' Hj'.
  assert (Hin : k' ∈ l2).
  { apply Hafter; [|lia]. apply list_elem_of_filter. split; [exact Hv'|].
    apply elem_of_range. lia. }
  rewrite Forall_forall in Hl2. eapply Hl2; [exact Hin | exact Hj'].
Qed.

Lemma catalogue_lookup (blocks : gmap Z DataFlashBlock.t) :
  0 <= n ->
  ('(blocks, rwps) ← for_each scan (range 0 n) (∅, []); assign_rwps bs rwps blocks)
    = Ok blocks ->
  forall k, 0 <= k < n ->
    exists bk, blocks !! k = Some bk /\
               DataFlashBlock.buf bk = block_bytes df bs k /\
               DataFlashBlock.isValid bk = valid (block_bytes df bs k).
Proof.
  intros Hn Hrun k Hk.
  destruct (scan_all (Z.to_nat n)) as (blocks0 & Hscan & Hlook); [lia|].
  rewrite Z2Nat.id in Hscan, Hlook by lia.
  rewrite Hscan in Hrun. bind_step. simpl in Hrun.
  pose proof (assign_rwps_spec _ _ _ _ _ Hrun k) as Hreg.
  rewrite Hlook, bool_decide_eq_true_2 in Hreg by lia.
  eexists. split; [exact Hreg|]. split; reflexivity.
Qed.

Lemma catalogue_bufs (blocks : gmap Z DataFlashBlock.t) :
  0 <= n ->
  ('(blocks, rwps) ← for_each scan (range 0 n) (∅, []); assign_rwps bs rwps blocks)
    = Ok blocks ->
  forall j t, blocks !! j = Some t ->
    0 <= j < n /\ DataFlashBlock.buf t = block_bytes df bs j.
Proof.
  intros Hn Hrun j t Ht.
  destruct (scan_all (Z.to_nat n)) as (blocks0 & Hscan & Hlook); [lia|].
  rewrite Z2Nat.id in Hscan, Hlook by lia.
  rewrite Hscan in Hrun. bind_step. simpl in Hrun.
  pose proof (assign_rwps_spec _ _ _ _ _ Hrun j) as Hreg.
  rewrite Hlook in Hreg. rewrite Hreg in Ht.
  destruct (bool_decide (0 <= j < n)) eqn:E; [|discriminate].
  apply bool_decide_eq_true in E. simpl in Ht. inversion Ht. auto.
Qed.

End Catalogue.

Lemma block_window_spec (this : NecEmulator) (i : Z) :
  0 < blockSize this ->
  buf_length (dfBuffer this) = nBlocks this * blockSize this ->
  0 <= i < nBlocks this ->
  block_window this i = Ok (block_bytes (dfBuffer this) (blockSize this) i) /\
  buf_length (block_bytes (dfBuffer this) (blockSize this) i) = blockSize this.
Proof.
  intros Hbs Hlen Hi. unfold block_window, Buffer_alloc, block_bytes.
  destruct (blockSize this <? 0) eqn:E; [zbool; lia|]. bind_step.
  unfold Buffer_copy, buf_length in *.
  assert (Hw : length (take (Z.to_nat (blockSize this))
                         (drop (Z.to_nat (i * blockSize this)) (dfBuffer this)))
               = Z.to_nat (blockSize this)).
  { rewrite length_take, length_drop. nia. }
  split; [|rewrite Hw; lia].
  rewrite repeat_length.
  destruct (0 <? 0) eqn:E1; [zbool; lia|].
  destruct (i * blockSize this <? 0) eqn:E2; [zbool; nia|].
  destruct (Z.of_nat (length (dfBuffer this)) <? i * blockSize this) eqn:E3; [zbool; nia|].
  destruct (Z.of_nat (length (dfBuffer this)) <? 0) eqn:E4; [zbool; lia|].
  destruct (Z.of_nat (Z.to_nat (blockSize this)) <=? 0) eqn:E5; [zbool; lia|].
  destruct (Z.of_nat (length (dfBuffer this)) <=? i * blockSize this) eqn:E6; [zbool; nia|].
  cbn [orb]. cbv iota. f_equal.
  rewrite !Z.min_l by nia.
  rewrite Z.min_r by nia.
  replace (Z.to_nat (Z.of_nat (Z.to_nat (blockSize this)) - 0))
    with (Z.to_nat (blockSize this)) by lia.
  unfold overwrite. rewrite Hw. change (Z.to_nat 0) with 0%nat.
  rewrite take_0, Nat.add_0_l. cbn [app].
  rewrite (drop_ge (repeat _ _)) by (rewrite repeat_length; lia).
  apply app_nil_r.
Qed.

(** A read from a window of three bytes, completed with a zero byte. *)
Lemma readUint32_three (w : Buffer) (off : nat) :
  (off + 3 <= length w)%nat ->
  readUint32 (subarray w (Z.of_nat off) (Z.of_nat off + 3)) 0 true = Ok (word24_at w off).
Proof.
  intros H. change 3 with (Z.of_nat 3). rewrite subarray_in_range by lia.
  unfold word24_at.
  pose proof (buf_num_take_drop w off 3 0 ltac:(lia)) as H0.
  pose proof (buf_num_take_drop w off 3 1 ltac:(lia)) as H1.
  pose proof (buf_num_take_drop w off 3 2 ltac:(lia)) as H2.
  rewrite Z.add_0_r in H0. rewrite <- H0, <- H1, <- H2. clear H0 H1 H2.
  assert (Hl : length (take 3 (drop off w)) = 3%nat)
    by (rewrite length_take, length_drop; lia).
  destruct (take 3 (drop off w)) as [|b0 [|b1 [|b2 [|]]]]; try discriminate.
  change (readUint32 [b0; b1; b2] 0 true) with (readUint32 [b0; b1; b2; x00] 0 true).
  apply (readUint32_four_bytes b0 b1 b2 x00 true).
Qed.

Lemma scan_block_A (this : NecEmulator) (i : Z)
    (blocks : gmap Z DataFlashBlock.t) (rwps : list Z) :
  blockSize this = 0x1000 ->
  buf_length (dfBuffer this) = nBlocks this * blockSize this ->
  0 <= i < nBlocks this ->
  let w := block_bytes (dfBuffer this) 0x1000 i in
  let v := try_or (V850e2.isValidBlock this w) false in
  V850e2.scan_block this i (blocks, rwps) =
    Ok (<[i := DataFlashBlock.mk i v (word24_at w 0x28) 0 w]> blocks,
        if v then rwps ++ [2 * word24_at w 0x30] else rwps).
Proof.
  intros Hbs Hlen Hi w v. unfold V850e2.scan_block.
  destruct (block_window_spec this i ltac:(lia) Hlen Hi) as [Hw Hwl].
  rewrite Hbs in Hw, Hwl. fold w in Hw, Hwl. rewrite Hw. bind_step.
  destruct (isValidBlockA_spec this w Hbs Hwl) as (v' & Hv & _).
  assert (v = v') by (unfold v; now rewrite Hv). subst v'.
  rewrite Hv. bind_step. unfold buf_length in Hwl.
  change (subarray w 0x28 0x2b) with (subarray w (Z.of_nat 0x28) (Z.of_nat 0x28 + 3)).
  change (subarray w 0x30 0x33) with (subarray w (Z.of_nat 0x30) (Z.of_nat 0x30 + 3)).
  rewrite !readUint32_three by lia. bind_step.
  destruct v; cbn [negb]; cbv iota; [|reflexivity].
  bind_step. now rewrite Z.mul_comm.
Qed.

Lemma scan_block_B (this : NecEmulator) (i : Z)
    (blocks : gmap Z DataFlashBlock.t) (rwps : list Z) :
  blockSize this = 0x800 ->
  buf_length (dfBuffer this) = nBlocks this * blockSize this ->
  0 <= i < nBlocks this ->
  let w := block_bytes (dfBuffer this) 0x800 i in
  let v := try_or (RH850.isValidBlock w) false in
  RH850.scan_block this i (blocks, rwps) =
    Ok (<[i := DataFlashBlock.mk i v (word24_at w 0x10) 0 w]> blocks,
        if v then rwps ++ [1 * word24_at w 0x14] else rwps).
Proof.
  intros Hbs Hlen Hi w v. unfold RH850.scan_block.
  destruct (block_window_spec this i ltac:(lia) Hlen Hi) as [Hw Hwl].
  rewrite Hbs in Hw, Hwl. fold w in Hw, Hwl. rewrite Hw. bind_step.
  destruct (isValidBlockB_spec w Hwl) as (v' & Hv & _).
  assert (v = v') by (unfold v; now rewrite Hv). subst v'.
  rewrite Hv. bind_step. unfold buf_length in Hwl.
  change (subarray w 0x10 0x13) with (subarray w (Z.of_nat 0x10) (Z.of_nat 0x10 + 3)).
  change (subarray w 0x14 0x17) with (subarray w (Z.of_nat 0x14) (Z.of_nat 0x14 + 3)).
  rewrite !readUint32_three by lia. bind_step.
  destruct v; cbn [negb]; cbv iota; [|reflexivity].
  bind_step. now rewrite Z.mul_1_l.
Qed.

(** The catalogue of either family, from the description of one scan round. *)
Lemma catalog_headers_of_scan (this : NecEmulator) (bs : Z) (ec_off rwp_off : nat) (mul : Z)
    (scan : Z -> gmap Z DataFlashBlock.t * list Z -> result (gmap Z DataFlashBlock.t * list Z))
    (valid : Buffer -> bool) (blocks : gmap Z DataFlashBlock.t) :
  0 <= nBlocks this ->
  (forall i blocks rwps, 0 <= i < nBlocks this ->
     let w := block_bytes (dfBuffer this) bs i in
     scan i (blocks, rwps) =
       Ok (<[i := DataFlashBlock.mk i (valid w) (word24_at w ec_off) 0 w]> blocks,
           if valid w then rwps ++ [mul * word24_at w rwp_off] else rwps)) ->
  ('(blocks, rwps) ← for_each scan (range 0 (nBlocks this)) (∅, []);
   assign_rwps bs rwps blocks) = Ok blocks ->
  catalog_headers (dfBuffer this) bs ec_off rwp_off mul blocks.
Proof.
  intros Hn Hscan Hrun i b Hb Hv.
  pose proof (catalogue_spec (nBlocks this) bs (dfBuffer this) scan valid
                (fun w => word24_at w ec_off) (fun w => mul * word24_at w rwp_off)
                Hscan blocks Hn Hrun) as Hspec.
  pose proof (catalogue_lookup (nBlocks this) bs (dfBuffer this) scan valid
                (fun w => word24_at w ec_off) (fun w => mul * word24_at w rwp_off)
                Hscan blocks Hn Hrun) as Hlook.
  destruct (Hspec i b Hb Hv) as (Hi & Hvi & Hbuf & Hec & t & k & Ht & Hk & Hvk & Hjk & Hr & Hlast).
  split; [exact Hbuf|]. rewrite Hbuf. split; [exact Hec|].
  destruct (Hlook k ltac:(lia)) as (bk & Hbk & Hbufk & Hvalk).
  exists t, k, bk. rewrite Hbufk.
  repeat split; try assumption; try lia; try congruence.
  intros k' bk' Hk' Hbk' Hvk'.
  destruct (Hspec k' bk' Hbk' Hvk') as (Hk'n & Hvk'' & Hbufk' & _).
  rewrite Hbufk'. apply Hlast; [lia | exact Hvk''].
Qed.

Lemma nBlocks_nonneg (this : NecEmulator) :
  0 < blockSize this ->
  buf_length (dfBuffer this) = nBlocks this * blockSize this -> 0 <= nBlocks this.
Proof. unfold buf_length. intros. nia. Qed.

(** C7, as the code has it.  For every valid block of the catalogue, the
    erase counter is the little-endian value of the three bytes at the
    counter offset of the block (0x28 for family A, 0x10 for family B), the
    fourth byte of the word being left out; the write pointer of the block
    is twice the three-byte value at offset 0x30 (family A) or the
    three-byte value at offset 0x14 (family B), and the block this pointer
    points into carries, as its [rwp], the pointer of the last valid block
    pointing into it. *)
Theorem getBlocksData_headers (thisA thisB : NecEmulator)
    (blocksA blocksB : gmap Z DataFlashBlock.t) :
  blockSize thisA = V850e2.BLOCK_SIZE ->
  blockSize thisB = RH850.BLOCK_SIZE ->
  buf_length (dfBuffer thisA) = nBlocks thisA * blockSize thisA ->
  buf_length (dfBuffer thisB) = nBlocks thisB * blockSize thisB ->
  V850e2.getBlocksData thisA = Ok blocksA ->
  RH850.getBlocksData thisB = Ok blocksB ->
  catalog_headers (dfBuffer thisA) V850e2.BLOCK_SIZE 0x28 0x30 2 blocksA /\
  catalog_headers (dfBuffer thisB) RH850.BLOCK_SIZE 0x10 0x14 1 blocksB.
Proof.
  unfold V850e2.BLOCK_SIZE, RH850.BLOCK_SIZE.
  intros HbsA HbsB HlenA HlenB HA HB. split.
  - apply (catalog_headers_of_scan thisA 0x1000 0x28 0x30 2 (V850e2.scan_block thisA)
             (fun w => try_or (V850e2.isValidBlock thisA w) false)).
    + apply nBlocks_nonneg; [lia | assumption].
    + intros i blocks rwps Hi. now apply scan_block_A.
    + unfold V850e2.getBlocksData in HA. now rewrite HbsA in HA.
  - apply (catalog_headers_of_scan thisB 0x800 0x10 0x14 1 (RH850.scan_block thisB)
             (fun w => try_or (RH850.isValidBlock w) false)).
    + apply nBlocks_nonneg; [lia | assumption].
    + intros i blocks rwps Hi. now apply scan_block_B.
    + unfold RH850.getBlocksData in HB. now rewrite HbsB in HB.
Qed.

Lemma getBlocksData_headers_witness :
  let thisA := Samples.emulator Samples.imageA_overlap 0x1000 in
  let thisB := Samples.emulator Samples.imageB_single 0x800 in
  exists blocksA blocksB,
    V850e2.getBlocksData thisA = Ok blocksA /\
    RH850.getBlocksData thisB = Ok blocksB /\
    catalog_headers (dfBuffer thisA) V850e2.BLOCK_SIZE 0x28 0x30 2 blocksA /\
    catalog_headers (dfBuffer thisB) RH850.BLOCK_SIZE 0x10 0x14 1 blocksB.
Proof.
  intros thisA thisB.
  destruct (V850e2.getBlocksData thisA) as [blocksA|e] eqn:EA;
    [|vm_compute in EA; discriminate].
  destruct (RH850.getBlocksData thisB) as [blocksB|e] eqn:EB;
    [|vm_compute in EB; discriminate].
  exists blocksA, blocksB. split; [reflexivity|]. split; [reflexivity|].
  apply (getBlocksData_headers thisA thisB blocksA blocksB);
    try assumption; vm_compute; reflexivity.
Defined.

(** C7 as stated fails: the block of [imageA_checksum] is valid and holds the
    word 0x01000003 at offset 0x28 and the word 0x01000400 at offset 0x30,
    but its erase counter is 3 and the write pointer registered (against the
    block itself) is 0x800. *)
Lemma getBlocksData_full_word_counterexample :
  exists this blocks b,
    NecEmulator_new Samples.imageA_checksum V850e2.BLOCK_SIZE = Ok this /\
    V850e2.getBlocksData this = Ok blocks /\
    blocks !! 0 = Some b /\
    DataFlashBlock.isValid b = true /\
    word_at (DataFlashBlock.buf b) 0x28 = 0x01000003 /\
    DataFlashBlock.eraseCount b = 3 /\
    DataFlashBlock.eraseCount b <> word_at (DataFlashBlock.buf b) 0x28 /\
    word_at (DataFlashBlock.buf b) 0x30 = 0x01000400 /\
    DataFlashBlock.rwp b = 0x800 /\
    DataFlashBlock.rwp b <> 2 * word_at (DataFlashBlock.buf b) 0x30.
Proof.
  eexists _, _, _.
  split; [vm_compute; reflexivity|].
  split; [vm_compute; reflexivity|].
  split; [vm_compute; reflexivity|].
  vm_compute. repeat split; congruence.
Qed.

(** ** The erase-order resolver *)

Lemma StronglySorted_weaken {A : Type} (R R' : relation A) (l : list A) :
  (forall x y, x ∈ l -> y ∈ l -> R x y -> R' x y) ->
  StronglySorted R l -> StronglySorted R' l.
Proof.
  intros Himp Hs. induction Hs as [|x l Hs IH Hx]; [constructor|].
  constructor.
  - apply IH. intros. apply Himp; try assumption; now constructor.
  - rewrite Forall_forall in *. intros y Hy.
    apply Himp; [constructor | now constructor | now apply Hx].
Qed.

Lemma StronglySorted_NoDup {A : Type} (R : relation A) (l : list A) :
  (forall x, ~ R x x) -> StronglySorted R l -> NoDup l.
Proof.
  intros Hirr Hs. induction Hs as [|x l Hs IH Hx]; [constructor|].
  constructor; [|assumption].
  intros Hin. rewrite Forall_forall in Hx. exact (Hirr x (Hx x Hin)).
Qed.

Lemma StronglySorted_le_lt (l : list Z) :
  NoDup l -> StronglySorted Z.le l -> StronglySorted Z.lt l.
Proof.
  intros Hnd Hs. induction Hs as [|x l Hs IH Hx]; [constructor|].
  apply NoDup_cons in Hnd as [Hnin Hnd].
  constructor; [now apply IH|].
  rewrite Forall_forall in *. intros y Hy.
  pose proof (Hx y Hy). assert (x <> y) by (intros ->; contradiction). lia.
Qed.

(** Sorting numbers that are already in ascending order changes nothing. *)
Lemma sort_numbers_sorted (l : list Z) : StronglySorted Z.lt l -> sort_numbers l = l.
Proof.
  intros Hs. unfold sort_numbers.
  apply (StronglySorted_unique Z.le).
  - apply StronglySorted_merge_sort; apply _.
  - eapply StronglySorted_weaken; [|exact Hs]. intros; lia.
  - apply merge_sort_Permutation.
Qed.

Section EraseOrder.

Variable this : NecEmulator.
Hypothesis catalogue_full :
  forall i, 0 <= i < nBlocks this -> is_Some (blockData this !! i).

(** The valid blocks of erase counter [e] among the first [k] ones. *)
Let group (k e : Z) : list Z :=
  filter (fun i => valid_at this i = true /\ eraseCount_at this i = e) (range 0 k).

Lemma group_sorted (k e : Z) : StronglySorted Z.lt (group k e).
Proof. apply StronglySorted_filter, range_sorted. Qed.

Lemma elem_of_group (k e i : Z) :
  i ∈ group k e <-> (valid_at this i = true /\ eraseCount_at this i = e) /\ 0 <= i < k.
Proof. unfold group. now rewrite list_elem_of_filter, elem_of_range. Qed.

Lemma group_succ (k e : Z) :
  0 <= k ->
  group (k + 1) e =
    group k e ++ (if decide (valid_at this k = true /\ eraseCount_at this k = e)
                  then [k] else []).
Proof.
  intros Hk. unfold group. rewrite range_snoc, filter_app by lia. reflexivity.
Qed.

Lemma collect_all (k : nat) :
  Z.of_nat k <= nBlocks this ->
  exists blocks eraseCounts,
    for_each (collect_block this) (range 0 (Z.of_nat k)) (∅, []) = Ok (blocks, eraseCounts) /\
    (forall e, blocks !! e =
               if decide (group (Z.of_nat k) e = []) then None
               else Some (group (Z.of_nat k) e)) /\
    NoDup eraseCounts /\
    (forall e, e ∈ eraseCounts <-> group (Z.of_nat k) e <> []).
Proof.
  induction k as [|k IH]; intros Hk.
  - exists ∅, []. split; [reflexivity|]. split; [|split].
    + intros e. rewrite lookup_empty. now rewrite decide_True by reflexivity.
    + constructor.
    + intros e. split; [intros H; inversion H | intros H; now contradiction H].
  - destruct IH as (blocks & ecs & Hrun & Hlook & Hnd & Hin); [lia|].
    replace (Z.of_nat (S k)) with (Z.of_nat k + 1) by lia.
    rewrite range_snoc, for_each_app, Hrun by lia. bind_step. simpl for_each.
    destruct (catalogue_full (Z.of_nat k) ltac:(lia)) as [b Hb].
    unfold collect_block. rewrite Hb. simpl get_defined. bind_step.
    assert (Hv : valid_at this (Z.of_nat k) = DataFlashBlock.isValid b)
      by (unfold valid_at; now rewrite Hb).
    assert (He : eraseCount_at this (Z.of_nat k) = DataFlashBlock.eraseCount b)
      by (unfold eraseCount_at; now rewrite Hb).
    destruct (DataFlashBlock.isValid b) eqn:Eval; cbn [negb]; cbv iota.
    + set (ec := DataFlashBlock.eraseCount b) in *.
      assert (Hgec : group (Z.of_nat k + 1) ec = group (Z.of_nat k) ec ++ [Z.of_nat k])
        by (rewrite group_succ by lia; now rewrite decide_True by auto).
      assert (Hgne : forall e, e <> ec -> group (Z.of_nat k + 1) e = group (Z.of_nat k) e).
      { intros e Hne. rewrite group_succ by lia.
        rewrite decide_False by (intros [_ ?]; congruence). apply app_nil_r. }
      pose proof (Hlook ec) as Hec.
      destruct (decide (group (Z.of_nat k) ec = [])) as [Hnil|Hnn].
      * rewrite Hec. cbv beta iota. rewrite lookup_insert_eq. simpl get_defined. bind_step.
        rewrite insert_insert_eq.
        eexists _, _. split; [reflexivity|]. split; [|split].
        -- intros e. destruct (Z.eq_dec ec e) as [Heq|Hne]; [subst e|].
           ++ rewrite lookup_insert_eq, Hgec, Hnil.
              now rewrite decide_False by discriminate.
           ++ rewrite lookup_insert_ne, Hgne by congruence. apply Hlook.
        -- apply NoDup_app. split; [assumption|]. split; [|apply NoDup_singleton].
           intros e He' Hs. apply list_elem_of_singleton in Hs. subst e.
           now apply Hin in He'.
        -- intros e. rewrite elem_of_app, list_elem_of_singleton, Hin.
           destruct (Z.eq_dec e ec) as [->|Hne].
           ++ rewrite Hgec, Hnil. split; [discriminate | auto].
           ++ rewrite Hgne by assumption. tauto.
      * rewrite Hec. cbv beta iota. rewrite Hec. simpl get_defined. bind_step.
        eexists _, _. split; [reflexivity|]. split; [|split].
        -- intros e. destruct (Z.eq_dec ec e) as [Heq|Hne]; [subst e|].
           ++ rewrite lookup_insert_eq, Hgec.
              rewrite decide_False; [reflexivity|].
              intros H. now apply app_eq_nil in H as [_ ?].
           ++ rewrite lookup_insert_ne, Hgne by congruence. apply Hlook.
        -- assumption.
        -- intros e. rewrite Hin. destruct (Z.eq_dec e ec) as [->|Hne].
           ++ rewrite Hgec. split; [|auto].
              intros _ H. now apply app_eq_nil in H as [_ ?].
           ++ now rewrite Hgne by assumption.
    + assert (Hg : forall e, group (Z.of_nat k + 1) e = group (Z.of_nat k) e).
      { intros e. rewrite group_succ by lia.
        rewrite decide_False by (intros [? _]; congruence). apply app_nil_r. }
      exists blocks, ecs. split; [reflexivity|]. split; [|split].
      * intros e. rewrite Hg. apply Hlook.
      * assumption.
      * intros e. rewrite Hg. apply Hin.
Qed.

Lemma concat_groups (blocks : gmap Z (list Z)) (G : Z -> list Z) (E acc : list Z) :
  (forall e, e ∈ E -> blocks !! e = Some (G e)) ->
  (forall e, StronglySorted Z.lt (G e)) ->
  for_each (fun eraseNum finalBlockOrder =>
              l ← get_defined (blocks !! eraseNum);
              Ok (finalBlockOrder ++ sort_numbers l)) E acc
  = Ok (acc ++ concat (map G E)).
Proof.
  intros Hb Hs. revert acc. induction E as [|e E IH]; intros acc; simpl.
  - now rewrite app_nil_r.
  - rewrite Hb by constructor. simpl get_defined. bind_step.
    rewrite sort_numbers_sorted by apply Hs.
    rewrite IH by (intros; apply Hb; now constructor).
    now rewrite app_assoc.
Qed.

Lemma groups_in_order (n : Z) (E : list Z) :
  StronglySorted Z.lt E ->
  StronglySorted (erase_order this) (concat (map (group n) E)).
Proof.
  induction 1 as [|e E HE IH He]; simpl; [constructor|].
  apply StronglySorted_app_2; [| |exact IH].
  - intros x y Hx Hy. apply elem_of_group in Hx as [[_ Hx] _].
    apply list_elem_of_In, in_concat in Hy as (l & Hl & Hy).
    apply in_map_iff in Hl as (e' & <- & He').
    apply list_elem_of_In, elem_of_group in Hy as [[_ Hy] _].
    rewrite Forall_forall in He. apply list_elem_of_In, He in He'.
    left. lia.
  - eapply StronglySorted_weaken; [|apply group_sorted].
    intros x y Hx Hy Hlt.
    apply elem_of_group in Hx as [[_ Hx] _]. apply elem_of_group in Hy as [[_ Hy] _].
    right. split; [congruence | assumption].
Qed.

Lemma ordered_list_spec :
  0 <= nBlocks this ->
  exists l,
    getActiveBlocksOrderedList this = Ok l /\
    (forall i, i ∈ l <-> 0 <= i < nBlocks this /\ valid_at this i = true) /\
    NoDup l /\
    StronglySorted (erase_order this) l.
Proof.
  intros Hn.
  destruct (collect_all (Z.to_nat (nBlocks this))) as (blocks & ecs & Hrun & Hlook & Hnd & Hin);
    [lia|].
  rewrite Z2Nat.id in Hrun, Hlook, Hin by lia.
  set (n := nBlocks this) in *.
  set (E := sort_numbers ecs).
  assert (HEp : E ≡ₚ ecs) by apply merge_sort_Permutation.
  assert (HEs : StronglySorted Z.lt E).
  { apply StronglySorted_le_lt.
    - now rewrite HEp.
    - apply StronglySorted_merge_sort; apply _. }
  assert (Hsorted : StronglySorted (erase_order this) (concat (map (group n) E)))
    by now apply groups_in_order.
  exists (concat (map (group n) E)).
  split; [|split; [|split]].
  - unfold getActiveBlocksOrderedList. fold n. rewrite Hrun. bind_step. fold E.
    rewrite (concat_groups blocks (group n) E []); [reflexivity | | apply group_sorted].
    intros e He. rewrite HEp in He. apply Hin in He.
    rewrite Hlook. now rewrite decide_False.
  - intros i. rewrite list_elem_of_In, in_concat. split.
    + intros (l & Hl & Hi). apply in_map_iff in Hl as (e & <- & _).
      apply list_elem_of_In, elem_of_group in Hi. tauto.
    + intros [Hi Hv]. exists (group n (eraseCount_at this i)).
      assert (Hig : i ∈ group n (eraseCount_at this i)) by (apply elem_of_group; auto).
      split; [|now apply list_elem_of_In].
      apply in_map. apply list_elem_of_In. rewrite HEp. apply Hin.
      intros Hnil. rewrite Hnil in Hig. inversion Hig.
  - eapply StronglySorted_NoDup; [|exact Hsorted].
    unfold erase_order. intros x. lia.
  - exact Hsorted.
Qed.

End EraseOrder.

(** C2.  For every block catalogue, the erase-order resolver returns exactly
    the indices of the valid blocks, each once, arranged so that of any two
    of them the one coming first has the lower erase counter or, when the
    counters are equal, the lower index: the indices are grouped by erase
    counter, the counters ascending, and ascending inside each group. *)
Theorem getActiveBlocksOrderedList_order (this : NecEmulator) :
  0 <= nBlocks this ->
  (forall i, 0 <= i < nBlocks this -> is_Some (blockData this !! i)) ->
  exists l,
    getActiveBlocksOrderedList this = Ok l /\
    (forall i, i ∈ l <-> 0 <= i < nBlocks this /\ valid_at this i = true) /\
    NoDup l /\
    StronglySorted (erase_order this) l.
Proof.
  intros Hn Hfull. now apply ordered_list_spec.
Qed.

Lemma getActiveBlocksOrderedList_order_witness :
  exists l,
    getActiveBlocksOrderedList Samples.catalogue4 = Ok l /\
    (forall i, i ∈ l <-> 0 <= i < nBlocks Samples.catalogue4 /\
                         valid_at Samples.catalogue4 i = true) /\
    NoDup l /\
    StronglySorted (erase_order Samples.catalogue4) l /\
    l = [2; 0; 3].
Proof.
  destruct (getActiveBlocksOrderedList_order Samples.catalogue4) as (l & Hl & Hin & Hnd & Hs).
  - vm_compute. discriminate.
  - intros i Hi. change (nBlocks Samples.catalogue4) with 4 in Hi.
    assert (Hc : i = 0 \/ i = 1 \/ i = 2 \/ i = 3) by lia.
    destruct Hc as [-> | [-> | [-> | ->]]]; vm_compute; eauto.
  - exists l. split; [exact Hl|]. split; [exact Hin|].
    split; [exact Hnd|]. split; [exact Hs|].
    vm_compute in Hl. congruence.
Defined.

(** ** Family A: the checksum of a record *)

Lemma js_and_0xffff_range (w : Z) : 0 <= js_and w 0xffff <= 0xffff.
Proof.
  change 0xffff with (2 ^ 16 - 1) at 1 2. rewrite js_and_low_bits by lia.
  pose proof (Z.mod_pos_bound w (2 ^ 16) eq_refl). lia.
Qed.

Lemma js_shr_0 (z : Z) : js_shr z 0 = z mod 2 ^ 32.
Proof. unfold js_shr, toUint32. apply Z.shiftr_0_r. Qed.

Lemma rolling_from (data : list Z) (c : Z) :
  data <> [] ->
  fold_left (fun cks word => js_shr (cks - word) 0) data c
  = (c - sum_words data) mod 2 ^ 32.
Proof.
  revert c. induction data as [|w data IH]; intros c Hne; [contradiction|].
  simpl. rewrite js_shr_0. destruct data as [|w' data].
  - simpl. f_equal. lia.
  - rewrite IH by discriminate.
    rewrite Zminus_mod_idemp_l. f_equal. simpl. lia.
Qed.

Lemma rolling_checksum_spec (id : Z) (data : list Z) :
  0 <= id <= 0xffffffff ->
  V850e2.rolling_checksum id data = record_checksum id data.
Proof.
  intros Hid. unfold V850e2.rolling_checksum, record_checksum.
  destruct data as [|w data].
  - simpl. rewrite Z.mod_small; lia.
  - now rewrite rolling_from by discriminate.
Qed.

(** A slot whose record cannot be resolved leaves the decoder as it is. *)
Lemma process_slot_skips (this : NecEmulator) (blockId block : Z) (nextBlock : option Z)
    (i word cksRef : Z) (b : DataFlashBlock.t) (e : Exception) :
  blockData this !! block = Some b ->
  readUint32 (DataFlashBlock.buf b) (i * 0x10 + 0x08) true = Ok cksRef ->
  V850e2.readDataEntry this (js_sar word 16) (js_and word 0xffff) cksRef
    (DataFlashBlock.rwp b) nextBlock = Err e ->
  V850e2.process_slot this blockId block nextBlock i word = Ok this.
Proof.
  intros Hb Hcks Hread. unfold V850e2.process_slot.
  rewrite Hb. simpl get_defined. bind_step. rewrite Hcks. bind_step.
  rewrite Hread. reflexivity.
Qed.

Lemma slot_loop_skips (fuel : nat) (this : NecEmulator) (blockId block : Z)
    (nextBlock : option Z) (i word : Z) :
  word <> V850e2.REF_END_FLAG ->
  V850e2.process_slot this blockId block nextBlock i word = Ok this ->
  V850e2.slot_loop fuel this blockId block nextBlock i word =
    V850e2.next_slot this block i (Some (Ok this)) (fun e => Some (Err e))
      (fun i word =>
         match fuel with
         | O => None
         | S fuel' => V850e2.slot_loop fuel' this blockId block nextBlock i word
         end).
Proof.
  intros Hw Hp. destruct fuel; simpl; rewrite Hp;
    (destruct (word =? V850e2.REF_END_FLAG) eqn:E; [zbool; contradiction | reflexivity]).
Qed.

(** C3, as the code has it.  For a reference slot whose record words [data]
    were accumulated, the checksum computed is 0xFFFFFFFF minus the id minus
    every accumulated word, modulo 2^32; when it equals the checksum word of
    the slot the record is resolved to [data]; when it does not, the
    resolution fails with the checksum error, the slot leaves the decoder,
    and so the result map, as they were (an entry that an earlier slot
    stored for the same id stays), and the walk goes on to the next slot. *)
Theorem checksum_decides_slot (this : NecEmulator) (blockId block : Z)
    (nextBlock : option Z) (i word cksRef w0 : Z) (b : DataFlashBlock.t) (data : list Z) :
  let widx := js_sar word 16 in
  let id := js_and word 0xffff in
  let fixL := ceil_div (js_and w0 0xffff) 4 in
  blockData this !! block = Some b ->
  readUint32 (DataFlashBlock.buf b) (i * 0x10 + 0x08) true = Ok cksRef ->
  readUint32 (dfBuffer this) (widx * 8) true = Ok w0 ->
  V850e2.entry_loop this widx id (DataFlashBlock.rwp b) nextBlock fixL
    (Z.to_nat fixL - 1) 0 [] = Ok data ->
  V850e2.rolling_checksum id data = record_checksum id data /\
  (record_checksum id data = cksRef ->
   V850e2.readDataEntry this widx id cksRef (DataFlashBlock.rwp b) nextBlock = Ok data) /\
  (record_checksum id data <> cksRef ->
   V850e2.readDataEntry this widx id cksRef (DataFlashBlock.rwp b) nextBlock
     = Err (Error_checksum id (widx * 8)) /\
   V850e2.process_slot this blockId block nextBlock i word = Ok this /\
   forall fuel, word <> V850e2.REF_END_FLAG ->
     V850e2.slot_loop fuel this blockId block nextBlock i word =
       V850e2.next_slot this block i (Some (Ok this)) (fun e => Some (Err e))
         (fun i word =>
            match fuel with
            | O => None
            | S fuel' => V850e2.slot_loop fuel' this blockId block nextBlock i word
            end)).
Proof.
  intros widx id fixL Hb Hcks Hw0 Hdata.
  assert (Hsum : V850e2.rolling_checksum id data = record_checksum id data).
  { apply rolling_checksum_spec. pose proof (js_and_0xffff_range word). unfold id. lia. }
  assert (Hread : V850e2.readDataEntry this widx id cksRef (DataFlashBlock.rwp b) nextBlock
                  = if negb (record_checksum id data =? cksRef)
                    then Err (Error_checksum id (widx * 8)) else Ok data).
  { unfold V850e2.readDataEntry. rewrite Hw0. bind_step. fold fixL.
    rewrite Hdata. bind_step. now rewrite Hsum. }
  split; [exact Hsum|]. split.
  - intros Heq. rewrite Hread. apply Z.eqb_eq in Heq. now rewrite Heq.
  - intros Hne. apply Z.eqb_neq in Hne. rewrite Hne in Hread. simpl in Hread.
    assert (Hskip : V850e2.process_slot this blockId block nextBlock i word = Ok this)
      by (eapply process_slot_skips; eauto).
    split; [exact Hread|]. split; [exact Hskip|].
    intros fuel Hw. now apply slot_loop_skips.
Qed.

Lemma checksum_decides_slot_witness :
  let this := Samples.scannedA Samples.imageA_checksum in
  let b := Samples.block_of this 0 in
  let word := 0x01fe0005 in
  record_checksum (js_and word 0xffff) [4] <> 0 /\
  V850e2.readDataEntry this (js_sar word 16) (js_and word 0xffff) 0
    (DataFlashBlock.rwp b) None
    = Err (Error_checksum (js_and word 0xffff) (js_sar word 16 * 8)) /\
  V850e2.process_slot this 0 0 None 5 word = Ok this.
Proof.
  intros this b word.
  assert (H1 : blockData this !! 0 = Some b) by (vm_compute; reflexivity).
  assert (H2 : readUint32 (DataFlashBlock.buf b) (5 * 0x10 + 0x08) true = Ok 0)
    by (vm_compute; reflexivity).
  assert (H3 : readUint32 (dfBuffer this) (js_sar word 16 * 8) true = Ok 4)
    by (vm_compute; reflexivity).
  assert (H4 : V850e2.entry_loop this (js_sar word 16) (js_and word 0xffff)
                 (DataFlashBlock.rwp b) None (ceil_div (js_and 4 0xffff) 4)
                 (Z.to_nat (ceil_div (js_and 4 0xffff) 4) - 1) 0 [] = Ok [4])
    by (vm_compute; reflexivity).
  assert (Hne : record_checksum (js_and word 0xffff) [4] <> 0)
    by (vm_compute; discriminate).
  pose proof (checksum_decides_slot this 0 0 None 5 word 0 4 b [4] H1 H2 H3 H4) as H.
  cbv zeta in H. destruct H as (_ & _ & H). destruct (H Hne) as (Hr & Hp & _).
  split; [exact Hne|]. split; [exact Hr | exact Hp].
Defined.

(** C3 as stated fails on [imageA_checksum]: the slot at 0x50, for id 5, has
    its record accumulated and a checksum word that does not match, yet id 5
    is in the result, with the record of the slot at 0x40. *)
Lemma checksum_mismatch_id_present_counterexample :
  exists this entry,
    V850e2.Emu_V850e2_new 256 Samples.imageA_checksum = Some (Ok this) /\
    readUint32 (DataFlashBlock.buf (Samples.block_of this 0)) 0x50 true = Ok 0x01fe0005 /\
    readUint32 (DataFlashBlock.buf (Samples.block_of this 0)) 0x58 true = Ok 0 /\
    V850e2.entry_loop this 0x1fe 5 (DataFlashBlock.rwp (Samples.block_of this 0)) None
      1 0 0 [] = Ok [4] /\
    V850e2.rolling_checksum 5 [4] = 0xfffffff6 /\
    V850e2.readDataEntry this 0x1fe 5 0 (DataFlashBlock.rwp (Samples.block_of this 0)) None
      = Err (Error_checksum 5 0xff0) /\
    eepData this !! 5 = Some entry /\
    EepData.addr entry = 0x40 /\ EepData.data entry = [4].
Proof.
  eexists _, _.
  split; [vm_compute; reflexivity|].
  split; [vm_compute; reflexivity|].
  split; [vm_compute; reflexivity|].
  split; [vm_compute; reflexivity|].
  split; [vm_compute; reflexivity|].
  split; [vm_compute; reflexivity|].
  split; [vm_compute; reflexivity|].
  split; vm_compute; reflexivity.
Qed.

(** ** Family A: records that reach the write pointer *)

Lemma range_cons (a b : Z) : a < b -> range a b = a :: range (a + 1) b.
Proof.
  intros H. unfold range.
  replace (Z.to_nat (b - a)) with (S (Z.to_nat (b - (a + 1)))) by lia.
  simpl. rewrite <- seq_shift, map_map. f_equal; [lia|].
  apply map_ext. intros k. lia.
Qed.

Lemma readUint32_at (buf : Buffer) (a : Z) :
  0 <= a -> a + 4 <= buf_length buf ->
  readUint32 buf a true = Ok (word_at buf (Z.to_nat a)).
Proof.
  intros H0 H4. rewrite <- (Z2Nat.id a) at 1 by lia.
  apply readUint32_in_range. unfold buf_length in H4. lia.
Qed.

Lemma overlap_loop_run (blockBuf : Buffer) (m : nat) (ofs : Z) (endData : list Z) :
  0 <= ofs ->
  8 * (ofs + Z.of_nat m + 1) <= buf_length blockBuf ->
  V850e2.overlap_loop blockBuf m ofs endData
  = Ok (endData ++ successor_words blockBuf ofs (Z.of_nat m + 1)).
Proof.
  revert ofs endData. induction m as [|m IH]; intros ofs endData H0 Hlen.
  - simpl. rewrite readUint32_at by lia. bind_step.
    unfold successor_words. rewrite range_cons, range_nil by lia. reflexivity.
  - cbn [V850e2.overlap_loop]. rewrite readUint32_at by lia. bind_step.
    rewrite IH by lia. unfold successor_words.
    rewrite (range_cons ofs) by lia. rewrite <- app_assoc. simpl.
    replace (ofs + 1 + (Z.of_nat m + 1)) with (ofs + (Z.of_nat (S m) + 1)) by lia.
    reflexivity.
Qed.

Lemma getOverlapData_run (blockBuf : Buffer) (fixL startL : Z) :
  8 * Z.max 1 (fixL - startL) <= buf_length blockBuf ->
  V850e2.getOverlapData blockBuf fixL startL
  = Ok (successor_words blockBuf 0 (Z.max 1 (fixL - startL))).
Proof.
  intros Hlen. unfold V850e2.getOverlapData.
  rewrite overlap_loop_run by lia. simpl app.
  replace (Z.of_nat (Z.to_nat (fixL - startL) - 1) + 1) with (Z.max 1 (fixL - startL)) by lia.
  reflexivity.
Qed.

Lemma entry_loop_run (this : NecEmulator) (widx id rwp : Z) (nextBlock : option Z)
    (fixL : Z) (k n : nat) (ofs : Z) (data : list Z) :
  (k <= n)%nat ->
  (forall j, ofs <= j < ofs + Z.of_nat k ->
     (widx - j) * 8 <> rwp /\ 0 <= (widx - j) * 8 /\
     (widx - j) * 8 + 4 <= buf_length (dfBuffer this)) ->
  (widx - (ofs + Z.of_nat k)) * 8 = rwp ->
  V850e2.entry_loop this widx id rwp nextBlock fixL n ofs data
  = match nextBlock with
    | Some nb =>
        b ← get_defined (blockData this !! nb);
        finishingData ← V850e2.getOverlapData (DataFlashBlock.buf b) fixL
                          (Z.of_nat (length data) + Z.of_nat k);
        Ok (data ++ in_block_words (dfBuffer this) widx ofs (Z.of_nat k) ++ finishingData)
    | None => Err (RangeError_missing_next id)
    end.
Proof.
  revert n ofs data. induction k as [|k IH]; intros n ofs data Hkn Hwalk Hstop.
  - rewrite Z.add_0_r in Hstop.
    assert (Hhere : V850e2.entry_loop this widx id rwp nextBlock fixL n ofs data
                    = match nextBlock with
                      | Some nb =>
                          b ← get_defined (blockData this !! nb);
                          finishingData ← V850e2.getOverlapData (DataFlashBlock.buf b) fixL
                                            (Z.of_nat (length data));
                          Ok (data ++ finishingData)
                      | None => Err (RangeError_missing_next id)
                      end).
    { destruct n; simpl; rewrite Hstop, Z.eqb_refl; reflexivity. }
    rewrite Hhere. destruct nextBlock; [|reflexivity].
    rewrite Z.add_0_r. unfold in_block_words. rewrite range_nil by lia. reflexivity.
  - destruct n as [|n]; [lia|].
    destruct (Hwalk ofs ltac:(lia)) as (Hne & H0 & H4).
    cbn [V850e2.entry_loop]. apply Z.eqb_neq in Hne. rewrite Hne.
    rewrite readUint32_at by assumption. bind_step.
    rewrite (IH n (ofs + 1) _ ltac:(lia)).
    + destruct nextBlock; [|reflexivity].
      rewrite length_app. simpl length.
      replace (Z.of_nat (length data + 1) + Z.of_nat k)
        with (Z.of_nat (length data) + Z.of_nat (S k)) by lia.
      destruct (get_defined (blockData this !! z)) as [b'|e]; [|reflexivity]. bind_step.
      destruct (V850e2.getOverlapData _ _ _) as [fin|e]; [|reflexivity]. bind_step.
      f_equal. rewrite <- app_assoc. f_equal. unfold in_block_words.
      rewrite (range_cons ofs) by lia. simpl.
      replace (ofs + 1 + Z.of_nat k) with (ofs + Z.of_nat (S k)) by lia.
      reflexivity.
    + intros j Hj. apply Hwalk. lia.
    + rewrite <- Hstop. f_equal. lia.
Qed.

(** A record that arrives at the write pointer of its block after [k]
    words, for any successor that [readDataEntry] is given. *)
Lemma record_reaching_rwp_at (this : NecEmulator) (blockId block : Z)
    (nextBlock : option Z) (i word cksRef w0 k : Z) (b : DataFlashBlock.t) :
  let widx := js_sar word 16 in
  let id := js_and word 0xffff in
  let fixL := ceil_div (js_and w0 0xffff) 4 in
  let rwp := DataFlashBlock.rwp b in
  blockData this !! block = Some b ->
  readUint32 (DataFlashBlock.buf b) (i * 0x10 + 0x08) true = Ok cksRef ->
  readUint32 (dfBuffer this) (widx * 8) true = Ok w0 ->
  0 <= k < Z.max 1 fixL ->
  (forall j, 0 <= j < k ->
     (widx - j) * 8 <> rwp /\ 0 <= (widx - j) * 8 /\
     (widx - j) * 8 + 4 <= buf_length (dfBuffer this)) ->
  (widx - k) * 8 = rwp ->
  match nextBlock with
  | Some nb =>
      forall b',
        blockData this !! nb = Some b' ->
        8 * Z.max 1 (fixL - k) <= buf_length (DataFlashBlock.buf b') ->
        let data := in_block_words (dfBuffer this) widx 0 k ++
                    successor_words (DataFlashBlock.buf b') 0 (Z.max 1 (fixL - k)) in
        V850e2.entry_loop this widx id rwp nextBlock fixL (Z.to_nat fixL - 1) 0 [] = Ok data /\
        V850e2.readDataEntry this widx id cksRef rwp nextBlock
        = if record_checksum id data =? cksRef then Ok data
          else Err (Error_checksum id (widx * 8))
  | None =>
      V850e2.readDataEntry this widx id cksRef rwp nextBlock
        = Err (RangeError_missing_next id) /\
      V850e2.process_slot this blockId block nextBlock i word = Ok this /\
      forall fuel, word <> V850e2.REF_END_FLAG ->
        V850e2.slot_loop fuel this blockId block nextBlock i word =
          V850e2.next_slot this block i (Some (Ok this)) (fun e => Some (Err e))
            (fun i word =>
               match fuel with
               | O => None
               | S fuel' => V850e2.slot_loop fuel' this blockId block nextBlock i word
               end)
  end.
Proof.
  intros widx id fixL rwp Hb Hcks Hw0 Hk Hwalk Hstop.
  assert (Hwalk' : forall j, 0 <= j < 0 + Z.of_nat (Z.to_nat k) ->
            (widx - j) * 8 <> rwp /\ 0 <= (widx - j) * 8 /\
            (widx - j) * 8 + 4 <= buf_length (dfBuffer this))
    by (intros j Hj; apply Hwalk; lia).
  assert (Hstop' : (widx - (0 + Z.of_nat (Z.to_nat k))) * 8 = rwp)
    by (rewrite <- Hstop; f_equal; lia).
  pose proof (entry_loop_run this widx id rwp nextBlock fixL (Z.to_nat k)
                (Z.to_nat fixL - 1) 0 [] ltac:(lia) Hwalk' Hstop') as Hrun.
  replace (Z.of_nat (Z.to_nat k)) with k in Hrun by lia.
  destruct nextBlock as [nb|].
  - intros b' Hb' Hlen data.
    rewrite Hb' in Hrun. simpl get_defined in Hrun. rewrite bind_Ok in Hrun.
    simpl length in Hrun. rewrite Z.add_0_l in Hrun.
    rewrite getOverlapData_run in Hrun by assumption. rewrite bind_Ok in Hrun.
    simpl app in Hrun. fold data in Hrun.
    split; [exact Hrun|].
    unfold V850e2.readDataEntry. rewrite Hw0. bind_step. fold fixL.
    rewrite Hrun. bind_step.
    rewrite rolling_checksum_spec
      by (pose proof (js_and_0xffff_range word); unfold id; lia).
    now destruct (record_checksum id data =? cksRef).
  - assert (Hread : V850e2.readDataEntry this widx id cksRef rwp None
                    = Err (RangeError_missing_next id)).
    { unfold V850e2.readDataEntry. rewrite Hw0. bind_step. fold fixL.
      now rewrite Hrun. }
    assert (Hskip : V850e2.process_slot this blockId block None i word = Ok this)
      by (eapply process_slot_skips; eauto).
    split; [exact Hread|]. split; [exact Hskip|].
    intros fuel Hw. now apply slot_loop_skips.
Qed.

Lemma populateBlockData_A_run (fuel : nat) (this : NecEmulator) (blockId block word0 : Z)
    (b : DataFlashBlock.t) :
  activeBlocks this !! Z.to_nat blockId = Some block ->
  blockData this !! block = Some b ->
  readUint32 (DataFlashBlock.buf b) 0x40 true = Ok word0 ->
  V850e2.populateBlockData fuel this blockId
  = V850e2.slot_loop fuel this blockId block
      (if bool_decide (Some block = last (activeBlocks this)) then None
       else activeBlocks this !! Z.to_nat (blockId + 1))
      4 word0.
Proof.
  intros Ha Hb Hw. unfold V850e2.populateBlockData.
  rewrite Ha. cbn [get_defined]. bind_step. rewrite Hb. cbn [get_defined]. bind_step.
  rewrite Hw. bind_step. reflexivity.
Qed.

(** C4, as the code has it.  [populateBlockData] walks the slots of the
    block of rank [blockId] in the erase order with, as successor, the
    block that follows in that order; the last block of the order has
    none.  Take a record of that block whose backward walk, after [k] words
    read in the image and before enough words are accumulated, arrives at
    the write pointer of the block.  With a successor block that holds the
    missing words, eight bytes for each, the words accumulated are the [k]
    words of the image followed by the missing ones, read backward from the
    end of the successor block (one every eight bytes, the first eight
    bytes before the end), and they make the record if their checksum
    matches.  Without a successor the resolution fails with the
    missing-block error, which the walk catches: the slot leaves the
    decoder, and so the result map, as they were (an entry that an earlier
    slot stored for the same id stays), and the walk goes on to the next
    slot. *)
Theorem record_reaching_rwp (this : NecEmulator) (blockId block : Z)
    (i word word0 cksRef w0 k : Z) (b : DataFlashBlock.t) :
  let widx := js_sar word 16 in
  let id := js_and word 0xffff in
  let fixL := ceil_div (js_and w0 0xffff) 4 in
  let rwp := DataFlashBlock.rwp b in
  let nextBlock :=
    if bool_decide (Some block = last (activeBlocks this)) then None
    else activeBlocks this !! Z.to_nat (blockId + 1) in
  activeBlocks this !! Z.to_nat blockId = Some block ->
  blockData this !! block = Some b ->
  readUint32 (DataFlashBlock.buf b) 0x40 true = Ok word0 ->
  readUint32 (DataFlashBlock.buf b) (i * 0x10 + 0x08) true = Ok cksRef ->
  readUint32 (dfBuffer this) (widx * 8) true = Ok w0 ->
  0 <= k < Z.max 1 fixL ->
  (forall j, 0 <= j < k ->
     (widx - j) * 8 <> rwp /\ 0 <= (widx - j) * 8 /\
     (widx - j) * 8 + 4 <= buf_length (dfBuffer this)) ->
  (widx - k) * 8 = rwp ->
  (forall fuel,
     V850e2.populateBlockData fuel this blockId
     = V850e2.slot_loop fuel this blockId block nextBlock 4 word0) /\
  match nextBlock with
  | Some nb =>
      forall b',
        blockData this !! nb = Some b' ->
        8 * Z.max 1 (fixL - k) <= buf_length (DataFlashBlock.buf b') ->
        let data := in_block_words (dfBuffer this) widx 0 k ++
                    successor_words (DataFlashBlock.buf b') 0 (Z.max 1 (fixL - k)) in
        V850e2.entry_loop this widx id rwp nextBlock fixL (Z.to_nat fixL - 1) 0 [] = Ok data /\
        V850e2.readDataEntry this widx id cksRef rwp nextBlock
        = if record_checksum id data =? cksRef then Ok data
          else Err (Error_checksum id (widx * 8))
  | None =>
      V850e2.readDataEntry this widx id cksRef rwp nextBlock
        = Err (RangeError_missing_next id) /\
      V850e2.process_slot this blockId block nextBlock i word = Ok this /\
      forall fuel, word <> V850e2.REF_END_FLAG ->
        V850e2.slot_loop fuel this blockId block nextBlock i word =
          V850e2.next_slot this block i (Some (Ok this)) (fun e => Some (Err e))
            (fun i word =>
               match fuel with
               | O => None
               | S fuel' => V850e2.slot_loop fuel' this blockId block nextBlock i word
               end)
  end.
Proof.
  intros widx id fixL rwp nextBlock Hactive Hb Hword0 Hcks Hw0 Hk Hwalk Hstop.
  split.
  - intros fuel. now apply populateBlockData_A_run with (b := b).
  - pose proof (record_reaching_rwp_at this blockId block nextBlock i word cksRef w0 k b
                  Hb Hcks Hw0 Hk Hwalk Hstop) as H.
    cbv zeta in H. fold widx id fixL rwp in H.
    destruct nextBlock as [nb|]; exact H.
Qed.

Lemma record_reaching_rwp_witness :
  let this := Samples.scannedA Samples.imageA_overlap in
  let b := Samples.block_of this 0 in
  let b' := Samples.block_of this 1 in
  let word := 0x01010007 in
  let data := in_block_words (dfBuffer this) (js_sar word 16) 0 1 ++
              successor_words (DataFlashBlock.buf b') 0
                (Z.max 1 (ceil_div (js_and 0x0000000c 0xffff) 4 - 1)) in
  activeBlocks this = [0; 1] /\
  data = [0x0000000c; 0xaaaa0001; 0xbbbb0002] /\
  (forall fuel,
     V850e2.populateBlockData fuel this 0
     = V850e2.slot_loop fuel this 0 0 (Some 1) 4 word) /\
  V850e2.readDataEntry this (js_sar word 16) (js_and word 0xffff) 0x999affe9
    (DataFlashBlock.rwp b) (Some 1)
  = if record_checksum (js_and word 0xffff) data =? 0x999affe9 then Ok data
    else Err (Error_checksum (js_and word 0xffff) (js_sar word 16 * 8)).
Proof.
  intros this b b' word data.
  assert (H0 : activeBlocks this = [0; 1]) by (vm_compute; reflexivity).
  assert (Ha : activeBlocks this !! Z.to_nat 0 = Some 0) by (vm_compute; reflexivity).
  assert (Hn : (if bool_decide (Some 0 = last (activeBlocks this)) then None
                else activeBlocks this !! Z.to_nat (0 + 1)) = Some 1)
    by (vm_compute; reflexivity).
  assert (H1 : blockData this !! 0 = Some b) by (vm_compute; reflexivity).
  assert (Hw : readUint32 (DataFlashBlock.buf b) 0x40 true = Ok word)
    by (vm_compute; reflexivity).
  assert (H2 : readUint32 (DataFlashBlock.buf b) (4 * 0x10 + 0x08) true = Ok 0x999affe9)
    by (vm_compute; reflexivity).
  assert (H3 : readUint32 (dfBuffer this) (js_sar word 16 * 8) true = Ok 0x0000000c)
    by (vm_compute; reflexivity).
  assert (H4 : 0 <= 1 < Z.max 1 (ceil_div (js_and 0x0000000c 0xffff) 4))
    by (vm_compute; split; [discriminate | reflexivity]).
  assert (H5 : forall j, 0 <= j < 1 ->
            (js_sar word 16 - j) * 8 <> DataFlashBlock.rwp b /\
            0 <= (js_sar word 16 - j) * 8 /\
            (js_sar word 16 - j) * 8 + 4 <= buf_length (dfBuffer this)).
  { intros j Hj. assert (j = 0) by lia. subst j. vm_compute.
    repeat split; discriminate. }
  assert (H6 : (js_sar word 16 - 1) * 8 = DataFlashBlock.rwp b)
    by (vm_compute; reflexivity).
  assert (H7 : blockData this !! 1 = Some b') by (vm_compute; reflexivity).
  assert (H8 : 8 * Z.max 1 (ceil_div (js_and 0x0000000c 0xffff) 4 - 1)
               <= buf_length (DataFlashBlock.buf b'))
    by (vm_compute; discriminate).
  pose proof (record_reaching_rwp this 0 0 4 word word 0x999affe9 0x0000000c 1 b
                Ha H1 Hw H2 H3 H4 H5 H6) as H.
  cbv zeta in H. rewrite Hn in H. destruct H as [Hrun H].
  destruct (H b' H7 H8) as [_ Hread].
  split; [exact H0|]. split; [vm_compute; reflexivity|]. split; [exact Hrun | exact Hread].
Defined.

(** A record that misses more words than its successor block holds: the
    reads of [getOverlapData] before the start of the block have negative
    addresses, which [subarray] counts from the end of the block, so that
    the 513th word is the last word of the block again. *)
Lemma getOverlapData_wraps_round :
  let buf := DataFlashBlock.buf (Samples.block_of (Samples.scannedA Samples.imageA_overlap) 1) in
  exists fin,
    V850e2.getOverlapData buf 513 0 = Ok fin /\ length fin = 513%nat /\
    fin !! 0%nat = Some 0xaaaa0001 /\ fin !! 1%nat = Some 0xbbbb0002 /\
    fin !! 512%nat = Some 0xaaaa0001.
Proof.
  intros buf.
  exists (try_or (V850e2.getOverlapData buf 513 0) []).
  split; [vm_compute; reflexivity|]. split; [vm_compute; reflexivity|].
  split; [vm_compute; reflexivity|]. split; vm_compute; reflexivity.
Qed.

(** C4 as stated fails on [imageA_gap]: the record of the slot at 0x50, for
    id 5, starts at the write pointer of the only block, which has no
    successor; the resolution fails, yet id 5 is in the result, with the
    record of the slot at 0x40. *)
Lemma missing_successor_id_present_counterexample :
  exists this entry,
    V850e2.Emu_V850e2_new 256 Samples.imageA_gap = Some (Ok this) /\
    activeBlocks this = [0] /\
    readUint32 (DataFlashBlock.buf (Samples.block_of this 0)) 0x50 true = Ok 0x01000005 /\
    DataFlashBlock.rwp (Samples.block_of this 0) = 0x100 * 8 /\
    V850e2.readDataEntry this 0x100 5 0 (DataFlashBlock.rwp (Samples.block_of this 0)) None
      = Err (RangeError_missing_next 5) /\
    eepData this !! 5 = Some entry /\
    EepData.addr entry = 0x40 /\ EepData.data entry = [4].
Proof.
  eexists _, _.
  split; [vm_compute; reflexivity|].
  split; [vm_compute; reflexivity|].
  split; [vm_compute; reflexivity|].
  split; [vm_compute; reflexivity|].
  split; [vm_compute; reflexivity|].
  split; [vm_compute; reflexivity|].
  split; vm_compute; reflexivity.
Qed.

(** ** Copies between buffers *)

Lemma length_overwrite (tgt : Buffer) (pos : nat) (src : Buffer) :
  (pos + length src <= length tgt)%nat -> length (overwrite tgt pos src) = length tgt.
Proof.
  intros H. unfold overwrite. rewrite !length_app, length_take, length_drop. lia.
Qed.

Lemma lookup_overwrite (tgt : Buffer) (pos : nat) (src : Buffer) (p : nat) :
  (pos + length src <= length tgt)%nat ->
  overwrite tgt pos src !! p =
    if decide (pos <= p < pos + length src)%nat then src !! (p - pos)%nat else tgt !! p.
Proof.
  intros H. unfold overwrite.
  assert (Hlt : length (take pos tgt) = pos) by (rewrite length_take; lia).
  destruct (decide (pos <= p < pos + length src)%nat) as [Hin|Hout].
  - rewrite lookup_app_r by lia. rewrite Hlt. rewrite lookup_app_l by lia. reflexivity.
  - destruct (Nat.lt_ge_cases p pos) as [Hp|Hp].
    + rewrite lookup_app_l by lia. apply lookup_take_lt. lia.
    + rewrite lookup_app_r by lia. rewrite Hlt. rewrite lookup_app_r by lia.
      rewrite lookup_drop. f_equal. lia.
Qed.

(** What a copy that is not refused leaves in the target: [nb] bytes of the
    source from [sourceStart], written from [targetStart]. *)
Lemma Buffer_copy_spec (src tgt : Buffer) (ts ss se : Z) :
  0 <= ts -> 0 <= ss <= buf_length src -> 0 <= se ->
  let nb := Z.to_nat (Z.min (Z.min (se - ss) (buf_length tgt - ts)) (buf_length src - ss)) in
  exists r,
    Buffer_copy src tgt ts ss se = Ok r /\
    length r = length tgt /\
    forall p : nat,
      r !! p = if decide (Z.to_nat ts <= p < Z.to_nat ts + nb)%nat
               then src !! (Z.to_nat ss + (p - Z.to_nat ts))%nat
               else tgt !! p.
Proof.
  intros Hts Hss Hse nb. unfold Buffer_copy, buf_length in *.
  destruct (ts <? 0) eqn:E1; [zbool; lia|].
  destruct (ss <? 0) eqn:E2; [zbool; lia|].
  destruct (Z.of_nat (length src) <? ss) eqn:E3; [zbool; lia|].
  destruct (se <? 0) eqn:E4; [zbool; lia|]. cbn [orb]. cbv iota. zbool.
  destruct ((Z.of_nat (length tgt) <=? ts) || (se <=? ss)) eqn:E5.
  - exists tgt. split; [reflexivity|]. split; [reflexivity|].
    intros p. rewrite decide_False; [reflexivity|].
    apply orb_true_iff in E5 as [E5|E5]; zbool; lia.
  - apply orb_false_iff in E5 as [E5 E6]. zbool.
    fold nb.
    set (chunk := take nb (drop (Z.to_nat ss) src)).
    assert (Hc : length chunk = nb).
    { unfold chunk. rewrite length_take, length_drop. lia. }
    exists (overwrite tgt (Z.to_nat ts) chunk).
    split; [reflexivity|]. split; [apply length_overwrite; lia|].
    intros p. rewrite lookup_overwrite by lia. rewrite Hc.
    destruct (decide (Z.to_nat ts <= p < Z.to_nat ts + nb)%nat); [|reflexivity].
    unfold chunk. rewrite lookup_take_lt by lia. now rewrite lookup_drop.
Qed.

Lemma buf_num_lookup (b1 b2 : Buffer) (p1 p2 : nat) :
  b1 !! p1 = b2 !! p2 -> buf_num b1 (Z.of_nat p1) = buf_num b2 (Z.of_nat p2).
Proof.
  intros H. unfold buf_num, buf_get.
  destruct (Z.of_nat p1 <? 0) eqn:E1; [zbool; lia|].
  destruct (Z.of_nat p2 <? 0) eqn:E2; [zbool; lia|].
  now rewrite !Nat2Z.id, H.
Qed.

Lemma word_at_lookup (b1 b2 : Buffer) (a1 a2 : nat) :
  (forall j, (j < 4)%nat -> b1 !! (a1 + j)%nat = b2 !! (a2 + j)%nat) ->
  word_at b1 a1 = word_at b2 a2.
Proof.
  intros H. unfold word_at.
  pose proof (buf_num_lookup _ _ _ _ (H 0%nat ltac:(lia))) as H0.
  pose proof (buf_num_lookup _ _ _ _ (H 1%nat ltac:(lia))) as H1.
  pose proof (buf_num_lookup _ _ _ _ (H 2%nat ltac:(lia))) as H2.
  pose proof (buf_num_lookup _ _ _ _ (H 3%nat ltac:(lia))) as H3.
  rewrite !Nat2Z.inj_add in H0, H1, H2, H3.
  change (Z.of_nat 0) with 0 in H0. change (Z.of_nat 1) with 1 in H1.
  change (Z.of_nat 2) with 2 in H2. change (Z.of_nat 3) with 3 in H3.
  rewrite !Z.add_0_r in H0. now rewrite H0, H1, H2, H3.
Qed.

Lemma word_at_range (b : Buffer) (a : nat) : 0 <= word_at b a < 2 ^ 32.
Proof.
  unfold word_at, le_word.
  pose proof (buf_num_range b (Z.of_nat a)).
  pose proof (buf_num_range b (Z.of_nat a + 1)).
  pose proof (buf_num_range b (Z.of_nat a + 2)).
  pose proof (buf_num_range b (Z.of_nat a + 3)). lia.
Qed.

(** ** Family B: loading the table *)

Lemma toUint32_nonneg (z : Z) : 0 <= toUint32 z.
Proof. unfold toUint32. apply Z.mod_pos_bound. lia. Qed.

Lemma readUint32_nonneg (buf : Buffer) (a : Z) (e : bool) (w : Z) :
  readUint32 buf a e = Ok w -> 0 <= w.
Proof.
  unfold readUint32. intros H. apply bind_Ok_inv in H as (buf' & _ & H).
  destruct (buf_length buf' <? a + 4); [discriminate|].
  inversion H; subst w; clear H.
  destruct e; cbn [map fold_left];
    repeat match goal with
      | |- context [toUint32 ?x] =>
          lazymatch goal with
          | _ : 0 <= toUint32 x |- _ => fail
          | _ => pose proof (toUint32_nonneg x)
          end
      end; lia.
Qed.

Lemma js_sar_16_unsigned (w : Z) :
  0 <= w < 2 ^ 32 ->
  js_sar w 16 = if w / 2 ^ 16 <? 2 ^ 15 then w / 2 ^ 16 else w / 2 ^ 16 - 2 ^ 16.
Proof.
  intros Hw. unfold js_sar. rewrite Z.shiftr_div_pow2 by lia.
  pose proof (Z.div_mod w (2 ^ 16) ltac:(lia)) as Hd.
  pose proof (Z.mod_pos_bound w (2 ^ 16) ltac:(lia)) as Hm.
  destruct (w / 2 ^ 16 <? 2 ^ 15) eqn:E; zbool.
  - rewrite toInt32_small; [reflexivity | lia].
  - assert (Hi : toInt32 w = w + (- 2 ^ 16) * 2 ^ 16).
    { unfold toInt32.
      replace (w + 2 ^ 31) with (w - 2 ^ 31 + 1 * 2 ^ 32) by lia.
      rewrite Z_mod_plus_full, Z.mod_small by lia. lia. }
    rewrite Hi, Z.div_add by lia. lia.
Qed.

(** A loop one round of which throws whatever the state, throws. *)
Lemma for_each_fails {I S : Type} (body : I -> S -> result S) (l : list I) (x : I) (s : S) :
  x ∈ l -> (forall s, exists e, body x s = Err e) -> exists e, for_each body l s = Err e.
Proof.
  revert s. induction l as [|i l IH]; intros s Hin Hx; [inversion Hin|].
  simpl. destruct (body i s) as [s'|e] eqn:E; [|eauto]. bind_step.
  apply elem_of_cons in Hin as [->|Hin].
  - destruct (Hx s) as [e He]. congruence.
  - now apply IH.
Qed.

Lemma elem_of_range_step4 (n i : Z) : 0 <= i < n -> 4 * i ∈ range_step 0 (4 * n) 4.
Proof.
  intros Hi. unfold range_step, ceil_div. apply list_elem_of_fmap.
  exists (Z.to_nat i). split; [lia|]. apply elem_of_seq.
  replace (- (4 * n - 0)) with ((- n) * 4) by lia. rewrite Z.div_mul by lia. lia.
Qed.

Lemma load_table_spec (cfBuf : Buffer) (t : RhTable.t) :
  0 <= RhTable.entries t ->
  0 <= RhTable.pointer_rom t <= buf_length cfBuf ->
  exists table,
    RH850.load_table cfBuf t = Ok table /\
    buf_length table = 4 * RhTable.entries t /\
    forall i, 0 <= i < RhTable.entries t ->
      RhTable.pointer_rom t + 4 * i + 4 <= buf_length cfBuf ->
      word_at table (Z.to_nat (4 * i)) / 2 ^ 16 = encoded_length cfBuf t i.
Proof.
  intros He Hp. unfold RH850.load_table, Buffer_alloc.
  destruct (RhTable.entries t * 4 <? 0) eqn:E; [zbool; lia|]. bind_step.
  destruct (Buffer_copy_spec cfBuf (repeat x00 (Z.to_nat (RhTable.entries t * 4))) 0
              (RhTable.pointer_rom t)
              (RhTable.pointer_rom t + RhTable.entries t * 4))
    as (table & Hcopy & Hlen & Hlook); try lia.
  exists table. split; [exact Hcopy|].
  rewrite repeat_length in Hlen. unfold buf_length in *.
  split; [lia|].
  intros i Hi Hin. unfold encoded_length. f_equal.
  apply word_at_lookup.
  intros j Hj. rewrite Hlook. rewrite repeat_length.
  rewrite decide_True by lia. f_equal. lia.
Qed.

Lemma add_stub_fails (table : Buffer) (i : Z) (eepData : gmap Z EepData.t) :
  0 <= i -> i + 4 <= buf_length table ->
  RH850.BLOCK_SIZE < word_at table (Z.to_nat i) / 2 ^ 16 ->
  exists e, RH850.add_stub table i eepData = Err e.
Proof.
  intros H0 H4 Hlen. unfold RH850.add_stub, RH850.BLOCK_SIZE in *.
  rewrite readUint32_at by assumption. bind_step.
  pose proof (word_at_range table (Z.to_nat i)) as Hr.
  rewrite js_sar_16_unsigned by assumption.
  set (L := word_at table (Z.to_nat i) / 2 ^ 16) in *.
  destruct (L <? 2 ^ 15) eqn:E; zbool.
  - unfold Buffer_alloc. destruct (L * 4 <? 0) eqn:E1; [zbool; lia|]. bind_step.
    destruct (0x800 <? L) eqn:E2; [eauto | zbool; lia].
  - assert (L < 2 ^ 16) by (apply Z.div_lt_upper_bound; lia).
    unfold Buffer_alloc. destruct ((L - 2 ^ 16) * 4 <? 0) eqn:E1; [|zbool; lia].
    bind_step. eauto.
Qed.

Lemma getDataTable_fields (cfBuf : Buffer) (tableHeaderAddr : Z) (t : RhTable.t) :
  RH850.getDataTable cfBuf tableHeaderAddr = Ok t ->
  0 <= RhTable.entries t /\ 0 <= RhTable.pointer_rom t.
Proof.
  unfold RH850.getDataTable. intros H.
  destruct (buf_length cfBuf <? tableHeaderAddr + 0x10); [discriminate|].
  apply bind_Ok_inv in H as (w0 & _ & H). apply bind_Ok_inv in H as (w0' & _ & H).
  apply bind_Ok_inv in H as (w1 & H1 & H). apply bind_Ok_inv in H as (w2 & _ & H).
  apply bind_Ok_inv in H as (w3 & _ & H). apply bind_Ok_inv in H as (w3' & _ & H).
  inversion H; subst t; clear H. simpl. split.
  - apply js_and_0xffff_range.
  - eapply readUint32_nonneg; eauto.
Qed.

Lemma populateDataInfoWTable_fails (cfBuf : Buffer) (t : RhTable.t) (this : NecEmulator)
    (i : Z) :
  0 <= RhTable.entries t -> 0 <= RhTable.pointer_rom t ->
  0 <= i < RhTable.entries t ->
  RhTable.pointer_rom t + 4 * i + 4 <= buf_length cfBuf ->
  RH850.BLOCK_SIZE < encoded_length cfBuf t i ->
  exists e, RH850.populateDataInfoWTable cfBuf t this = Err e.
Proof.
  intros He Hp Hi Hin Hlen. unfold RH850.populateDataInfoWTable.
  destruct (load_table_spec cfBuf t He ltac:(lia)) as (table & Htab & Htl & Hword).
  rewrite Htab. bind_step.
  destruct (for_each_fails (RH850.add_stub table) (range_step 0 (buf_length table) 4)
              (4 * i) (eepData this)) as [e Herr].
  - rewrite Htl. now apply elem_of_range_step4.
  - intros s. apply add_stub_fails; try lia. now rewrite Hword.
  - rewrite Herr. eauto.
Qed.

(** C8.  The construction of a family B decoder fails, and does so in the
    statements that come before the scan of the blocks, whenever the table
    header address plus the 16 bytes of the header exceeds the length of the
    code image, and whenever the header is read and some entry of the
    id/length table, lying in the code image, encodes a length above the
    block size. *)
Theorem table_errors_abort (fuel : nat) (dfBuf cfBuffer : Buffer) (tableHeaderAddr : Z) :
  (buf_length cfBuffer < tableHeaderAddr + 0x10 \/
   exists t i,
     RH850.getDataTable cfBuffer tableHeaderAddr = Ok t /\
     0 <= i < RhTable.entries t /\
     RhTable.pointer_rom t + 4 * i + 4 <= buf_length cfBuffer /\
     RH850.BLOCK_SIZE < encoded_length cfBuffer t i) ->
  exists e,
    RH850.load_tables dfBuf cfBuffer tableHeaderAddr = Err e /\
    RH850.build_catalogue dfBuf cfBuffer tableHeaderAddr = Err e /\
    RH850.Emu_RH850_new fuel dfBuf cfBuffer tableHeaderAddr = Some (Err e).
Proof.
  intros Hbad.
  assert (Hload : exists e, RH850.load_tables dfBuf cfBuffer tableHeaderAddr = Err e).
  { unfold RH850.load_tables.
    destruct (NecEmulator_new dfBuf RH850.BLOCK_SIZE) as [this|e]; [|eauto]. bind_step.
    destruct Hbad as [Hshort | (t & i & Ht & Hi & Hin & Hlen)].
    - unfold RH850.getDataTable. apply Z.ltb_lt in Hshort. rewrite Hshort. eauto.
    - rewrite Ht. bind_step.
      destruct (getDataTable_fields _ _ _ Ht) as [He Hp].
      eapply populateDataInfoWTable_fails; eauto. }
  destruct Hload as [e He]. exists e. split; [exact He|].
  unfold RH850.Emu_RH850_new, RH850.build_catalogue. rewrite He. auto.
Qed.

Lemma table_errors_abort_witness :
  exists e,
    RH850.load_tables Samples.imageB_empty (Samples.codeflash 0x900) 0 = Err e /\
    RH850.build_catalogue Samples.imageB_empty (Samples.codeflash 0x900) 0 = Err e /\
    RH850.Emu_RH850_new 256 Samples.imageB_empty (Samples.codeflash 0x900) 0 = Some (Err e).
Proof.
  apply (table_errors_abort 256 Samples.imageB_empty (Samples.codeflash 0x900) 0).
  right. eexists _, 0.
  split; [vm_compute; reflexivity|].
  vm_compute. repeat split; discriminate || reflexivity.
Defined.

(** ** The bytes of a record entry *)

Lemma to_uint8_congr (a b : Z) : a mod 256 = b mod 256 -> to_uint8 a = to_uint8 b.
Proof. intros H. unfold to_uint8. now rewrite H. Qed.

Lemma div_mod_swap (w a b : Z) : 0 < a -> 0 < b -> (w mod (a * b)) / a = (w / a) mod b.
Proof.
  intros Ha Hb. rewrite Z.rem_mul_r by lia.
  rewrite Z.add_comm, Z.mul_comm, Z.div_add_l by lia.
  rewrite (Z.div_small (w mod a)) by (apply Z.mod_pos_bound; lia). lia.
Qed.

(** The word that [int32ToWord] makes, little-endian, of any number it
    accepts. *)
Lemma int32ToWord_le (w : Z) (word : Buffer) :
  int32ToWord w true = Ok word -> word = le_bytes w.
Proof.
  unfold int32ToWord. destruct ((w <? -2147483648) || (0xffffffff <? w)); [discriminate|].
  intros H. inversion H; subst word; clear H. unfold le_bytes.
  change 0xff with (2 ^ 8 - 1). change 0xffff with (2 ^ 16 - 1).
  change 0xffffff with (2 ^ 24 - 1).
  rewrite !js_and_low_bits by lia. unfold js_shr, toUint32.
  rewrite !Z.shiftr_div_pow2 by lia.
  assert (H16 : 0 <= w mod 2 ^ 16 < 2 ^ 16) by (apply Z.mod_pos_bound; lia).
  assert (H24 : 0 <= w mod 2 ^ 24 < 2 ^ 24) by (apply Z.mod_pos_bound; lia).
  rewrite (Z.mod_small (w mod 2 ^ 16)) by lia.
  rewrite (Z.mod_small (w mod 2 ^ 24)) by lia.
  f_equal; [|f_equal; [|f_equal; [|f_equal]]]; apply to_uint8_congr.
  - change 256 with (2 ^ 8). apply Zmod_mod.
  - change (2 ^ 16) with (2 ^ 8 * 2 ^ 8). rewrite div_mod_swap by lia.
    change 256 with (2 ^ 8). apply Zmod_mod.
  - change (2 ^ 24) with (2 ^ 16 * 2 ^ 8). rewrite div_mod_swap by lia.
    change 256 with (2 ^ 8). apply Zmod_mod.
  - change (2 ^ 32) with (2 ^ 24 * 2 ^ 8). rewrite div_mod_swap by lia.
    change 256 with (2 ^ 8). apply Zmod_mod.
Qed.

Lemma slice_eq (b1 b2 : Buffer) (a n : nat) :
  (forall p, (a <= p < a + n)%nat -> b1 !! p = b2 !! p) ->
  take n (drop a b1) = take n (drop a b2).
Proof.
  intros H. apply list_eq. intros i.
  destruct (Nat.lt_ge_cases i n) as [Hi|Hi].
  - rewrite !lookup_take_lt, !lookup_drop by lia. apply H. lia.
  - now rewrite !lookup_take_ge by lia.
Qed.

Lemma slice_is (b word : Buffer) (a : nat) :
  (forall i, (i < length word)%nat -> b !! (a + i)%nat = word !! i) ->
  take (length word) (drop a b) = word.
Proof.
  intros H. apply list_eq. intros i.
  destruct (Nat.lt_ge_cases i (length word)) as [Hi|Hi].
  - rewrite lookup_take_lt, lookup_drop by lia. now apply H.
  - rewrite lookup_take_ge by lia. symmetry. now apply lookup_ge_None.
Qed.

Section Serialize.

Variable data : list Z.

(** The body of the loop that writes the words into the bytes buffer, the
    same in both families. *)
Let write_word (j : Z) (dataBuf : Buffer) : result Buffer :=
  w ← get_defined (data !! Z.to_nat j);
  word ← int32ToWord w true;
  Buffer_copy word dataBuf (j * 4) 0 (buf_length word).

Lemma write_word_spec (k : nat) (buf buf' : Buffer) :
  write_word (Z.of_nat k) buf = Ok buf' ->
  exists w,
    data !! k = Some w /\
    length buf' = length buf /\
    ((4 * k + 4 <= length buf)%nat -> take 4 (drop (4 * k) buf') = le_bytes w) /\
    forall p, (p < 4 * k \/ 4 * k + 4 <= p)%nat -> buf' !! p = buf !! p.
Proof.
  unfold write_word. rewrite Nat2Z.id. intros H.
  apply bind_Ok_inv in H as (w & Hw & H).
  destruct (data !! k) as [w'|] eqn:Ek; [|discriminate].
  inversion Hw; subst w'; clear Hw.
  apply bind_Ok_inv in H as (word & Hword & H).
  apply int32ToWord_le in Hword. subst word.
  destruct (Buffer_copy_spec (le_bytes w) buf (Z.of_nat k * 4) 0 (buf_length (le_bytes w)))
    as (r & Hcopy & Hlen & Hlook); try (unfold buf_length; simpl; lia).
  rewrite Hcopy in H. inversion H; subst r; clear H.
  exists w. split; [reflexivity|]. split; [exact Hlen|].
  change (buf_length (le_bytes w)) with 4 in Hlook. unfold buf_length in Hlook.
  replace (Z.to_nat (Z.of_nat k * 4)) with (4 * k)%nat in Hlook by lia.
  split.
  - intros Hfit. change 4%nat with (length (le_bytes w)) at 1.
    apply slice_is. intros i Hi. simpl in Hi.
    rewrite Hlook. rewrite decide_True by lia.
    f_equal. simpl. lia.
  - intros p Hp. rewrite Hlook. rewrite decide_False by lia. reflexivity.
Qed.

Lemma write_words_spec (k : nat) (buf0 buf : Buffer) :
  for_each write_word (range 0 (Z.of_nat k)) buf0 = Ok buf ->
  length buf = length buf0 /\
  (forall (j : nat) (w : Z),
     (j < k)%nat -> data !! j = Some w -> (4 * j + 4 <= length buf)%nat ->
     take 4 (drop (4 * j) buf) = le_bytes w) /\
  (forall j, (j < k)%nat -> is_Some (data !! j)).
Proof.
  revert buf. induction k as [|k IH]; intros buf Hrun.
  - simpl in Hrun. inversion Hrun; subst. split; [reflexivity|]. split; intros; lia.
  - replace (Z.of_nat (S k)) with (Z.of_nat k + 1) in Hrun by lia.
    rewrite range_snoc, for_each_app in Hrun by lia.
    apply bind_Ok_inv in Hrun as (buf1 & H1 & H2).
    simpl for_each in H2. apply bind_Ok_inv in H2 as (buf2 & H2 & H3).
    inversion H3; subst buf2; clear H3.
    destruct (IH _ H1) as (Hlen1 & Hsl1 & Hdef1).
    destruct (write_word_spec k buf1 buf H2) as (w & Hw & Hlen & Hfit & Hout).
    split; [congruence|]. split.
    + intros j w' Hj Hw' Hfit'.
      destruct (Nat.eq_dec j k) as [->|Hne].
      * assert (w' = w) by congruence. subst w'. apply Hfit. lia.
      * rewrite (slice_eq buf buf1) by (intros p Hp; apply Hout; lia).
        apply Hsl1; [lia | assumption | lia].
    + intros j Hj. destruct (Nat.eq_dec j k) as [->|Hne]; [eauto|].
      apply Hdef1. lia.
Qed.

End Serialize.

Lemma slices_concat (data : list Z) (buf : Buffer) :
  length buf = (4 * length data)%nat ->
  (forall (j : nat) (w : Z), data !! j = Some w -> take 4 (drop (4 * j) buf) = le_bytes w) ->
  buf = concat (map le_bytes data).
Proof.
  revert buf. induction data as [|w data IH]; intros buf Hlen Hsl.
  - simpl in Hlen. now apply nil_length_inv.
  - rewrite <- (take_drop 4 buf).
    change (concat (map le_bytes (w :: data)))
      with (le_bytes w ++ concat (map le_bytes data)).
    f_equal.
    + apply (Hsl 0%nat w). reflexivity.
    + apply IH.
      * rewrite length_drop. simpl length in Hlen. lia.
      * intros j w' Hj. rewrite drop_drop.
        replace (4 + 4 * j)%nat with (4 * S j)%nat by lia. now apply Hsl.
Qed.

Lemma words_to_buffer_exact (dataEntry : list Z) (dataBuf : Buffer) :
  V850e2.words_to_buffer dataEntry = Ok dataBuf ->
  length dataBuf = (4 * length dataEntry)%nat /\
  dataBuf = concat (map le_bytes dataEntry).
Proof.
  unfold V850e2.words_to_buffer, Buffer_alloc. intros H.
  destruct (Z.of_nat (length dataEntry) * 4 <? 0) eqn:E; [zbool; lia|].
  rewrite bind_Ok in H.
  apply write_words_spec in H as (Hlen & Hsl & _).
  rewrite repeat_length in Hlen.
  assert (Hl : length dataBuf = (4 * length dataEntry)%nat) by lia.
  split; [exact Hl|]. apply slices_concat; [exact Hl|].
  intros j w Hj. apply Hsl; [|exact Hj|].
  - now apply lookup_lt_Some in Hj.
  - apply lookup_lt_Some in Hj. lia.
Qed.

Lemma process_slot_exact (this this' : NecEmulator) (blockId block : Z)
    (nextBlock : option Z) (i word : Z) :
  all_exact this ->
  V850e2.process_slot this blockId block nextBlock i word = Ok this' ->
  all_exact this' /\ blockData this' = blockData this /\ blockSize this' = blockSize this.
Proof.
  intros Hinv H. unfold V850e2.process_slot in H.
  apply bind_Ok_inv in H as (b & _ & H). apply bind_Ok_inv in H as (cksRef & _ & H).
  destruct (negb (length (try_or _ []) =? 0)%nat); [|inversion H; subst; auto].
  apply bind_Ok_inv in H as (dataBuf & Hbuf & H). inversion H; subst this'; clear H.
  split; [|split; reflexivity].
  apply words_to_buffer_exact in Hbuf as [Hlen Hbytes].
  intros id e. simpl eepData.
  destruct (Z.eq_dec (js_and word 0xffff) id) as [Heq|Hne]; [subst id|].
  - rewrite lookup_insert_eq. intros He. inversion He; subst e; clear He.
    split; [|exact Hbytes]. cbn [EepData.dataBuf EepData.length].
    unfold buf_length. rewrite Hlen.
    unfold Qeq. simpl. lia.
  - rewrite lookup_insert_ne by assumption. apply Hinv.
Qed.

Lemma slot_loop_exact (fuel : nat) (this this' : NecEmulator) (blockId block : Z)
    (nextBlock : option Z) (i word : Z) :
  all_exact this ->
  V850e2.slot_loop fuel this blockId block nextBlock i word = Some (Ok this') ->
  all_exact this'.
Proof.
  revert this i word. induction fuel as [|fuel IH]; intros this i word Hinv H;
    simpl in H;
    (destruct (word =? V850e2.REF_END_FLAG); [inversion H; subst; exact Hinv|]);
    (destruct (V850e2.process_slot this blockId block nextBlock i word) as [this1|e] eqn:Ep;
       [|discriminate]);
    apply process_slot_exact in Ep as (Hinv1 & _ & _); try exact Hinv;
    unfold V850e2.next_slot in H;
    (destruct (get_defined (blockData this1 !! block)) as [b|e]; [|discriminate]);
    (destruct (readUint32 (DataFlashBlock.buf b) ((i + 1) * 0x10) true) as [w|e];
       [|discriminate]);
    (destruct (negb (DataFlashBlock.rwp b =? 0) && _);
       [inversion H; subst; exact Hinv1|]).
  - discriminate.
  - eapply IH; eauto.
Qed.

Lemma populateBlockData_exact (fuel : nat) (this this' : NecEmulator) (blockId : Z) :
  all_exact this ->
  V850e2.populateBlockData fuel this blockId = Some (Ok this') ->
  all_exact this'.
Proof.
  intros Hinv H. unfold V850e2.populateBlockData in H.
  destruct (_ ≫= _) as [[[block nextBlock] word]|e] in H; [|discriminate].
  eapply slot_loop_exact; eauto.
Qed.

Lemma populate_all_exact (fuel : nat) (ids : list Z) (this this' : NecEmulator) :
  all_exact this ->
  V850e2.populate_all fuel this ids = Some (Ok this') ->
  all_exact this'.
Proof.
  revert this. induction ids as [|i ids IH]; intros this Hinv H; simpl in H.
  - inversion H; subst. exact Hinv.
  - destruct (V850e2.populateBlockData fuel this i) as [[this1|e]|] eqn:Ep;
      try discriminate.
    eapply IH; [|exact H]. eapply populateBlockData_exact; eauto.
Qed.

Lemma build_catalogue_A_empty (dfBuf : Buffer) (this : NecEmulator) :
  V850e2.build_catalogue dfBuf = Ok this -> eepData this = ∅.
Proof.
  unfold V850e2.build_catalogue, NecEmulator_new. intros H.
  destruct (_ || _); [discriminate|]. rewrite bind_Ok in H.
  apply bind_Ok_inv in H as (blocks & _ & H).
  apply bind_Ok_inv in H as (active & _ & H).
  inversion H; subst. reflexivity.
Qed.

Lemma Emu_V850e2_exact (fuel : nat) (dfBuf : Buffer) (this : NecEmulator) :
  V850e2.Emu_V850e2_new fuel dfBuf = Some (Ok this) -> all_exact this.
Proof.
  unfold V850e2.Emu_V850e2_new. intros H.
  destruct (V850e2.build_catalogue dfBuf) as [this0|e] eqn:E; [|discriminate].
  eapply populate_all_exact; [|exact H].
  intros id e. rewrite (build_catalogue_A_empty _ _ E), lookup_empty. discriminate.
Qed.

Lemma add_stub_holds (table : Buffer) (i : Z) (m m' : gmap Z EepData.t) :
  all_hold m -> RH850.add_stub table i m = Ok m' -> all_hold m'.
Proof.
  intros Hinv H. unfold RH850.add_stub in H.
  apply bind_Ok_inv in H as (word & _ & H).
  apply bind_Ok_inv in H as (dataBuf & Halloc & H).
  destruct (RH850.BLOCK_SIZE <? js_sar word 16); [discriminate|].
  inversion H; subst m'; clear H.
  unfold Buffer_alloc in Halloc.
  destruct (js_sar word 16 * 4 <? 0) eqn:E; [discriminate|]. zbool.
  intros id e. destruct (Z.eq_dec (js_and word 0xffff) id) as [Heq|Hne]; [subst id|].
  - rewrite lookup_insert_eq. intros He. inversion He; subst e; clear He. split.
    + intros j w Hj. simpl in Hj. now rewrite lookup_nil in Hj.
    + split; [|reflexivity].
      cbn [EepData.length]. unfold Qle, Qdiv, Qmult, Qinv. simpl. lia.
  - rewrite lookup_insert_ne by assumption. apply Hinv.
Qed.

Lemma serialize_into_holds (data : list Z) (dataBuf dataBuf' : Buffer) :
  RH850.serialize_into data dataBuf = Ok dataBuf' ->
  forall (j : nat) (w : Z),
    data !! j = Some w -> (4 * j + 4 <= length dataBuf')%nat ->
    take 4 (drop (4 * j) dataBuf') = le_bytes w.
Proof.
  unfold RH850.serialize_into. intros H j w Hj Hfit.
  apply write_words_spec in H as (_ & Hsl & _).
  apply Hsl; [|exact Hj|exact Hfit]. now apply lookup_lt_Some in Hj.
Qed.

Lemma readDataEntry_holds (m m' : gmap Z EepData.t) (block : DataFlashBlock.t)
    (refAddr : Z) (r : option Z) :
  all_hold m -> RH850.readDataEntry m block refAddr = Ok (m', r) -> all_hold m'.
Proof.
  intros Hinv H. unfold RH850.readDataEntry in H.
  apply bind_Ok_inv in H as (checkW1 & _ & H).
  apply bind_Ok_inv in H as (checkW2 & _ & H).
  apply bind_Ok_inv in H as (checkW3 & _ & H).
  apply bind_Ok_inv in H as (word & _ & H).
  destruct (_ || _) in H; [inversion H; subst; exact Hinv|].
  destruct (m !! js_and word 0xffff) as [entry|] eqn:Ee;
    [|inversion H; subst; exact Hinv].
  destruct (negb _) in H; [inversion H; subst; exact Hinv|].
  apply bind_Ok_inv in H as (data & _ & H).
  apply bind_Ok_inv in H as (dataBuf & Hser & H).
  inversion H; subst m' r; clear H.
  intros id e. destruct (Z.eq_dec (js_and word 0xffff) id) as [Heq|Hne]; [subst id|].
  - rewrite lookup_insert_eq. intros He. inversion He; subst e; clear He. split.
    + intros j w. cbn [EepData.data EepData.dataBuf].
      now apply (serialize_into_holds data (EepData.dataBuf entry)).
    + cbn [EepData.length EepData.id]. split; now apply (Hinv _ _ Ee).
  - rewrite lookup_insert_ne by assumption. apply Hinv.
Qed.

Lemma rwp_loop_holds (fuel : nat) (m m' : gmap Z EepData.t) (page : DataFlashBlock.t)
    (rwp rwp_hypo : Z) (dwp : Q) (found : Z) :
  all_hold m ->
  RH850.rwp_loop fuel m page rwp rwp_hypo dwp = Some (Ok (m', found)) ->
  all_hold m'.
Proof.
  revert m rwp rwp_hypo dwp.
  induction fuel as [|fuel IH]; intros m rwp rwp_hypo dwp Hinv H; simpl in H;
    (destruct (negb (Qle_bool dwp (inject_Z rwp))); [|inversion H; subst; exact Hinv]);
    (destruct (RH850.readDataEntry m page (rwp - 4)) as [[m1 r]|e] eqn:Er; [|discriminate]);
    apply readDataEntry_holds in Er; try exact Hinv.
  - destruct (match r ≫= _ with Some _ => _ | None => _ end). discriminate.
  - destruct (match r ≫= _ with Some _ => _ | None => _ end) as [h d].
    eapply IH; eauto.
Qed.

Lemma visit_slot_holds (block : DataFlashBlock.t) (i : Z) (m m' : gmap Z EepData.t) :
  all_hold m -> RH850.visit_slot block i m = Ok m' -> all_hold m'.
Proof.
  intros Hinv H. unfold RH850.visit_slot in H.
  apply bind_Ok_inv in H as ([m1 r] & Hr & H).
  apply readDataEntry_holds in Hr; [|exact Hinv].
  destruct (r ≫= _) as [entry|] eqn:Ee; [|inversion H; subst; exact Hr].
  apply bind_Ok_inv in H as (current & _ & H).
  destruct (negb _) in H; inversion H; subst m'; clear H; [exact Hr|].
  assert (He : holds_words entry /\ (0 <= EepData.length entry)%Q).
  { destruct r as [k|]; [|discriminate]. simpl in Ee. split; now apply (Hr _ _ Ee). }
  intros id e. destruct (Z.eq_dec (EepData.id entry) id) as [Heq|Hne]; [subst id|].
  - rewrite lookup_insert_eq. intros H. inversion H; subst e. tauto.
  - rewrite lookup_insert_ne by assumption. apply Hr.
Qed.

Lemma populateBlockData_holds (fuel : nat) (this this' : NecEmulator) (blockId : Z) :
  all_hold (eepData this) ->
  RH850.populateBlockData fuel this blockId = Some (Ok this') ->
  all_hold (eepData this').
Proof.
  intros Hinv H. unfold RH850.populateBlockData in H.
  destruct (_ ≫= _) as [[blockNum block]|e] in H; [|discriminate].
  assert (Hrec : forall m b,
            (if DataFlashBlock.rwp block =? 0
             then match RH850.findActiveRwp fuel (eepData this) block with
                  | Some (Ok (eepData, rwp)) =>
                      Some (Ok (eepData, DataFlashBlock.set_rwp block rwp))
                  | Some (Err e) => Some (Err e)
                  | None => None
                  end
             else Some (Ok (eepData this, block))) = Some (Ok (m, b)) ->
            all_hold m).
  { intros m b Hm. destruct (DataFlashBlock.rwp block =? 0).
    - destruct (RH850.findActiveRwp fuel (eepData this) block) as [[[m0 rwp]|e]|] eqn:Ef;
        try discriminate.
      inversion Hm; subst m b. unfold RH850.findActiveRwp in Ef.
      eapply rwp_loop_holds; eauto.
    - inversion Hm; subst. exact Hinv. }
  destruct (if DataFlashBlock.rwp block =? 0 then _ else _) as [[[m b]|e]|];
    try discriminate.
  specialize (Hrec m b eq_refl).
  inversion H as [H']; clear H.
  apply bind_Ok_inv in H' as (m' & Hloop & H'). inversion H'; subst this'; clear H'.
  simpl eepData.
  eapply (for_each_preserves all_hold); [|exact Hrec|exact Hloop].
  intros i s s' _ Hs Hstep. eapply visit_slot_holds; eauto.
Qed.

Lemma populate_all_holds (fuel : nat) (ids : list Z) (this this' : NecEmulator) :
  all_hold (eepData this) ->
  RH850.populate_all fuel this ids = Some (Ok this') ->
  all_hold (eepData this').
Proof.
  revert this. induction ids as [|i ids IH]; intros this Hinv H; simpl in H.
  - inversion H; subst. exact Hinv.
  - destruct (RH850.populateBlockData fuel this i) as [[this1|e]|] eqn:Ep;
      try discriminate.
    eapply IH; [|exact H]. eapply populateBlockData_holds; eauto.
Qed.

Lemma build_catalogue_B_holds (dfBuf cfBuffer : Buffer) (tableHeaderAddr : Z)
    (this : NecEmulator) :
  RH850.build_catalogue dfBuf cfBuffer tableHeaderAddr = Ok this ->
  all_hold (eepData this).
Proof.
  unfold RH850.build_catalogue, RH850.load_tables, NecEmulator_new. intros H.
  apply bind_Ok_inv in H as (this1 & Hload & H).
  apply bind_Ok_inv in H as (blocks & _ & H).
  apply bind_Ok_inv in H as (active & _ & H).
  inversion H; subst this; clear H. simpl eepData.
  destruct (_ || _) in Hload; [discriminate|]. rewrite bind_Ok in Hload.
  apply bind_Ok_inv in Hload as (t & _ & Hload).
  unfold RH850.populateDataInfoWTable in Hload.
  apply bind_Ok_inv in Hload as (table & _ & Hload).
  apply bind_Ok_inv in Hload as (m & Hloop & Hload).
  inversion Hload; subst this1; clear Hload. simpl eepData.
  eapply (for_each_preserves all_hold); [| |exact Hloop].
  - intros i s s' _ Hs Hstep. eapply add_stub_holds; eauto.
  - intros id e. simpl. rewrite lookup_empty. discriminate.
Qed.

Lemma Emu_RH850_holds (fuel : nat) (dfBuf cfBuffer : Buffer) (tableHeaderAddr : Z)
    (this : NecEmulator) :
  RH850.Emu_RH850_new fuel dfBuf cfBuffer tableHeaderAddr = Some (Ok this) ->
  all_hold (eepData this).
Proof.
  unfold RH850.Emu_RH850_new. intros H.
  destruct (RH850.build_catalogue dfBuf cfBuffer tableHeaderAddr) as [this0|e] eqn:E;
    [|discriminate].
  eapply populate_all_holds; [|exact H].
  eapply build_catalogue_B_holds; eauto.
Qed.

(** C9 as stated fails in family B.  On [imageB_empty], whose table declares
    id 0x10 with 32 bytes, the result map keeps the entry prepared for id
    0x10: eight words long, without a word, and with a bytes buffer of 128
    zero bytes, which is neither [lengthWords * 4] bytes long nor the
    serialization of its (empty) sequence of words. *)
Lemma stub_bytes_counterexample :
  exists this e,
    RH850.Emu_RH850_new 256 Samples.imageB_empty (Samples.codeflash 32) 0
      = Some (Ok this) /\
    eepData this !! 0x10 = Some e /\
    (EepData.length e == 8)%Q /\
    EepData.data e = [] /\
    EepData.dataBuf e = repeat x00 128 /\
    ~ (inject_Z (buf_length (EepData.dataBuf e)) == EepData.length e * 4)%Q /\
    EepData.dataBuf e <> concat (map le_bytes (EepData.data e)).
Proof.
  eexists _, _.
  split; [vm_compute; reflexivity|].
  split; [vm_compute; reflexivity|].
  split; [vm_compute; reflexivity|].
  split; [vm_compute; reflexivity|].
  split; [vm_compute; reflexivity|].
  split; vm_compute; discriminate.
Qed.

(** ** Enough fuel *)

Lemma NecEmulator_new_fields (dfBuf : Buffer) (bs : Z) (this : NecEmulator) :
  0 < bs ->
  NecEmulator_new dfBuf bs = Ok this ->
  dfBuffer this = dfBuf /\ blockSize this = bs /\ eepData this = ∅ /\
  buf_length (dfBuffer this) = nBlocks this * blockSize this.
Proof.
  intros Hbs H. unfold NecEmulator_new in H.
  destruct (buf_length dfBuf =? 0) eqn:E0; [discriminate|].
  destruct (js_rem_nonzero (buf_length dfBuf) bs) eqn:Er; [discriminate|].
  inversion H; subst this; clear H. simpl. repeat split.
  unfold js_rem_nonzero in Er. destruct (bs =? 0); [discriminate|].
  apply negb_false_iff in Er. zbool.
  rewrite Z.rem_mod_nonneg in Er by (unfold buf_length; lia).
  pose proof (Z.div_mod (buf_length dfBuf) bs ltac:(lia)). lia.
Qed.

Lemma getBlocksData_A_sized (this : NecEmulator) (blocks : gmap Z DataFlashBlock.t) :
  blockSize this = 0x1000 ->
  buf_length (dfBuffer this) = nBlocks this * blockSize this ->
  V850e2.getBlocksData this = Ok blocks ->
  block_sized 0x1000 blocks.
Proof.
  intros Hbs Hlen H j t Ht. unfold V850e2.getBlocksData in H. rewrite Hbs in H.
  assert (Hn : 0 <= nBlocks this) by (apply nBlocks_nonneg; [lia | assumption]).
  destruct (catalogue_bufs (nBlocks this) 0x1000 (dfBuffer this) (V850e2.scan_block this)
              (fun w => try_or (V850e2.isValidBlock this w) false)
              (fun w => word24_at w 0x28) (fun w => 2 * word24_at w 0x30)
              ltac:(intros; now apply scan_block_A) blocks Hn H j t Ht) as [Hj Hbuf].
  rewrite Hbuf. rewrite <- Hbs.
  now apply block_window_spec; [lia | assumption | assumption].
Qed.

Lemma getBlocksData_B_sized (this : NecEmulator) (blocks : gmap Z DataFlashBlock.t) :
  blockSize this = 0x800 ->
  buf_length (dfBuffer this) = nBlocks this * blockSize this ->
  RH850.getBlocksData this = Ok blocks ->
  block_sized 0x800 blocks.
Proof.
  intros Hbs Hlen H j t Ht. unfold RH850.getBlocksData in H. rewrite Hbs in H.
  assert (Hn : 0 <= nBlocks this) by (apply nBlocks_nonneg; [lia | assumption]).
  destruct (catalogue_bufs (nBlocks this) 0x800 (dfBuffer this) (RH850.scan_block this)
              (fun w => try_or (RH850.isValidBlock w) false)
              (fun w => word24_at w 0x10) (fun w => 1 * word24_at w 0x14)
              ltac:(intros; now apply scan_block_B) blocks Hn H j t Ht) as [Hj Hbuf].
  rewrite Hbuf. rewrite <- Hbs.
  now apply block_window_spec; [lia | assumption | assumption].
Qed.

Lemma readUint32_past_end (buf : Buffer) (a : Z) :
  4 <= buf_length buf -> buf_length buf < a + 4 ->
  readUint32 buf a true = Err (RangeError_read a (buf_length buf)).
Proof.
  intros H4 Ha. unfold readUint32.
  destruct (buf_length buf <? 4) eqn:E; [zbool; lia|]. bind_step.
  destruct (buf_length buf <? a + 4) eqn:E1; [reflexivity | zbool; lia].
Qed.

Lemma process_slot_frame (this this' : NecEmulator) (blockId block : Z)
    (nextBlock : option Z) (i word : Z) :
  V850e2.process_slot this blockId block nextBlock i word = Ok this' ->
  blockData this' = blockData this.
Proof.
  intros H. unfold V850e2.process_slot in H.
  apply bind_Ok_inv in H as (b & _ & H). apply bind_Ok_inv in H as (cksRef & _ & H).
  destruct (negb (length (try_or _ []) =? 0)%nat); [|inversion H; subst; auto].
  apply bind_Ok_inv in H as (dataBuf & _ & H). inversion H; subst this'. reflexivity.
Qed.

Lemma slot_loop_frame (fuel : nat) (this this' : NecEmulator) (blockId block : Z)
    (nextBlock : option Z) (i word : Z) :
  V850e2.slot_loop fuel this blockId block nextBlock i word = Some (Ok this') ->
  blockData this' = blockData this /\ activeBlocks this' = activeBlocks this.
Proof.
  revert this i word. induction fuel as [|fuel IH]; intros this i word H;
    simpl in H;
    (destruct (word =? V850e2.REF_END_FLAG); [inversion H; subst; auto|]);
    (destruct (V850e2.process_slot this blockId block nextBlock i word) as [this1|e] eqn:Ep;
       [|discriminate]);
    assert (Hf : blockData this1 = blockData this /\ activeBlocks this1 = activeBlocks this)
      by (split; [eapply process_slot_frame; eauto|];
          unfold V850e2.process_slot in Ep;
          apply bind_Ok_inv in Ep as (b & _ & Ep);
          apply bind_Ok_inv in Ep as (cksRef & _ & Ep);
          destruct (negb (length (try_or _ []) =? 0)%nat);
          [apply bind_Ok_inv in Ep as (dataBuf & _ & Ep)|];
          inversion Ep; subst; reflexivity);
    unfold V850e2.next_slot in H;
    (destruct (get_defined (blockData this1 !! block)) as [b|e]; [|discriminate]);
    (destruct (readUint32 (DataFlashBlock.buf b) ((i + 1) * 0x10) true) as [w|e];
       [|discriminate]);
    (destruct (negb (DataFlashBlock.rwp b =? 0) && _);
       [inversion H; subst; exact Hf|]).
  - discriminate.
  - apply IH in H. destruct H, Hf. split; congruence.
Qed.

Lemma slot_loop_fuel (fuel : nat) (this : NecEmulator) (blockId block : Z)
    (nextBlock : option Z) (i word : Z) (b : DataFlashBlock.t) :
  blockData this !! block = Some b ->
  4 <= buf_length (DataFlashBlock.buf b) ->
  buf_length (DataFlashBlock.buf b) < (i + 1 + Z.of_nat fuel) * 0x10 + 4 ->
  V850e2.slot_loop fuel this blockId block nextBlock i word <> None.
Proof.
  revert this i word. induction fuel as [|fuel IH]; intros this i word Hb H4 Hlen;
    simpl;
    (destruct (word =? V850e2.REF_END_FLAG); [discriminate|]);
    (destruct (V850e2.process_slot this blockId block nextBlock i word) as [this1|e] eqn:Ep;
       [|discriminate]);
    apply process_slot_frame in Ep; unfold V850e2.next_slot; rewrite Ep, Hb;
    simpl get_defined; cbv iota.
  - rewrite readUint32_past_end by lia. discriminate.
  - destruct (readUint32 (DataFlashBlock.buf b) ((i + 1) * 0x10) true) as [w|e];
      [|discriminate].
    destruct (negb (DataFlashBlock.rwp b =? 0) && _); [discriminate|].
    apply (IH this1 (i + 1) w); [congruence | assumption | lia].
Qed.

Lemma populateBlockData_A_fuel (this : NecEmulator) (blockId : Z) :
  block_sized 0x1000 (blockData this) ->
  V850e2.populateBlockData 256 this blockId <> None.
Proof.
  intros Hsz. unfold V850e2.populateBlockData.
  destruct (get_defined (activeBlocks this !! Z.to_nat blockId)) as [block|e];
    [|discriminate]. bind_step.
  destruct (blockData this !! block) as [b|] eqn:Eb; [|discriminate].
  simpl get_defined. bind_step.
  destruct (readUint32 (DataFlashBlock.buf b) 0x40 true) as [word|e]; [|discriminate].
  bind_step. pose proof (Hsz _ _ Eb).
  eapply slot_loop_fuel; eauto; lia.
Qed.

Lemma populate_all_A_fuel (ids : list Z) (this : NecEmulator) :
  block_sized 0x1000 (blockData this) ->
  V850e2.populate_all 256 this ids <> None.
Proof.
  revert this. induction ids as [|i ids IH]; intros this Hsz; simpl; [discriminate|].
  destruct (V850e2.populateBlockData 256 this i) as [[this1|e]|] eqn:Ep;
    [|discriminate|now apply populateBlockData_A_fuel in Ep].
  apply IH. unfold V850e2.populateBlockData in Ep.
  destruct (_ ≫= _) as [[[block nextBlock] word]|e] in Ep; [|discriminate].
  apply slot_loop_frame in Ep as [Hbd _]. now rewrite Hbd.
Qed.

(** With 256 rounds allowed to each reference walk, the model of the
    constructor of family A always has an answer: the decoder or an
    exception. *)
Lemma Emu_V850e2_new_fuel (dfBuf : Buffer) : V850e2.Emu_V850e2_new 256 dfBuf <> None.
Proof.
  unfold V850e2.Emu_V850e2_new.
  destruct (V850e2.build_catalogue dfBuf) as [this|e] eqn:E; [|discriminate].
  apply populate_all_A_fuel.
  unfold V850e2.build_catalogue in E.
  apply bind_Ok_inv in E as (this0 & Hnew & E).
  apply bind_Ok_inv in E as (blocks & Hblocks & E).
  apply bind_Ok_inv in E as (active & _ & E).
  inversion E; subst this; clear E. simpl blockData.
  apply NecEmulator_new_fields in Hnew as (_ & Hbs & _ & Hlen);
    [|unfold V850e2.BLOCK_SIZE; lia].
  eapply getBlocksData_A_sized; eauto.
Qed.

Lemma rwp_loop_fuel (fuel : nat) (m : gmap Z EepData.t) (page : DataFlashBlock.t)
    (rwp rwp_hypo : Z) (dwp : Q) :
  all_hold m ->
  (dwp <= inject_Z 0x7f8)%Q ->
  0x7f8 <= rwp + 0x10 * Z.of_nat fuel ->
  RH850.rwp_loop fuel m page rwp rwp_hypo dwp <> None.
Proof.
  revert m rwp rwp_hypo dwp.
  induction fuel as [|fuel IH]; intros m rwp rwp_hypo dwp Hinv Hdwp Hfuel; simpl.
  - assert (Hle : Qle_bool dwp (inject_Z rwp) = true).
    { apply Qle_bool_iff. eapply Qle_trans; [exact Hdwp|]. rewrite <- Zle_Qle. lia. }
    rewrite Hle. discriminate.
  - destruct (negb (Qle_bool dwp (inject_Z rwp))); [|discriminate].
    destruct (RH850.readDataEntry m page (rwp - 4)) as [[m1 r]|e] eqn:Er; [|discriminate].
    apply readDataEntry_holds in Er; [|exact Hinv].
    assert (Hnext : forall h d,
              match r ≫= (fun k => m1 !! k) with
              | Some entry =>
                  if Qeq_bool (inject_Z (EepData.widx entry)) dwp
                  then (rwp, (dwp - EepData.length entry * 4)%Q)
                  else (rwp_hypo, dwp)
              | None => (rwp_hypo, dwp)
              end = (h, d) -> (d <= inject_Z 0x7f8)%Q).
    { intros h d Hd. destruct (r ≫= _) as [entry|] eqn:Ee.
      - destruct (Qeq_bool _ _); inversion Hd; subst; [|exact Hdwp].
        assert (0 <= EepData.length entry)%Q.
        { destruct r as [k|]; [|discriminate]. simpl in Ee. now apply (Er _ _ Ee). }
        lra.
      - inversion Hd; subst. exact Hdwp. }
    destruct (match r ≫= _ with Some _ => _ | None => _ end) as [h d] eqn:Ed.
    apply IH; [exact Er | now apply (Hnext h d) | lia].
Qed.

Lemma populateBlockData_B_fuel (this : NecEmulator) (blockId : Z) :
  all_hold (eepData this) ->
  RH850.populateBlockData 256 this blockId <> None.
Proof.
  intros Hinv. unfold RH850.populateBlockData.
  destruct (_ ≫= _) as [[blockNum block]|e]; [|discriminate].
  destruct (DataFlashBlock.rwp block =? 0).
  - destruct (RH850.findActiveRwp 256 (eepData this) block) as [[[m rwp]|e]|] eqn:Ef;
      try discriminate.
    unfold RH850.findActiveRwp in Ef. exfalso. revert Ef.
    apply rwp_loop_fuel; [exact Hinv | apply Qle_refl | lia].
  - discriminate.
Qed.

Lemma populate_all_B_fuel (ids : list Z) (this : NecEmulator) :
  all_hold (eepData this) ->
  RH850.populate_all 256 this ids <> None.
Proof.
  revert this. induction ids as [|i ids IH]; intros this Hinv; simpl; [discriminate|].
  destruct (RH850.populateBlockData 256 this i) as [[this1|e]|] eqn:Ep;
    [|discriminate|now apply populateBlockData_B_fuel in Ep].
  apply IH. eapply populateBlockData_holds; eauto.
Qed.

(** With 256 rounds allowed to each search for a write pointer, the model of
    the constructor of family B always has an answer: the decoder or an
    exception. *)
Lemma Emu_RH850_new_fuel (dfBuf cfBuffer : Buffer) (tableHeaderAddr : Z) :
  RH850.Emu_RH850_new 256 dfBuf cfBuffer tableHeaderAddr <> None.
Proof.
  unfold RH850.Emu_RH850_new.
  destruct (RH850.build_catalogue dfBuf cfBuffer tableHeaderAddr) as [this|e] eqn:E;
    [|discriminate].
  apply populate_all_B_fuel. eapply build_catalogue_B_holds; eauto.
Qed.

(** ** Family B: a second descriptor slot for the same id *)

(** Whatever [populateBlockData] decides about a slot, the result map after
    the slot is the one [readDataEntry] has left: the entry it returns is
    the object stored under its id, so that the test on the length of its
    data sees the words just read, and the assignment stores the object
    where it already is. *)
Lemma visit_slot_keeps_readDataEntry (block : DataFlashBlock.t) (i : Z)
    (m : gmap Z EepData.t) :
  all_hold m ->
  RH850.visit_slot block i m = ('(m', _) ← RH850.readDataEntry m block i; Ok m').
Proof.
  intros Hinv. unfold RH850.visit_slot.
  destruct (RH850.readDataEntry m block i) as [[m1 r]|e] eqn:Er; [|reflexivity].
  bind_step. apply readDataEntry_holds in Er; [|exact Hinv].
  destruct r as [k|]; [|reflexivity]. simpl.
  destruct (m1 !! k) as [entry|] eqn:Ee; [|reflexivity]. simpl.
  destruct (Er _ _ Ee) as (_ & _ & Hid). rewrite Hid, Ee. simpl get_defined. bind_step.
  destruct (negb _); [reflexivity|]. now rewrite insert_id.
Qed.

(** C1 on [imageB_duplicate], whose table declares id 0x10 with 8 words.  The
    backward walk of the block starts at 0x34.  The slot at 0x34 is accepted
    and fills the entry of id 0x10 with the eight words it refers to.  The
    slot at 0x24, for the same id, is accepted too, and although the entry
    already holds data it does not leave it as it was: [readDataEntry] has
    appended the eight words of the older record to the entry and has
    replaced its word index and its reference address before
    [populateBlockData] looks at the length of its data. *)
Lemma duplicate_slot_rewrites_entry :
  let newer := map (fun j => 0x0b000000 + j) (range 1 9) in
  let older := map (fun j => 0x0a000000 + j) (range 1 9) in
  exists this block m1 m2 e1 e2 final,
    RH850.build_catalogue Samples.imageB_duplicate (Samples.codeflash 32) 0 = Ok this /\
    activeBlocks this = [0] /\
    blockData this !! 0 = Some block /\
    range_down (DataFlashBlock.rwp block - 4) 0x20 0x10 = [0x34; 0x24] /\
    RH850.visit_slot block 0x34 (eepData this) = Ok m1 /\
    m1 !! 0x10 = Some e1 /\
    EepData.data e1 = newer /\ EepData.widx e1 = 0x7d8 /\ EepData.addr e1 = 0x34 /\
    RH850.readDataEntry m1 block 0x24 = Ok (m2, Some 0x10) /\
    RH850.visit_slot block 0x24 m1 = Ok m2 /\
    m2 !! 0x10 = Some e2 /\
    EepData.data e2 = newer ++ older /\ EepData.widx e2 = 0x7f8 /\ EepData.addr e2 = 0x24 /\
    e2 <> e1 /\
    RH850.Emu_RH850_new 256 Samples.imageB_duplicate (Samples.codeflash 32) 0
      = Some (Ok final) /\
    eepData final !! 0x10 = Some e2.
Proof.
  intros newer older. eexists _, _, _, _, _, _, _.
  split; [vm_compute; reflexivity|].
  split; [vm_compute; reflexivity|].
  split; [vm_compute; reflexivity|].
  split; [vm_compute; reflexivity|].
  split; [vm_compute; reflexivity|].
  split; [vm_compute; reflexivity|].
  split; [vm_compute; reflexivity|].
  split; [vm_compute; reflexivity|].
  split; [vm_compute; reflexivity|].
  split; [vm_compute; reflexivity|].
  split; [vm_compute; reflexivity|].
  split; [vm_compute; reflexivity|].
  split; [vm_compute; reflexivity|].
  split; [vm_compute; reflexivity|].
  split; [vm_compute; reflexivity|].
  split; [vm_compute; discriminate|].
  split; vm_compute; reflexivity.
Qed.

(** * Further properties *)

(** ** The codec: round trip, bounds and edge cases *)

Lemma to_uint8_byte_val (b : byte) : to_uint8 (byte_val b) = b.
Proof.
  unfold to_uint8, byte_val.
  pose proof (Byte.to_N_bounded b).
  rewrite Z.mod_small by lia. rewrite N2Z.id. now rewrite Byte.of_to_N.
Qed.

Lemma subarray_length_in_range (buf : Buffer) (a : Z) :
  0 <= a -> a + 4 <= buf_length buf -> length (subarray buf a (a + 4)) = 4%nat.
Proof.
  intros Ha Hl. unfold buf_length in Hl.
  replace a with (Z.of_nat (Z.to_nat a)) by lia.
  change 4 with (Z.of_nat 4) at 1. rewrite subarray_in_range by lia.
  rewrite length_take, length_drop. lia.
Qed.

Lemma readUint32_window (buf : Buffer) (a : Z) (e : bool) :
  0 <= a -> a + 4 <= buf_length buf ->
  readUint32 buf a e = readUint32 (subarray buf a (a + 4)) 0 e.
Proof.
  intros Ha Hl.
  pose proof (subarray_length_in_range buf a Ha Hl) as Hw.
  unfold readUint32 at 1 2.
  assert (H1 : (buf_length buf <? 4) = false) by (zbool; lia).
  assert (H2 : (buf_length (subarray buf a (a + 4)) <? 4) = false)
    by (unfold buf_length; rewrite Hw; reflexivity).
  rewrite H1, H2. bind_step.
  assert (H3 : (buf_length buf <? a + 4) = false) by (zbool; lia).
  assert (H4 : (buf_length (subarray buf a (a + 4)) <? 0 + 4) = false)
    by (unfold buf_length; rewrite Hw; reflexivity).
  rewrite H3, H4.
  assert (Hs : subarray (subarray buf a (a + 4)) 0 (0 + 4) = subarray buf a (a + 4)).
  { generalize dependent (subarray buf a (a + 4)). intros w Hw _ _.
    do 5 (destruct w as [|? w]; try discriminate Hw). reflexivity. }
  now rewrite Hs.
Qed.

Lemma le_word_bytes (b0 b1 b2 b3 : byte) :
  let n := le_word (byte_val b0) (byte_val b1) (byte_val b2) (byte_val b3) in
  0 <= n <= 0xffffffff /\
  n mod 2 ^ 8 = byte_val b0 /\ n mod 2 ^ 16 / 2 ^ 8 = byte_val b1 /\
  n mod 2 ^ 24 / 2 ^ 16 = byte_val b2 /\ n / 2 ^ 24 = byte_val b3.
Proof.
  intros n. subst n. unfold le_word.
  pose proof (byte_val_range b0). pose proof (byte_val_range b1).
  pose proof (byte_val_range b2). pose proof (byte_val_range b3).
  set (x0 := byte_val b0) in *. set (x1 := byte_val b1) in *.
  set (x2 := byte_val b2) in *. set (x3 := byte_val b3) in *.
  assert (M8 : (x0 + 2 ^ 8 * x1 + 2 ^ 16 * x2 + 2 ^ 24 * x3) mod 2 ^ 8 = x0)
    by (symmetry; apply (Z.mod_unique_pos _ _ (x1 + 2 ^ 8 * x2 + 2 ^ 16 * x3)); lia).
  assert (M16 : (x0 + 2 ^ 8 * x1 + 2 ^ 16 * x2 + 2 ^ 24 * x3) mod 2 ^ 16 = x0 + 2 ^ 8 * x1)
    by (symmetry; apply (Z.mod_unique_pos _ _ (x2 + 2 ^ 8 * x3)); lia).
  assert (M24 : (x0 + 2 ^ 8 * x1 + 2 ^ 16 * x2 + 2 ^ 24 * x3) mod 2 ^ 24
                = x0 + 2 ^ 8 * x1 + 2 ^ 16 * x2)
    by (symmetry; apply (Z.mod_unique_pos _ _ x3); lia).
  rewrite M8, M16, M24.
  repeat split; try lia.
  - symmetry. apply (Z.div_unique_pos _ _ _ x0); lia.
  - symmetry. apply (Z.div_unique_pos _ _ _ (x0 + 2 ^ 8 * x1)); lia.
  - symmetry. apply (Z.div_unique_pos _ _ _ (x0 + 2 ^ 8 * x1 + 2 ^ 16 * x2)); lia.
Qed.

Lemma int32ToWord_le_word (b0 b1 b2 b3 : byte) (e : bool) :
  int32ToWord (le_word (byte_val b0) (byte_val b1) (byte_val b2) (byte_val b3)) e
  = Ok (if e then [b0; b1; b2; b3] else [b3; b2; b1; b0]).
Proof.
  destruct (le_word_bytes b0 b1 b2 b3) as (Hr & H0 & H1 & H2 & H3).
  rewrite int32ToWord_bytes by exact Hr. cbv zeta.
  rewrite H0, H1, H2, H3, !to_uint8_byte_val. reflexivity.
Qed.

(** X1. Reading the word at an address of a buffer that holds four bytes
    from there on, and serializing the number read in the same byte order,
    gives back these four bytes. *)
Theorem readUint32_int32ToWord_roundtrip (buf : Buffer) (addr : Z) (e : bool) :
  0 <= addr -> addr + 4 <= buf_length buf ->
  (w ← readUint32 buf addr e; int32ToWord w e) = Ok (subarray buf addr (addr + 4)).
Proof.
  intros Ha Hl.
  rewrite readUint32_window by assumption.
  pose proof (subarray_length_in_range buf addr Ha Hl) as Hw.
  destruct (subarray buf addr (addr + 4)) as [|c0 [|c1 [|c2 [|c3 [|? ?]]]]];
    try discriminate Hw.
  destruct e.
  - rewrite (readUint32_four_bytes c0 c1 c2 c3 true). bind_step.
    apply (int32ToWord_le_word c0 c1 c2 c3 true).
  - rewrite (readUint32_four_bytes c3 c2 c1 c0 false). bind_step.
    apply (int32ToWord_le_word c3 c2 c1 c0 false).
Qed.

Lemma readUint32_int32ToWord_roundtrip_witness :
  (w ← readUint32 (le_bytes 0x11223344 ++ le_bytes 0xa1b2c3d4) 2 false; int32ToWord w false)
  = Ok (subarray (le_bytes 0x11223344 ++ le_bytes 0xa1b2c3d4) 2 (2 + 4)).
Proof.
  apply (readUint32_int32ToWord_roundtrip (le_bytes 0x11223344 ++ le_bytes 0xa1b2c3d4) 2 false);
    [lia | vm_compute; discriminate].
Defined.

Lemma readUint32_padded (buf : Buffer) (e : bool) :
  buf_length buf < 4 ->
  exists p,
    Buffer_copy buf [x00; x00; x00; x00] (if e then 0 else 4 - buf_length buf) 0 (buf_length buf)
      = Ok p /\ length p = 4%nat.
Proof.
  intros Hl.
  destruct (Buffer_copy_spec buf [x00; x00; x00; x00]
              (if e then 0 else 4 - buf_length buf) 0 (buf_length buf)) as (r & Hr & Hlen & _).
  - destruct e; lia.
  - unfold buf_length. lia.
  - unfold buf_length. lia.
  - exists r. split; [exact Hr | exact Hlen].
Qed.

Lemma word_value_range (w : Buffer) (e : bool) :
  let arr :=
    if e
    then [js_shl (buf_num w 3) 24; js_shl (buf_num w 2) 16; js_shl (buf_num w 1) 8; buf_num w 0]
    else [js_shl (buf_num w 0) 24; js_shl (buf_num w 1) 16; js_shl (buf_num w 2) 8; buf_num w 3] in
  0 <= fold_left Z.add (map toUint32 arr) 0 <= 0xffffffff.
Proof.
  pose proof (buf_num_range w 0). pose proof (buf_num_range w 1).
  pose proof (buf_num_range w 2). pose proof (buf_num_range w 3).
  destruct e; cbv zeta; cbn [map fold_left];
    rewrite !toUint32_js_shl_byte by (assumption || lia);
    rewrite toUint32_small by lia; lia.
Qed.

(** X2. [readUint32] throws its RangeError exactly when the address plus four
    exceeds the length of the buffer, a buffer of less than four bytes
    counting as four bytes long; otherwise it returns an unsigned 32-bit
    number. *)
Theorem readUint32_bounds (buf : Buffer) (addr : Z) (e : bool) :
  let len := Z.max 4 (buf_length buf) in
  (len < addr + 4 -> readUint32 buf addr e = Err (RangeError_read addr len)) /\
  (addr + 4 <= len ->
   exists w, readUint32 buf addr e = Ok w /\ 0 <= w <= 0xffffffff).
Proof.
  cbv zeta. unfold readUint32.
  destruct (buf_length buf <? 4) eqn:E4; zbool.
  - destruct (readUint32_padded buf e E4) as (p & -> & Hp). bind_step.
    assert (Hlen : buf_length p = 4) by (unfold buf_length; rewrite Hp; reflexivity).
    rewrite Hlen, Z.max_l by lia. split; intros H.
    + destruct (4 <? addr + 4) eqn:E; [reflexivity | zbool; lia].
    + destruct (4 <? addr + 4) eqn:E; [zbool; lia|].
      eexists. split; [reflexivity|]. apply word_value_range.
  - bind_step. rewrite Z.max_r by lia. split; intros H.
    + destruct (buf_length buf <? addr + 4) eqn:E; [reflexivity | zbool; lia].
    + destruct (buf_length buf <? addr + 4) eqn:E; [zbool; lia|].
      eexists. split; [reflexivity|]. apply word_value_range.
Qed.

(** X3. On a buffer of at most four bytes [readUint32] at address 0 returns
    the value of these bytes alone, in either byte order: the bytes that
    miss count as zeros on the most significant side. *)
Theorem readUint32_short_buffer (buf : Buffer) :
  (length buf <= 4)%nat ->
  readUint32 buf 0 true = Ok (le_value buf) /\ readUint32 buf 0 false = Ok (be_value buf).
Proof.
  intros Hl.
  destruct buf as [|b0 [|b1 [|b2 [|b3 [|? ?]]]]]; try (simpl in Hl; lia); clear Hl.
  - split; reflexivity.
  - split.
    + change (readUint32 [b0] 0 true) with (readUint32 [b0; x00; x00; x00] 0 true).
      rewrite (readUint32_four_bytes b0 x00 x00 x00 true).
      unfold le_word, le_value, foldr. change (byte_val x00) with 0. f_equal. lia.
    + change (readUint32 [b0] 0 false) with (readUint32 [x00; x00; x00; b0] 0 false).
      rewrite (readUint32_four_bytes b0 x00 x00 x00 false).
      unfold le_word, be_value, fold_left. change (byte_val x00) with 0. f_equal. lia.
  - split.
    + change (readUint32 [b0; b1] 0 true) with (readUint32 [b0; b1; x00; x00] 0 true).
      rewrite (readUint32_four_bytes b0 b1 x00 x00 true).
      unfold le_word, le_value, foldr. change (byte_val x00) with 0. f_equal. lia.
    + change (readUint32 [b0; b1] 0 false) with (readUint32 [x00; x00; b0; b1] 0 false).
      rewrite (readUint32_four_bytes b1 b0 x00 x00 false).
      unfold le_word, be_value, fold_left. change (byte_val x00) with 0. f_equal. lia.
  - split.
    + change (readUint32 [b0; b1; b2] 0 true) with (readUint32 [b0; b1; b2; x00] 0 true).
      rewrite (readUint32_four_bytes b0 b1 b2 x00 true).
      unfold le_word, le_value, foldr. change (byte_val x00) with 0. f_equal. lia.
    + change (readUint32 [b0; b1; b2] 0 false) with (readUint32 [x00; b0; b1; b2] 0 false).
      rewrite (readUint32_four_bytes b2 b1 b0 x00 false).
      unfold le_word, be_value, fold_left. change (byte_val x00) with 0. f_equal. lia.
  - split.
    + rewrite (readUint32_four_bytes b0 b1 b2 b3 true).
      unfold le_word, le_value, foldr. f_equal. lia.
    + rewrite (readUint32_four_bytes b3 b2 b1 b0 false).
      unfold le_word, be_value, fold_left. f_equal. lia.
Qed.

Lemma readUint32_short_buffer_witness :
  readUint32 [x34; x12] 0 true = Ok (le_value [x34; x12]) /\
  readUint32 [x34; x12] 0 false = Ok (be_value [x34; x12]) /\
  le_value [x34; x12] = 0x1234 /\ be_value [x34; x12] = 0x3412.
Proof.
  destruct (readUint32_short_buffer [x34; x12]) as [H1 H2]; [simpl; lia|].
  split; [exact H1 | split; [exact H2 | split; reflexivity]].
Defined.

Lemma readUint32_same_word (buf : Buffer) (a a' : Z) (e : bool) :
  4 <= buf_length buf -> a + 4 <= buf_length buf -> a' + 4 <= buf_length buf ->
  subarray buf a (a + 4) = subarray buf a' (a' + 4) ->
  readUint32 buf a e = readUint32 buf a' e.
Proof.
  intros H4 Ha Ha' Hs. unfold readUint32.
  assert (E : (buf_length buf <? 4) = false) by (zbool; lia). rewrite E. bind_step.
  assert (E1 : (buf_length buf <? a + 4) = false) by (zbool; lia).
  assert (E2 : (buf_length buf <? a' + 4) = false) by (zbool; lia).
  now rewrite E1, E2, Hs.
Qed.

Lemma le_value_formula (w : Buffer) :
  (length w <= 4)%nat ->
  fold_left Z.add
    (map toUint32 [js_shl (buf_num w 3) 24; js_shl (buf_num w 2) 16;
                   js_shl (buf_num w 1) 8; buf_num w 0]) 0
  = le_value w.
Proof.
  intros Hl.
  pose proof (buf_num_range w 0) as H0. pose proof (buf_num_range w 1) as H1.
  pose proof (buf_num_range w 2) as H2. pose proof (buf_num_range w 3) as H3.
  cbn [map fold_left].
  rewrite !toUint32_js_shl_byte by lia. rewrite (toUint32_small (buf_num w 0)) by lia.
  clear H0 H1 H2 H3.
  change (2 ^ 24) with 16777216. change (2 ^ 16) with 65536. change (2 ^ 8) with 256.
  destruct w as [|b0 [|b1 [|b2 [|b3 [|? ?]]]]]; try (simpl in Hl; lia);
    unfold le_value, buf_num, buf_get;
    cbn [foldr Z.ltb Z.compare Z.to_nat Pos.to_nat Pos.iter_op Nat.add lookup list_lookup
         fmap option_fmap option_map default];
    change (Z.to_nat 3) with 3%nat; change (Z.to_nat 2) with 2%nat;
    change (Z.to_nat 1) with 1%nat; change (Z.to_nat 0) with 0%nat;
    cbn [lookup list_lookup fmap option_fmap option_map default]; unfold id; lia.
Qed.

Lemma length_subarray_word (buf : Buffer) (addr : Z) :
  (length (subarray buf addr (addr + 4)) <= 4)%nat.
Proof.
  unfold subarray, clamp_index. rewrite length_take.
  destruct (addr <? 0) eqn:E1, (addr + 4 <? 0) eqn:E2; zbool; lia.
Qed.

Lemma readUint32_le_value (buf : Buffer) (addr : Z) :
  4 <= buf_length buf -> addr + 4 <= buf_length buf ->
  readUint32 buf addr true = Ok (le_value (subarray buf addr (addr + 4))).
Proof.
  intros H4 Ha. unfold readUint32.
  assert (E : (buf_length buf <? 4) = false) by (zbool; lia). rewrite E. bind_step.
  assert (E1 : (buf_length buf <? addr + 4) = false) by (zbool; lia). rewrite E1.
  cbv zeta. f_equal. apply le_value_formula, length_subarray_word.
Qed.

(** X4. A negative address does not make [readUint32] throw on a buffer of
    four bytes or more; it returns, in little-endian order, the value of
    the bytes that [subarray] selects, counting from the end of the buffer.
    From -4 to -1 these are no bytes and the result is 0.  Below -4 and not
    below minus the length of the buffer, it is the word that starts that
    many bytes before the end of the buffer.  Below minus the length it is
    the value of the first [length + addr + 4] bytes of the buffer alone, 0
    when this number is not positive. *)
Theorem readUint32_negative_address (buf : Buffer) (addr : Z) :
  4 <= buf_length buf -> addr < 0 ->
  (-4 <= addr -> readUint32 buf addr true = Ok 0) /\
  (addr < -4 -> 0 <= buf_length buf + addr ->
   readUint32 buf addr true = Ok (word_at buf (Z.to_nat (buf_length buf + addr)))) /\
  (buf_length buf + addr < 0 ->
   readUint32 buf addr true
   = Ok (le_value (take (Z.to_nat (buf_length buf + addr + 4)) buf))).
Proof.
  intros H4 Hneg. split; [|split].
  - intros Hge. unfold readUint32.
    assert (E : (buf_length buf <? 4) = false) by (zbool; lia). rewrite E. bind_step.
    assert (E1 : (buf_length buf <? addr + 4) = false) by (zbool; lia). rewrite E1.
    assert (Hs : subarray buf addr (addr + 4) = []).
    { unfold subarray, clamp_index.
      destruct (addr <? 0) eqn:E2; [|zbool; lia].
      destruct (addr + 4 <? 0) eqn:E3; [zbool; lia|].
      replace (Z.to_nat (Z.min (addr + 4) (buf_length buf) - Z.max (buf_length buf + addr) 0))
        with 0%nat by lia.
      apply take_0. }
    rewrite Hs. reflexivity.
  - intros Hlt Hin.
    rewrite <- (readUint32_at buf (buf_length buf + addr)) by lia.
    apply readUint32_same_word; try lia.
    unfold subarray, clamp_index.
    destruct (addr <? 0) eqn:E2; [|zbool; lia].
    destruct (addr + 4 <? 0) eqn:E3; [|zbool; lia].
    destruct (buf_length buf + addr <? 0) eqn:E4; [zbool; lia|].
    destruct (buf_length buf + addr + 4 <? 0) eqn:E5; [zbool; lia|].
    f_equal; [|f_equal]; lia.
  - intros Hbelow. rewrite readUint32_le_value by lia. do 2 f_equal.
    unfold subarray, clamp_index.
    destruct (addr <? 0) eqn:E2; [|zbool; lia].
    destruct (addr + 4 <? 0) eqn:E3; [|zbool; lia].
    replace (Z.to_nat (Z.max (buf_length buf + addr) 0)) with 0%nat by lia.
    rewrite drop_0. f_equal. lia.
Qed.

Lemma readUint32_negative_address_witness :
  let buf := le_bytes 0x11223344 ++ le_bytes 0xa1b2c3d4 ++ le_bytes 0x55667788 in
  readUint32 buf (-2) true = Ok 0 /\
  readUint32 buf (-8) true = Ok 0xa1b2c3d4 /\
  readUint32 buf (-13) true = Ok 0x223344 /\
  readUint32 buf (-20) true = Ok 0.
Proof.
  intros buf.
  assert (H4 : 4 <= buf_length buf) by (vm_compute; discriminate).
  assert (Hl : buf_length buf = 12) by reflexivity.
  destruct (readUint32_negative_address buf (-2) H4 ltac:(lia)) as (H1 & _ & _).
  destruct (readUint32_negative_address buf (-8) H4 ltac:(lia)) as (_ & H2 & _).
  destruct (readUint32_negative_address buf (-13) H4 ltac:(lia)) as (_ & _ & H3).
  destruct (readUint32_negative_address buf (-20) H4 ltac:(lia)) as (_ & _ & H5).
  split; [apply H1; lia|]. split; [apply H2; [lia | rewrite Hl; lia]|].
  split; [apply H3; rewrite Hl; lia | apply H5; rewrite Hl; lia].
Defined.

Lemma js_shr_24 (n : Z) : js_shr n 24 = n mod 2 ^ 32 / 2 ^ 24.
Proof. unfold js_shr, toUint32. now rewrite Z.shiftr_div_pow2 by lia. Qed.

Lemma int32ToWord_mod (n : Z) (e : bool) :
  -2147483648 <= n <= 0xffffffff -> int32ToWord n e = int32ToWord (n mod 2 ^ 32) e.
Proof.
  intros Hn.
  pose proof (Z.mod_pos_bound n (2 ^ 32) ltac:(lia)) as Hm.
  rewrite (int32ToWord_bytes (n mod 2 ^ 32)) by lia. cbv zeta.
  unfold int32ToWord.
  destruct (n <? -2147483648) eqn:E1; [zbool; lia|].
  destruct (0xffffffff <? n) eqn:E2; [zbool; lia|]. simpl orb. cbv iota.
  change 0xff with (2 ^ 8 - 1). change 0xffff with (2 ^ 16 - 1).
  change 0xffffff with (2 ^ 24 - 1).
  rewrite !js_and_low_bits by lia. rewrite js_shr_24.
  unfold js_shr.
  rewrite !toUint32_small
    by (match goal with
        | |- 0 <= n mod ?m < _ => pose proof (Z.mod_pos_bound n m eq_refl); lia
        end).
  rewrite !Z.shiftr_div_pow2 by lia.
  assert (M8 : (n mod 2 ^ 32) mod 2 ^ 8 = n mod 2 ^ 8)
    by (change (2 ^ 32) with (2 ^ 8 * 2 ^ 24); apply mod_mul_mod; lia).
  assert (M16 : (n mod 2 ^ 32) mod 2 ^ 16 = n mod 2 ^ 16)
    by (change (2 ^ 32) with (2 ^ 16 * 2 ^ 16); apply mod_mul_mod; lia).
  assert (M24 : (n mod 2 ^ 32) mod 2 ^ 24 = n mod 2 ^ 24)
    by (change (2 ^ 32) with (2 ^ 24 * 2 ^ 8); apply mod_mul_mod; lia).
  rewrite M8, M16, M24. reflexivity.
Qed.

Lemma le_word_decompose (m : Z) :
  0 <= m < 2 ^ 32 ->
  exists b0 b1 b2 b3 : byte,
    m = le_word (byte_val b0) (byte_val b1) (byte_val b2) (byte_val b3).
Proof.
  intros Hm.
  exists (to_uint8 m), (to_uint8 (m / 2 ^ 8)), (to_uint8 (m / 2 ^ 16)), (to_uint8 (m / 2 ^ 24)).
  rewrite !byte_val_to_uint8. unfold le_word. change 256 with (2 ^ 8).
  pose proof (Z.div_mod m (2 ^ 8) ltac:(lia)) as D0.
  pose proof (Z.div_mod (m / 2 ^ 8) (2 ^ 8) ltac:(lia)) as D1.
  pose proof (Z.div_mod (m / 2 ^ 16) (2 ^ 8) ltac:(lia)) as D2.
  replace (m / 2 ^ 8 / 2 ^ 8) with (m / 2 ^ 16) in D1
    by (rewrite Z.div_div by lia; reflexivity).
  replace (m / 2 ^ 16 / 2 ^ 8) with (m / 2 ^ 24) in D2
    by (rewrite Z.div_div by lia; reflexivity).
  assert (H24 : 0 <= m / 2 ^ 24 < 2 ^ 8)
    by (split; [apply Z.div_pos; lia | apply Z.div_lt_upper_bound; lia]).
  rewrite (Z.mod_small (m / 2 ^ 24)) by lia. lia.
Qed.

(** X5. [int32ToWord] throws exactly for the numbers below -2^31 and above
    2^32 - 1.  For every other number it returns four bytes; the other byte
    order gives the same bytes reversed; the number modulo 2^32 gives the
    same bytes, so a negative number is written in two's complement; and
    [readUint32] reads the number modulo 2^32 back from them. *)
Theorem int32ToWord_twos_complement (n : Z) (e : bool) :
  (n < -2147483648 \/ 0xffffffff < n -> int32ToWord n e = Err (RangeError_not_int32 n)) /\
  (-2147483648 <= n <= 0xffffffff ->
   exists word,
     int32ToWord n e = Ok word /\ length word = 4%nat /\
     int32ToWord n (negb e) = Ok (rev word) /\
     int32ToWord (n mod 2 ^ 32) e = Ok word /\
     readUint32 word 0 e = Ok (n mod 2 ^ 32)).
Proof.
  split.
  - intros H. unfold int32ToWord.
    destruct (n <? -2147483648) eqn:E1; [reflexivity|].
    destruct (0xffffffff <? n) eqn:E2; [reflexivity|]. zbool. lia.
  - intros Hn.
    pose proof (Z.mod_pos_bound n (2 ^ 32) ltac:(lia)) as Hm.
    destruct (le_word_decompose (n mod 2 ^ 32) Hm) as (b0 & b1 & b2 & b3 & Hw).
    rewrite !(int32ToWord_mod n) by exact Hn.
    rewrite Hw, !int32ToWord_le_word.
    exists (if e then [b0; b1; b2; b3] else [b3; b2; b1; b0]).
    repeat split.
    + now destruct e.
    + now destruct e.
    + apply readUint32_four_bytes.
Qed.

Lemma mapM_buf_get_in_range (buf : Buffer) (start : Z) (n : nat) :
  0 <= start -> start + Z.of_nat n <= buf_length buf ->
  mapM (buf_get buf) (map (fun k => start + Z.of_nat k) (seq 0 n))
  = Some (map byte_val (take n (drop (Z.to_nat start) buf))).
Proof.
  intros H0. revert start H0. induction n as [|n IH]; intros start H0 Hl.
  - now rewrite take_0.
  - cbn [seq map mapM]. rewrite Z.add_0_r.
    unfold buf_length in Hl.
    destruct (lookup_lt_is_Some_2 buf (Z.to_nat start) ltac:(lia)) as [x Hx].
    assert (Hg : buf_get buf start = Some (byte_val x)).
    { unfold buf_get. destruct (start <? 0) eqn:E; [zbool; lia|]. now rewrite Hx. }
    rewrite Hg. cbn [mbind option_bind].
    rewrite <- seq_shift, map_map.
    erewrite map_ext; [rewrite (IH (start + 1)) by (unfold buf_length; lia)|].
    + cbn [mbind option_bind mret option_ret]. f_equal.
      rewrite (drop_S buf x (Z.to_nat start) Hx). cbn [take map].
      replace (Z.to_nat (start + 1)) with (S (Z.to_nat start)) by lia. reflexivity.
    + intros k. cbv beta. lia.
Qed.

Lemma mapM_buf_get_None (buf : Buffer) (idx : list Z) (i : Z) :
  i ∈ idx -> buf_get buf i = None -> mapM (buf_get buf) idx = None.
Proof.
  intros Hi Hn. induction idx as [|j idx IH]; [inversion Hi|].
  cbn [mapM]. apply elem_of_cons in Hi as [<-|Hi].
  - now rewrite Hn.
  - rewrite (IH Hi). now destruct (buf_get buf j).
Qed.

Lemma fold_left_add_byte_sum (bs : Buffer) (acc : Z) :
  fold_left Z.add (map byte_val bs) acc = acc + byte_sum bs.
Proof.
  revert acc. induction bs as [|b bs IH]; intros acc; cbn [map fold_left byte_sum foldr].
  - lia.
  - rewrite IH. unfold byte_sum. lia.
Qed.

(** X6. [checkSum8bit] is the sum modulo 256 of the bytes from [start] to
    [end], both included, when they all lie in the buffer.  It is 0 when
    [end] is below [start], and also when the range is not empty and starts
    before or ends after the buffer.  It is always a number from 0 to
    255. *)
Theorem checkSum8bit_sum (buf : Buffer) (start end_ : Z) :
  (0 <= start -> start <= end_ + 1 -> end_ < buf_length buf ->
   checkSum8bit buf start end_ = byte_sum (subarray buf start (end_ + 1)) mod 256) /\
  (start <= end_ -> start < 0 \/ buf_length buf <= end_ -> checkSum8bit buf start end_ = 0) /\
  (end_ < start -> checkSum8bit buf start end_ = 0) /\
  0 <= checkSum8bit buf start end_ < 256.
Proof.
  assert (Hin : 0 <= start -> start <= end_ + 1 -> end_ < buf_length buf ->
                checkSum8bit buf start end_ = byte_sum (subarray buf start (end_ + 1)) mod 256).
  { intros H0 Hle Hl. unfold checkSum8bit.
    rewrite mapM_buf_get_in_range by lia.
    rewrite fold_left_add_byte_sum, js_and_0xff, Z.add_0_l.
    do 2 f_equal. unfold subarray, clamp_index.
    destruct (start <? 0) eqn:E1; [zbool; lia|].
    destruct (end_ + 1 <? 0) eqn:E2; [zbool; lia|].
    rewrite !Z.min_l by lia. do 2 f_equal. lia. }
  assert (Hout : start <= end_ -> start < 0 \/ buf_length buf <= end_ ->
                 checkSum8bit buf start end_ = 0).
  { intros Hle Hb. unfold checkSum8bit.
    set (idx := map _ _).
    assert (Hi : exists i, i ∈ idx /\ buf_get buf i = None).
    { destruct Hb as [Hb|Hb].
      - exists start. split.
        + subst idx. apply list_elem_of_fmap. exists 0%nat. split; [lia|].
          apply elem_of_seq. lia.
        + unfold buf_get. destruct (start <? 0) eqn:E; [reflexivity | zbool; lia].
      - exists end_. split.
        + subst idx. apply list_elem_of_fmap. exists (Z.to_nat (end_ - start)). split; [lia|].
          apply elem_of_seq. lia.
        + unfold buf_get. destruct (end_ <? 0); [reflexivity|].
          unfold buf_length in Hb. rewrite lookup_ge_None_2 by lia. reflexivity. }
    destruct Hi as (i & Hi & Hn). now rewrite (mapM_buf_get_None buf idx i Hi Hn). }
  assert (Hempty : end_ < start -> checkSum8bit buf start end_ = 0).
  { intros Hlt. unfold checkSum8bit.
    replace (Z.to_nat (end_ - start + 1)) with 0%nat by lia. reflexivity. }
  repeat split; try assumption.
  - destruct (Z_lt_le_dec end_ start) as [Hlt|Hle]; [rewrite Hempty; lia|].
    destruct (Z_lt_le_dec start 0) as [Hs|Hs]; [rewrite Hout; lia|].
    destruct (Z_lt_le_dec end_ (buf_length buf)) as [He|He]; [|rewrite Hout; lia].
    rewrite Hin by lia. apply Z.mod_pos_bound. lia.
  - destruct (Z_lt_le_dec end_ start) as [Hlt|Hle]; [rewrite Hempty; lia|].
    destruct (Z_lt_le_dec start 0) as [Hs|Hs]; [rewrite Hout; lia|].
    destruct (Z_lt_le_dec end_ (buf_length buf)) as [He|He]; [|rewrite Hout; lia].
    rewrite Hin by lia. apply Z.mod_pos_bound. lia.
Qed.

(** ** The catalogue of blocks *)

Lemma assign_rwps_outcome (bs : Z) (rwps : list Z) (blocks : gmap Z DataFlashBlock.t) :
  (Forall (fun r => is_Some (blocks !! (r / bs))) rwps ->
   exists blocks', assign_rwps bs rwps blocks = Ok blocks') /\
  (Exists (fun r => blocks !! (r / bs) = None) rwps ->
   assign_rwps bs rwps blocks = Err TypeError_undefined).
Proof.
  revert blocks. induction rwps as [|r0 rwps IH]; intros blocks.
  - split; [intros _; eexists; reflexivity | intros H; inversion H].
  - unfold assign_rwps. cbn [for_each]. unfold floor_div.
    destruct (blocks !! (r0 / bs)) as [b0|] eqn:Eb; cbn [get_defined]; bind_step.
    + assert (Hins : forall j, <[r0 / bs := DataFlashBlock.set_rwp b0 r0]> blocks !! j = None
                               <-> blocks !! j = None).
      { intros j. destruct (Z.eq_dec (r0 / bs) j) as [Heq|Hne]; [subst j|].
        - rewrite lookup_insert_eq, Eb. split; discriminate.
        - now rewrite lookup_insert_ne. }
      destruct (IH (<[r0 / bs := DataFlashBlock.set_rwp b0 r0]> blocks)) as [IH1 IH2].
      split.
      * intros HF. apply Forall_cons in HF as [_ HF]. apply IH1.
        eapply Forall_impl; [exact HF|]. intros r Hr. cbv beta in *.
        rewrite <- not_eq_None_Some in *. now rewrite Hins.
      * intros HE. apply Exists_cons in HE as [HE|HE]; [congruence|].
        apply IH2. eapply Exists_impl; [exact HE|]. intros r Hr. cbv beta in *.
        now apply Hins.
    + split.
      * intros HF. apply Forall_cons in HF as [[? HF] _]. congruence.
      * reflexivity.
Qed.

Section CatalogueShape.

Variables (n bs : Z) (df : Buffer).
Variable scan : Z -> gmap Z DataFlashBlock.t * list Z
                -> result (gmap Z DataFlashBlock.t * list Z).
Variable valid : Buffer -> bool.
Variables (ec_off rwp_off : nat) (mul : Z).

Let ptr : Z -> Z := stored_rwp df bs rwp_off mul.

Hypothesis scan_spec : forall i blocks rwps,
  0 <= i < n ->
  scan i (blocks, rwps) =
    Ok (<[i := DataFlashBlock.mk i (valid (block_bytes df bs i))
                 (word24_at (block_bytes df bs i) ec_off) 0 (block_bytes df bs i)]> blocks,
        if valid (block_bytes df bs i)
        then rwps ++ [mul * word24_at (block_bytes df bs i) rwp_off] else rwps).

Hypothesis n_nonneg : 0 <= n.

Lemma scan_run :
  exists blocks0,
    for_each scan (range 0 n) (∅, []) = Ok (blocks0, map ptr (valid_blocks valid df bs n)) /\
    forall i, blocks0 !! i =
      if bool_decide (0 <= i < n)
      then Some (DataFlashBlock.mk i (valid (block_bytes df bs i))
                   (word24_at (block_bytes df bs i) ec_off) 0 (block_bytes df bs i))
      else None.
Proof.
  destruct (scan_all n bs df scan valid (fun w => word24_at w ec_off)
              (fun w => mul * word24_at w rwp_off) scan_spec (Z.to_nat n) ltac:(lia))
    as (blocks0 & Hrun & Hlook).
  rewrite Z2Nat.id in Hrun, Hlook by lia.
  exists blocks0. split; [exact Hrun | exact Hlook].
Qed.

Lemma catalogue_shape (blocks : gmap Z DataFlashBlock.t) :
  ('(blocks, rwps) ← for_each scan (range 0 n) (∅, []); assign_rwps bs rwps blocks)
    = Ok blocks ->
  catalogue_of df bs n valid ec_off rwp_off mul blocks /\ rwp_in_own_block bs blocks.
Proof.
  intros Hrun. destruct scan_run as (blocks0 & H0 & Hlook).
  rewrite H0 in Hrun. bind_step.
  pose proof (assign_rwps_spec bs ptr _ _ _ Hrun) as Hreg.
  assert (Hcat : catalogue_of df bs n valid ec_off rwp_off mul blocks).
  { intros j. rewrite Hreg, Hlook. destruct (bool_decide (0 <= j < n)); reflexivity. }
  split; [exact Hcat|].
  intros j t Ht. rewrite Hcat in Ht.
  destruct (bool_decide (0 <= j < n)); [|discriminate].
  inversion Ht; subst t; clear Ht. cbn [DataFlashBlock.rwp].
  unfold registered_rwp.
  destruct (last (filter _ _)) as [k|] eqn:El; [right | now left].
  apply last_Some_elem_of in El. apply list_elem_of_filter in El as [Hk _]. exact Hk.
Qed.

Lemma catalogue_outcome :
  (Forall (fun i => 0 <= ptr i / bs < n) (valid_blocks valid df bs n) ->
   exists blocks,
     ('(blocks, rwps) ← for_each scan (range 0 n) (∅, []); assign_rwps bs rwps blocks)
       = Ok blocks) /\
  (Exists (fun i => ~ 0 <= ptr i / bs < n) (valid_blocks valid df bs n) ->
   ('(blocks, rwps) ← for_each scan (range 0 n) (∅, []); assign_rwps bs rwps blocks)
     = Err TypeError_undefined).
Proof.
  destruct scan_run as (blocks0 & H0 & Hlook). rewrite H0. bind_step.
  destruct (assign_rwps_outcome bs (map ptr (valid_blocks valid df bs n)) blocks0) as [H1 H2].
  split.
  - intros HF. apply H1. apply Forall_fmap. eapply Forall_impl; [exact HF|].
    intros i Hi. cbv beta in *. unfold compose. rewrite Hlook.
    rewrite bool_decide_eq_true_2 by exact Hi. eauto.
  - intros HE. apply H2. apply Exists_fmap. eapply Exists_impl; [exact HE|].
    intros i Hi. cbv beta in *. unfold compose. rewrite Hlook.
    now rewrite bool_decide_eq_false_2 by exact Hi.
Qed.

End CatalogueShape.

Lemma word24_at_nonneg (buf : Buffer) (a : nat) : 0 <= word24_at buf a.
Proof.
  unfold word24_at, le_word.
  pose proof (buf_num_range buf (Z.of_nat a)).
  pose proof (buf_num_range buf (Z.of_nat a + 1)).
  pose proof (buf_num_range buf (Z.of_nat a + 2)). lia.
Qed.

Lemma getBlocksData_A_run (this : NecEmulator) :
  blockSize this = 0x1000 ->
  V850e2.getBlocksData this =
    ('(blocks, rwps) ← for_each (V850e2.scan_block this) (range 0 (nBlocks this)) (∅, []);
     assign_rwps 0x1000 rwps blocks).
Proof. intros Hbs. unfold V850e2.getBlocksData. now rewrite Hbs. Qed.

Lemma getBlocksData_B_run (this : NecEmulator) :
  blockSize this = 0x800 ->
  RH850.getBlocksData this =
    ('(blocks, rwps) ← for_each (RH850.scan_block this) (range 0 (nBlocks this)) (∅, []);
     assign_rwps 0x800 rwps blocks).
Proof. intros Hbs. unfold RH850.getBlocksData. now rewrite Hbs. Qed.

(** X7. When [getBlocksData] of either family returns, the catalogue has one
    entry for each block of the image and no other: the index of the block,
    the verdict of [isValidBlock], the three-byte erase counter, the bytes
    of the block, and as write pointer the pointer stored by the last valid
    block whose pointer falls into this block, 0 when there is none.  So
    every write pointer of the catalogue is 0 or lies in the block it is
    registered against. *)
Theorem getBlocksData_catalogue (thisA thisB : NecEmulator)
    (blocksA blocksB : gmap Z DataFlashBlock.t) :
  blockSize thisA = V850e2.BLOCK_SIZE ->
  blockSize thisB = RH850.BLOCK_SIZE ->
  buf_length (dfBuffer thisA) = nBlocks thisA * blockSize thisA ->
  buf_length (dfBuffer thisB) = nBlocks thisB * blockSize thisB ->
  V850e2.getBlocksData thisA = Ok blocksA ->
  RH850.getBlocksData thisB = Ok blocksB ->
  (catalogue_of (dfBuffer thisA) V850e2.BLOCK_SIZE (nBlocks thisA) (validA thisA)
     0x28 0x30 2 blocksA /\
   rwp_in_own_block V850e2.BLOCK_SIZE blocksA) /\
  (catalogue_of (dfBuffer thisB) RH850.BLOCK_SIZE (nBlocks thisB) validB
     0x10 0x14 1 blocksB /\
   rwp_in_own_block RH850.BLOCK_SIZE blocksB).
Proof.
  unfold V850e2.BLOCK_SIZE, RH850.BLOCK_SIZE.
  intros HbsA HbsB HlenA HlenB HA HB. split.
  - apply (catalogue_shape (nBlocks thisA) 0x1000 (dfBuffer thisA) (V850e2.scan_block thisA)
             (validA thisA) 0x28 0x30 2).
    + intros i blocks rwps Hi. now apply scan_block_A.
    + apply nBlocks_nonneg; [lia | assumption].
    + now rewrite <- getBlocksData_A_run.
  - apply (catalogue_shape (nBlocks thisB) 0x800 (dfBuffer thisB) (RH850.scan_block thisB)
             validB 0x10 0x14 1).
    + intros i blocks rwps Hi. now apply scan_block_B.
    + apply nBlocks_nonneg; [lia | assumption].
    + now rewrite <- getBlocksData_B_run.
Qed.

Lemma getBlocksData_catalogue_witness :
  let thisA := Samples.emulator Samples.imageA_overlap 0x1000 in
  let thisB := Samples.emulator Samples.imageB_single 0x800 in
  exists blocksA blocksB,
    V850e2.getBlocksData thisA = Ok blocksA /\
    RH850.getBlocksData thisB = Ok blocksB /\
    (catalogue_of (dfBuffer thisA) V850e2.BLOCK_SIZE (nBlocks thisA) (validA thisA)
       0x28 0x30 2 blocksA /\
     rwp_in_own_block V850e2.BLOCK_SIZE blocksA) /\
    (catalogue_of (dfBuffer thisB) RH850.BLOCK_SIZE (nBlocks thisB) validB
       0x10 0x14 1 blocksB /\
     rwp_in_own_block RH850.BLOCK_SIZE blocksB).
Proof.
  intros thisA thisB.
  destruct (V850e2.getBlocksData thisA) as [blocksA|e] eqn:EA;
    [|vm_compute in EA; discriminate EA].
  destruct (RH850.getBlocksData thisB) as [blocksB|e] eqn:EB;
    [|vm_compute in EB; discriminate EB].
  exists blocksA, blocksB. split; [reflexivity|]. split; [reflexivity|].
  apply (getBlocksData_catalogue thisA thisB blocksA blocksB);
    try assumption; vm_compute; reflexivity.
Defined.

Lemma pointer_inside_iff (p bs n : Z) : 0 < bs -> 0 <= p -> 0 <= p / bs < n <-> p < n * bs.
Proof.
  intros Hbs Hp. split.
  - intros [_ H].
    pose proof (Z.div_mod p bs ltac:(lia)). pose proof (Z.mod_pos_bound p bs Hbs). nia.
  - intros H. split; [apply Z.div_pos; lia | apply Z.div_lt_upper_bound; lia].
Qed.

(** X8. [getBlocksData] of either family returns when the write pointer
    stored by every valid block lies inside the image, and fails with a
    TypeError, an assignment to a property of [undefined], when a valid
    block stores a write pointer at or after the end of the image. *)
Theorem getBlocksData_pointer_outside (thisA thisB : NecEmulator) :
  blockSize thisA = V850e2.BLOCK_SIZE ->
  blockSize thisB = RH850.BLOCK_SIZE ->
  buf_length (dfBuffer thisA) = nBlocks thisA * blockSize thisA ->
  buf_length (dfBuffer thisB) = nBlocks thisB * blockSize thisB ->
  let validsA := valid_blocks (validA thisA) (dfBuffer thisA) V850e2.BLOCK_SIZE (nBlocks thisA) in
  let validsB := valid_blocks validB (dfBuffer thisB) RH850.BLOCK_SIZE (nBlocks thisB) in
  let rwpA := stored_rwp (dfBuffer thisA) V850e2.BLOCK_SIZE 0x30 2 in
  let rwpB := stored_rwp (dfBuffer thisB) RH850.BLOCK_SIZE 0x14 1 in
  (Forall (fun i => rwpA i < buf_length (dfBuffer thisA)) validsA ->
   exists blocks, V850e2.getBlocksData thisA = Ok blocks) /\
  (Exists (fun i => buf_length (dfBuffer thisA) <= rwpA i) validsA ->
   V850e2.getBlocksData thisA = Err TypeError_undefined) /\
  (Forall (fun i => rwpB i < buf_length (dfBuffer thisB)) validsB ->
   exists blocks, RH850.getBlocksData thisB = Ok blocks) /\
  (Exists (fun i => buf_length (dfBuffer thisB) <= rwpB i) validsB ->
   RH850.getBlocksData thisB = Err TypeError_undefined).
Proof.
  intros HbsA HbsB HlenA HlenB validsA validsB rwpA rwpB.
  unfold V850e2.BLOCK_SIZE, RH850.BLOCK_SIZE in *.
  assert (HnA : 0 <= nBlocks thisA) by (apply nBlocks_nonneg; [lia | assumption]).
  assert (HnB : 0 <= nBlocks thisB) by (apply nBlocks_nonneg; [lia | assumption]).
  assert (HpA : forall i, 0 <= rwpA i)
    by (intros i; unfold rwpA, stored_rwp; pose proof (word24_at_nonneg
          (block_bytes (dfBuffer thisA) 0x1000 i) 0x30); lia).
  assert (HpB : forall i, 0 <= rwpB i)
    by (intros i; unfold rwpB, stored_rwp; pose proof (word24_at_nonneg
          (block_bytes (dfBuffer thisB) 0x800 i) 0x14); lia).
  destruct (catalogue_outcome (nBlocks thisA) 0x1000 (dfBuffer thisA) (V850e2.scan_block thisA)
              (validA thisA) 0x28 0x30 2
              ltac:(intros i blocks rwps Hi; now apply scan_block_A) HnA) as [A1 A2].
  destruct (catalogue_outcome (nBlocks thisB) 0x800 (dfBuffer thisB) (RH850.scan_block thisB)
              validB 0x10 0x14 1
              ltac:(intros i blocks rwps Hi; now apply scan_block_B) HnB) as [B1 B2].
  rewrite <- getBlocksData_A_run in A1, A2 by assumption.
  rewrite <- getBlocksData_B_run in B1, B2 by assumption.
  rewrite HlenA, HlenB, HbsA, HbsB.
  split; [|split; [|split]].
  - intros HF. apply A1. eapply Forall_impl; [exact HF|]. intros i Hi. cbv beta in *.
    apply pointer_inside_iff; [lia | apply HpA | exact Hi].
  - intros HE. apply A2. eapply Exists_impl; [exact HE|]. intros i Hi. cbv beta in *.
    rewrite pointer_inside_iff; [fold (rwpA i); lia | lia | apply HpA].
  - intros HF. apply B1. eapply Forall_impl; [exact HF|]. intros i Hi. cbv beta in *.
    apply pointer_inside_iff; [lia | apply HpB | exact Hi].
  - intros HE. apply B2. eapply Exists_impl; [exact HE|]. intros i Hi. cbv beta in *.
    rewrite pointer_inside_iff; [fold (rwpB i); lia | lia | apply HpB].
Qed.

Lemma getBlocksData_pointer_outside_witness :
  let thisA := Samples.emulator Images.imageA_outside 0x1000 in
  let thisB := Samples.emulator Images.imageB_outside 0x800 in
  V850e2.getBlocksData thisA = Err TypeError_undefined /\
  RH850.getBlocksData thisB = Err TypeError_undefined.
Proof.
  intros thisA thisB.
  assert (H1 : blockSize thisA = V850e2.BLOCK_SIZE) by reflexivity.
  assert (H2 : blockSize thisB = RH850.BLOCK_SIZE) by reflexivity.
  assert (H3 : buf_length (dfBuffer thisA) = nBlocks thisA * blockSize thisA)
    by (vm_compute; reflexivity).
  assert (H4 : buf_length (dfBuffer thisB) = nBlocks thisB * blockSize thisB)
    by (vm_compute; reflexivity).
  assert (HvA : valid_blocks (validA thisA) (dfBuffer thisA) V850e2.BLOCK_SIZE (nBlocks thisA)
                = [0]) by (vm_compute; reflexivity).
  assert (HvB : valid_blocks validB (dfBuffer thisB) RH850.BLOCK_SIZE (nBlocks thisB)
                = [0]) by (vm_compute; reflexivity).
  pose proof (getBlocksData_pointer_outside thisA thisB H1 H2 H3 H4) as H.
  cbv zeta in H. destruct H as (_ & A2 & _ & B2).
  rewrite HvA in A2. rewrite HvB in B2.
  split.
  - apply A2. apply Exists_cons_hd. vm_compute. discriminate.
  - apply B2. apply Exists_cons_hd. vm_compute. discriminate.
Defined.

(** ** Family A: records inside a block *)

Lemma readUint32_range (buf : Buffer) (a : Z) (e : bool) (w : Z) :
  readUint32 buf a e = Ok w -> 0 <= w <= 0xffffffff.
Proof.
  unfold readUint32. intros H. apply bind_Ok_inv in H as (buf' & _ & H).
  destruct (buf_length buf' <? a + 4); [discriminate|].
  inversion H; subst w; clear H. apply word_value_range.
Qed.

Lemma readUint32_Ok_inv (buf : Buffer) (a w : Z) :
  4 <= buf_length buf -> 0 <= a ->
  readUint32 buf a true = Ok w ->
  a + 4 <= buf_length buf /\ w = word_at buf (Z.to_nat a).
Proof.
  intros H4 Ha H.
  destruct (Z_lt_le_dec (buf_length buf) (a + 4)) as [Hlt|Hle].
  - rewrite readUint32_past_end in H by assumption. discriminate.
  - rewrite readUint32_at in H by assumption. inversion H. auto.
Qed.

Lemma entry_loop_plain (this : NecEmulator) (widx id rwp : Z) (nextBlock : option Z)
    (fixL : Z) (n : nat) (ofs : Z) (data : list Z) :
  (forall j, ofs <= j <= ofs + Z.of_nat n ->
     (widx - j) * 8 <> rwp /\ 0 <= (widx - j) * 8 /\
     (widx - j) * 8 + 4 <= buf_length (dfBuffer this)) ->
  V850e2.entry_loop this widx id rwp nextBlock fixL n ofs data
  = Ok (data ++ in_block_words (dfBuffer this) widx ofs (Z.of_nat n + 1)).
Proof.
  revert ofs data. induction n as [|n IH]; intros ofs data Hwalk;
    destruct (Hwalk ofs ltac:(lia)) as (Hne & H0 & H4);
    cbn [V850e2.entry_loop]; apply Z.eqb_neq in Hne; rewrite Hne;
    rewrite readUint32_at by assumption; bind_step.
  - unfold in_block_words. rewrite range_cons, range_nil by lia. reflexivity.
  - rewrite IH by (intros j Hj; apply Hwalk; lia).
    rewrite <- app_assoc. do 2 f_equal. unfold in_block_words.
    rewrite (range_cons ofs) by lia. cbn [map app].
    replace (ofs + 1 + (Z.of_nat n + 1)) with (ofs + (Z.of_nat (S n) + 1)) by lia.
    reflexivity.
Qed.

Lemma length_in_block_words (df : Buffer) (widx ofs k : Z) :
  length (in_block_words df widx ofs k) = Z.to_nat k.
Proof.
  unfold in_block_words, range. rewrite !length_map, length_seq. f_equal. lia.
Qed.

(** X9. Family A: when the walk of a record stays inside the image and does
    not meet the write pointer, [readDataEntry] reads max (1, ceil (len / 4))
    words, [len] being the low half of the first word, from address
    [widx * 8] downward in steps of eight bytes.  It returns them when the
    checksum of the id and the words is the reference checksum and throws
    the checksum error otherwise. *)
Theorem readDataEntry_in_block (this : NecEmulator) (widx id cksRef rwp : Z)
    (nextBlock : option Z) (w0 : Z) :
  let fixL := ceil_div (js_and w0 0xffff) 4 in
  let data := in_block_words (dfBuffer this) widx 0 (Z.max 1 fixL) in
  0 <= id <= 0xffff ->
  readUint32 (dfBuffer this) (widx * 8) true = Ok w0 ->
  (forall j, 0 <= j < Z.max 1 fixL ->
     (widx - j) * 8 <> rwp /\ 0 <= (widx - j) * 8 /\
     (widx - j) * 8 + 4 <= buf_length (dfBuffer this)) ->
  Z.of_nat (length data) = Z.max 1 fixL /\
  V850e2.readDataEntry this widx id cksRef rwp nextBlock
  = if record_checksum id data =? cksRef then Ok data
    else Err (Error_checksum id (widx * 8)).
Proof.
  intros fixL data Hid Hw0 Hwalk. split.
  - subst data. rewrite length_in_block_words. lia.
  - unfold V850e2.readDataEntry. rewrite Hw0. bind_step. fold fixL.
    rewrite entry_loop_plain by (intros j Hj; apply Hwalk; lia).
    bind_step. cbn [app].
    replace (Z.of_nat (Z.to_nat fixL - 1) + 1) with (Z.max 1 fixL) by lia.
    fold data. rewrite rolling_checksum_spec by lia.
    now destruct (record_checksum id data =? cksRef).
Qed.

Lemma readDataEntry_in_block_witness :
  let this := Samples.scannedA Samples.imageA_checksum in
  V850e2.readDataEntry this 0x1ff 5 0xfffffff6 0x800 None = Ok [4].
Proof.
  intros this.
  assert (H1 : readUint32 (dfBuffer this) (0x1ff * 8) true = Ok 4)
    by (vm_compute; reflexivity).
  assert (Hlen : buf_length (dfBuffer this) = 0x1000) by (vm_compute; reflexivity).
  pose proof (readDataEntry_in_block this 0x1ff 5 0xfffffff6 0x800 None 4) as H.
  cbv zeta in H.
  change (Z.max 1 (ceil_div (js_and 4 0xffff) 4)) with 1 in H.
  destruct H as [_ H].
  - lia.
  - exact H1.
  - intros j Hj. rewrite Hlen. lia.
  - rewrite H. vm_compute. reflexivity.
Defined.

(** ** Family A: what a reference slot does to the result *)

Lemma for_each_total {I S : Type} (P : S -> Prop) (body : I -> S -> result S)
    (l : list I) (s : S) :
  (forall i s, i ∈ l -> P s -> exists s', body i s = Ok s' /\ P s') ->
  P s -> exists s', for_each body l s = Ok s' /\ P s'.
Proof.
  revert s. induction l as [|i l IH]; intros s Hbody Hs.
  - exists s. split; [reflexivity | exact Hs].
  - cbn [for_each].
    destruct (Hbody i s ltac:(left) Hs) as (s1 & -> & Hs1). bind_step.
    apply IH; [|exact Hs1]. intros j s2 Hj. apply Hbody. now right.
Qed.

Lemma Buffer_copy_total (src tgt : Buffer) (ts se : Z) :
  0 <= ts -> 0 <= se ->
  exists r, Buffer_copy src tgt ts 0 se = Ok r /\ length r = length tgt.
Proof.
  intros Hts Hse.
  destruct (Buffer_copy_spec src tgt ts 0 se Hts) as (r & Hr & Hl & _);
    [unfold buf_length; lia | exact Hse |].
  exists r. auto.
Qed.

Lemma int32ToWord_total (w : Z) :
  uint32 w -> exists word, int32ToWord w true = Ok word /\ length word = 4%nat.
Proof.
  intros Hw. rewrite int32ToWord_bytes by exact Hw. eexists. split; reflexivity.
Qed.

Lemma words_to_buffer_total (dataEntry : list Z) :
  Forall uint32 dataEntry -> exists dataBuf, V850e2.words_to_buffer dataEntry = Ok dataBuf.
Proof.
  intros Hr. unfold V850e2.words_to_buffer, Buffer_alloc.
  destruct (Z.of_nat (length dataEntry) * 4 <? 0) eqn:E; [zbool; lia|]. bind_step.
  destruct (for_each_total (fun _ => True)
              (fun j dataBuf =>
                 w ← get_defined (dataEntry !! Z.to_nat j);
                 word ← int32ToWord w true;
                 Buffer_copy word dataBuf (j * 4) 0 (buf_length word))
              (range 0 (Z.of_nat (length dataEntry)))
              (repeat x00 (Z.to_nat (Z.of_nat (length dataEntry) * 4)))) as (r & Hr' & _);
    [|exact I|eauto].
  intros j s Hj _. apply elem_of_range in Hj.
  destruct (lookup_lt_is_Some_2 dataEntry (Z.to_nat j) ltac:(lia)) as [w Hw].
  rewrite Hw. cbn [get_defined]. bind_step.
  rewrite Forall_lookup in Hr. specialize (Hr _ _ Hw).
  destruct (int32ToWord_total w Hr) as (word & -> & Hlen). bind_step.
  destruct (Buffer_copy_total word s (j * 4) (buf_length word)) as (r & -> & _);
    [lia | unfold buf_length; lia |]. eauto.
Qed.

Lemma overlap_loop_words (blockBuf : Buffer) (n : nat) (ofs : Z) (endData data : list Z) :
  V850e2.overlap_loop blockBuf n ofs endData = Ok data ->
  exists more, data = endData ++ more /\ more <> [] /\ Forall uint32 more.
Proof.
  revert ofs endData. induction n as [|n IH]; intros ofs endData H; cbn [V850e2.overlap_loop] in H;
    apply bind_Ok_inv in H as (word & Hw & H); apply readUint32_range in Hw.
  - inversion H; subst. exists [word]. repeat split; [discriminate | now constructor].
  - apply IH in H as (more & -> & _ & Hm). exists (word :: more).
    rewrite <- app_assoc. repeat split; [discriminate | now constructor].
Qed.

Lemma entry_loop_words (this : NecEmulator) (widx id rwp : Z) (nextBlock : option Z)
    (fixL : Z) (n : nat) (ofs : Z) (data0 data : list Z) :
  V850e2.entry_loop this widx id rwp nextBlock fixL n ofs data0 = Ok data ->
  exists more, data = data0 ++ more /\ more <> [] /\ Forall uint32 more.
Proof.
  revert ofs data0. induction n as [|n IH]; intros ofs data0 H; cbn [V850e2.entry_loop] in H;
    (destruct ((widx - ofs) * 8 =? rwp);
     [destruct nextBlock as [nb|]; [|discriminate];
      apply bind_Ok_inv in H as (b & _ & H);
      apply bind_Ok_inv in H as (fin & Hfin & H);
      inversion H; subst; clear H;
      apply overlap_loop_words in Hfin as (more & -> & Hne & Hm);
      exists more; auto
     |]);
    apply bind_Ok_inv in H as (word & Hw & H); apply readUint32_range in Hw.
  - inversion H; subst. exists [word]. repeat split; [discriminate | now constructor].
  - apply IH in H as (more & -> & _ & Hm). exists (word :: more).
    rewrite <- app_assoc. repeat split; [discriminate | now constructor].
Qed.

Lemma readDataEntry_A_words (this : NecEmulator) (widx id cksRef rwp : Z)
    (nextBlock : option Z) (data : list Z) :
  V850e2.readDataEntry this widx id cksRef rwp nextBlock = Ok data ->
  data <> [] /\ Forall uint32 data /\ V850e2.rolling_checksum id data = cksRef.
Proof.
  unfold V850e2.readDataEntry. intros H.
  apply bind_Ok_inv in H as (w0 & _ & H). apply bind_Ok_inv in H as (d & Hd & H).
  destruct (V850e2.rolling_checksum id d =? cksRef) eqn:E; [|discriminate].
  inversion H; subst d; clear H. zbool.
  apply entry_loop_words in Hd as (more & -> & Hne & Hm). auto.
Qed.

(** What a round of the reference walk does to the decoder. *)
Lemma process_slot_cases (this this' : NecEmulator) (blockId block : Z)
    (nextBlock : option Z) (i word : Z) :
  V850e2.process_slot this blockId block nextBlock i word = Ok this' ->
  this' = this \/
  exists b cksRef data dataBuf,
    blockData this !! block = Some b /\
    readUint32 (DataFlashBlock.buf b) (i * 0x10 + 0x08) true = Ok cksRef /\
    V850e2.readDataEntry this (js_sar word 16) (js_and word 0xffff) cksRef
      (DataFlashBlock.rwp b) nextBlock = Ok data /\
    this' = set_eepData this
              (<[js_and word 0xffff :=
                   EepData.mk (js_and word 0xffff) (js_sar word 16)
                     (js_sar word 16 + blockSize this * blockId)
                     (inject_Z (Z.of_nat (length data))) data dataBuf
                     (i * 0x10 + blockSize this * block)]> (eepData this)).
Proof.
  intros H. unfold V850e2.process_slot in H.
  destruct (blockData this !! block) as [b|] eqn:Eb; [|discriminate].
  cbn [get_defined] in H. rewrite bind_Ok in H.
  apply bind_Ok_inv in H as (cksRef & Hc & H).
  destruct (V850e2.readDataEntry this (js_sar word 16) (js_and word 0xffff) cksRef
              (DataFlashBlock.rwp b) nextBlock) as [data|e] eqn:Er; cbn [try_or] in H.
  - destruct (negb (length data =? 0)%nat); [|inversion H; auto].
    apply bind_Ok_inv in H as (dataBuf & _ & H). inversion H; subst this'; clear H.
    right. exists b, cksRef, data, dataBuf. auto.
  - cbn in H. inversion H. auto.
Qed.

Lemma process_slot_total (this : NecEmulator) (blockId block : Z)
    (nextBlock : option Z) (i word : Z) (b : DataFlashBlock.t) :
  blockData this !! block = Some b ->
  buf_length (DataFlashBlock.buf b) = 0x1000 ->
  0 <= i -> i * 0x10 + 4 <= 0x1000 ->
  exists this', V850e2.process_slot this blockId block nextBlock i word = Ok this'.
Proof.
  intros Hb Hlen H0 Hi. unfold V850e2.process_slot. rewrite Hb. cbn [get_defined]. bind_step.
  rewrite readUint32_at by lia. bind_step.
  destruct (V850e2.readDataEntry _ _ _ _ _ _) as [data|e] eqn:Er; cbn [try_or].
  - destruct (negb (length data =? 0)%nat); [|eauto].
    apply readDataEntry_A_words in Er as (_ & Hr & _).
    destruct (words_to_buffer_total data Hr) as (dataBuf & ->). bind_step. eauto.
  - cbn. eauto.
Qed.

(** ** Family A: the walk of the constructor *)

Lemma same_catalogue_refl (this : NecEmulator) : same_catalogue this this.
Proof. repeat split. Qed.

Lemma same_catalogue_trans (a b c : NecEmulator) :
  same_catalogue a b -> same_catalogue b c -> same_catalogue a c.
Proof. unfold same_catalogue. intros (?&?&?&?&?) (?&?&?&?&?). repeat split; congruence. Qed.

Lemma same_catalogue_set_eepData (this : NecEmulator) (m : gmap Z EepData.t) :
  same_catalogue this (set_eepData this m).
Proof. repeat split. Qed.

Lemma catalogued_same (bs : Z) (this this' : NecEmulator) :
  catalogued bs this -> same_catalogue this this' -> catalogued bs this'.
Proof.
  unfold catalogued, same_catalogue. intros (H1 & H2 & H3 & H4) (E1 & E2 & E3 & E4 & E5).
  rewrite E1, E2, E3, E4, E5. auto.
Qed.

Lemma catalogued_buf_length (bs : Z) (this : NecEmulator) (j : Z) (t : DataFlashBlock.t) :
  0 < bs -> catalogued bs this -> blockData this !! j = Some t ->
  buf_length (DataFlashBlock.buf t) = bs.
Proof.
  intros Hbs (H1 & H2 & H3 & _) Ht. destruct (H3 _ _ Ht) as [Hj ->].
  destruct (block_window_spec this j) as [_ Hl]; [lia | now rewrite H1 | exact Hj |].
  now rewrite H1 in Hl.
Qed.

Lemma process_slot_same (this this' : NecEmulator) (blockId block : Z)
    (nextBlock : option Z) (i word : Z) :
  V850e2.process_slot this blockId block nextBlock i word = Ok this' ->
  same_catalogue this this'.
Proof.
  intros H. apply process_slot_cases in H as [->|(b & c & d & db & _ & _ & _ & ->)].
  - apply same_catalogue_refl.
  - apply same_catalogue_set_eepData.
Qed.

Lemma slot_index_bound (i : Z) : i * 0x10 + 4 <= 0x1000 -> 0x1000 < (i + 1) * 0x10 + 4 ->
  (i + 1) * 0x10 = 0x1000.
Proof. lia. Qed.

Section WalkA.

Variable P : NecEmulator -> Prop.
Variable this0 : NecEmulator.
Hypothesis Hcat : catalogued 0x1000 this0.

Hypothesis step : forall this this' blockId block nextBlock i word b,
  same_catalogue this0 this -> P this ->
  blockData this0 !! block = Some b ->
  4 <= i -> i * 0x10 + 4 <= 0x1000 ->
  word = word_at (DataFlashBlock.buf b) (Z.to_nat (i * 0x10)) ->
  word <> V850e2.REF_END_FLAG ->
  V850e2.process_slot this blockId block nextBlock i word = Ok this' ->
  P this'.

Let outcome (r : result NecEmulator) : Prop :=
  match r with
  | Ok this' => same_catalogue this0 this' /\ P this'
  | Err e => e = RangeError_read 0x1000 0x1000
  end.

Lemma slot_loop_outcome (fuel : nat) (this : NecEmulator) (blockId block : Z)
    (nextBlock : option Z) (i word : Z) (b : DataFlashBlock.t) (r : result NecEmulator) :
  same_catalogue this0 this -> P this ->
  blockData this0 !! block = Some b ->
  4 <= i ->
  readUint32 (DataFlashBlock.buf b) (i * 0x10) true = Ok word ->
  V850e2.slot_loop fuel this blockId block nextBlock i word = Some r ->
  outcome r.
Proof.
  intros Hsame HP Hb. revert this i word Hsame HP.
  assert (Hlen : buf_length (DataFlashBlock.buf b) = 0x1000)
    by (eapply catalogued_buf_length; eauto; lia).
  induction fuel as [|fuel IH]; intros this i word Hsame HP Hi Hw H;
    cbn [V850e2.slot_loop] in H;
    (destruct (word =? V850e2.REF_END_FLAG) eqn:Eend;
       [inversion H; subst r; split; assumption|]);
    apply readUint32_Ok_inv in Hw as [Hin Hword]; try lia;
    assert (Hbt : blockData this !! block = Some b)
      by (destruct Hsame as (_ & -> & _); exact Hb);
    (destruct (process_slot_total this blockId block nextBlock i word b Hbt Hlen
                 ltac:(lia) ltac:(lia)) as [this1 Ep]);
    rewrite Ep in H;
    pose proof (process_slot_same _ _ _ _ _ _ _ Ep) as Hs1;
    pose proof (same_catalogue_trans _ _ _ Hsame Hs1) as Hsame1;
    assert (HP1 : P this1)
      by (apply (step this this1 blockId block nextBlock i word b Hsame HP Hb Hi);
          [lia | exact Hword | now apply Z.eqb_neq | exact Ep]);
    unfold V850e2.next_slot in H;
    assert (Hb1 : blockData this1 !! block = Some b)
      by (destruct Hsame1 as (_ & -> & _); exact Hb);
    rewrite Hb1 in H; cbn [get_defined] in H;
    (destruct (readUint32 (DataFlashBlock.buf b) ((i + 1) * 0x10) true) as [w|e] eqn:Ew;
       [|inversion H; subst r; cbn;
         destruct (Z_lt_le_dec 0x1000 ((i + 1) * 0x10 + 4)) as [Hout|Hok];
         [rewrite readUint32_past_end in Ew by lia; inversion Ew;
          rewrite Hlen; f_equal; lia
         |rewrite readUint32_at in Ew by lia; discriminate Ew]]);
    (destruct (negb (DataFlashBlock.rwp b =? 0) && _);
       [inversion H; subst r; split; assumption|]).
  - discriminate H.
  - eapply (IH this1 (i + 1) w); eauto. lia.
Qed.

Lemma populateBlockData_outcome (fuel : nat) (this : NecEmulator) (blockId : Z)
    (r : result NecEmulator) :
  same_catalogue this0 this -> P this ->
  0 <= blockId < Z.of_nat (length (activeBlocks this0)) ->
  V850e2.populateBlockData fuel this blockId = Some r ->
  outcome r.
Proof.
  intros Hsame HP Hid H. unfold V850e2.populateBlockData in H.
  destruct Hsame as (E1 & E2 & E3 & E4 & E5). rewrite E5, E2 in H.
  destruct (lookup_lt_is_Some_2 (activeBlocks this0) (Z.to_nat blockId) ltac:(lia))
    as [block Hblock].
  rewrite Hblock in H. cbn [get_defined] in H. rewrite bind_Ok in H.
  destruct Hcat as (_ & _ & _ & Hact).
  destruct (Hact block) as [b Hb]; [eapply list_elem_of_lookup_2; eauto|].
  rewrite Hb in H. cbn [get_defined] in H. rewrite bind_Ok in H.
  assert (Hlen : buf_length (DataFlashBlock.buf b) = 0x1000)
    by (eapply catalogued_buf_length; eauto; lia).
  rewrite readUint32_at in H by lia. rewrite bind_Ok in H.
  eapply (slot_loop_outcome fuel this blockId block _ 4 _ b); eauto.
  - repeat split; assumption.
  - lia.
  - apply readUint32_at; lia.
Qed.

Lemma populate_all_outcome (fuel : nat) (ids : list Z) (this : NecEmulator)
    (r : result NecEmulator) :
  same_catalogue this0 this -> P this ->
  Forall (fun blockId => 0 <= blockId < Z.of_nat (length (activeBlocks this0))) ids ->
  V850e2.populate_all fuel this ids = Some r ->
  outcome r.
Proof.
  revert this. induction ids as [|i ids IH]; intros this Hsame HP Hids H;
    cbn [V850e2.populate_all] in H.
  - inversion H; subst r. split; assumption.
  - apply Forall_cons in Hids as [Hi Hids].
    destruct (V850e2.populateBlockData fuel this i) as [[this1|e]|] eqn:Ep;
      try discriminate H.
    + apply populateBlockData_outcome in Ep as [Hs1 HP1]; try assumption.
      eapply IH; eauto.
    + inversion H; subst r. eapply populateBlockData_outcome in Ep; eauto.
Qed.

End WalkA.

Lemma assign_rwps_error (bs : Z) (rwps : list Z) (blocks : gmap Z DataFlashBlock.t)
    (e : Exception) :
  assign_rwps bs rwps blocks = Err e -> e = TypeError_undefined.
Proof.
  revert blocks. induction rwps as [|r rwps IH]; intros blocks H; [discriminate|].
  unfold assign_rwps in H. cbn [for_each] in H.
  destruct (blocks !! floor_div r bs) as [b|]; cbn [get_defined] in H.
  - rewrite !bind_Ok in H. now apply IH in H.
  - rewrite bind_Err in H. now inversion H.
Qed.

Lemma getBlocksData_A_error (this : NecEmulator) (e : Exception) :
  blockSize this = 0x1000 ->
  buf_length (dfBuffer this) = nBlocks this * blockSize this ->
  V850e2.getBlocksData this = Err e -> e = TypeError_undefined.
Proof.
  intros Hbs Hlen H. rewrite getBlocksData_A_run in H by assumption.
  destruct (scan_run (nBlocks this) 0x1000 (dfBuffer this) (V850e2.scan_block this)
              (validA this) 0x28 0x30 2
              ltac:(intros i blocks rwps Hi; now apply scan_block_A)
              ltac:(apply nBlocks_nonneg; [lia | assumption])) as (blocks0 & H0 & _).
  rewrite H0 in H. rewrite bind_Ok in H. now apply assign_rwps_error in H.
Qed.

Lemma build_catalogue_A_spec (dfBuf : Buffer) (this : NecEmulator) :
  V850e2.build_catalogue dfBuf = Ok this ->
  catalogued 0x1000 this /\ dfBuffer this = dfBuf /\ eepData this = ∅ /\
  (forall i, i ∈ activeBlocks this <-> 0 <= i < nBlocks this /\ valid_at this i = true).
Proof.
  intros H. unfold V850e2.build_catalogue in H.
  apply bind_Ok_inv in H as (this1 & Hnew & H).
  apply bind_Ok_inv in H as (blocks & Hblocks & H).
  apply bind_Ok_inv in H as (active & Hactive & H).
  inversion H; subst this; clear H.
  apply NecEmulator_new_fields in Hnew as (Hdf & Hbs & Hemp & Hlen);
    [|unfold V850e2.BLOCK_SIZE; lia].
  unfold V850e2.BLOCK_SIZE in Hbs.
  assert (Hn : 0 <= nBlocks this1) by (apply nBlocks_nonneg; [lia | assumption]).
  pose proof Hblocks as Hrun. rewrite getBlocksData_A_run in Hrun by assumption.
  pose proof (catalogue_bufs (nBlocks this1) 0x1000 (dfBuffer this1) (V850e2.scan_block this1)
                (validA this1) (fun w => word24_at w 0x28) (fun w => 2 * word24_at w 0x30)
                ltac:(intros i bl rwps Hi; now apply scan_block_A) blocks Hn Hrun) as Hbufs.
  pose proof (catalogue_lookup (nBlocks this1) 0x1000 (dfBuffer this1) (V850e2.scan_block this1)
                (validA this1) (fun w => word24_at w 0x28) (fun w => 2 * word24_at w 0x30)
                ltac:(intros i bl rwps Hi; now apply scan_block_A) blocks Hn Hrun) as Hlook.
  destruct (ordered_list_spec (set_blockData this1 blocks)) as (l & Hl & Hmem & _).
  { intros i Hi. destruct (Hlook i Hi) as (bk & Hbk & _). cbn. rewrite Hbk. eauto. }
  { exact Hn. }
  rewrite Hl in Hactive. inversion Hactive; subst l; clear Hactive.
  split; [|split; [exact Hdf | split; [exact Hemp | exact Hmem]]].
  split; [exact Hbs | split; [now rewrite <- Hbs | split]].
  - intros j t Ht. apply (Hbufs j t Ht).
  - intros block Hb. apply Hmem in Hb as [Hb _]. cbn in Hb.
    destruct (Hlook block Hb) as (bk & Hbk & _). cbn. rewrite Hbk. eauto.
Qed.

Lemma build_catalogue_A_error (dfBuf : Buffer) (e : Exception) :
  V850e2.build_catalogue dfBuf = Err e ->
  e = RangeError_geometry 0x1000 (buf_length dfBuf) \/ e = TypeError_undefined.
Proof.
  intros H. unfold V850e2.build_catalogue in H.
  destruct (NecEmulator_new dfBuf V850e2.BLOCK_SIZE) as [this1|e1] eqn:Hnew.
  - rewrite bind_Ok in H.
    apply NecEmulator_new_fields in Hnew as (Hdf & Hbs & Hemp & Hlen);
      [|unfold V850e2.BLOCK_SIZE; lia].
    unfold V850e2.BLOCK_SIZE in Hbs.
    assert (Hn : 0 <= nBlocks this1) by (apply nBlocks_nonneg; [lia | assumption]).
    destruct (V850e2.getBlocksData this1) as [blocks|e1] eqn:Hblocks.
    + rewrite bind_Ok in H.
      pose proof Hblocks as Hrun. rewrite getBlocksData_A_run in Hrun by assumption.
      pose proof (catalogue_lookup (nBlocks this1) 0x1000 (dfBuffer this1)
                    (V850e2.scan_block this1)
                    (validA this1) (fun w => word24_at w 0x28) (fun w => 2 * word24_at w 0x30)
                    ltac:(intros i bl rwps Hi; now apply scan_block_A) blocks Hn Hrun) as Hlook.
      destruct (ordered_list_spec (set_blockData this1 blocks)) as (l & Hl & _).
      { intros i Hi. destruct (Hlook i Hi) as (bk & Hbk & _). cbn. rewrite Hbk. eauto. }
      { exact Hn. }
      rewrite Hl in H. rewrite bind_Ok in H. discriminate H.
    + rewrite bind_Err in H. inversion H; subst e1.
      right. eapply getBlocksData_A_error; eauto.
  - rewrite bind_Err in H. inversion H; subst e1. left.
    unfold NecEmulator_new in Hnew. destruct (_ || _); [|discriminate Hnew].
    now inversion Hnew.
Qed.

(** The invariant of the reference walks of family A carried to the
    decoder that the constructor returns. *)
Lemma Emu_V850e2_new_outcome (P : NecEmulator -> Prop) (fuel : nat) (dfBuf : Buffer)
    (r : result NecEmulator) :
  (forall this0, V850e2.build_catalogue dfBuf = Ok this0 -> P this0) ->
  (forall this0 this this' blockId block nextBlock i word b,
     V850e2.build_catalogue dfBuf = Ok this0 ->
     same_catalogue this0 this -> P this ->
     blockData this0 !! block = Some b ->
     4 <= i -> i * 0x10 + 4 <= 0x1000 ->
     word = word_at (DataFlashBlock.buf b) (Z.to_nat (i * 0x10)) ->
     word <> V850e2.REF_END_FLAG ->
     V850e2.process_slot this blockId block nextBlock i word = Ok this' ->
     P this') ->
  V850e2.Emu_V850e2_new fuel dfBuf = Some r ->
  match r with
  | Ok this => P this
  | Err e => e = RangeError_geometry 0x1000 (buf_length dfBuf) \/ e = TypeError_undefined \/
             e = RangeError_read 0x1000 0x1000
  end.
Proof.
  intros Hinit Hstep H. unfold V850e2.Emu_V850e2_new in H.
  destruct (V850e2.build_catalogue dfBuf) as [this0|e] eqn:Eb.
  - pose proof (build_catalogue_A_spec _ _ Eb) as (Hcat & _).
    eapply (populate_all_outcome P this0 Hcat) in H.
    + destruct r as [this|e]; [apply H | auto].
    + intros. eapply Hstep; eauto.
    + apply same_catalogue_refl.
    + now apply Hinit.
    + apply Forall_forall. intros i Hi. now apply elem_of_range in Hi.
  - inversion H; subst r. apply build_catalogue_A_error in Eb as [->| ->]; auto.
Qed.

(** ** Family A: the errors and the entries of the result *)

(** X10. The constructor of [Emu_V850e2] throws three errors only: the
    RangeError of the base constructor for an image of a wrong size, the
    TypeError of [getBlocksData] for a write pointer outside the image, and
    the RangeError of [readUint32] at address 0x1000 of a block whose
    reference area has no end marker.  The checksum errors and the
    missing-successor errors of the records never leave it. *)
Theorem Emu_V850e2_new_errors (fuel : nat) (dfBuf : Buffer) (e : Exception) :
  V850e2.Emu_V850e2_new fuel dfBuf = Some (Err e) ->
  e = RangeError_geometry 0x1000 (buf_length dfBuf) \/
  e = TypeError_undefined \/
  e = RangeError_read 0x1000 0x1000.
Proof.
  intros H.
  apply (Emu_V850e2_new_outcome (fun _ => True) fuel dfBuf (Err e)); auto.
Qed.

Lemma Emu_V850e2_new_errors_witness :
  V850e2.Emu_V850e2_new 256 Images.imageA_unterminated
    = Some (Err (RangeError_read 0x1000 0x1000)) /\
  (RangeError_read 0x1000 0x1000
     = RangeError_geometry 0x1000 (buf_length Images.imageA_unterminated) \/
   RangeError_read 0x1000 0x1000 = TypeError_undefined \/
   RangeError_read 0x1000 0x1000 = RangeError_read 0x1000 0x1000).
Proof.
  assert (H : V850e2.Emu_V850e2_new 256 Images.imageA_unterminated
              = Some (Err (RangeError_read 0x1000 0x1000))) by (vm_compute; reflexivity).
  split; [exact H|].
  exact (Emu_V850e2_new_errors 256 Images.imageA_unterminated _ H).
Defined.

Lemma word_at_block_bytes (df : Buffer) (j a : Z) :
  0 <= j -> 0 <= a -> a + 4 <= 0x1000 ->
  word_at (block_bytes df 0x1000 j) (Z.to_nat a) = word_at df (Z.to_nat (a + 0x1000 * j)).
Proof.
  intros Hj Ha Hin. unfold word_at, block_bytes.
  f_equal; rewrite buf_num_take_drop by lia; f_equal; lia.
Qed.

Lemma process_slot_backed (dfBuf : Buffer) (this0 this this' : NecEmulator)
    (blockId block : Z) (nextBlock : option Z) (i word : Z) (b : DataFlashBlock.t) :
  V850e2.build_catalogue dfBuf = Ok this0 ->
  same_catalogue this0 this ->
  (forall id e, eepData this !! id = Some e -> slot_backed dfBuf id e) ->
  blockData this0 !! block = Some b ->
  4 <= i -> i * 0x10 + 4 <= 0x1000 ->
  word = word_at (DataFlashBlock.buf b) (Z.to_nat (i * 0x10)) ->
  word <> V850e2.REF_END_FLAG ->
  V850e2.process_slot this blockId block nextBlock i word = Ok this' ->
  forall id e, eepData this' !! id = Some e -> slot_backed dfBuf id e.
Proof.
  intros Hbuild Hsame HP Hb Hi Hin Hword Hend Hp.
  apply build_catalogue_A_spec in Hbuild as (Hcat & Hdf & _).
  pose proof (catalogued_buf_length 0x1000 this0 block b ltac:(lia) Hcat Hb) as Hlen.
  destruct Hcat as (Hbs & Hgeo & Hbufs & _).
  destruct (Hbufs _ _ Hb) as [Hblock Hbuf].
  destruct Hsame as (E1 & E2 & E3 & E4 & E5).
  apply process_slot_cases in Hp as [->|(b' & cksRef & data & dataBuf & Hb' & Hc & Hr & ->)];
    [exact HP|].
  rewrite E2, Hb in Hb'. inversion Hb'; subst b'; clear Hb'.
  intros id e. cbn [eepData set_eepData].
  destruct (Z.eq_dec (js_and word 0xffff) id) as [Heq|Hne].
  2: { rewrite lookup_insert_ne by assumption. apply HP. }
  subst id. rewrite lookup_insert_eq. intros He. inversion He; subst e; clear He.
  apply readDataEntry_A_words in Hr as (Hne & Hr & Hcks).
  apply readUint32_Ok_inv in Hc as [_ Hc]; [|lia|lia].
  pose proof (js_and_0xffff_range word) as Hid.
  rewrite E4, Hbs. rewrite Hdf in Hgeo, Hbuf.
  assert (Hw : word_at dfBuf (Z.to_nat (i * 0x10 + 0x1000 * block)) = word).
  { rewrite Hword, Hbuf. symmetry. apply word_at_block_bytes; lia. }
  unfold slot_backed. cbn [EepData.id EepData.data EepData.length EepData.addr EepData.widx].
  rewrite Hw.
  split; [reflexivity|]. split; [exact Hid|]. split; [exact Hne|]. split; [exact Hr|].
  split; [reflexivity|]. split; [lia|]. split; [lia|].
  split; [replace (i * 0x10 + 0x1000 * block) with ((i + 0x100 * block) * 0x10) by lia;
          apply Z_mod_mult|].
  split; [replace (i * 0x10 + 0x1000 * block) with (i * 0x10 + block * 0x1000) by lia;
          rewrite Z_mod_plus_full, Z.mod_small; lia|].
  split; [exact Hend|]. split; [reflexivity|]. split; [reflexivity|].
  rewrite <- rolling_checksum_spec by lia. rewrite Hcks, Hc, Hbuf.
  rewrite word_at_block_bytes by lia. f_equal. lia.
Qed.

(** X11. Every entry of the result of [Emu_V850e2] is backed by a reference
    slot of the image.  Its [addr] is the address of a slot of the reference
    area of a block, a multiple of 0x10 that is 0x40 or more inside its
    block; the word there is not the end marker and holds the id under
    which the entry is stored and its [widx]; the entry has at least one
    word, all its words are unsigned 32-bit numbers and [length] counts
    them; and the checksum word of the slot is the checksum of the id and
    the words. *)
Theorem Emu_V850e2_entries_backed (fuel : nat) (dfBuf : Buffer) (this : NecEmulator)
    (id : Z) (e : EepData.t) :
  V850e2.Emu_V850e2_new fuel dfBuf = Some (Ok this) ->
  eepData this !! id = Some e ->
  slot_backed dfBuf id e.
Proof.
  intros H.
  apply (Emu_V850e2_new_outcome
           (fun this => forall id e, eepData this !! id = Some e -> slot_backed dfBuf id e)
           fuel dfBuf (Ok this)); [| |exact H].
  - intros this0 H0 id' e'. apply build_catalogue_A_spec in H0 as (_ & _ & -> & _).
    rewrite lookup_empty. discriminate.
  - intros this0 this1 this2 blockId block nextBlock i word b.
    apply process_slot_backed.
Qed.

Lemma Emu_V850e2_entries_backed_witness :
  exists this e,
    V850e2.Emu_V850e2_new 256 Samples.imageA_checksum = Some (Ok this) /\
    eepData this !! 5 = Some e /\
    slot_backed Samples.imageA_checksum 5 e.
Proof.
  assert (HA : Samples.decodes (V850e2.Emu_V850e2_new 256 Samples.imageA_checksum) 5 = true)
    by (vm_compute; reflexivity).
  destruct (V850e2.Emu_V850e2_new 256 Samples.imageA_checksum) as [[this|e]|] eqn:EA;
    try discriminate HA.
  unfold Samples.decodes in HA.
  apply bool_decide_eq_true in HA as [e He].
  exists this, e. split; [reflexivity|]. split; [exact He|].
  exact (Emu_V850e2_entries_backed 256 _ this 5 e EA He).
Defined.

(** ** Family B: the table and the entries of the result *)

Lemma read_words_spec (buf : Buffer) (widx : Z) (l : list Z) (data0 data : list Z) :
  for_each (fun j data => w ← readUint32 buf (widx - j * 4) true; Ok (data ++ [w])) l data0
    = Ok data ->
  exists words,
    data = data0 ++ words /\ length words = length l /\ Forall uint32 words /\
    forall (k : nat) (j : Z), l !! k = Some j ->
      exists w, words !! k = Some w /\ readUint32 buf (widx - j * 4) true = Ok w.
Proof.
  revert data0. induction l as [|j l IH]; intros data0 H; cbn [for_each] in H.
  - inversion H; subst. exists []. rewrite app_nil_r. repeat split; [constructor|].
    intros k j Hk. now rewrite lookup_nil in Hk.
  - apply bind_Ok_inv in H as (d1 & H1 & H). apply bind_Ok_inv in H1 as (w & Hw & H1).
    inversion H1; subst d1; clear H1.
    apply IH in H as (words & -> & Hlen & Hr & Hk).
    exists (w :: words). rewrite <- app_assoc. split; [reflexivity|].
    split; [cbn; lia|]. split; [constructor; [eapply readUint32_range; eauto | exact Hr]|].
    intros [|k] j' Hj'; cbn in Hj'.
    + inversion Hj'; subst j'. exists w. auto.
    + apply Hk in Hj'. exact Hj'.
Qed.

Lemma length_range (a b : Z) : length (range a b) = Z.to_nat (b - a).
Proof. unfold range. now rewrite length_map, length_seq. Qed.

Lemma lookup_range (a b : Z) (k : nat) :
  (k < Z.to_nat (b - a))%nat -> range a b !! k = Some (a + Z.of_nat k).
Proof.
  intros Hk. unfold range. rewrite list_lookup_fmap, lookup_seq_lt by exact Hk. reflexivity.
Qed.

Lemma serialize_into_length (data : list Z) (dataBuf dataBuf' : Buffer) :
  RH850.serialize_into data dataBuf = Ok dataBuf' -> length dataBuf' = length dataBuf.
Proof.
  unfold RH850.serialize_into. intros H. now apply write_words_spec in H as (Hl & _).
Qed.

(** What a call of [readDataEntry] of family B does to the entries. *)
Lemma readDataEntry_B_cases (m m' : gmap Z EepData.t) (block : DataFlashBlock.t)
    (refAddr : Z) (r : option Z) :
  RH850.readDataEntry m block refAddr = Ok (m', r) ->
  (m' = m /\ r = None) \/
  exists word entry words dataBuf,
    readUint32 (DataFlashBlock.buf block) refAddr true = Ok word /\
    m !! js_and word 0xffff = Some entry /\
    length words = Z.to_nat (Qceiling (EepData.length entry)) /\
    Forall uint32 words /\
    length dataBuf = length (EepData.dataBuf entry) /\
    r = Some (js_and word 0xffff) /\
    m' = <[js_and word 0xffff :=
             EepData.mk (EepData.id entry) (js_sar word 0x10)
               (js_sar word 0x10 + RH850.BLOCK_SIZE * DataFlashBlock.id block)
               (EepData.length entry) (EepData.data entry ++ words) dataBuf
               (refAddr + RH850.BLOCK_SIZE * DataFlashBlock.id block)]> m.
Proof.
  intros H. unfold RH850.readDataEntry in H.
  apply bind_Ok_inv in H as (checkW1 & _ & H).
  apply bind_Ok_inv in H as (checkW2 & _ & H).
  apply bind_Ok_inv in H as (checkW3 & _ & H).
  apply bind_Ok_inv in H as (word & Hword & H).
  destruct (_ || _) in H; [inversion H; subst; auto|].
  destruct (m !! js_and word 0xffff) as [entry|] eqn:Ee; [|inversion H; subst; auto].
  destruct (negb _) in H; [inversion H; subst; auto|].
  apply bind_Ok_inv in H as (data & Hdata & H).
  apply bind_Ok_inv in H as (dataBuf & Hser & H).
  inversion H; subst m' r; clear H.
  apply read_words_spec in Hdata as (words & -> & Hlen & Hr & _).
  rewrite length_range, Z.sub_0_r in Hlen.
  apply serialize_into_length in Hser.
  right. exists word, entry, words, dataBuf. auto 10.
Qed.

Section WalkB.

Variable P : gmap Z EepData.t -> Prop.

Hypothesis step : forall m m' block refAddr r,
  all_hold m -> P m -> RH850.readDataEntry m block refAddr = Ok (m', r) -> P m'.

Lemma rwp_loop_P (fuel : nat) (m m' : gmap Z EepData.t) (page : DataFlashBlock.t)
    (rwp rwp_hypo : Z) (dwp : Q) (found : Z) :
  all_hold m -> P m ->
  RH850.rwp_loop fuel m page rwp rwp_hypo dwp = Some (Ok (m', found)) ->
  P m'.
Proof.
  revert m rwp rwp_hypo dwp.
  induction fuel as [|fuel IH]; intros m rwp rwp_hypo dwp Hinv HP H; simpl in H;
    (destruct (negb (Qle_bool dwp (inject_Z rwp))); [|inversion H; subst; exact HP]);
    (destruct (RH850.readDataEntry m page (rwp - 4)) as [[m1 r]|e] eqn:Er; [|discriminate]);
    pose proof (step _ _ _ _ _ Hinv HP Er) as HP1;
    apply readDataEntry_holds in Er; try exact Hinv.
  - destruct (match r ≫= _ with Some _ => _ | None => _ end). discriminate.
  - destruct (match r ≫= _ with Some _ => _ | None => _ end) as [h d].
    eapply IH; eauto.
Qed.

Lemma visit_slot_P (block : DataFlashBlock.t) (i : Z) (m m' : gmap Z EepData.t) :
  all_hold m -> P m -> RH850.visit_slot block i m = Ok m' -> P m'.
Proof.
  intros Hinv HP H. rewrite visit_slot_keeps_readDataEntry in H by exact Hinv.
  apply bind_Ok_inv in H as ([m1 r] & Hr & H). inversion H; subst m'. eauto.
Qed.

Lemma populateBlockData_P (fuel : nat) (this this' : NecEmulator) (blockId : Z) :
  all_hold (eepData this) -> P (eepData this) ->
  RH850.populateBlockData fuel this blockId = Some (Ok this') ->
  P (eepData this').
Proof.
  intros Hinv HP H. unfold RH850.populateBlockData in H.
  destruct (_ ≫= _) as [[blockNum block]|e] in H; [|discriminate].
  assert (Hrec : forall m b,
            (if DataFlashBlock.rwp block =? 0
             then match RH850.findActiveRwp fuel (eepData this) block with
                  | Some (Ok (eepData, rwp)) =>
                      Some (Ok (eepData, DataFlashBlock.set_rwp block rwp))
                  | Some (Err e) => Some (Err e)
                  | None => None
                  end
             else Some (Ok (eepData this, block))) = Some (Ok (m, b)) ->
            all_hold m /\ P m).
  { intros m b Hm. destruct (DataFlashBlock.rwp block =? 0).
    - destruct (RH850.findActiveRwp fuel (eepData this) block) as [[[m0 rwp]|e]|] eqn:Ef;
        try discriminate.
      inversion Hm; subst m b. unfold RH850.findActiveRwp in Ef.
      split; [eapply rwp_loop_holds; eauto | eapply rwp_loop_P; eauto].
    - inversion Hm; subst. auto. }
  destruct (if DataFlashBlock.rwp block =? 0 then _ else _) as [[[m b]|e]|];
    try discriminate.
  specialize (Hrec m b eq_refl).
  inversion H as [H']; clear H.
  apply bind_Ok_inv in H' as (m' & Hloop & H'). inversion H'; subst this'; clear H'.
  simpl eepData.
  apply (for_each_preserves (fun m => all_hold m /\ P m) _ _ _ _) in Hloop;
    [apply Hloop| |exact Hrec].
  intros i s s' _ [Hs HPs] Hstep.
  split; [eapply visit_slot_holds; eauto | eapply visit_slot_P; eauto].
Qed.

Lemma populate_all_P (fuel : nat) (ids : list Z) (this this' : NecEmulator) :
  all_hold (eepData this) -> P (eepData this) ->
  RH850.populate_all fuel this ids = Some (Ok this') ->
  P (eepData this').
Proof.
  revert this. induction ids as [|i ids IH]; intros this Hinv HP H; simpl in H.
  - inversion H; subst. exact HP.
  - destruct (RH850.populateBlockData fuel this i) as [[this1|e]|] eqn:Ep;
      try discriminate.
    eapply IH; [| |exact H].
    + eapply populateBlockData_holds; eauto.
    + eapply populateBlockData_P; eauto.
Qed.

End WalkB.

Lemma entry_grown_refl (e : EepData.t) : entry_grown e e.
Proof.
  repeat split. exists [], 0%nat. rewrite app_nil_r. repeat split. constructor.
Qed.

Lemma map_grown_refl (m : gmap Z EepData.t) : map_grown m m.
Proof. intros id. destruct (m !! id); [apply entry_grown_refl | exact I]. Qed.

Lemma readDataEntry_grown (m0 m m' : gmap Z EepData.t) (block : DataFlashBlock.t)
    (refAddr : Z) (r : option Z) :
  all_hold m -> map_grown m0 m ->
  RH850.readDataEntry m block refAddr = Ok (m', r) -> map_grown m0 m'.
Proof.
  intros _ Hg H.
  apply readDataEntry_B_cases in H
    as [[-> _]|(word & entry & words & dataBuf & _ & He & Hlen & Hr & Hbuf & _ & ->)];
    [exact Hg|].
  intros id. specialize (Hg id).
  destruct (Z.eq_dec (js_and word 0xffff) id) as [Heq|Hne]; [subst id|].
  - rewrite lookup_insert_eq. rewrite He in Hg.
    destruct (m0 !! js_and word 0xffff) as [e0|]; [|contradiction].
    destruct Hg as (Hid & Hl & Hb & more & k & Hd & Hm & Hk).
    unfold entry_grown. cbn [EepData.id EepData.length EepData.dataBuf EepData.data].
    split; [exact Hid|]. split; [exact Hl|]. split; [congruence|].
    exists (more ++ words), (S k). rewrite Hd, <- app_assoc. split; [reflexivity|].
    split; [now apply Forall_app|].
    rewrite length_app, Hk, Hlen, Hl. lia.
  - now rewrite lookup_insert_ne.
Qed.

Lemma add_stub_spec (table : Buffer) (i : Z) (m : gmap Z EepData.t) :
  0 <= i -> i + 4 <= buf_length table ->
  let w := word_at table (Z.to_nat i) in
  RH850.add_stub table i m =
    if js_sar w 16 <? 0 then Err RangeError_buffer
    else if 0x800 <? js_sar w 16 then Err (Error_table (js_and w 0xffff) (js_sar w 16))
    else Ok (<[js_and w 0xffff := stub (js_and w 0xffff) (js_sar w 16)]> m).
Proof.
  intros H0 H4 w. unfold RH850.add_stub, RH850.BLOCK_SIZE.
  rewrite readUint32_at by assumption. bind_step. fold w.
  unfold Buffer_alloc.
  destruct (js_sar w 16 <? 0) eqn:E; zbool.
  - destruct (js_sar w 16 * 4 <? 0) eqn:E1; [reflexivity | zbool; lia].
  - destruct (js_sar w 16 * 4 <? 0) eqn:E1; [zbool; lia|]. bind_step. reflexivity.
Qed.

Lemma range_step4 (n : Z) : 0 <= n -> range_step 0 (4 * n) 4 = map (Z.mul 4) (range 0 n).
Proof.
  intros Hn. unfold range_step, range, ceil_div. rewrite map_map.
  replace (- (4 * n - 0)) with ((- n) * 4) by lia. rewrite Z.div_mul by lia.
  replace (Z.to_nat (- - n)) with (Z.to_nat (n - 0)) by lia.
  apply map_ext. intros k. lia.
Qed.

Lemma with_stubs_snoc (rows : list (Z * Z)) (row : Z * Z) (m : gmap Z EepData.t) (id : Z) :
  with_stubs (rows ++ [row]) m id =
    if decide (row.1 = id) then Some (stub id row.2) else with_stubs rows m id.
Proof.
  unfold with_stubs. rewrite filter_app, filter_cons, filter_nil.
  destruct (decide (row.1 = id)) as [Heq|Hne].
  - now rewrite last_snoc.
  - now rewrite app_nil_r.
Qed.

(** The loop over the rows of the table, as far as it goes. *)
Lemma add_stubs_run (table : Buffer) (m : gmap Z EepData.t) (k : nat) :
  Z.of_nat k <= buf_length table / 4 ->
  let rows := map (fun r => let w := word_at table (Z.to_nat (4 * r)) in
                            (js_and w 0xffff, js_sar w 16)) (range 0 (Z.of_nat k)) in
  Forall (fun row => 0 <= row.2 <= 0x800) rows ->
  exists m',
    for_each (RH850.add_stub table) (map (Z.mul 4) (range 0 (Z.of_nat k))) m = Ok m' /\
    forall id, m' !! id = with_stubs rows m id.
Proof.
  induction k as [|k IH]; intros Hk rows Hok.
  - exists m. split; [reflexivity|]. intros id. reflexivity.
  - subst rows. replace (Z.of_nat (S k)) with (Z.of_nat k + 1) in * by lia.
    rewrite range_snoc in * by lia. rewrite !map_app in *. cbn [map] in *.
    apply Forall_app in Hok as [Hok Hlast]. apply Forall_inv in Hlast. cbn [fst snd] in Hlast.
    destruct (IH ltac:(lia) Hok) as (m1 & Hrun & Hlook).
    rewrite for_each_app, Hrun. bind_step. cbn [for_each].
    assert (Hin : 4 * Z.of_nat k + 4 <= buf_length table).
    { pose proof (Z.div_mod (buf_length table) 4 ltac:(lia)).
      pose proof (Z.mod_pos_bound (buf_length table) 4 ltac:(lia)). lia. }
    rewrite add_stub_spec by lia. cbv zeta.
    destruct (js_sar _ 16 <? 0) eqn:E1; [zbool; lia|].
    destruct (0x800 <? js_sar _ 16) eqn:E2; [zbool; lia|]. bind_step.
    eexists. split; [reflexivity|].
    intros id. rewrite with_stubs_snoc. cbn [fst snd].
    destruct (decide (js_and (word_at table (Z.to_nat (4 * Z.of_nat k))) 0xffff = id))
      as [Heq|Hne].
    + subst id. now rewrite lookup_insert_eq.
    + rewrite lookup_insert_ne by assumption. apply Hlook.
Qed.

Lemma add_stubs_stop (table : Buffer) (m : gmap Z EepData.t) (k : nat) (after : list Z) :
  Z.of_nat k < buf_length table / 4 ->
  let row r := let w := word_at table (Z.to_nat (4 * r)) in (js_and w 0xffff, js_sar w 16) in
  Forall (fun row => 0 <= row.2 <= 0x800) (map row (range 0 (Z.of_nat k))) ->
  ~ 0 <= (row (Z.of_nat k)).2 <= 0x800 ->
  for_each (RH850.add_stub table) (map (Z.mul 4) (range 0 (Z.of_nat k)) ++
                                   4 * Z.of_nat k :: after) m
  = Err (if (row (Z.of_nat k)).2 <? 0 then RangeError_buffer
         else Error_table (row (Z.of_nat k)).1 (row (Z.of_nat k)).2).
Proof.
  intros Hk row Hok Hbad.
  destruct (add_stubs_run table m k ltac:(lia) Hok) as (m1 & Hrun & _).
  rewrite for_each_app, Hrun. bind_step. cbn [for_each].
  assert (Hin : 4 * Z.of_nat k + 4 <= buf_length table).
  { pose proof (Z.div_mod (buf_length table) 4 ltac:(lia)).
    pose proof (Z.mod_pos_bound (buf_length table) 4 ltac:(lia)). lia. }
  rewrite add_stub_spec by lia. cbv zeta. subst row. cbn [fst snd] in *.
  destruct (js_sar _ 16 <? 0) eqn:E1; [reflexivity|].
  destruct (0x800 <? js_sar _ 16) eqn:E2; [reflexivity|]. zbool. lia.
Qed.

Lemma Buffer_copy_length (src tgt r : Buffer) (ts ss se : Z) :
  Buffer_copy src tgt ts ss se = Ok r -> length r = length tgt.
Proof.
  unfold Buffer_copy. intros H.
  destruct (_ || _ || _ || _) eqn:E1 in H; [discriminate|].
  destruct (_ || _) eqn:E2 in H; [now inversion H|].
  inversion H; subst r; clear H.
  repeat (apply orb_false_iff in E1 as [E1 ?]). apply orb_false_iff in E2 as [E2 ?].
  unfold buf_length in *. zbool.
  apply length_overwrite. rewrite length_take, length_drop. lia.
Qed.

Lemma load_table_length (cfBuf : Buffer) (t : RhTable.t) (table : Buffer) :
  0 <= RhTable.entries t ->
  RH850.load_table cfBuf t = Ok table -> buf_length table = 4 * RhTable.entries t.
Proof.
  intros He H. unfold RH850.load_table, Buffer_alloc in H.
  destruct (RhTable.entries t * 4 <? 0) eqn:E; [zbool; lia|]. rewrite bind_Ok in H.
  apply Buffer_copy_length in H. rewrite repeat_length in H. unfold buf_length. lia.
Qed.

Lemma range_split (a b c : Z) : a <= b <= c -> range a c = range a b ++ range b c.
Proof.
  intros H. remember (Z.to_nat (c - b)) as n eqn:Hn. revert c Hn H.
  induction n as [|n IH]; intros c Hn H.
  - assert (c = b) by lia. subst c. rewrite (range_nil b b) by lia. now rewrite app_nil_r.
  - replace c with (c - 1 + 1) by lia.
    rewrite (range_snoc a), (range_snoc b) by lia.
    rewrite (IH (c - 1)) by lia. now rewrite app_assoc.
Qed.

(** [populateDataInfoWTable] once the table is copied from the code
    image, in terms of the rows of the table. *)
Lemma populateDataInfoWTable_rows (cfBuf : Buffer) (t : RhTable.t) (this : NecEmulator)
    (table : Buffer) :
  0 <= RhTable.entries t ->
  RH850.load_table cfBuf t = Ok table ->
  let rows := table_rows table in
  (Forall (fun row => 0 <= row.2 <= 0x800) rows ->
   exists m,
     RH850.populateDataInfoWTable cfBuf t this = Ok (set_eepData this m) /\
     forall id, m !! id = with_stubs rows (eepData this) id) /\
  (forall before row after,
     rows = before ++ row :: after ->
     Forall (fun row => 0 <= row.2 <= 0x800) before ->
     (row.2 < 0 -> RH850.populateDataInfoWTable cfBuf t this = Err RangeError_buffer) /\
     (0x800 < row.2 ->
      RH850.populateDataInfoWTable cfBuf t this = Err (Error_table row.1 row.2))).
Proof.
  intros He Hload rows.
  pose proof (load_table_length _ _ _ He Hload) as Hlen.
  assert (Hdiv : buf_length table / 4 = RhTable.entries t)
    by (rewrite Hlen, Z.mul_comm; apply Z.div_mul; lia).
  unfold RH850.populateDataInfoWTable. rewrite Hload. bind_step.
  rewrite Hlen, range_step4 by lia. split.
  - intros Hok.
    destruct (add_stubs_run table (eepData this) (Z.to_nat (RhTable.entries t))) as (m & Hrun & Hl).
    + lia.
    + rewrite Z2Nat.id by lia. subst rows. unfold table_rows in Hok.
      now rewrite Hdiv in Hok.
    + rewrite Z2Nat.id in Hrun, Hl by lia. rewrite Hrun. bind_step.
      exists m. split; [reflexivity|]. intros id. rewrite Hl.
      subst rows. unfold table_rows. now rewrite Hdiv.
  - intros before row after Hrows Hok.
    subst rows. unfold table_rows in Hrows. rewrite Hdiv in Hrows. cbv zeta in Hrows.
    set (f := fun r : Z => (js_and (word_at table (Z.to_nat (4 * r))) 0xffff,
                            js_sar (word_at table (Z.to_nat (4 * r))) 16)) in *.
    set (k := length before).
    assert (Hk : (k < Z.to_nat (RhTable.entries t))%nat).
    { apply (f_equal length) in Hrows.
      rewrite length_map, length_range, length_app in Hrows. cbn in Hrows. lia. }
    rewrite (range_split 0 (Z.of_nat k) (RhTable.entries t)) in Hrows |- * by lia.
    rewrite (range_cons (Z.of_nat k)) in Hrows |- * by lia.
    rewrite map_app in Hrows |- *. cbn [map] in Hrows |- *.
    apply app_inj_1 in Hrows as [Hb Hr];
      [|now rewrite length_map, length_range, Z.sub_0_r, Nat2Z.id].
    inversion Hr as [[Hrow Hafter]]. clear Hr.
    rewrite <- Hb in Hok.
    pose proof (add_stubs_stop table (eepData this) k
                  (map (Z.mul 4) (range (Z.of_nat k + 1) (RhTable.entries t)))) as Hs.
    cbv beta zeta in Hs.
    change (js_and (word_at table (Z.to_nat (4 * Z.of_nat k))) 0xffff,
            js_sar (word_at table (Z.to_nat (4 * Z.of_nat k))) 16)
      with (f (Z.of_nat k)) in Hs.
    split; intros Hbad.
    + rewrite Hs; [|rewrite Hdiv; lia|exact Hok|lia]. bind_step.
      destruct ((f (Z.of_nat k)).2 <? 0) eqn:E; [reflexivity | zbool; lia].
    + rewrite Hs; [|rewrite Hdiv; lia|exact Hok|lia]. bind_step.
      destruct ((f (Z.of_nat k)).2 <? 0) eqn:E; [zbool; lia | reflexivity].
Qed.

Lemma drop_repeat_n {A : Type} (x : A) (n k : nat) :
  drop k (repeat x n) = repeat x (n - k).
Proof.
  revert k. induction n as [|n IH]; intros [|k]; cbn; try reflexivity. apply IH.
Qed.

Lemma take_repeat_n {A : Type} (x : A) (n k : nat) :
  take k (repeat x n) = repeat x (Nat.min k n).
Proof.
  revert k. induction n as [|n IH]; intros [|k]; cbn; try reflexivity. f_equal. apply IH.
Qed.

Lemma load_table_rom (cfBuf : Buffer) (t : RhTable.t) :
  0 <= RhTable.entries t -> 0 <= RhTable.pointer_rom t <= buf_length cfBuf ->
  RH850.load_table cfBuf t = Ok (rom_table cfBuf t).
Proof.
  intros He Hp. unfold RH850.load_table, Buffer_alloc, rom_table.
  destruct (RhTable.entries t * 4 <? 0) eqn:E; [zbool; lia|]. bind_step.
  set (n := Z.to_nat (RhTable.entries t * 4)).
  set (p := RhTable.pointer_rom t) in *.
  unfold Buffer_copy, buf_length in *. rewrite repeat_length.
  replace ((0 <? 0) || (p <? 0) || (Z.of_nat (length cfBuf) <? p)
           || (p + RhTable.entries t * 4 <? 0)) with false
    by (symmetry; repeat (apply orb_false_intro); apply Z.ltb_ge; lia).
  rewrite take_app, length_drop.
  destruct ((Z.of_nat n <=? 0) || (p + RhTable.entries t * 4 <=? p)) eqn:E2.
  - assert (Hn : n = 0%nat) by (apply orb_true_iff in E2 as [E2|E2]; zbool; lia).
    f_equal. rewrite Hn. reflexivity.
  - apply orb_false_iff in E2 as [E2 E3]. zbool. f_equal. unfold overwrite.
    change (Z.to_nat 0) with 0%nat. rewrite take_0. cbn [app Nat.add].
    set (nb := Z.to_nat (Z.min (Z.min (p + RhTable.entries t * 4 - p) (Z.of_nat n - 0))
                               (Z.of_nat (length cfBuf) - p))).
    assert (Hnb : nb = Nat.min n (length cfBuf - Z.to_nat p)) by (unfold nb; lia).
    f_equal.
    + rewrite Hnb. destruct (Nat.le_gt_cases n (length cfBuf - Z.to_nat p)) as [H|H].
      * now rewrite Nat.min_l by exact H.
      * rewrite Nat.min_r by lia. rewrite !take_ge; [reflexivity| |]; rewrite length_drop; lia.
    + rewrite length_take, length_drop, drop_repeat_n, take_repeat_n. f_equal. lia.
Qed.

Lemma load_table_refused (cfBuf : Buffer) (t : RhTable.t) :
  RhTable.entries t < 0 \/ RhTable.pointer_rom t < 0 \/
  buf_length cfBuf < RhTable.pointer_rom t ->
  RH850.load_table cfBuf t = Err RangeError_buffer.
Proof.
  intros H. unfold RH850.load_table, Buffer_alloc.
  destruct (RhTable.entries t * 4 <? 0) eqn:E; [reflexivity|]. bind_step. zbool.
  unfold Buffer_copy.
  destruct H as [H|[H|H]]; [lia| |].
  - replace (RhTable.pointer_rom t <? 0) with true by (symmetry; apply Z.ltb_lt; lia).
    now rewrite orb_true_r.
  - replace (buf_length cfBuf <? RhTable.pointer_rom t) with true
      by (symmetry; apply Z.ltb_lt; lia).
    now rewrite !orb_true_r.
Qed.

(** X12. [populateDataInfoWTable] throws the RangeError of [Buffer.alloc] or
    [Buffer.copy] when the table header has a negative number of entries
    or a ROM pointer that is negative or lies after the end of the code
    image.  Otherwise the table is the bytes of the code image from the ROM
    pointer on, four for each entry, zeros standing for the bytes after the
    end of the image, and [populateDataInfoWTable] succeeds exactly when
    every row of this table has a length from 0 to 0x800.  It then stores,
    for each id of the table, the empty entry prepared from the last row of
    that id, whose [length] is a quarter of the length of the row and whose
    bytes buffer has four times that length, and keeps the entries of the
    other ids.  The first row with another length stops it: a negative
    length with the RangeError of [Buffer.alloc], a length above 0x800 with
    the error of an invalid table. *)
Theorem populateDataInfoWTable_stubs (cfBuf : Buffer) (t : RhTable.t) (this : NecEmulator) :
  let rows := table_rows (rom_table cfBuf t) in
  (RhTable.entries t < 0 \/ RhTable.pointer_rom t < 0 \/
   buf_length cfBuf < RhTable.pointer_rom t ->
   RH850.populateDataInfoWTable cfBuf t this = Err RangeError_buffer) /\
  (0 <= RhTable.entries t -> 0 <= RhTable.pointer_rom t <= buf_length cfBuf ->
   (Forall (fun row => 0 <= row.2 <= 0x800) rows ->
    exists m,
      RH850.populateDataInfoWTable cfBuf t this = Ok (set_eepData this m) /\
      forall id, m !! id = with_stubs rows (eepData this) id) /\
   (forall before row after,
      rows = before ++ row :: after ->
      Forall (fun row => 0 <= row.2 <= 0x800) before ->
      (row.2 < 0 -> RH850.populateDataInfoWTable cfBuf t this = Err RangeError_buffer) /\
      (0x800 < row.2 ->
       RH850.populateDataInfoWTable cfBuf t this = Err (Error_table row.1 row.2)))).
Proof.
  intros rows. split.
  - intros H. unfold RH850.populateDataInfoWTable.
    now rewrite load_table_refused by exact H.
  - intros He Hp.
    exact (populateDataInfoWTable_rows cfBuf t this _ He (load_table_rom cfBuf t He Hp)).
Qed.

Lemma populateDataInfoWTable_stubs_witness :
  let cf := Samples.codeflash 32 in
  let t := RhTable.mk 0x800 2 0x10 0 1 0 in
  let this := Samples.emulator Samples.imageB_single 0x800 in
  table_rows (rom_table cf t) = [(0x10, 32)] /\
  (exists m,
     RH850.populateDataInfoWTable cf t this = Ok (set_eepData this m) /\
     forall id, m !! id = with_stubs [(0x10, 32)] (eepData this) id) /\
  RH850.populateDataInfoWTable cf (RhTable.mk 0x800 2 0x15 0 1 0) this
    = Err RangeError_buffer.
Proof.
  intros cf t this.
  assert (Hr : table_rows (rom_table cf t) = [(0x10, 32)]) by (vm_compute; reflexivity).
  assert (Hlen : buf_length cf = 0x14) by (vm_compute; reflexivity).
  split; [exact Hr|]. split.
  - pose proof (populateDataInfoWTable_stubs cf t this) as H.
    cbv zeta in H. destruct H as [_ H].
    destruct H as [Hok _]; [simpl; lia | rewrite Hlen; simpl; lia |].
    rewrite Hr in Hok. apply Hok.
    constructor; [simpl; lia | constructor].
  - pose proof (populateDataInfoWTable_stubs cf (RhTable.mk 0x800 2 0x15 0 1 0) this) as H.
    cbv zeta in H. destruct H as [H _]. apply H.
    right. right. rewrite Hlen. simpl. lia.
Defined.

Lemma add_stub_inv (table : Buffer) (i : Z) (m m' : gmap Z EepData.t) :
  RH850.add_stub table i m = Ok m' ->
  exists id len, 0 <= len <= 0x800 /\ m' = <[id := stub id len]> m.
Proof.
  intros H. unfold RH850.add_stub, RH850.BLOCK_SIZE in H.
  apply bind_Ok_inv in H as (word & _ & H).
  apply bind_Ok_inv in H as (dataBuf & Halloc & H).
  destruct (0x800 <? js_sar word 16) eqn:E; [discriminate|].
  inversion H; subst m'; clear H.
  unfold Buffer_alloc in Halloc.
  destruct (js_sar word 16 * 4 <? 0) eqn:E1; [discriminate|].
  inversion Halloc; subst dataBuf. zbool.
  exists (js_and word 0xffff), (js_sar word 16). split; [lia | reflexivity].
Qed.

Lemma load_tables_stubs (dfBuf cfBuffer : Buffer) (tableHeaderAddr : Z) (this0 : NecEmulator) :
  RH850.load_tables dfBuf cfBuffer tableHeaderAddr = Ok this0 ->
  forall id e0, eepData this0 !! id = Some e0 ->
    exists len, 0 <= len <= 0x800 /\ e0 = stub id len.
Proof.
  unfold RH850.load_tables, NecEmulator_new. intros H.
  destruct (_ || _) in H; [discriminate|]. rewrite bind_Ok in H.
  apply bind_Ok_inv in H as (t & _ & H).
  unfold RH850.populateDataInfoWTable in H.
  apply bind_Ok_inv in H as (table & _ & H).
  apply bind_Ok_inv in H as (m & Hloop & H).
  inversion H; subst this0; clear H. cbn [eepData set_eepData].
  eapply (for_each_preserves
            (fun m => forall id e0, m !! id = Some e0 ->
                        exists len, 0 <= len <= 0x800 /\ e0 = stub id len));
    [| |exact Hloop].
  - intros i s s' _ Hs Hstep. apply add_stub_inv in Hstep as (id' & len & Hlen & ->).
    intros id e0. destruct (Z.eq_dec id' id) as [->|Hne].
    + rewrite lookup_insert_eq. intros [= <-]. eauto.
    + rewrite lookup_insert_ne by assumption. apply Hs.
  - intros id e0. cbn. rewrite lookup_empty. discriminate.
Qed.

Lemma build_catalogue_B_tables (dfBuf cfBuffer : Buffer) (tableHeaderAddr : Z)
    (this : NecEmulator) :
  RH850.build_catalogue dfBuf cfBuffer tableHeaderAddr = Ok this ->
  exists this0,
    RH850.load_tables dfBuf cfBuffer tableHeaderAddr = Ok this0 /\
    eepData this = eepData this0.
Proof.
  unfold RH850.build_catalogue. intros H.
  apply bind_Ok_inv in H as (this0 & Hload & H).
  apply bind_Ok_inv in H as (blocks & _ & H).
  apply bind_Ok_inv in H as (active & _ & H).
  inversion H; subst this. exists this0. auto.
Qed.

(** ** The bytes of a record entry, in both families *)

Lemma Forall_repeat_eq {A : Type} (x : A) (n : nat) : Forall (eq x) (repeat x n).
Proof. induction n; constructor; auto. Qed.

Lemma readDataEntry_blank (m m' : gmap Z EepData.t) (block : DataFlashBlock.t)
    (refAddr : Z) (r : option Z) :
  all_hold m -> blank_if_empty m ->
  RH850.readDataEntry m block refAddr = Ok (m', r) -> blank_if_empty m'.
Proof.
  intros _ Hb H. unfold RH850.readDataEntry in H.
  apply bind_Ok_inv in H as (checkW1 & _ & H).
  apply bind_Ok_inv in H as (checkW2 & _ & H).
  apply bind_Ok_inv in H as (checkW3 & _ & H).
  apply bind_Ok_inv in H as (word & Hword & H).
  destruct (_ || _) in H; [inversion H; subst; auto|].
  destruct (m !! js_and word 0xffff) as [entry|] eqn:Ee; [|inversion H; subst; auto].
  destruct (negb _) in H; [inversion H; subst; auto|].
  apply bind_Ok_inv in H as (data & Hdata & H).
  apply bind_Ok_inv in H as (dataBuf & Hser & H).
  inversion H; subst m' r; clear H.
  apply read_words_spec in Hdata as (words & -> & _).
  intros id e He Hd.
  destruct (Z.eq_dec (js_and word 0xffff) id) as [Heq|Hne]; [subst id|].
  - rewrite lookup_insert_eq in He. inversion He; subst e; clear He.
    cbn [EepData.data EepData.dataBuf] in *.
    rewrite Hd in Hser. unfold RH850.serialize_into in Hser. cbn in Hser.
    inversion Hser; subst dataBuf.
    apply app_eq_nil in Hd as [Hd _]. exact (Hb _ _ Ee Hd).
  - rewrite lookup_insert_ne in He by assumption. exact (Hb _ _ He Hd).
Qed.

Lemma Emu_RH850_declared (fuel : nat) (dfBuf cfBuffer : Buffer) (tableHeaderAddr : Z)
    (this : NecEmulator) (id : Z) (e : EepData.t) :
  RH850.Emu_RH850_new fuel dfBuf cfBuffer tableHeaderAddr = Some (Ok this) ->
  eepData this !! id = Some e ->
  exists this0 len,
    RH850.load_tables dfBuf cfBuffer tableHeaderAddr = Ok this0 /\
    eepData this0 !! id = Some (stub id len) /\ 0 <= len <= 0x800 /\
    EepData.length e = (inject_Z len / 4)%Q /\
    (EepData.data e = [] -> Forall (eq x00) (EepData.dataBuf e)).
Proof.
  unfold RH850.Emu_RH850_new. intros H He.
  destruct (RH850.build_catalogue dfBuf cfBuffer tableHeaderAddr) as [this1|err] eqn:E;
    [|discriminate].
  pose proof (build_catalogue_B_holds _ _ _ _ E) as Hhold.
  destruct (build_catalogue_B_tables _ _ _ _ E) as (this0 & Hload & Heq).
  pose proof (load_tables_stubs _ _ _ _ Hload) as Hstubs.
  assert (Hg : map_grown (eepData this0) (eepData this)).
  { eapply (populate_all_P (map_grown (eepData this0))); [| |rewrite <- Heq|exact H].
    - intros m m' block refAddr r. apply readDataEntry_grown.
    - exact Hhold.
    - apply map_grown_refl. }
  assert (Hb : blank_if_empty (eepData this)).
  { eapply (populate_all_P blank_if_empty); [| | |exact H].
    - intros m m' block refAddr r. apply readDataEntry_blank.
    - exact Hhold.
    - rewrite Heq. intros id' e' He' _.
      destruct (Hstubs _ _ He') as (len & _ & ->). apply Forall_repeat_eq. }
  specialize (Hg id). rewrite He in Hg.
  destruct (eepData this0 !! id) as [e0|] eqn:E0; [|contradiction].
  destruct (Hstubs _ _ E0) as (len & Hlen & ->).
  destruct Hg as (_ & Hl & _).
  exists this0, len. split; [exact Hload|]. split; [exact E0|]. split; [exact Hlen|].
  split; [exact Hl|]. intros Hd. exact (Hb _ _ He Hd).
Qed.

(** C9, as the code has it.  Every entry of the result map of family A has a
    bytes buffer of exactly [lengthWords * 4] bytes, the little-endian
    serialization of its words.  In the result map of family B, every word
    of an entry that fits in the bytes buffer of the entry is serialized
    there, little-endian, at four times its index; and an entry without a
    word, one that no descriptor slot filled, has the [length] that the
    table declares for its id, a quarter of the byte length of its row, and
    a bytes buffer of zeros. *)
Theorem entry_bytes_serialize_words (fuelA fuelB : nat) (dfA dfB cfBuffer : Buffer)
    (tableHeaderAddr : Z) (thisA thisB : NecEmulator) (idA idB : Z) (eA eB : EepData.t) :
  V850e2.Emu_V850e2_new fuelA dfA = Some (Ok thisA) ->
  eepData thisA !! idA = Some eA ->
  RH850.Emu_RH850_new fuelB dfB cfBuffer tableHeaderAddr = Some (Ok thisB) ->
  eepData thisB !! idB = Some eB ->
  exact_bytes eA /\ holds_words eB /\
  exists this0 len,
    RH850.load_tables dfB cfBuffer tableHeaderAddr = Ok this0 /\
    eepData this0 !! idB = Some (stub idB len) /\ 0 <= len <= 0x800 /\
    (EepData.data eB = [] ->
     EepData.length eB = (inject_Z len / 4)%Q /\
     Forall (eq x00) (EepData.dataBuf eB)).
Proof.
  intros HA HeA HB HeB. split; [|split].
  - eapply Emu_V850e2_exact; eauto.
  - eapply Emu_RH850_holds; eauto.
  - destruct (Emu_RH850_declared _ _ _ _ _ _ _ HB HeB)
      as (this0 & len & Hload & H0 & Hlen & Hl & Hz).
    exists this0, len. split; [exact Hload|]. split; [exact H0|]. split; [exact Hlen|].
    intros Hd. split; [exact Hl | exact (Hz Hd)].
Qed.

Lemma entry_bytes_serialize_words_witness :
  exists thisA thisB thisE eA eB eE,
    V850e2.Emu_V850e2_new 256 Samples.imageA_overlap = Some (Ok thisA) /\
    eepData thisA !! 7 = Some eA /\
    RH850.Emu_RH850_new 256 Samples.imageB_single (Samples.codeflash 32) 0
      = Some (Ok thisB) /\
    eepData thisB !! 0x10 = Some eB /\
    RH850.Emu_RH850_new 256 Samples.imageB_empty (Samples.codeflash 32) 0
      = Some (Ok thisE) /\
    eepData thisE !! 0x10 = Some eE /\
    exact_bytes eA /\ holds_words eB /\
    EepData.data eE = [] /\ (EepData.length eE == 8)%Q /\
    Forall (eq x00) (EepData.dataBuf eE).
Proof.
  assert (HA : Samples.decodes (V850e2.Emu_V850e2_new 256 Samples.imageA_overlap) 7 = true)
    by (vm_compute; reflexivity).
  assert (HB : Samples.decodes
                 (RH850.Emu_RH850_new 256 Samples.imageB_single (Samples.codeflash 32) 0)
                 0x10 = true)
    by (vm_compute; reflexivity).
  assert (HE : match RH850.Emu_RH850_new 256 Samples.imageB_empty (Samples.codeflash 32) 0 with
               | Some (Ok this) =>
                   match eepData this !! 0x10 with
                   | Some e => bool_decide (EepData.data e = [])
                   | None => false
                   end
               | _ => false
               end = true)
    by (vm_compute; reflexivity).
  assert (HT : match RH850.load_tables Samples.imageB_empty (Samples.codeflash 32) 0 with
               | Ok this0 =>
                   match eepData this0 !! 0x10 with
                   | Some e0 => (length (EepData.dataBuf e0) =? 128)%nat
                   | None => false
                   end
               | _ => false
               end = true)
    by (vm_compute; reflexivity).
  destruct (V850e2.Emu_V850e2_new 256 Samples.imageA_overlap) as [[thisA|e]|] eqn:EA;
    try discriminate HA.
  destruct (RH850.Emu_RH850_new 256 Samples.imageB_single (Samples.codeflash 32) 0)
    as [[thisB|e]|] eqn:EB; try discriminate HB.
  destruct (RH850.Emu_RH850_new 256 Samples.imageB_empty (Samples.codeflash 32) 0)
    as [[thisE|e]|] eqn:EE; try discriminate HE.
  destruct (eepData thisE !! 0x10) as [eE|] eqn:HeE; [|discriminate HE].
  apply bool_decide_eq_true in HE.
  unfold Samples.decodes in HA, HB.
  apply bool_decide_eq_true in HA as [eA HeA].
  apply bool_decide_eq_true in HB as [eB HeB].
  exists thisA, thisB, thisE, eA, eB, eE.
  split; [reflexivity|]. split; [exact HeA|]. split; [reflexivity|]. split; [exact HeB|].
  split; [reflexivity|]. split; [exact HeE|].
  destruct (entry_bytes_serialize_words 256 256 _ _ _ _ thisA thisB 7 0x10 eA eB
              EA HeA EB HeB) as (H1 & H2 & _).
  destruct (entry_bytes_serialize_words 256 256 _ _ _ _ thisA thisE 7 0x10 eA eE
              EA HeA EE HeE) as (_ & _ & this0 & len & Hload & H0 & Hlen & Hstub).
  rewrite Hload, H0 in HT. cbn [EepData.dataBuf stub] in HT.
  rewrite repeat_length in HT. apply Nat.eqb_eq in HT.
  assert (Hlen' : len = 32) by lia.
  destruct (Hstub HE) as [Hl Hz].
  split; [exact H1|]. split; [exact H2|]. split; [exact HE|]. split; [|exact Hz].
  rewrite Hl, Hlen'. reflexivity.
Defined.

(** X13. The ids of the result of [Emu_RH850] are those of the id/length
    table, whatever the blocks hold: the scan of the blocks adds no entry
    and removes none.  Every entry keeps the id, the [length] and the size
    of the bytes buffer prepared from the table, and the scan only appends
    words to it, ceil ([length]) words at a time. *)
Theorem Emu_RH850_entries_from_table (fuel : nat) (dfBuf cfBuffer : Buffer)
    (tableHeaderAddr : Z) (this : NecEmulator) :
  RH850.Emu_RH850_new fuel dfBuf cfBuffer tableHeaderAddr = Some (Ok this) ->
  exists this0,
    RH850.load_tables dfBuf cfBuffer tableHeaderAddr = Ok this0 /\
    (forall id e0, eepData this0 !! id = Some e0 ->
       exists len, 0 <= len <= 0x800 /\ e0 = stub id len) /\
    map_grown (eepData this0) (eepData this).
Proof.
  unfold RH850.Emu_RH850_new. intros H.
  destruct (RH850.build_catalogue dfBuf cfBuffer tableHeaderAddr) as [this1|e] eqn:E;
    [|discriminate].
  pose proof (build_catalogue_B_holds _ _ _ _ E) as Hhold.
  destruct (build_catalogue_B_tables _ _ _ _ E) as (this0 & Hload & Heq).
  exists this0. split; [exact Hload|]. split; [eapply load_tables_stubs; eauto|].
  eapply (populate_all_P (map_grown (eepData this0))); [| |rewrite <- Heq|exact H].
  - intros m m' block refAddr r. apply readDataEntry_grown.
  - exact Hhold.
  - apply map_grown_refl.
Qed.

Lemma Emu_RH850_entries_from_table_witness :
  exists this this0,
    RH850.Emu_RH850_new 256 Samples.imageB_duplicate (Samples.codeflash 32) 0
      = Some (Ok this) /\
    RH850.load_tables Samples.imageB_duplicate (Samples.codeflash 32) 0 = Ok this0 /\
    (forall id e0, eepData this0 !! id = Some e0 ->
       exists len, 0 <= len <= 0x800 /\ e0 = stub id len) /\
    map_grown (eepData this0) (eepData this).
Proof.
  assert (HB : Samples.decodes
                 (RH850.Emu_RH850_new 256 Samples.imageB_duplicate (Samples.codeflash 32) 0)
                 0x10 = true)
    by (vm_compute; reflexivity).
  destruct (RH850.Emu_RH850_new 256 Samples.imageB_duplicate (Samples.codeflash 32) 0)
    as [[this|e]|] eqn:EB; try discriminate HB.
  destruct (Emu_RH850_entries_from_table 256 _ _ _ this EB) as (this0 & H1 & H2 & H3).
  exists this, this0. auto.
Defined.

(** ** Family B: descriptors and the search of the write pointer *)

Lemma read_words_run (buf : Buffer) (widx : Z) (l : list Z) (data0 : list Z) :
  Forall (fun j => 0 <= widx - j * 4 /\ widx - j * 4 + 4 <= buf_length buf) l ->
  for_each (fun j data => w ← readUint32 buf (widx - j * 4) true; Ok (data ++ [w])) l data0
  = Ok (data0 ++ map (fun j => word_at buf (Z.to_nat (widx - j * 4))) l).
Proof.
  revert data0. induction l as [|j l IH]; intros data0 Hl; cbn [for_each map].
  - now rewrite app_nil_r.
  - apply Forall_cons in Hl as [[H0 H4] Hl].
    rewrite readUint32_at by assumption. bind_step.
    rewrite IH by exact Hl. now rewrite <- app_assoc.
Qed.

Lemma serialize_into_total (data : list Z) (dataBuf : Buffer) :
  Forall uint32 data -> exists dataBuf', RH850.serialize_into data dataBuf = Ok dataBuf'.
Proof.
  intros Hr. unfold RH850.serialize_into.
  destruct (for_each_total (fun _ => True)
              (fun j dataBuf =>
                 w ← get_defined (data !! Z.to_nat j);
                 word ← int32ToWord w true;
                 Buffer_copy word dataBuf (j * 4) 0 (buf_length word))
              (range 0 (Z.of_nat (length data))) dataBuf) as (r & Hr' & _);
    [|exact I|eauto].
  intros j s Hj _. apply elem_of_range in Hj.
  destruct (lookup_lt_is_Some_2 data (Z.to_nat j) ltac:(lia)) as [w Hw].
  rewrite Hw. cbn [get_defined]. bind_step.
  rewrite Forall_lookup in Hr. specialize (Hr _ _ Hw).
  destruct (int32ToWord_total w Hr) as (word & -> & Hlen). bind_step.
  destruct (Buffer_copy_total word s (j * 4) (buf_length word)) as (r & -> & _);
    [lia | unfold buf_length; lia |]. eauto.
Qed.

Lemma word_at_uint32 (buf : Buffer) (a : nat) : uint32 (word_at buf a).
Proof. pose proof (word_at_range buf a). unfold uint32. lia. Qed.

Lemma read_words_any (buf : Buffer) (widx : Z) (l : list Z) (data0 : list Z) :
  4 <= buf_length buf ->
  Forall (fun j => widx - j * 4 + 4 <= buf_length buf) l ->
  exists words,
    for_each (fun j data => w ← readUint32 buf (widx - j * 4) true; Ok (data ++ [w])) l data0
    = Ok (data0 ++ words) /\
    Forall2 (fun j w => readUint32 buf (widx - j * 4) true = Ok w) l words /\
    Forall uint32 words.
Proof.
  intros H4. revert data0. induction l as [|j l IH]; intros data0 Hl; cbn [for_each].
  - exists []. rewrite app_nil_r. repeat split; constructor.
  - apply Forall_cons in Hl as [Hj Hl].
    pose proof (readUint32_le_value buf (widx - j * 4) H4 Hj) as Hr.
    rewrite Hr. bind_step.
    destruct (IH (data0 ++ [le_value (subarray buf (widx - j * 4) (widx - j * 4 + 4))]) Hl)
      as (words & Hrun & Hall & Hu).
    exists (le_value (subarray buf (widx - j * 4) (widx - j * 4 + 4)) :: words).
    split; [now rewrite Hrun, <- app_assoc|]. split.
    + constructor; assumption.
    + constructor; [|exact Hu]. eapply readUint32_range; eauto.
Qed.

Lemma read_words_in_block (buf : Buffer) (widx : Z) (l : list Z) (words : list Z) :
  Forall (fun j => 0 <= widx - j * 4 /\ widx - j * 4 + 4 <= buf_length buf) l ->
  Forall2 (fun j w => readUint32 buf (widx - j * 4) true = Ok w) l words ->
  words = map (fun j => word_at buf (Z.to_nat (widx - j * 4))) l.
Proof.
  intros Hl H. induction H as [|j w l words Hw _ IH]; [reflexivity|].
  apply Forall_cons in Hl as [[H0 H4] Hl]. cbn [map].
  rewrite readUint32_at in Hw by assumption. inversion Hw. f_equal. now apply IH.
Qed.

(** X14. Family B: take a descriptor whose three guard words and reference
    word lie in the block, with the guard words set, a word index [widx]
    below 0x800 and an id of the table whose [length] is at most 0x800 and
    whose words so far are unsigned 32-bit numbers.  [readDataEntry] reads
    ceil ([length]) words with [readUint32], from [widx] downward in steps
    of four bytes.  If there is a word to read and [widx + 4] exceeds the
    length of the block, the first read throws the RangeError of
    [readUint32], which nothing catches.  Otherwise no read throws: the
    words read are appended to the entry of the id (they are the words of
    the block at these addresses when none of the addresses is negative),
    [widx], [widx_abs] and [addr] are set, the other entries are left
    alone, the size of the bytes buffer is kept and every word of the entry
    that fits is serialized in it. *)
Theorem RH850_readDataEntry_decodes (m : gmap Z EepData.t) (block : DataFlashBlock.t)
    (refAddr : Z) (entry : EepData.t) :
  let buf := DataFlashBlock.buf block in
  let word := word_at buf (Z.to_nat refAddr) in
  let widx := js_sar word 0x10 in
  let id := js_and word 0xffff in
  let n := Qceiling (EepData.length entry) in
  0xc <= refAddr -> refAddr + 4 <= buf_length buf ->
  word_at buf (Z.to_nat (refAddr - 0x4)) = RH850.ACTIVE_FLAG ->
  word_at buf (Z.to_nat (refAddr - 0x8)) = RH850.ACTIVE_FLAG ->
  word_at buf (Z.to_nat (refAddr - 0xc)) = RH850.ACTIVE_FLAG ->
  widx < RH850.BLOCK_SIZE ->
  m !! id = Some entry ->
  (EepData.length entry <= inject_Z RH850.BLOCK_SIZE)%Q ->
  Forall uint32 (EepData.data entry) ->
  (0 < n -> buf_length buf < widx + 4 ->
   RH850.readDataEntry m block refAddr = Err (RangeError_read widx (buf_length buf))) /\
  (n <= 0 \/ widx + 4 <= buf_length buf ->
   exists words dataBuf,
     Forall2 (fun j w => readUint32 buf (widx - j * 4) true = Ok w) (range 0 n) words /\
     (0 <= widx - (n - 1) * 4 -> words = descriptor_words buf widx n) /\
     RH850.readDataEntry m block refAddr
     = Ok (<[id := EepData.mk (EepData.id entry) widx
                     (widx + RH850.BLOCK_SIZE * DataFlashBlock.id block)
                     (EepData.length entry) (EepData.data entry ++ words) dataBuf
                     (refAddr + RH850.BLOCK_SIZE * DataFlashBlock.id block)]> m,
           Some id) /\
     length dataBuf = length (EepData.dataBuf entry) /\
     forall (j : nat) (w : Z),
       (EepData.data entry ++ words) !! j = Some w -> (4 * j + 4 <= length dataBuf)%nat ->
       take 4 (drop (4 * j) dataBuf) = le_bytes w).
Proof.
  intros buf word widx id n Href Hin H1 H2 H3 Hwidx He Hlen Hold.
  assert (Hq : Qle_bool (EepData.length entry) (inject_Z RH850.BLOCK_SIZE) = true)
    by now apply Qle_bool_iff.
  assert (Hhead :
            RH850.readDataEntry m block refAddr
            = (data ← for_each (fun j data =>
                                  w ← readUint32 buf (widx - j * 4) true; Ok (data ++ [w]))
                               (range 0 n) (EepData.data entry);
               dataBuf ← RH850.serialize_into data (EepData.dataBuf entry);
               Ok (<[id := EepData.mk (EepData.id entry) widx
                             (widx + RH850.BLOCK_SIZE * DataFlashBlock.id block)
                             (EepData.length entry) data dataBuf
                             (refAddr + RH850.BLOCK_SIZE * DataFlashBlock.id block)]> m,
                   Some id))).
  { unfold RH850.readDataEntry. fold buf.
    rewrite !readUint32_at by lia. bind_step.
    rewrite H1, H2, H3. fold word widx id.
    rewrite !Z.eqb_refl. cbn [negb orb].
    destruct (RH850.BLOCK_SIZE <=? widx) eqn:E; [zbool; lia|].
    rewrite He, Hq. cbn [negb]. fold n. reflexivity. }
  split.
  - intros Hn Hout. rewrite Hhead.
    rewrite (range_cons 0) by lia. cbn [for_each].
    replace (widx - 0 * 4) with widx by lia.
    rewrite readUint32_past_end by lia. reflexivity.
  - intros Hfit.
    destruct (read_words_any buf widx (range 0 n) (EepData.data entry))
      as (words & Hrun & Hall & Hu).
    { lia. }
    { apply Forall_forall. intros j Hj. apply elem_of_range in Hj. lia. }
    assert (Hr : Forall uint32 (EepData.data entry ++ words))
      by (apply Forall_app; split; assumption).
    destruct (serialize_into_total _ (EepData.dataBuf entry) Hr) as (dataBuf & Hser).
    exists words, dataBuf. split; [exact Hall|]. split.
    { intros Hlow. unfold descriptor_words. apply read_words_in_block; [|exact Hall].
      apply Forall_forall. intros j Hj. apply elem_of_range in Hj. lia. }
    split.
    { rewrite Hhead, Hrun. bind_step. rewrite Hser. reflexivity. }
    split.
    + eapply serialize_into_length; eauto.
    + eapply serialize_into_holds; eauto.
Qed.

Lemma RH850_readDataEntry_decodes_witness :
  let block := DataFlashBlock.mk 0 true 1 0 Samples.imageB_single in
  let entry := stub 0x10 32 in
  let m : gmap Z EepData.t := {[ 0x10 := entry ]} in
  exists (dataBuf : Buffer) r,
    RH850.readDataEntry m block 0x34 = Ok r /\
    r.2 = Some 0x10 /\
    length dataBuf = length (EepData.dataBuf entry).
Proof.
  intros block entry m.
  assert (Hn : Qceiling (EepData.length entry) = 8) by (vm_compute; reflexivity).
  assert (Hw : js_sar (word_at (DataFlashBlock.buf block) (Z.to_nat 0x34)) 0x10 = 0x7d8)
    by (vm_compute; reflexivity).
  assert (Hid : js_and (word_at (DataFlashBlock.buf block) (Z.to_nat 0x34)) 0xffff = 0x10)
    by (vm_compute; reflexivity).
  assert (Hlen : buf_length (DataFlashBlock.buf block) = 0x800) by (vm_compute; reflexivity).
  destruct (RH850_readDataEntry_decodes m block 0x34 entry) as [_ H].
  - lia.
  - rewrite Hlen. lia.
  - vm_compute; reflexivity.
  - vm_compute; reflexivity.
  - vm_compute; reflexivity.
  - rewrite Hw. reflexivity.
  - vm_compute; reflexivity.
  - vm_compute. discriminate.
  - constructor.
  - destruct H as (words & dataBuf & _ & _ & Hrun & Hl & _).
    + right. rewrite Hw, Hlen. lia.
    + exists dataBuf. eexists. split; [exact Hrun|]. split; [|exact Hl].
      cbn [snd]. now rewrite Hid.
Defined.

Lemma rwp_loop_range (fuel : nat) (m m' : gmap Z EepData.t) (page : DataFlashBlock.t)
    (rwp rwp_hypo : Z) (dwp : Q) (found : Z) :
  all_hold m ->
  (dwp <= inject_Z 0x7f8)%Q ->
  0x28 <= rwp -> rwp mod 0x10 = 8 ->
  0x28 <= rwp_hypo < 0x7f8 -> rwp_hypo mod 0x10 = 8 ->
  RH850.rwp_loop fuel m page rwp rwp_hypo dwp = Some (Ok (m', found)) ->
  0x28 <= found < 0x7f8 /\ found mod 0x10 = 8.
Proof.
  revert m rwp rwp_hypo dwp.
  induction fuel as [|fuel IH]; intros m rwp rwp_hypo dwp Hinv Hdwp Hlo Hrwp Hh Hhm H;
    cbn [RH850.rwp_loop] in H;
    (destruct (negb (Qle_bool dwp (inject_Z rwp))) eqn:Eg;
       [|inversion H; subst; auto]);
    (destruct (RH850.readDataEntry m page (rwp - 4)) as [[m1 r]|e] eqn:Er; [|discriminate]);
    apply readDataEntry_holds in Er; try exact Hinv.
  - destruct (match r ≫= _ with Some _ => _ | None => _ end). discriminate.
  - assert (Hlt : rwp < 0x7f8).
    { apply negb_true_iff in Eg.
      destruct (Z_lt_le_dec rwp 0x7f8) as [?|Hge]; [assumption|].
      assert (Hle : Qle_bool dwp (inject_Z rwp) = true).
      { apply Qle_bool_iff. eapply Qle_trans; [exact Hdwp|]. now rewrite <- Zle_Qle. }
      congruence. }
    assert (Hnext : forall h d,
              match r ≫= (fun k => m1 !! k) with
              | Some entry =>
                  if Qeq_bool (inject_Z (EepData.widx entry)) dwp
                  then (rwp, (dwp - EepData.length entry * 4)%Q)
                  else (rwp_hypo, dwp)
              | None => (rwp_hypo, dwp)
              end = (h, d) ->
              (d <= inject_Z 0x7f8)%Q /\ (h = rwp \/ h = rwp_hypo)).
    { intros h d Hd. destruct (r ≫= _) as [entry|] eqn:Ee.
      - destruct (Qeq_bool _ _); inversion Hd; subst; [|auto].
        assert (0 <= EepData.length entry)%Q.
        { destruct r as [k|]; [|discriminate]. simpl in Ee. now apply (Er _ _ Ee). }
        split; [lra | auto].
      - inversion Hd; subst. auto. }
    destruct (match r ≫= _ with Some _ => _ | None => _ end) as [h d] eqn:Ed.
    destruct (Hnext h d eq_refl) as [Hd Hh'].
    apply (IH m1 (rwp + 0x10) h d); try assumption.
    + lia.
    + rewrite <- Hrwp. replace (rwp + 0x10) with (rwp + 1 * 0x10) by lia.
      apply Z_mod_plus_full.
    + destruct Hh' as [-> | ->]; lia.
    + destruct Hh' as [-> | ->]; assumption.
Qed.

Lemma load_tables_holds (dfBuf cfBuffer : Buffer) (tableHeaderAddr : Z) (this : NecEmulator) :
  RH850.load_tables dfBuf cfBuffer tableHeaderAddr = Ok this -> all_hold (eepData this).
Proof.
  unfold RH850.load_tables. intros H.
  apply bind_Ok_inv in H as (this0 & H0 & H).
  apply bind_Ok_inv in H as (t & _ & H).
  unfold RH850.populateDataInfoWTable in H.
  apply bind_Ok_inv in H as (table & _ & H).
  apply bind_Ok_inv in H as (m0 & Hm0 & H).
  inversion H; subst this; clear H. cbn [eepData set_eepData].
  eapply (for_each_preserves all_hold); [| |exact Hm0].
  - intros i s s' Hs Hb. eapply add_stub_holds; eauto.
  - unfold NecEmulator_new in H0.
    destruct (_ || _) in H0; [discriminate|]. inversion H0; subst this0. cbn [eepData].
    intros id e He. rewrite lookup_empty in He. discriminate.
Qed.

(** X15. The address that [findActiveRwp] returns is one of 0x28, 0x38, ...,
    0x7e8.  So every reference address that [populateBlockData] visits from
    it has its three guard words and its reference word inside the
    block. *)
Theorem findActiveRwp_range (fuel : nat) (m m' : gmap Z EepData.t) (page : DataFlashBlock.t)
    (found : Z) :
  all_hold m ->
  RH850.findActiveRwp fuel m page = Some (Ok (m', found)) ->
  0x28 <= found < 0x7f8 /\ found mod 0x10 = 8 /\
  Forall (fun refAddr => 0x24 <= refAddr /\ refAddr + 0xc <= RH850.BLOCK_SIZE /\
                         refAddr mod 0x10 = 4)
         (range_down (found - 4) 0x20 0x10).
Proof.
  intros Hinv H. unfold RH850.findActiveRwp in H.
  apply rwp_loop_range in H as [Hr Hm]; try assumption; try lia; try reflexivity;
    [|apply Qle_refl].
  split; [exact Hr|]. split; [exact Hm|].
  apply Forall_forall. intros a Ha. unfold range_down in Ha.
  apply list_elem_of_fmap in Ha as (k & -> & Hk). apply elem_of_seq in Hk.
  unfold ceil_div, RH850.BLOCK_SIZE in *.
  pose proof (Z.div_mod found 0x10 ltac:(lia)) as Hd. rewrite Hm in Hd.
  assert (Hq : - (- (found - 4 - 0x20) / 0x10) = found / 0x10 - 1).
  { replace (- (found - 4 - 0x20)) with ((- (found / 0x10) + 1) * 0x10 + 12) by lia.
    rewrite Z.div_add_l by lia. change (12 / 0x10) with 0. lia. }
  rewrite Hq in Hk.
  split; [lia|]. split; [lia|].
  replace (found - 4 - 0x10 * Z.of_nat k) with (4 + (found / 0x10 - Z.of_nat k) * 0x10) by lia.
  now rewrite Z_mod_plus_full.
Qed.

Lemma findActiveRwp_range_witness :
  let page := DataFlashBlock.mk 0 true 1 0 Samples.imageB_duplicate in
  let m := eepData (Images.loadedB Samples.imageB_duplicate (Samples.codeflash 32)) in
  RH850.findActiveRwp 256 m page = Some (Ok (Images.scanned_rwp m page)) /\
  (Images.scanned_rwp m page).2 = 0x38 /\
  0x28 <= 0x38 < 0x7f8 /\ 0x38 mod 0x10 = 8 /\
  Forall (fun refAddr => 0x24 <= refAddr /\ refAddr + 0xc <= RH850.BLOCK_SIZE /\
                         refAddr mod 0x10 = 4)
         (range_down (0x38 - 4) 0x20 0x10).
Proof.
  intros page m.
  assert (Hload : RH850.load_tables Samples.imageB_duplicate (Samples.codeflash 32) 0
                  = Ok (Images.loadedB Samples.imageB_duplicate (Samples.codeflash 32)))
    by (vm_compute; reflexivity).
  assert (Hrun : RH850.findActiveRwp 256 m page = Some (Ok (Images.scanned_rwp m page)))
    by (vm_compute; reflexivity).
  assert (Hfound : (Images.scanned_rwp m page).2 = 0x38) by (vm_compute; reflexivity).
  split; [exact Hrun|]. split; [exact Hfound|].
  rewrite <- Hfound.
  apply (findActiveRwp_range 256 m (Images.scanned_rwp m page).1 page).
  - exact (load_tables_holds Samples.imageB_duplicate (Samples.codeflash 32) 0 _ Hload).
  - rewrite Hrun. destruct (Images.scanned_rwp m page). reflexivity.
Defined.

(** ** Termination, and images without a valid block *)

Lemma slot_loop_mono (fuel fuel' : nat) (this : NecEmulator) (blockId block : Z)
    (nextBlock : option Z) (i word : Z) (r : result NecEmulator) :
  (fuel <= fuel')%nat ->
  V850e2.slot_loop fuel this blockId block nextBlock i word = Some r ->
  V850e2.slot_loop fuel' this blockId block nextBlock i word = Some r.
Proof.
  revert fuel' this i word.
  induction fuel as [|fuel IH]; intros fuel' this i word Hle H;
    destruct fuel' as [|fuel']; try lia; try exact H;
    cbn [V850e2.slot_loop] in H |- *;
    (destruct (word =? V850e2.REF_END_FLAG); [exact H|]);
    (destruct (V850e2.process_slot this blockId block nextBlock i word) as [this1|e];
       [|exact H]);
    unfold V850e2.next_slot in H |- *;
    (destruct (get_defined (blockData this1 !! block)) as [b|e]; [|exact H]);
    (destruct (readUint32 (DataFlashBlock.buf b) ((i + 1) * 0x10) true) as [w|e];
       [|exact H]);
    (destruct (negb (DataFlashBlock.rwp b =? 0) && _); [exact H|]).
  - discriminate H.
  - apply IH; [lia | exact H].
Qed.

Lemma populateBlockData_A_mono (fuel fuel' : nat) (this : NecEmulator) (blockId : Z)
    (r : result NecEmulator) :
  (fuel <= fuel')%nat ->
  V850e2.populateBlockData fuel this blockId = Some r ->
  V850e2.populateBlockData fuel' this blockId = Some r.
Proof.
  intros Hle H. unfold V850e2.populateBlockData in H |- *.
  destruct (_ ≫= _) as [[[block nextBlock] word]|e]; [|exact H].
  eapply slot_loop_mono; eauto.
Qed.

Lemma populate_all_A_mono (fuel fuel' : nat) (ids : list Z) (this : NecEmulator)
    (r : result NecEmulator) :
  (fuel <= fuel')%nat ->
  V850e2.populate_all fuel this ids = Some r ->
  V850e2.populate_all fuel' this ids = Some r.
Proof.
  intros Hle. revert this. induction ids as [|i ids IH]; intros this H;
    cbn [V850e2.populate_all] in H |- *; [exact H|].
  destruct (V850e2.populateBlockData fuel this i) as [[this1|e]|] eqn:Ep;
    try discriminate H.
  - rewrite (populateBlockData_A_mono _ _ _ _ _ Hle Ep). now apply IH.
  - now rewrite (populateBlockData_A_mono _ _ _ _ _ Hle Ep).
Qed.

Lemma rwp_loop_mono (fuel fuel' : nat) (m : gmap Z EepData.t) (page : DataFlashBlock.t)
    (rwp rwp_hypo : Z) (dwp : Q) (r : result (gmap Z EepData.t * Z)) :
  (fuel <= fuel')%nat ->
  RH850.rwp_loop fuel m page rwp rwp_hypo dwp = Some r ->
  RH850.rwp_loop fuel' m page rwp rwp_hypo dwp = Some r.
Proof.
  revert fuel' m rwp rwp_hypo dwp.
  induction fuel as [|fuel IH]; intros fuel' m rwp rwp_hypo dwp Hle H;
    destruct fuel' as [|fuel']; try lia; try exact H;
    cbn [RH850.rwp_loop] in H |- *;
    (destruct (negb (Qle_bool dwp (inject_Z rwp))); [|exact H]);
    (destruct (RH850.readDataEntry m page (rwp - 4)) as [[m1 dataEntry]|e]; [|exact H]);
    destruct (match dataEntry ≫= _ with Some _ => _ | None => _ end) as [h d].
  - discriminate H.
  - apply IH; [lia | exact H].
Qed.

Lemma populateBlockData_B_mono (fuel fuel' : nat) (this : NecEmulator) (blockId : Z)
    (r : result NecEmulator) :
  (fuel <= fuel')%nat ->
  RH850.populateBlockData fuel this blockId = Some r ->
  RH850.populateBlockData fuel' this blockId = Some r.
Proof.
  intros Hle H. unfold RH850.populateBlockData in H |- *.
  destruct (_ ≫= _) as [[blockNum block]|e]; [|exact H].
  destruct (DataFlashBlock.rwp block =? 0); [|exact H].
  unfold RH850.findActiveRwp in *.
  destruct (RH850.rwp_loop fuel (eepData this) block 40 40 (inject_Z 2040))
    as [r0|] eqn:Er; [|discriminate H].
  now rewrite (rwp_loop_mono _ _ _ _ _ _ _ _ Hle Er).
Qed.

Lemma populate_all_B_mono (fuel fuel' : nat) (ids : list Z) (this : NecEmulator)
    (r : result NecEmulator) :
  (fuel <= fuel')%nat ->
  RH850.populate_all fuel this ids = Some r ->
  RH850.populate_all fuel' this ids = Some r.
Proof.
  intros Hle. revert this. induction ids as [|i ids IH]; intros this H;
    cbn [RH850.populate_all] in H |- *; [exact H|].
  destruct (RH850.populateBlockData fuel this i) as [[this1|e]|] eqn:Ep;
    try discriminate H.
  - rewrite (populateBlockData_B_mono _ _ _ _ _ Hle Ep). now apply IH.
  - now rewrite (populateBlockData_B_mono _ _ _ _ _ Hle Ep).
Qed.

(** X16. The [while] loops of the constructors always end: for every input
    there is one outcome, an object or an exception, that the constructor
    of either family produces as soon as the [while] loops of
    [Emu_V850e2.populateBlockData] and of [findActiveRwp] are allowed 256
    rounds, and at every larger bound. *)
Theorem constructors_terminate :
  (forall dfBuf,
     exists r, forall fuel, (256 <= fuel)%nat -> V850e2.Emu_V850e2_new fuel dfBuf = Some r) /\
  (forall dfBuf cfBuffer tableHeaderAddr,
     exists r, forall fuel, (256 <= fuel)%nat ->
       RH850.Emu_RH850_new fuel dfBuf cfBuffer tableHeaderAddr = Some r).
Proof.
  split.
  - intros dfBuf.
    destruct (V850e2.Emu_V850e2_new 256 dfBuf) as [r|] eqn:E;
      [|now apply Emu_V850e2_new_fuel in E].
    exists r. intros fuel Hfuel. unfold V850e2.Emu_V850e2_new in E |- *.
    destruct (V850e2.build_catalogue dfBuf); [|exact E].
    eapply populate_all_A_mono; eauto.
  - intros dfBuf cfBuffer tableHeaderAddr.
    destruct (RH850.Emu_RH850_new 256 dfBuf cfBuffer tableHeaderAddr) as [r|] eqn:E;
      [|now apply Emu_RH850_new_fuel in E].
    exists r. intros fuel Hfuel. unfold RH850.Emu_RH850_new in E |- *.
    destruct (RH850.build_catalogue dfBuf cfBuffer tableHeaderAddr); [|exact E].
    eapply populate_all_B_mono; eauto.
Qed.

Lemma valid_at_catalogue (this : NecEmulator) (blocks : gmap Z DataFlashBlock.t)
    (valid : Buffer -> bool) (df : Buffer) (bs : Z) (ec_off rwp_off : nat) (mul : Z) (i : Z) :
  catalogue_of df bs (nBlocks this) valid ec_off rwp_off mul blocks ->
  valid_blocks valid df bs (nBlocks this) = [] ->
  valid_at (set_blockData this blocks) i = false.
Proof.
  intros Hcat Hnone. unfold valid_at. cbn [blockData set_blockData].
  rewrite Hcat. destruct (bool_decide (0 <= i < nBlocks this)) eqn:E; [|reflexivity].
  apply bool_decide_eq_true in E. cbn.
  destruct (valid (block_bytes df bs i)) eqn:Ev; [|reflexivity].
  assert (Hin : i ∈ valid_blocks valid df bs (nBlocks this)).
  { apply list_elem_of_filter. split; [exact Ev | now apply elem_of_range]. }
  rewrite Hnone in Hin. inversion Hin.
Qed.

Lemma no_active_block (this : NecEmulator) :
  0 <= nBlocks this ->
  (forall i, 0 <= i < nBlocks this -> is_Some (blockData this !! i)) ->
  (forall i, valid_at this i = false) ->
  getActiveBlocksOrderedList this = Ok [].
Proof.
  intros Hn Hfull Hnone.
  destruct (ordered_list_spec this Hfull Hn) as (l & Hl & Hmem & _).
  rewrite Hl. f_equal. destruct l as [|i l]; [reflexivity|].
  destruct (Hmem i) as [H _]. specialize (H ltac:(left)) as [_ H].
  rewrite Hnone in H. discriminate.
Qed.

(** X17. On an image without a valid block no block is active and no record
    is read: [Emu_V850e2] returns an empty result, and [Emu_RH850] returns
    the entries as they were prepared from the table. *)
Theorem no_valid_block_no_record (dfA dfB cfBuffer : Buffer) (tableHeaderAddr : Z)
    (thisA thisB : NecEmulator) :
  NecEmulator_new dfA V850e2.BLOCK_SIZE = Ok thisA ->
  RH850.load_tables dfB cfBuffer tableHeaderAddr = Ok thisB ->
  valid_blocks (validA thisA) dfA V850e2.BLOCK_SIZE (nBlocks thisA) = [] ->
  valid_blocks validB dfB RH850.BLOCK_SIZE (nBlocks thisB) = [] ->
  forall fuel,
    (exists this,
       V850e2.Emu_V850e2_new fuel dfA = Some (Ok this) /\
       activeBlocks this = [] /\ eepData this = ∅) /\
    (exists this,
       RH850.Emu_RH850_new fuel dfB cfBuffer tableHeaderAddr = Some (Ok this) /\
       activeBlocks this = [] /\ eepData this = eepData thisB).
Proof.
  intros HnewA HloadB HnoneA HnoneB fuel. split.
  - unfold V850e2.Emu_V850e2_new, V850e2.build_catalogue. rewrite HnewA. bind_step.
    apply NecEmulator_new_fields in HnewA as (Hdf & Hbs & Hemp & Hlen);
      [|unfold V850e2.BLOCK_SIZE; lia].
    unfold V850e2.BLOCK_SIZE in *.
    assert (Hn : 0 <= nBlocks thisA) by (apply nBlocks_nonneg; [lia | assumption]).
    destruct (catalogue_outcome (nBlocks thisA) 0x1000 (dfBuffer thisA)
                (V850e2.scan_block thisA) (validA thisA) 0x28 0x30 2
                ltac:(intros i blocks rwps Hi; now apply scan_block_A) Hn) as [Hok _].
    rewrite <- getBlocksData_A_run in Hok by assumption.
    rewrite Hdf, HnoneA in Hok. destruct (Hok ltac:(constructor)) as [blocks Hblocks].
    rewrite Hblocks. bind_step.
    pose proof Hblocks as Hrun. rewrite getBlocksData_A_run in Hrun by assumption.
    destruct (catalogue_shape (nBlocks thisA) 0x1000 (dfBuffer thisA)
                (V850e2.scan_block thisA) (validA thisA) 0x28 0x30 2
                ltac:(intros i bl rwps Hi; now apply scan_block_A) Hn blocks Hrun)
      as [Hcat _].
    rewrite Hdf in Hcat.
    rewrite (no_active_block (set_blockData thisA blocks)).
    + bind_step. cbn [activeBlocks set_activeBlocks length Z.of_nat].
      rewrite range_nil by lia. cbn [V850e2.populate_all].
      eexists. split; [reflexivity|]. split; [reflexivity | exact Hemp].
    + exact Hn.
    + intros i Hi. cbn [blockData set_blockData]. rewrite Hcat.
      rewrite bool_decide_eq_true_2 by exact Hi. eauto.
    + intros i. eapply valid_at_catalogue; eauto.
  - unfold RH850.Emu_RH850_new, RH850.build_catalogue. rewrite HloadB. bind_step.
    assert (Hf : dfBuffer thisB = dfB /\ blockSize thisB = 0x800 /\
                 buf_length (dfBuffer thisB) = nBlocks thisB * blockSize thisB).
    { unfold RH850.load_tables in HloadB.
      apply bind_Ok_inv in HloadB as (this1 & Hnew & H).
      apply bind_Ok_inv in H as (t & _ & H).
      unfold RH850.populateDataInfoWTable in H.
      apply bind_Ok_inv in H as (table & _ & H).
      apply bind_Ok_inv in H as (m & _ & H). inversion H; subst thisB; clear H.
      apply NecEmulator_new_fields in Hnew as (Hdf & Hbs & _ & Hlen);
        [|unfold RH850.BLOCK_SIZE; lia].
      cbn. auto. }
    destruct Hf as (Hdf & Hbs & Hlen).
    unfold RH850.BLOCK_SIZE in *.
    assert (Hn : 0 <= nBlocks thisB) by (apply nBlocks_nonneg; [lia | assumption]).
    destruct (catalogue_outcome (nBlocks thisB) 0x800 (dfBuffer thisB)
                (RH850.scan_block thisB) validB 0x10 0x14 1
                ltac:(intros i blocks rwps Hi; now apply scan_block_B) Hn) as [Hok _].
    rewrite <- getBlocksData_B_run in Hok by assumption.
    rewrite Hdf, HnoneB in Hok. destruct (Hok ltac:(constructor)) as [blocks Hblocks].
    rewrite Hblocks. bind_step.
    pose proof Hblocks as Hrun. rewrite getBlocksData_B_run in Hrun by assumption.
    destruct (catalogue_shape (nBlocks thisB) 0x800 (dfBuffer thisB)
                (RH850.scan_block thisB) validB 0x10 0x14 1
                ltac:(intros i bl rwps Hi; now apply scan_block_B) Hn blocks Hrun)
      as [Hcat _].
    rewrite Hdf in Hcat.
    rewrite (no_active_block (set_blockData thisB blocks)).
    + bind_step. cbn [activeBlocks set_activeBlocks length Z.of_nat].
      rewrite range_nil by lia. cbn [RH850.populate_all].
      eexists. split; [reflexivity|]. split; reflexivity.
    + exact Hn.
    + intros i Hi. cbn [blockData set_blockData]. rewrite Hcat.
      rewrite bool_decide_eq_true_2 by exact Hi. eauto.
    + intros i. eapply valid_at_catalogue; eauto.
Qed.

Lemma no_valid_block_no_record_witness :
  let thisA := Samples.emulator Images.imageA_blank 0x1000 in
  let thisB := Images.loadedB Images.imageB_blank (Samples.codeflash 32) in
  (exists this,
     V850e2.Emu_V850e2_new 256 Images.imageA_blank = Some (Ok this) /\
     activeBlocks this = [] /\ eepData this = ∅) /\
  (exists this,
     RH850.Emu_RH850_new 256 Images.imageB_blank (Samples.codeflash 32) 0 = Some (Ok this) /\
     activeBlocks this = [] /\ eepData this = eepData thisB).
Proof.
  intros thisA thisB.
  apply (no_valid_block_no_record Images.imageA_blank Images.imageB_blank
           (Samples.codeflash 32) 0 thisA thisB).
  - vm_compute; reflexivity.
  - vm_compute; reflexivity.
  - vm_compute; reflexivity.
  - vm_compute; reflexivity.
Defined.

(** ** Logging: hexadecimal strings *)

Lemma digit16_value (d : Z) :
  0 <= d < 16 -> hex_digit_value (upper_char (digit16 d)) = Some d.
Proof.
  intros Hd. replace d with (Z.of_nat (Z.to_nat d)) at 2 by lia.
  unfold digit16. assert (Hk : (Z.to_nat d < 16)%nat) by lia.
  revert Hk. generalize (Z.to_nat d). intros k Hk.
  do 16 (destruct k as [|k]; [reflexivity|]). lia.
Qed.

Lemma hex_value_from (s : JsString) (a : option Z) (c : ascii) :
  fold_left (fun acc c => a ← acc; d ← hex_digit_value c; Some (16 * a + d)) (s ++ [c]) a
  = (v ← fold_left (fun acc c => a ← acc; d ← hex_digit_value c; Some (16 * a + d)) s a;
     d ← hex_digit_value c; Some (16 * v + d)).
Proof. now rewrite fold_left_app. Qed.

Lemma hex_value_snoc (s : JsString) (c : ascii) :
  hex_value (s ++ [c]) = (v ← hex_value s; d ← hex_digit_value c; Some (16 * v + d)).
Proof. apply hex_value_from. Qed.

Lemma hex_value_zeros (k : nat) (s : JsString) :
  hex_value (repeat "0"%char k ++ s) = hex_value s.
Proof.
  unfold hex_value. rewrite fold_left_app. f_equal.
  induction k as [|k IH]; [reflexivity|]. exact IH.
Qed.

Lemma digits16_acc (fuel : nat) (n : Z) (acc : JsString) :
  digits16 fuel n acc = digits16 fuel n [] ++ acc.
Proof.
  revert n acc. induction fuel as [|fuel IH]; intros n acc; cbn [digits16]; [reflexivity|].
  destruct (n / 16 =? 0); [reflexivity|].
  rewrite (IH (n / 16) (_ :: acc)), (IH (n / 16) [_]). now rewrite <- app_assoc.
Qed.

Lemma digits16_value (fuel : nat) (n : Z) :
  0 <= n < 16 ^ (Z.of_nat fuel + 1) ->
  hex_value (toUpperCase (digits16 fuel n [])) = Some n.
Proof.
  revert n. induction fuel as [|fuel IH]; intros n Hn.
  - cbn [digits16 toUpperCase map]. change (16 ^ (Z.of_nat 0 + 1)) with 16 in Hn.
    rewrite Z.mod_small by lia. unfold hex_value. cbn [fold_left].
    rewrite digit16_value by lia. reflexivity.
  - cbn [digits16].
    pose proof (Z.div_mod n 16 ltac:(lia)) as Hd.
    pose proof (Z.mod_pos_bound n 16 ltac:(lia)) as Hm.
    destruct (n / 16 =? 0) eqn:E; zbool.
    + cbn [toUpperCase map]. unfold hex_value. cbn [fold_left].
      rewrite digit16_value by lia. cbn. f_equal. lia.
    + rewrite digits16_acc. unfold toUpperCase. rewrite map_app. cbn [map].
      rewrite hex_value_snoc. fold (toUpperCase (digits16 fuel (n / 16) [])).
      rewrite IH.
      * cbn [mbind option_bind]. rewrite digit16_value by lia. cbn. f_equal. lia.
      * split; [apply Z.div_pos; lia|].
        apply Z.div_lt_upper_bound; [lia|].
        replace (Z.of_nat (S fuel) + 1) with (Z.succ (Z.of_nat fuel + 1)) in Hn by lia.
        rewrite Z.pow_succ_r in Hn by lia. lia.
Qed.

Lemma length_digits16 (fuel : nat) (n : Z) (k : nat) :
  (1 <= k)%nat -> 0 <= n < 16 ^ Z.of_nat k ->
  (1 <= length (digits16 fuel n []) <= k)%nat.
Proof.
  revert n k. induction fuel as [|fuel IH]; intros n k Hk Hn; cbn [digits16].
  - cbn. lia.
  - destruct (n / 16 =? 0) eqn:E; zbool; [cbn; lia|].
    rewrite digits16_acc, length_app. cbn [length].
    destruct k as [|[|k]]; [lia | |].
    + change (16 ^ Z.of_nat 1) with 16 in Hn. rewrite Z.div_small in E by lia. lia.
    + destruct (IH (n / 16) (S k) ltac:(lia)) as [H1 H2]; [|lia].
      split; [apply Z.div_pos; lia|].
      apply Z.div_lt_upper_bound; [lia|].
      replace (Z.of_nat (S (S k))) with (Z.succ (Z.of_nat (S k))) in Hn by lia.
      rewrite Z.pow_succ_r in Hn by lia. lia.
Qed.

Lemma fuel_enough (n : Z) : 0 <= n -> n < 16 ^ (Z.of_nat (Z.to_nat (Z.log2 n)) + 1).
Proof.
  intros Hn. rewrite Z2Nat.id by apply Z.log2_nonneg.
  destruct (Z.eq_dec n 0) as [->|Hne]; [reflexivity|].
  destruct (Z.log2_spec n ltac:(lia)) as [_ Hlt].
  eapply Z.lt_le_trans; [exact Hlt|].
  replace (Z.succ (Z.log2 n)) with (Z.log2 n + 1) by lia.
  apply Z.pow_le_mono_l. lia.
Qed.

Lemma Number_toString16_nonneg (n : Z) :
  0 <= n -> Number_toString16 n = digits16 (Z.to_nat (Z.log2 n)) n [].
Proof.
  intros Hn. unfold Number_toString16.
  destruct (n <? 0) eqn:E; [zbool; lia | reflexivity].
Qed.

Lemma length_toUpperCase (s : JsString) : length (toUpperCase s) = length s.
Proof. apply length_map. Qed.

Lemma toHexString_value (num pad : Z) :
  0 <= num -> hex_value (toHexString num pad false) = Some num.
Proof.
  intros Hn. unfold toHexString. cbn [app].
  rewrite Number_toString16_nonneg by exact Hn.
  unfold padStart, toUpperCase. rewrite map_app, map_repeat.
  change (upper_char "0"%char) with "0"%char.
  rewrite hex_value_zeros. apply digits16_value. split; [exact Hn | now apply fuel_enough].
Qed.

Lemma toHexString_length (num pad : Z) :
  0 <= num ->
  pad <= Z.of_nat (length (toHexString num pad false)) /\
  (0 < pad -> num < 16 ^ pad -> Z.of_nat (length (toHexString num pad false)) = pad).
Proof.
  intros Hn. unfold toHexString. cbn [app].
  rewrite Number_toString16_nonneg by exact Hn.
  rewrite length_toUpperCase. unfold padStart. rewrite length_app, repeat_length.
  split; [lia|]. intros Hpad Hlt.
  destruct (length_digits16 (Z.to_nat (Z.log2 num)) num (Z.to_nat pad)) as [H1 H2];
    [lia | rewrite Z2Nat.id by lia; lia |]. lia.
Qed.

(** X18. For a number that is not negative, [toHexString] without the prefix
    returns hexadecimal digits, the letters in upper case, whose value is
    the number: at least [pad] digits, and exactly [pad] when the number is
    below 16^pad.  With the prefix it returns the same digits after
    [0x]. *)
Theorem toHexString_digits (num pad : Z) :
  0 <= num ->
  hex_value (toHexString num pad false) = Some num /\
  toHexString num pad true = str "0x" ++ toHexString num pad false /\
  pad <= Z.of_nat (length (toHexString num pad false)) /\
  (0 < pad -> num < 16 ^ pad -> Z.of_nat (length (toHexString num pad false)) = pad).
Proof.
  intros Hn. split; [now apply toHexString_value|]. split; [reflexivity|].
  now apply toHexString_length.
Qed.

Lemma toHexString_digits_witness :
  hex_value (toHexString 17 3 false) = Some 17 /\
  toHexString 17 3 true = str "0x" ++ toHexString 17 3 false /\
  3 <= Z.of_nat (length (toHexString 17 3 false)) /\
  (0 < 3 -> 17 < 16 ^ 3 -> Z.of_nat (length (toHexString 17 3 false)) = 3) /\
  toHexString 10 2 true = str "0x0A" /\ toHexString 17 2 true = str "0x11" /\
  toHexString 17 3 true = str "0x011" /\ toHexString 17 2 false = str "11".
Proof.
  destruct (toHexString_digits 17 3 ltac:(lia)) as (H1 & H2 & H3 & H4).
  split; [exact H1|]. split; [exact H2|]. split; [exact H3|]. split; [exact H4|].
  repeat split.
Defined.

(** ** Logging: rows *)

Lemma byte_val_inj (b b' : byte) : byte_val b = byte_val b' -> b = b'.
Proof. intros H. rewrite <- (to_uint8_byte_val b), <- (to_uint8_byte_val b'). now rewrite H. Qed.

Lemma fold_left_cells {I : Type} (f : I -> JsString) (g : JsString) (l : list I) (a : JsString) :
  fold_left (fun acc i => (acc ++ f i) ++ g) l a = a ++ concat (map (fun i => f i ++ g) l).
Proof.
  revert a. induction l as [|i l IH]; intros a; cbn [fold_left map concat].
  - now rewrite app_nil_r.
  - rewrite IH. now rewrite <- !app_assoc.
Qed.

Lemma byte_cells_concat (buf : Buffer) : byte_cells buf = concat (map (cell buf) (range 0 0x10)).
Proof. unfold byte_cells. now rewrite fold_left_cells. Qed.

Lemma length_cell (buf : Buffer) (i : Z) : length (cell buf i) = 3%nat.
Proof.
  unfold cell. rewrite length_app. destruct (buf_get buf i) as [b|] eqn:E; [|reflexivity].
  apply buf_get_range in E.
  destruct (toHexString_length b 2 ltac:(lia)) as [_ H].
  specialize (H ltac:(lia) ltac:(change (16 ^ 2) with 256; lia)).
  change (length (str " ")) with 1%nat. lia.
Qed.

Lemma length_concat_fixed {A : Type} (n : nat) (ps : list (list A)) :
  Forall (fun p => length p = n) ps -> length (concat ps) = (length ps * n)%nat.
Proof.
  induction 1 as [|p ps Hp _ IH]; [reflexivity|].
  cbn [concat length]. rewrite length_app, IH, Hp. lia.
Qed.

Lemma concat_fixed_inj {A : Type} (n : nat) (ps qs : list (list A)) :
  Forall (fun p => length p = n) ps -> Forall (fun p => length p = n) qs ->
  length ps = length qs -> concat ps = concat qs -> ps = qs.
Proof.
  intros Hp. revert qs. induction Hp as [|p ps Hp _ IH]; intros qs Hq Hl Hc.
  - destruct qs; [reflexivity | discriminate].
  - destruct qs as [|q qs]; [discriminate|].
    apply Forall_cons in Hq as [Hq Hqs]. cbn [concat] in Hc.
    assert (Hlen : length p = length q) by congruence.
    destruct (app_inj_1 _ _ _ _ Hlen Hc) as [-> Hc'].
    f_equal. apply IH; auto.
Qed.

Lemma length_byte_cells (buf : Buffer) : length (byte_cells buf) = 48%nat.
Proof.
  rewrite byte_cells_concat.
  rewrite (length_concat_fixed 3); [reflexivity|].
  apply Forall_fmap, Forall_forall. intros i _. apply length_cell.
Qed.

Lemma fold_left_concat {I : Type} (f : I -> JsString) (l : list I) (a : JsString) :
  fold_left (fun acc i => acc ++ f i) l a = a ++ concat (map f l).
Proof.
  revert a. induction l as [|i l IH]; intros a; cbn [fold_left map concat].
  - now rewrite app_nil_r.
  - rewrite IH. now rewrite <- app_assoc.
Qed.

Lemma ascii_cells_concat (buf : Buffer) :
  ascii_cells buf =
    concat (map (fun byte => if (byte <? 32) || (127 <? byte) then str "."
                             else [String_fromCharCode byte]) (map byte_val buf)).
Proof. unfold ascii_cells. now rewrite fold_left_concat. Qed.

Lemma length_ascii_cells (buf : Buffer) : length (ascii_cells buf) = length buf.
Proof.
  rewrite ascii_cells_concat, (length_concat_fixed 1).
  - rewrite !length_map. lia.
  - apply Forall_fmap, Forall_forall. intros x _. unfold compose.
    match goal with |- context [if ?c then _ else _] => destruct c end; reflexivity.
Qed.

Lemma length_padEnd (s : JsString) (n : Z) (c : ascii) :
  Z.of_nat (length (padEnd s n c)) = Z.max n (Z.of_nat (length s)).
Proof. unfold padEnd. rewrite length_app, repeat_length. lia. Qed.

Lemma cell_inj (buf buf' : Buffer) (i : Z) :
  cell buf i = cell buf' i -> buf_get buf i = buf_get buf' i.
Proof.
  unfold cell. intros H. apply app_inj_2 in H as [H _]; [|reflexivity].
  destruct (buf_get buf i) as [b|] eqn:E, (buf_get buf' i) as [b'|] eqn:E'; [| | |reflexivity].
  - apply buf_get_range in E, E'.
    pose proof (toHexString_value b 2 ltac:(lia)) as Hb.
    pose proof (toHexString_value b' 2 ltac:(lia)) as Hb'.
    rewrite H in Hb. congruence.
  - apply buf_get_range in E.
    pose proof (toHexString_value b 2 ltac:(lia)) as Hb.
    rewrite H in Hb. discriminate Hb.
  - apply buf_get_range in E'.
    pose proof (toHexString_value b' 2 ltac:(lia)) as Hb'.
    rewrite <- H in Hb'. discriminate Hb'.
Qed.

Lemma byte_cells_inj (buf buf' : Buffer) :
  buf_length buf <= 0x10 -> buf_length buf' <= 0x10 ->
  byte_cells buf = byte_cells buf' -> buf = buf'.
Proof.
  intros Hl Hl' H. rewrite !byte_cells_concat in H.
  apply (concat_fixed_inj 3) in H;
    [| apply Forall_fmap, Forall_forall; intros i _; apply length_cell
     | apply Forall_fmap, Forall_forall; intros i _; apply length_cell
     | now rewrite !length_map].
  apply list_eq. intros k. unfold buf_length in *.
  destruct (Nat.lt_ge_cases k 16) as [Hk|Hk].
  - assert (Hc : cell buf (Z.of_nat k) = cell buf' (Z.of_nat k)).
    { apply (proj1 map_ext_in_iff H).
      apply list_elem_of_In, elem_of_range. lia. }
    apply cell_inj in Hc. unfold buf_get in Hc.
    destruct (Z.of_nat k <? 0) eqn:E; [zbool; lia|].
    rewrite Nat2Z.id in Hc.
    destruct (buf !! k) as [b|], (buf' !! k) as [b'|]; cbn in Hc; try discriminate;
      [|reflexivity].
    inversion Hc as [Hv]. now apply byte_val_inj in Hv as ->.
  - now rewrite !lookup_ge_None_2 by lia.
Qed.

Lemma rowStr_row_text (buf : Buffer) (w : World) :
  buf_length buf <= 0x10 -> rowStr buf None w = (w, Returns (row_text buf)).
Proof.
  intros Hl. unfold rowStr. destruct (0x10 <? buf_length buf) eqn:E; [zbool; lia|].
  reflexivity.
Qed.

Lemma length_row_text (buf : Buffer) : buf_length buf <= 0x10 -> length (row_text buf) = 72%nat.
Proof.
  intros Hl. unfold row_text. rewrite !length_app, length_byte_cells.
  pose proof (length_padEnd (ascii_cells buf) 16 " "%char) as Hp.
  rewrite length_ascii_cells in Hp. unfold buf_length in Hl.
  change (length (str "       ")) with 7%nat. cbn [length]. lia.
Qed.

Lemma Returns_inj {A : Type} (w w' : World) (a b : A) :
  (w, Returns a) = (w', Returns b) -> w = w' /\ a = b.
Proof. intros H. now inversion H. Qed.

(** X19. [rowStr] throws its RangeError exactly for a buffer of more than 16
    bytes.  For any other buffer it writes nothing and returns a row of 72
    characters that ends with a line feed, and the row determines the
    bytes: no other buffer gives the same row. *)
Theorem rowStr_row (buf : Buffer) (w : World) :
  (0x10 < buf_length buf -> rowStr buf None w = (w, Throws RangeError_row)) /\
  (buf_length buf <= 0x10 ->
   exists row,
     rowStr buf None w = (w, Returns row) /\
     length row = 72%nat /\ last row = Some newline /\
     forall buf', rowStr buf' None w = (w, Returns row) -> buf' = buf).
Proof.
  split.
  - intros Hl. unfold rowStr. destruct (0x10 <? buf_length buf) eqn:E; [reflexivity|zbool; lia].
  - intros Hl. exists (row_text buf). split; [now apply rowStr_row_text|].
    split; [now apply length_row_text|]. split.
    + unfold row_text. rewrite !app_assoc. apply last_snoc.
    + intros buf' H. unfold rowStr in H.
      destruct (0x10 <? buf_length buf') eqn:E; [discriminate H|]. zbool.
      apply Returns_inj in H as [_ Hrow]. symmetry.
      apply byte_cells_inj; try assumption.
      apply (f_equal (take 48)) in Hrow. unfold row_text in Hrow.
      rewrite !take_app_length' in Hrow by (symmetry; apply length_byte_cells).
      now symmetry.
Qed.

(** ** Logging: the text of an entry *)

Lemma for_each_log_inv {I S : Type} (body : I -> S -> Log S) (l : list I)
    (P : nat -> S -> World -> Prop) (s : S) (w : World) :
  P 0%nat s w ->
  (forall k i s w, l !! k = Some i -> P k s w ->
     exists s' w', body i s w = (w', Returns s') /\ P (Datatypes.S k) s' w') ->
  exists s' w', for_each_log body l s w = (w', Returns s') /\ P (length l) s' w'.
Proof.
  revert P s w. induction l as [|i l IH]; intros P s w H0 Hstep.
  - exists s, w. split; [reflexivity | exact H0].
  - destruct (Hstep 0%nat i s w eq_refl H0) as (s1 & w1 & Hb & H1).
    destruct (IH (fun k => P (Datatypes.S k)) s1 w1 H1) as (s' & w' & Hr & HP).
    { intros k j s2 w2 Hj HP. apply (Hstep (Datatypes.S k) j s2 w2 Hj HP). }
    exists s', w'. split; [|exact HP].
    cbn [for_each_log]. unfold mbind, Log_bind. now rewrite Hb.
Qed.

Lemma ceil_div_16 (len : Z) :
  0 <= len ->
  exists r, 0 <= r < 16 /\ len = 16 * ceil_div len 16 - r /\
            Z.rem len 0x10 = (if r =? 0 then 0 else 16 - r).
Proof.
  intros Hl. exists ((- len) mod 16).
  pose proof (Z.mod_pos_bound (- len) 16 ltac:(lia)) as Hr.
  pose proof (Z.div_mod (- len) 16 ltac:(lia)) as Hd.
  split; [exact Hr|]. split; [unfold ceil_div; lia|].
  rewrite Z.rem_mod_nonneg by lia.
  destruct ((- len) mod 16 =? 0) eqn:E; zbool.
  - symmetry. apply (Z.mod_unique_pos _ _ (- ((- len) / 16))); lia.
  - symmetry. apply (Z.mod_unique_pos _ _ (- ((- len) / 16) - 1)); lia.
Qed.

Lemma Buffer_copy_row (src tgt : Buffer) (ss : Z) :
  0 <= ss -> (0 < length tgt)%nat -> ss + buf_length tgt <= buf_length src ->
  Buffer_copy src tgt 0 ss (buf_length src) = Ok (take (length tgt) (drop (Z.to_nat ss) src)).
Proof.
  intros Hss Ht Hl. unfold Buffer_copy, buf_length in *.
  replace ((0 <? 0) || (ss <? 0) || (Z.of_nat (length src) <? ss)
           || (Z.of_nat (length src) <? 0)) with false
    by (symmetry; repeat (apply orb_false_intro); apply Z.ltb_ge; lia).
  replace ((Z.of_nat (length tgt) <=? 0) || (Z.of_nat (length src) <=? ss)) with false
    by (symmetry; apply orb_false_intro; apply Z.leb_gt; lia).
  f_equal. unfold overwrite.
  replace (Z.to_nat (Z.min (Z.min (Z.of_nat (length src) - ss) (Z.of_nat (length tgt) - 0))
                           (Z.of_nat (length src) - ss))) with (length tgt) by lia.
  change (Z.to_nat 0) with 0%nat. rewrite take_0. cbn [app].
  rewrite (drop_ge tgt) by (rewrite length_take, length_drop; lia).
  now rewrite app_nil_r.
Qed.

Lemma next_row_spec (dataBuf tmpBuf : Buffer) (i : Z) (w : World) :
  0 <= i < ceil_div (buf_length dataBuf) 16 -> length tmpBuf = 16%nat ->
  next_row dataBuf (ceil_div (buf_length dataBuf) 16) i tmpBuf w =
    (w, Returns (take 16 (drop (Z.to_nat (i * 0x10)) dataBuf))) /\
  (0 < length (take 16 (drop (Z.to_nat (i * 0x10)) dataBuf)) <= 16)%nat /\
  (i < ceil_div (buf_length dataBuf) 16 - 1 ->
   length (take 16 (drop (Z.to_nat (i * 0x10)) dataBuf)) = 16%nat).
Proof.
  intros Hi Ht.
  destruct (ceil_div_16 (buf_length dataBuf)) as (r & Hr & Hlen & Hrem);
    [unfold buf_length; lia|].
  set (times := ceil_div (buf_length dataBuf) 16) in *.
  assert (HL : length (take 16 (drop (Z.to_nat (i * 0x10)) dataBuf))
               = Z.to_nat (Z.min 16 (buf_length dataBuf - i * 16))).
  { rewrite length_take, length_drop. unfold buf_length. lia. }
  split; [|rewrite HL; lia].
  unfold next_row. cbv zeta. rewrite Hrem.
  destruct (negb ((if r =? 0 then 0 else 16 - r) =? 0) && (i =? times - 1)) eqn:E.
  - apply andb_true_iff in E as [E1 E2]. apply negb_true_iff in E1.
    destruct (r =? 0) eqn:Er; [discriminate E1|]. zbool.
    unfold mbind, Log_bind, run, Buffer_alloc.
    destruct (16 - r <? 0) eqn:E3; [zbool; lia|].
    rewrite Buffer_copy_row; [| lia | rewrite repeat_length; lia
                              | unfold buf_length in *; rewrite repeat_length; lia].
    rewrite repeat_length. do 2 f_equal.
    rewrite !take_ge; [reflexivity | |]; rewrite length_drop; unfold buf_length in *; lia.
  - unfold mbind, Log_bind, mret, Log_ret, run.
    assert (Hfull : i * 16 + 16 <= buf_length dataBuf).
    { apply andb_false_iff in E as [E|E].
      - apply negb_false_iff in E. destruct (r =? 0) eqn:Er; zbool; lia.
      - zbool. lia. }
    rewrite Buffer_copy_row; [| lia | unfold fill0; rewrite repeat_length; lia
                              | unfold buf_length, fill0 in *; rewrite repeat_length; lia].
    unfold fill0. now rewrite repeat_length, Ht.
Qed.

Lemma rows_of_lookup (dataBuf : Buffer) (k : nat) (i : Z) :
  range 0 (ceil_div (buf_length dataBuf) 16) !! k = Some i ->
  0 <= i < ceil_div (buf_length dataBuf) 16 /\ i = Z.of_nat k /\
  take (S k) (rows_of dataBuf) =
    take k (rows_of dataBuf) ++ [take 16 (drop (Z.to_nat (i * 0x10)) dataBuf)].
Proof.
  intros Hk.
  assert (Hin : i ∈ range 0 (ceil_div (buf_length dataBuf) 16))
    by (eapply list_elem_of_lookup_2; exact Hk).
  apply elem_of_range in Hin. split; [exact Hin|].
  assert (Hlt : (k < Z.to_nat (ceil_div (buf_length dataBuf) 16 - 0))%nat).
  { apply lookup_lt_Some in Hk. now rewrite length_range in Hk. }
  rewrite lookup_range in Hk by exact Hlt. split; [inversion Hk; lia|].
  apply take_S_r. unfold rows_of. rewrite list_lookup_fmap.
  rewrite lookup_range by exact Hlt. inversion Hk. reflexivity.
Qed.

Lemma length_rows_of (dataBuf : Buffer) :
  length (rows_of dataBuf) = Z.to_nat (ceil_div (buf_length dataBuf) 16).
Proof. unfold rows_of. rewrite length_map, length_range. lia. Qed.

Lemma rows_of_sizes (dataBuf : Buffer) :
  Forall (fun chunk => (0 < length chunk <= 16)%nat) (rows_of dataBuf).
Proof.
  unfold rows_of. apply Forall_fmap, Forall_forall. intros i Hi. unfold compose.
  apply elem_of_range in Hi.
  destruct (next_row_spec dataBuf (repeat x00 16) i (mkWorld [] [] (fun _ => true)) Hi eq_refl) as (_ & H & _).
  exact H.
Qed.

Lemma concat_chunks {A : Type} (l : list A) (n : nat) :
  concat (map (fun k => take 16 (drop (16 * k) l)) (seq 0 n)) = take (16 * n) l.
Proof.
  induction n as [|n IH]; [reflexivity|].
  rewrite seq_S, map_app, concat_app, IH. cbn [map concat Nat.add]. rewrite app_nil_r.
  replace (16 * S n)%nat with (16 * n + 16)%nat by lia.
  now rewrite <- take_take_drop.
Qed.

Lemma concat_rows_of (dataBuf : Buffer) : concat (rows_of dataBuf) = dataBuf.
Proof.
  unfold rows_of, range. rewrite map_map.
  rewrite (map_ext _ (fun k => take 16 (drop (16 * k) dataBuf))).
  - rewrite concat_chunks. apply take_ge.
    destruct (ceil_div_16 (buf_length dataBuf)) as (r & Hr & Hlen & _);
      unfold buf_length in *; lia.
  - intros k. do 2 f_equal. lia.
Qed.

Lemma eepIdToStr_entry_text (e : EepData.t) (w : World) :
  eepIdToStr e w = (w, Returns (entry_text e)).
Proof.
  unfold eepIdToStr. cbv zeta.
  set (dataBuf := EepData.dataBuf e).
  set (times := ceil_div (buf_length dataBuf) 16).
  set (header := str "################## ID " ++ toHexString (EepData.id e) 3 true ++
                 str " ###################" ++ [newline]).
  set (body := fun (i : Z) '(tmpBuf, s) =>
                 tmpBuf0 ← next_row dataBuf times i tmpBuf;
                 row ← rowStr tmpBuf0 None; mret (tmpBuf0, s ++ row)).
  destruct (for_each_log_inv body (range 0 times)
              (fun k '(tmpBuf, s) w' =>
                 w' = w /\ s = header ++ concat (map row_text (take k (rows_of dataBuf))) /\
                 (Z.of_nat k < times -> length tmpBuf = 16%nat))
              (repeat x00 16, header) w) as ([tmpBuf s] & w' & Hrun & -> & -> & _).
  - split; [reflexivity|]. split; [|reflexivity]. cbn. now rewrite app_nil_r.
  - intros k i [tmpBuf s] w0 Hk (-> & -> & Ht).
    destruct (rows_of_lookup dataBuf k i Hk) as (Hi & -> & Htake).
    specialize (Ht ltac:(lia)).
    destruct (next_row_spec dataBuf tmpBuf (Z.of_nat k) w Hi Ht) as (Hn & Hsz & Hfull).
    fold times in Hn, Hfull.
    exists (take 16 (drop (Z.to_nat (Z.of_nat k * 0x10)) dataBuf),
            header ++ concat (map row_text (take (S k) (rows_of dataBuf)))), w.
    split.
    + unfold body, mbind, Log_bind. rewrite Hn.
      rewrite rowStr_row_text
        by (unfold buf_length; apply (proj1 (Nat2Z.inj_le _ 16)); apply Hsz).
      unfold mret, Log_ret. do 3 f_equal.
      rewrite Htake, map_app, concat_app. cbn [map concat].
      now rewrite app_nil_r, <- app_assoc.
    + split; [reflexivity|]. split; [reflexivity|]. intros Hlt. apply Hfull. lia.
  - unfold mbind, Log_bind, run, Buffer_alloc. cbn [Z.ltb Z.compare].
    change (Z.to_nat 16) with 16%nat.
    fold body. rewrite Hrun. unfold mret, Log_ret. do 2 f_equal.
    unfold entry_text. fold dataBuf header.
    rewrite firstn_all2 by (rewrite length_range, length_rows_of; fold dataBuf times; lia).
    now rewrite <- app_assoc.
Qed.

Lemma row_text_inj (c c' : Buffer) :
  (length c <= 16)%nat -> (length c' <= 16)%nat -> row_text c = row_text c' -> c = c'.
Proof.
  intros Hc Hc' H. apply byte_cells_inj; [unfold buf_length; lia | unfold buf_length; lia |].
  apply (f_equal (take 48)) in H. unfold row_text in H.
  now rewrite !take_app_length' in H by (symmetry; apply length_byte_cells).
Qed.

Lemma map_row_text_inj (cs cs' : list Buffer) :
  Forall (fun c => (0 < length c <= 16)%nat) cs ->
  Forall (fun c => (0 < length c <= 16)%nat) cs' ->
  map row_text cs = map row_text cs' -> cs = cs'.
Proof.
  intros H. revert cs'. induction H as [|c cs Hc _ IH]; intros cs' H' Hm.
  - destruct cs'; [reflexivity | discriminate].
  - destruct cs' as [|c' cs']; [discriminate|].
    apply Forall_cons in H' as [Hc' H']. cbn [map] in Hm.
    assert (H1 : row_text c = row_text c') by congruence.
    assert (H2 : map row_text cs = map row_text cs') by congruence.
    f_equal; [apply row_text_inj; auto; lia | now apply IH].
Qed.

Lemma rows_text_fixed (dataBuf : Buffer) :
  Forall (fun p => length p = 72%nat) (map row_text (rows_of dataBuf)).
Proof.
  apply Forall_fmap. eapply Forall_impl; [apply rows_of_sizes|].
  intros c Hc. unfold compose. cbv beta in Hc. apply length_row_text.
  unfold buf_length. lia.
Qed.

Lemma entry_text_inj (e e' : EepData.t) :
  EepData.id e' = EepData.id e -> entry_text e' = entry_text e ->
  EepData.dataBuf e' = EepData.dataBuf e.
Proof.
  intros Hid H. unfold entry_text in H. rewrite Hid in H.
  apply app_inv_head in H. rewrite !app_assoc in H. apply app_inv_tail in H.
  apply app_inv_tail in H.
  assert (Hn : length (map row_text (rows_of (EepData.dataBuf e')))
               = length (map row_text (rows_of (EepData.dataBuf e)))).
  { apply (f_equal (@length _)) in H.
    rewrite !(length_concat_fixed 72) in H by apply rows_text_fixed. lia. }
  apply (concat_fixed_inj 72) in H; [| apply rows_text_fixed | apply rows_text_fixed | exact Hn].
  apply map_row_text_inj in H; [| apply rows_of_sizes | apply rows_of_sizes].
  rewrite <- (concat_rows_of (EepData.dataBuf e')), <- (concat_rows_of (EepData.dataBuf e)).
  now rewrite H.
Qed.

(** X20. [eepIdToStr] never throws and writes nothing.  It returns the header
    line with the id, then the row of [rowStr] for each chunk of sixteen
    bytes of the bytes buffer of the entry, in order, the last chunk being
    what is left, then the closing line.  The chunks make up the bytes
    buffer, so for a given id the text determines the bytes. *)
Theorem eepIdToStr_rows (e : EepData.t) (w : World) :
  eepIdToStr e w = (w, Returns (entry_text e)) /\
  concat (rows_of (EepData.dataBuf e)) = EepData.dataBuf e /\
  Forall (fun chunk => (0 < length chunk <= 16)%nat /\
                       rowStr chunk None w = (w, Returns (row_text chunk)))
         (rows_of (EepData.dataBuf e)) /\
  forall e', EepData.id e' = EepData.id e ->
             eepIdToStr e' w = (w, Returns (entry_text e)) ->
             EepData.dataBuf e' = EepData.dataBuf e.
Proof.
  split; [apply eepIdToStr_entry_text|]. split; [apply concat_rows_of|]. split.
  - eapply Forall_impl; [apply rows_of_sizes|]. intros c Hc. cbv beta in Hc.
    split; [exact Hc|]. apply rowStr_row_text. unfold buf_length. lia.
  - intros e' Hid H. rewrite eepIdToStr_entry_text in H.
    apply Returns_inj in H as [_ H]. now apply entry_text_inj.
Qed.

(** ** Logging: the console and the file *)

Lemma logByteRow_row_line (buf : Buffer) (w : World) :
  buf_length buf <= 0x10 ->
  logByteRow buf w = (mkWorld (console w ++ [row_line buf]) (files w) (writable w), Returns tt).
Proof.
  intros Hl. unfold logByteRow. destruct (0x10 <? buf_length buf) eqn:E; [zbool; lia|].
  reflexivity.
Qed.

Lemma logEepId_entry_lines (e : EepData.t) (w : World) :
  logEepId e w = (mkWorld (console w ++ entry_lines e) (files w) (writable w), Returns tt).
Proof.
  unfold logEepId. cbv zeta.
  set (dataBuf := EepData.dataBuf e).
  set (times := ceil_div (buf_length dataBuf) 16).
  set (header := str "################## ID " ++ toHexString (EepData.id e) 2 true ++
                 str " ####################").
  set (body := fun (i : Z) (tmpBuf : Buffer) =>
                 tmpBuf0 ← next_row dataBuf times i tmpBuf;
                 _ ← logByteRow tmpBuf0; mret tmpBuf0).
  destruct (for_each_log_inv body (range 0 times)
              (fun k tmpBuf w' =>
                 (files w' = files w /\ writable w' = writable w) /\
                 console w' = console w ++ [header] ++ map row_line (take k (rows_of dataBuf)) /\
                 (Z.of_nat k < times -> length tmpBuf = 16%nat))
              (repeat x00 16) (mkWorld (console w ++ [header]) (files w) (writable w)))
    as (tmpBuf & w' & Hrun & [Hf Hwr] & Hc & _).
  - split; [split; reflexivity|]. split; [|reflexivity]. cbn. now rewrite ?app_nil_r.
  - intros k i tmpBuf w0 Hk ([Hf Hwr] & Hc & Ht).
    destruct (rows_of_lookup dataBuf k i Hk) as (Hi & -> & Htake).
    specialize (Ht ltac:(lia)).
    destruct (next_row_spec dataBuf tmpBuf (Z.of_nat k) w0 Hi Ht) as (Hn & Hsz & Hfull).
    fold times in Hn, Hfull.
    exists (take 16 (drop (Z.to_nat (Z.of_nat k * 0x10)) dataBuf)).
    eexists. split.
    + unfold body, mbind, Log_bind. rewrite Hn.
      rewrite logByteRow_row_line
        by (unfold buf_length; apply (proj1 (Nat2Z.inj_le _ 16)); apply Hsz).
      reflexivity.
    + cbn [files console writable]. split; [split; [exact Hf | exact Hwr]|]. split.
      * rewrite Hc, Htake, map_app. cbn [map]. now rewrite <- !app_assoc.
      * intros Hlt. apply Hfull. lia.
  - unfold mbind, Log_bind, run, Buffer_alloc, console_log at 1. cbn [Z.ltb Z.compare].
    change (Z.to_nat 16) with 16%nat.
    fold header body. rewrite Hrun. unfold console_log. cbn [console files writable].
    rewrite Hf, Hwr, Hc. do 2 f_equal.
    rewrite firstn_all2 by (rewrite length_range, length_rows_of; fold dataBuf times; lia).
    unfold entry_lines. fold dataBuf header. cbn [app]. now rewrite <- !app_assoc.
Qed.

Lemma row_text_row_line (chunk : Buffer) :
  row_text chunk = padEnd (row_line chunk) 71 " "%char ++ [newline].
Proof.
  unfold row_text, row_line, padEnd.
  rewrite !length_app, length_byte_cells.
  change (length (str "       ")) with 7%nat.
  replace (Z.to_nat (71 - Z.of_nat (48 + (7 + length (ascii_cells chunk)))))
    with (Z.to_nat (16 - Z.of_nat (length (ascii_cells chunk)))) by lia.
  now rewrite <- !app_assoc.
Qed.

(** X21. [logEepId] never throws and writes no file.  It adds to the console
    the header line with the id, one line for each chunk of sixteen bytes of
    the bytes buffer, the closing line and an empty line.  The line of a
    chunk is the row that [rowStr] returns for it without the padding and
    the line feed at its end. *)
Theorem logEepId_lines (e : EepData.t) (w : World) :
  logEepId e w = (mkWorld (console w ++ entry_lines e) (files w) (writable w), Returns tt) /\
  length (entry_lines e) = (length (rows_of (EepData.dataBuf e)) + 3)%nat /\
  Forall (fun chunk =>
            logByteRow chunk w = (mkWorld (console w ++ [row_line chunk]) (files w) (writable w), Returns tt) /\
            rowStr chunk None w = (w, Returns (padEnd (row_line chunk) 71 " "%char ++ [newline])))
         (rows_of (EepData.dataBuf e)).
Proof.
  split; [apply logEepId_entry_lines|]. split.
  - unfold entry_lines. rewrite !length_app, length_map. cbn [length]. lia.
  - eapply Forall_impl; [apply rows_of_sizes|]. intros c Hc. cbv beta in Hc. split.
    + apply logByteRow_row_line. unfold buf_length. lia.
    + rewrite <- row_text_row_line. apply rowStr_row_text. unfold buf_length. lia.
Qed.

Lemma keys_in_order_perm (m : gmap Z EepData.t) :
  keys_in_order m ≡ₚ map fst (map_to_list m).
Proof. unfold keys_in_order. apply merge_sort_Permutation. Qed.

Lemma keys_in_order_spec (m : gmap Z EepData.t) :
  Sorted Z.le (keys_in_order m) /\ NoDup (keys_in_order m) /\
  forall key, key ∈ keys_in_order m <-> is_Some (m !! key).
Proof.
  split; [|split].
  - unfold keys_in_order. apply Sorted_merge_sort. intros x y. lia.
  - rewrite keys_in_order_perm. apply NoDup_fst_map_to_list.
  - intros key. rewrite keys_in_order_perm. rewrite list_elem_of_fmap. split.
    + intros ([k e] & -> & Hin). apply elem_of_map_to_list in Hin. now exists e.
    + intros [e He]. exists (key, e). split; [reflexivity|]. now apply elem_of_map_to_list.
Qed.

Lemma entries_in_order_keys (m : gmap Z EepData.t) :
  Forall2 (fun key e => m !! key = Some e) (keys_in_order m) (entries_in_order m).
Proof.
  unfold entries_in_order.
  assert (H : Forall (fun key => is_Some (m !! key)) (keys_in_order m)).
  { apply Forall_forall. intros key Hk. now apply keys_in_order_spec. }
  induction H as [|key keys [e He] _ IH]; [constructor|].
  cbn [omap list_omap]. rewrite He. now constructor.
Qed.

Lemma entries_take_S (m : gmap Z EepData.t) (k : nat) (key : Z) (e : EepData.t) :
  keys_in_order m !! k = Some key -> m !! key = Some e ->
  take (S k) (entries_in_order m) = take k (entries_in_order m) ++ [e].
Proof.
  intros Hk He. apply take_S_r.
  pose proof (entries_in_order_keys m) as HF.
  destruct (Forall2_lookup_l _ _ _ _ _ HF Hk) as (e' & He' & Hm). congruence.
Qed.

Lemma length_entries_in_order (m : gmap Z EepData.t) :
  length (entries_in_order m) = length (keys_in_order m).
Proof. symmetry. eapply Forall2_length, entries_in_order_keys. Qed.

Lemma logEeprom_file (this : NecEmulator) (name : JsString) (w : World) :
  name <> [] ->
  logEeprom this (Some name) w =
    if writable w name
    then (mkWorld (console w)
            (files w ++ [(name, concat (map entry_text (entries_in_order (eepData this))))])
            (writable w),
          Returns tt)
    else (w, Throws (Error_writeFile name)).
Proof.
  intros Hname. unfold logEeprom.
  assert (Ht : truthy (Some name) = true) by (destruct name; [congruence | reflexivity]).
  rewrite Ht.
  set (m := eepData this).
  set (body := fun (key : Z) (finalStr : JsString) =>
                 eepId ← run (get_defined (m !! key));
                 s ← eepIdToStr eepId; mret (finalStr ++ s)).
  destruct (for_each_log_inv body (keys_in_order m)
              (fun k finalStr w' =>
                 w' = w /\ finalStr = concat (map entry_text (take k (entries_in_order m))))
              [] w) as (finalStr & w' & Hrun & -> & ->).
  - split; reflexivity.
  - intros k key s w0 Hk (-> & ->).
    assert (Hin : is_Some (m !! key)).
    { apply keys_in_order_spec. eapply list_elem_of_lookup_2, Hk. }
    destruct Hin as [e He].
    exists (concat (map entry_text (take (S k) (entries_in_order m)))), w.
    split; [|split; reflexivity].
    unfold body, mbind, Log_bind, run. rewrite He. cbn [get_defined].
    rewrite eepIdToStr_entry_text. unfold mret, Log_ret. do 2 f_equal.
    rewrite (entries_take_S m k key e Hk He), map_app, concat_app. cbn [map concat].
    now rewrite app_nil_r.
  - unfold mbind, Log_bind. fold body. rewrite Hrun.
    rewrite firstn_all2 by (rewrite length_entries_in_order; lia).
    unfold writeFileSync. cbn [default]. reflexivity.
Qed.

Lemma logEeprom_console (this : NecEmulator) (fileName : option JsString) (w : World) :
  fileName = None \/ fileName = Some [] ->
  logEeprom this fileName w =
    (mkWorld (console w ++ concat (map entry_lines (entries_in_order (eepData this))))
             (files w) (writable w),
     Returns tt).
Proof.
  intros Hname. unfold logEeprom.
  assert (Ht : truthy fileName = false) by (destruct Hname as [-> | ->]; reflexivity).
  rewrite Ht.
  set (m := eepData this).
  set (body := fun (key : Z) (finalStr : JsString) =>
                 eepId ← run (get_defined (m !! key));
                 _ ← logEepId eepId; mret finalStr).
  destruct (for_each_log_inv body (keys_in_order m)
              (fun k finalStr w' =>
                 (files w' = files w /\ writable w' = writable w) /\
                 console w' = console w ++ concat (map entry_lines (take k (entries_in_order m))))
              [] w) as (finalStr & w' & Hrun & [Hf Hwr] & Hc).
  - split; [split; reflexivity|]. cbn. now rewrite ?app_nil_r.
  - intros k key s w0 Hk ([Hf Hwr] & Hc).
    assert (Hin : is_Some (m !! key)).
    { apply keys_in_order_spec. eapply list_elem_of_lookup_2, Hk. }
    destruct Hin as [e He].
    exists s. eexists. split.
    + unfold body, mbind, Log_bind, run. rewrite He. cbn [get_defined].
      rewrite logEepId_entry_lines. reflexivity.
    + cbn [files console writable]. split; [split; [exact Hf | exact Hwr]|].
      rewrite Hc, (entries_take_S m k key e Hk He), map_app, concat_app. cbn [map concat].
      now rewrite app_nil_r, <- app_assoc.
  - unfold mbind, Log_bind. fold body. rewrite Hrun. unfold mret, Log_ret.
    rewrite firstn_all2 in Hc by (rewrite length_entries_in_order; lia).
    destruct w' as [c f wr]. cbn [console files writable] in Hf, Hwr, Hc.
    now rewrite Hf, Hwr, Hc.
Qed.

(** X22. For entries stored under ids from 0 to 0xffff, as the constructors
    store them, [logEeprom] visits the entries in ascending order of their
    ids, every entry once.  With a file name that is not empty it writes
    nothing to the console and calls [fs.writeFileSync] once, with the
    texts of [eepIdToStr] for the entries in that order: the file is
    written, or the exception of [fs.writeFileSync] leaves [logEeprom] and
    nothing is written.  Without a file name, or with the empty string, it
    never throws, writes no file and adds the lines of [logEepId] for the
    entries to the console. *)
Theorem logEeprom_output (this : NecEmulator) (fileName : option JsString) (w : World) :
  (forall key, is_Some (eepData this !! key) -> 0 <= key <= 0xffff) ->
  Forall2 (fun key e => eepData this !! key = Some e)
          (keys_in_order (eepData this)) (entries_in_order (eepData this)) /\
  Sorted Z.le (keys_in_order (eepData this)) /\ NoDup (keys_in_order (eepData this)) /\
  (forall key, key ∈ keys_in_order (eepData this) <-> is_Some (eepData this !! key)) /\
  (forall name, fileName = Some name -> name <> [] ->
     logEeprom this fileName w =
       if writable w name
       then (mkWorld (console w)
               (files w ++ [(name, concat (map entry_text (entries_in_order (eepData this))))])
               (writable w),
             Returns tt)
       else (w, Throws (Error_writeFile name))) /\
  (fileName = None \/ fileName = Some [] ->
     logEeprom this fileName w =
       (mkWorld (console w ++ concat (map entry_lines (entries_in_order (eepData this))))
          (files w) (writable w),
        Returns tt)).
Proof.
  intros _. split; [apply entries_in_order_keys|].
  destruct (keys_in_order_spec (eepData this)) as (H1 & H2 & H3).
  split; [exact H1|]. split; [exact H2|]. split; [exact H3|]. split.
  - intros name -> Hname. now apply logEeprom_file.
  - apply logEeprom_console.
Qed.

Lemma logEeprom_output_witness :
  let this := set_eepData (Samples.emulator [] 0x800) {[ 0x10 := stub 0x10 1 ]} in
  let accepts := fun name : JsString => bool_decide (name = str "eep.log") in
  let w := mkWorld [] [] accepts in
  logEeprom this (Some (str "eep.log")) w
    = (mkWorld [] [(str "eep.log", entry_text (stub 0x10 1))] accepts, Returns tt) /\
  logEeprom this (Some (str "/eep.log")) w = (w, Throws (Error_writeFile (str "/eep.log"))) /\
  logEeprom this None w = (mkWorld (entry_lines (stub 0x10 1)) [] accepts, Returns tt).
Proof.
  intros this accepts w.
  assert (He : entries_in_order (eepData this) = [stub 0x10 1]) by (vm_compute; reflexivity).
  assert (Hkeys : forall key, is_Some (eepData this !! key) -> 0 <= key <= 0xffff).
  { intros key [e Hk]. unfold this in Hk. cbn [eepData set_eepData] in Hk.
    apply lookup_singleton_Some in Hk as [<- _]. lia. }
  split; [|split].
  - destruct (logEeprom_output this (Some (str "eep.log")) w Hkeys)
      as (_ & _ & _ & _ & Hfile & _).
    rewrite (Hfile (str "eep.log") eq_refl ltac:(discriminate)), He.
    cbn [map concat console files writable w]. now rewrite app_nil_r.
  - destruct (logEeprom_output this (Some (str "/eep.log")) w Hkeys)
      as (_ & _ & _ & _ & Hfile & _).
    rewrite (Hfile (str "/eep.log") eq_refl ltac:(discriminate)). reflexivity.
  - destruct (logEeprom_output this None w Hkeys) as (_ & _ & _ & _ & _ & Hcons).
    rewrite (Hcons (or_introl eq_refl)), He.
    cbn [map concat console files writable w app]. now rewrite app_nil_r.
Defined.

